(** * go-projects: the LFU cache, the crawler's sequential core and its
    worker pools

    A shallow embedding of

    - package [linkedlist] (intrusive doubly linked list with a dummy head),
    - package [lfu] (the two-level least-frequently-used cache),
    - package [crawler] (the panic guard, the error latch, the searcher,
      the per-file transformer and the result selection of [Collect]),
    - package [workerpool] (the goroutines of [Transform], [Accumulate]
      and [List], as transition systems),

    together with the properties of the specification that concern them.

    Go pointers are addresses into an explicit store; [nil] is [None].
    A Go [int] is a [Z] kept in the 64-bit two's complement range by
    [wrap].  A panic is an explicit result. *)

From stdpp Require Import gmap strings list sorting.
From Stdlib Require Import ZArith Lia.

Local Open Scope Z_scope.

(** ** The Go runtime fragment used by the code *)

Module Go.

(** 64-bit signed integers with wrap-around. *)
Definition int_min : Z := - 2 ^ 63.
Definition int_max : Z := 2 ^ 63 - 1.
Definition wrap (z : Z) : Z := (z + 2 ^ 63) `mod` 2 ^ 64 - 2 ^ 63.
Definition int_add (a b : Z) : Z := wrap (a + b).
Definition int_sub (a b : Z) : Z := wrap (a - b).
Definition is_int (z : Z) : Prop := int_min ≤ z ≤ int_max.

(** Zero values of the type parameters. *)
Class Zero (T : Type) := zero : T.
#[global] Instance Z_zero : Zero Z := 0.
#[global] Instance nat_zero : Zero nat := 0%nat.
#[global] Instance string_zero : Zero string := EmptyString.

(** A pointer is [nil] or an address of the store. *)
Abbreviation loc := nat (only parsing).
Abbreviation ptr := (option nat) (only parsing).
Definition nil : ptr := None.

Inductive panic :=
| NilDereference            (* runtime error: invalid memory address *)
| UnallocatedAddress        (* not reachable from Go; a pointer outside the store *)
| PanicString (msg : string).

(** Outcome of running a piece of code: a value, a panic, or the
    exhaustion of the fuel given to a loop. *)
Inductive result (A : Type) :=
| Ok (a : A)
| Panicked (p : panic)
| OutOfFuel.
Arguments Ok {A} a.
Arguments Panicked {A} p.
Arguments OutOfFuel {A}.

(** State-and-panic monad over a store [S]. *)
Definition M (S A : Type) : Type := S → result (A * S).

Definition ret {S A} (a : A) : M S A := λ s, Ok (a, s).
Definition bind {S A B} (m : M S A) (k : A → M S B) : M S B :=
  λ s, match m s with
       | Ok (a, s') => k a s'
       | Panicked p => Panicked p
       | OutOfFuel => OutOfFuel
       end.
Definition throw {S A} (p : panic) : M S A := λ _, Panicked p.
Definition get {S} : M S S := λ s, Ok (s, s).
Definition gets {S A} (f : S → A) : M S A := λ s, Ok (f s, s).
Definition modify {S} (f : S → S) : M S unit := λ s, Ok (tt, f s).
Definition when {S} (b : bool) (m : M S unit) : M S unit :=
  if b then m else ret tt.

(** Index expression [m[k]] on a map of pointers: the zero value
    [nil] when the key is absent. *)
Definition index `{Countable K} (m : gmap K ptr) (k : K) : ptr :=
  default nil (m !! k).

End Go.

Export Go.

Declare Scope go_scope.
Delimit Scope go_scope with go.
Notation "'let*' x := m 'in' k" := (bind m (λ x, k))
  (at level 10, x pattern, m at level 100, k at level 200) : go_scope.
Notation "m ;; k" := (bind m (λ _, k))
  (at level 100, k at level 200, right associativity) : go_scope.
Local Open Scope go_scope.

(** ** package linkedlist *)

Module linkedlist.

Section Generic.
Context {V : Type}.

(** [type Node[V any] struct { Next, Prev *Node[V]; Value V }] *)
Record Node := mkNode { Next : ptr; Prev : ptr; Value : V }.

(** The store of all [Node[V]] objects, addressed by position. *)
Abbreviation heap := (list Node) (only parsing).

(** [type linkedListImpl[V any] struct { head *Node[V] }].  The struct
    is never modified after [New], so a [*linkedListImpl] is carried
    as the struct itself; a [LinkedList] interface value is
    [option linkedListImpl], [None] being the nil interface.
    Addresses are untyped, so the struct does not mention [V]. *)
Record linkedListImpl := mkList { head : ptr }.
Definition LinkedList := option linkedListImpl.

Definition set_Next (n : Node) (p : ptr) : Node :=
  {| Next := p; Prev := Prev n; Value := Value n |}.
Definition set_Prev (n : Node) (p : ptr) : Node :=
  {| Next := Next n; Prev := p; Value := Value n |}.
Definition set_Value (n : Node) (v : V) : Node :=
  {| Next := Next n; Prev := Prev n; Value := v |}.

(** [*p] *)
Definition load (p : ptr) : M heap Node := λ h,
  match p with
  | None => Panicked NilDereference
  | Some a => match h !! a with
              | Some n => Ok (n, h)
              | None => Panicked UnallocatedAddress
              end
  end.

(** [*p = n] *)
Definition store (p : ptr) (n : Node) : M heap unit := λ h,
  match p with
  | None => Panicked NilDereference
  | Some a => match h !! a with
              | Some _ => Ok (tt, <[a := n]> h)
              | None => Panicked UnallocatedAddress
              end
  end.

(** [&Node[V]{...}] *)
Definition alloc (n : Node) : M heap ptr := λ h,
  Ok (Some (length h), h ++ [n]).

(** [p.Next = q], [p.Prev = q], [p.Value = v] *)
Definition assign_Next (p q : ptr) : M heap unit :=
  let* n := load p in store p (set_Next n q).
Definition assign_Prev (p q : ptr) : M heap unit :=
  let* n := load p in store p (set_Prev n q).
Definition assign_Value (p : ptr) (v : V) : M heap unit :=
  let* n := load p in store p (set_Value n v).

(** A method call through a nil [LinkedList] interface panics. *)
Definition receiver (list : LinkedList) : M heap linkedListImpl := λ h,
  match list with
  | None => Panicked NilDereference
  | Some l => Ok (l, h)
  end.

(** [func (list *linkedListImpl[V]) First() *Node[V]] *)
Definition First (list : LinkedList) : M heap ptr :=
  let* l := receiver list in
  let* d := load (head l) in
  ret (Next d).

(** [func (list *linkedListImpl[V]) Last() *Node[V]] *)
Definition Last (list : LinkedList) : M heap ptr :=
  let* l := receiver list in
  let* d := load (head l) in
  ret (Prev d).

(** [func NewNode[V any](value V) *Node[V]] *)
Definition NewNode (value : V) : M heap ptr :=
  alloc {| Next := nil; Prev := nil; Value := value |}.

(** [func New[V any](node *Node[V]) *linkedListImpl[V]]; the dummy
    head carries the zero value of [V]. *)
Definition New `{Zero V} (node : ptr) : M heap LinkedList :=
  let* dummyHead := alloc {| Next := node; Prev := node; Value := zero |} in
  assign_Next node dummyHead ;;
  assign_Prev node dummyHead ;;
  ret (Some {| head := dummyHead |}).

(** [func PutNodeBeforeAnotherNode[V any](node, anotherNode *Node[V])] *)
Definition PutNodeBeforeAnotherNode (node anotherNode : ptr) : M heap unit :=
  let* a := load anotherNode in
  assign_Prev node (Prev a) ;;
  assign_Next node anotherNode ;;
  let* a := load anotherNode in
  assign_Next (Prev a) node ;;
  assign_Prev anotherNode node.

(** [func (list *linkedListImpl[V]) PushFront(node *Node[V])] *)
Definition PushFront (list : LinkedList) (node : ptr) : M heap unit :=
  let* l := receiver list in
  let* d := load (head l) in
  PutNodeBeforeAnotherNode node (Next d).

(** [func (list *linkedListImpl[V]) PushBack(node *Node[V])] *)
Definition PushBack (list : LinkedList) (node : ptr) : M heap unit :=
  let* l := receiver list in
  PutNodeBeforeAnotherNode node (head l).

(** [func RemoveNode[V any](node *Node[V])] *)
Definition RemoveNode (node : ptr) : M heap unit :=
  let* n := load node in
  assign_Next (Prev n) (Next n) ;;
  let* n := load node in
  assign_Prev (Next n) (Prev n).

(** [func (list *linkedListImpl[V]) All() iter.Seq[V]]: the loop
    [for current != list.head], run for at most [fuel] iterations.
    The consumer [yield] threads its own state [A] and answers
    whether to go on. *)
Fixpoint All_loop {A} (fuel : nat) (h : heap) (hd current : ptr)
    (yield : V → A → result (bool * A)) (acc : A) : result A :=
  if decide (current = hd) then Ok acc
  else match fuel with
       | O => OutOfFuel
       | S fuel' =>
           match load current h with
           | Ok (n, _) =>
               match yield (Value n) acc with
               | Ok (true, acc') => All_loop fuel' h hd (Next n) yield acc'
               | Ok (false, acc') => Ok acc'
               | Panicked p => Panicked p
               | OutOfFuel => OutOfFuel
               end
           | Panicked p => Panicked p
           | OutOfFuel => OutOfFuel
           end
       end.

Definition All {A} (fuel : nat) (list : LinkedList) (h : heap)
    (yield : V → A → result (bool * A)) (acc : A) : result A :=
  match list with
  | None => Panicked NilDereference
  | Some l =>
      match load (head l) h with
      | Ok (d, _) => All_loop fuel h (head l) (Next d) yield acc
      | Panicked p => Panicked p
      | OutOfFuel => OutOfFuel
      end
  end.

End Generic.
Arguments Node : clear implicits.
Abbreviation heap V := (list (Node V)) (only parsing).

End linkedlist.

(** ** package lfu *)

Module lfu.
Import linkedlist.

(** [var ErrKeyNotFound = errors.New("key not found")] *)
Inductive error := ErrKeyNotFound.

Definition DefaultCapacity : Z := 5.

Section Cache.
Context `{Countable K} {V : Type} `{!Zero K, !Zero V}.

(** [type CacheItem[K comparable, V any] struct] *)
Record CacheItem := mkItem {
  item_value : V;
  item_key : K;
  item_frequency : Z;
}.

(** [type FrequencyGroup[V any] struct], at [V := CacheItem[K, V]] *)
Record FrequencyGroup := mkGroup {
  group_frequency : Z;
  group_elementsList : LinkedList;
  group_size : Z;
}.

#[global] Instance CacheItem_zero : Zero CacheItem :=
  {| item_value := zero; item_key := zero; item_frequency := 0 |}.
#[global] Instance FrequencyGroup_zero : Zero FrequencyGroup :=
  {| group_frequency := 0; group_elementsList := None; group_size := 0 |}.

(** [type cacheImpl[K comparable, V any] struct] *)
Record cacheImpl := mkCache {
  freqToFreqGroupNode : gmap Z ptr;
  freqGroupsList : LinkedList;
  keyToCacheItem : gmap K ptr;
  capacity : Z;
  size : Z;
  freeNodesOfFreqGroups : list ptr;
}.

(** The memory the cache works in: the [Node[CacheItem]] objects, the
    [Node[FrequencyGroup]] objects and the [cacheImpl] struct that
    the receiver [l] points to. *)
Record world := mkWorld {
  items : heap CacheItem;
  groups : heap FrequencyGroup;
  self : cacheImpl;
}.

Definition with_items (w : world) (h : heap CacheItem) : world :=
  {| items := h; groups := groups w; self := self w |}.
Definition with_groups (w : world) (h : heap FrequencyGroup) : world :=
  {| items := items w; groups := h; self := self w |}.
Definition with_self (w : world) (l : cacheImpl) : world :=
  {| items := items w; groups := groups w; self := l |}.

Definition onItems {A} (m : M (heap CacheItem) A) : M world A := λ w,
  match m (items w) with
  | Ok (a, h) => Ok (a, with_items w h)
  | Panicked p => Panicked p
  | OutOfFuel => OutOfFuel
  end.
Definition onGroups {A} (m : M (heap FrequencyGroup) A) : M world A := λ w,
  match m (groups w) with
  | Ok (a, h) => Ok (a, with_groups w h)
  | Panicked p => Panicked p
  | OutOfFuel => OutOfFuel
  end.

(** Field updates of the three structs. *)
Definition set_item_value (v : V) (c : CacheItem) : CacheItem :=
  {| item_value := v; item_key := item_key c; item_frequency := item_frequency c |}.
Definition set_item_key (k : K) (c : CacheItem) : CacheItem :=
  {| item_value := item_value c; item_key := k; item_frequency := item_frequency c |}.
Definition set_item_frequency (f : Z) (c : CacheItem) : CacheItem :=
  {| item_value := item_value c; item_key := item_key c; item_frequency := f |}.

Definition set_group_frequency (f : Z) (g : FrequencyGroup) : FrequencyGroup :=
  {| group_frequency := f; group_elementsList := group_elementsList g;
     group_size := group_size g |}.
Definition set_group_size (n : Z) (g : FrequencyGroup) : FrequencyGroup :=
  {| group_frequency := group_frequency g;
     group_elementsList := group_elementsList g; group_size := n |}.

Definition set_freqToFreqGroupNode (m : gmap Z ptr) (l : cacheImpl) : cacheImpl :=
  {| freqToFreqGroupNode := m; freqGroupsList := freqGroupsList l;
     keyToCacheItem := keyToCacheItem l; capacity := capacity l; size := size l;
     freeNodesOfFreqGroups := freeNodesOfFreqGroups l |}.
Definition set_freqGroupsList (g : LinkedList) (l : cacheImpl) : cacheImpl :=
  {| freqToFreqGroupNode := freqToFreqGroupNode l; freqGroupsList := g;
     keyToCacheItem := keyToCacheItem l; capacity := capacity l; size := size l;
     freeNodesOfFreqGroups := freeNodesOfFreqGroups l |}.
Definition set_keyToCacheItem (m : gmap K ptr) (l : cacheImpl) : cacheImpl :=
  {| freqToFreqGroupNode := freqToFreqGroupNode l; freqGroupsList := freqGroupsList l;
     keyToCacheItem := m; capacity := capacity l; size := size l;
     freeNodesOfFreqGroups := freeNodesOfFreqGroups l |}.
Definition set_size (n : Z) (l : cacheImpl) : cacheImpl :=
  {| freqToFreqGroupNode := freqToFreqGroupNode l; freqGroupsList := freqGroupsList l;
     keyToCacheItem := keyToCacheItem l; capacity := capacity l; size := n;
     freeNodesOfFreqGroups := freeNodesOfFreqGroups l |}.
Definition set_freeNodesOfFreqGroups (f : list ptr) (l : cacheImpl) : cacheImpl :=
  {| freqToFreqGroupNode := freqToFreqGroupNode l; freqGroupsList := freqGroupsList l;
     keyToCacheItem := keyToCacheItem l; capacity := capacity l; size := size l;
     freeNodesOfFreqGroups := f |}.

(** [p.Value] read and [p.Value.field = ...] written, for the two
    node types, and [l.field] read and written. *)
Definition item_of (p : ptr) : M world CacheItem :=
  let* n := onItems (load p) in ret (Value n).
Definition update_item (p : ptr) (f : CacheItem → CacheItem) : M world unit :=
  let* n := onItems (load p) in onItems (store p (set_Value n (f (Value n)))).
Definition group_of (p : ptr) : M world FrequencyGroup :=
  let* n := onGroups (load p) in ret (Value n).
Definition update_group (p : ptr) (f : FrequencyGroup → FrequencyGroup) : M world unit :=
  let* n := onGroups (load p) in onGroups (store p (set_Value n (f (Value n)))).
Definition the_cache : M world cacheImpl := gets self.
Definition update_cache (f : cacheImpl → cacheImpl) : M world unit :=
  modify (λ w, with_self w (f (self w))).

(** [func New[K comparable, V any](capacity ...int) *cacheImpl[K, V]],
    run in an empty memory. *)
Definition New (capacity : list Z) : result world :=
  let length := length capacity in
  let mk (cacheCapacity : Z) : result world :=
    Ok {| items := []; groups := [];
          self := {| capacity := cacheCapacity;
                     freqToFreqGroupNode := ∅;
                     freqGroupsList := None;
                     keyToCacheItem := ∅;
                     size := 0;
                     freeNodesOfFreqGroups := [] |} |} in
  if decide (length = 0%nat) then mk DefaultCapacity
  else if decide (2 < length)%nat then Panicked (PanicString "Invalid capacity")
  else
    let cacheCapacity := default 0 (capacity !! 0%nat) in
    if decide (cacheCapacity < 0) then Panicked (PanicString "Invalid capacity")
    else mk cacheCapacity.

(** [func createFrequencyGroupNode(cacheItemNode, frequency)] *)
Definition createFrequencyGroupNode (cacheItemNode : ptr) (frequency : Z)
    : M world ptr :=
  let* elements := onItems (linkedlist.New cacheItemNode) in
  let* frequencyGroupNode :=
    onGroups (NewNode {| group_elementsList := elements;
                         group_size := 1;
                         group_frequency := frequency |}) in
  update_item cacheItemNode (set_item_frequency frequency) ;;
  ret frequencyGroupNode.

(** [func (l *cacheImpl[K, V]) getNewFrequencyGroupNode(cacheItemNode, newFrequency)] *)
Definition getNewFrequencyGroupNode (cacheItemNode : ptr) (newFrequency : Z)
    : M world ptr :=
  let* l := the_cache in
  let freeNodes := freeNodesOfFreqGroups l in
  let freeNodesLength := length freeNodes in
  if decide (freeNodesLength = 0%nat) then
    createFrequencyGroupNode cacheItemNode newFrequency
  else
    let newFrequencyGroupNode := default nil (freeNodes !! (freeNodesLength - 1)%nat) in
    update_cache (set_freeNodesOfFreqGroups (take (freeNodesLength - 1) freeNodes)) ;;
    let* g := group_of newFrequencyGroupNode in
    onItems (PushFront (group_elementsList g) cacheItemNode) ;;
    update_group newFrequencyGroupNode (set_group_size 1) ;;
    update_group newFrequencyGroupNode (set_group_frequency newFrequency) ;;
    update_item cacheItemNode (set_item_frequency newFrequency) ;;
    ret newFrequencyGroupNode.

(** [func (l *cacheImpl[K, V]) updateFreqAndMoveCacheItemNode(cacheItemNode)] *)
Definition updateFreqAndMoveCacheItemNode (cacheItemNode : ptr) : M world unit :=
  let* c := item_of cacheItemNode in
  let currentFrequency := item_frequency c in
  let* l := the_cache in
  let currentFrequencyGroupNode := index (freqToFreqGroupNode l) currentFrequency in
  let newFrequency := int_add currentFrequency 1 in
  update_group currentFrequencyGroupNode
    (λ g, set_group_size (int_sub (group_size g) 1) g) ;;
  let* g := group_of currentFrequencyGroupNode in
  when (bool_decide (group_size g = 0))
    (update_cache (λ l, set_freqToFreqGroupNode
                          (delete currentFrequency (freqToFreqGroupNode l)) l)) ;;
  let* n := onGroups (load currentFrequencyGroupNode) in
  let* greaterFrequencyGroup := group_of (Prev n) in
  if decide (group_frequency greaterFrequencyGroup = newFrequency) then
    onItems (RemoveNode cacheItemNode) ;;
    onItems (PushFront (group_elementsList greaterFrequencyGroup) cacheItemNode) ;;
    let* n := onGroups (load currentFrequencyGroupNode) in
    update_group (Prev n) (λ g, set_group_size (int_add (group_size g) 1) g) ;;
    update_item cacheItemNode
      (set_item_frequency (group_frequency greaterFrequencyGroup)) ;;
    let* g := group_of currentFrequencyGroupNode in
    when (bool_decide (group_size g = 0))
      (onGroups (RemoveNode currentFrequencyGroupNode) ;;
       update_cache (λ l, set_freeNodesOfFreqGroups
                            (freeNodesOfFreqGroups l ++ [currentFrequencyGroupNode]) l))
  else
    let* g := group_of currentFrequencyGroupNode in
    if decide (group_size g = 0) then
      update_group currentFrequencyGroupNode (set_group_frequency newFrequency) ;;
      update_cache (λ l, set_freqToFreqGroupNode
                           (<[newFrequency := currentFrequencyGroupNode]>
                              (freqToFreqGroupNode l)) l) ;;
      update_group currentFrequencyGroupNode
        (λ g, set_group_size (int_add (group_size g) 1) g) ;;
      update_item cacheItemNode (set_item_frequency newFrequency)
    else
      onItems (RemoveNode cacheItemNode) ;;
      let* fresh := getNewFrequencyGroupNode cacheItemNode newFrequency in
      update_cache (λ l, set_freqToFreqGroupNode
                           (<[newFrequency := fresh]> (freqToFreqGroupNode l)) l) ;;
      let* l := the_cache in
      onGroups (PutNodeBeforeAnotherNode
                  (index (freqToFreqGroupNode l) newFrequency)
                  currentFrequencyGroupNode).

(** [func (l *cacheImpl[K, V]) Get(key K) (V, error)] *)
Definition Get (key : K) : M world (V * option error) :=
  let* l := the_cache in
  match keyToCacheItem l !! key with
  | Some cacheItem =>
      let* c := item_of cacheItem in
      let value := item_value c in
      updateFreqAndMoveCacheItemNode cacheItem ;;
      ret (value, None)
  | None => ret (zero, Some ErrKeyNotFound)
  end.

(** [func (l *cacheImpl[K, V]) Put(key K, value V)] *)
Definition Put (key : K) (value : V) : M world unit :=
  let* l := the_cache in
  match keyToCacheItem l !! key with
  | Some cacheItem =>
      updateFreqAndMoveCacheItemNode cacheItem ;;
      update_item cacheItem (set_item_value value)
  | None =>
      let* cacheItemNode :=
        if decide (size l = capacity l) then
          let* minFrequencyGroup := onGroups (Last (freqGroupsList l)) in
          let* g := group_of minFrequencyGroup in
          let* cacheItemNode := onItems (Last (group_elementsList g)) in
          let* c := item_of cacheItemNode in
          update_cache (λ l, set_keyToCacheItem
                               (delete (item_key c) (keyToCacheItem l)) l) ;;
          update_item cacheItemNode (set_item_key key) ;;
          update_item cacheItemNode (set_item_value value) ;;
          let* g := group_of minFrequencyGroup in
          (if decide (group_frequency g ≠ 1) then
             let* g := group_of minFrequencyGroup in
             if decide (group_size g = 1) then
               update_group minFrequencyGroup (set_group_frequency 1) ;;
               update_cache (λ l, set_freqToFreqGroupNode
                                    (<[1 := minFrequencyGroup]>
                                       (freqToFreqGroupNode l)) l)
             else
               update_group minFrequencyGroup
                 (λ g, set_group_size (int_sub (group_size g) 1) g) ;;
               onItems (RemoveNode cacheItemNode) ;;
               let* fresh := getNewFrequencyGroupNode cacheItemNode 1 in
               update_cache (λ l, set_freqToFreqGroupNode
                                    (<[1 := fresh]> (freqToFreqGroupNode l)) l) ;;
               let* l := the_cache in
               onGroups (PushBack (freqGroupsList l)
                                  (index (freqToFreqGroupNode l) 1))
           else
             let* g := group_of minFrequencyGroup in
             if decide (group_size g ≠ 1) then
               onItems (RemoveNode cacheItemNode) ;;
               let* g := group_of minFrequencyGroup in
               onItems (PushFront (group_elementsList g) cacheItemNode) ;;
               let* g := group_of minFrequencyGroup in
               update_item cacheItemNode (set_item_frequency (group_frequency g))
             else ret tt) ;;
          ret cacheItemNode
        else
          let* cacheItemNode :=
            onItems (NewNode {| item_key := key; item_value := value;
                                item_frequency := 0 |}) in
          let* l := the_cache in
          let* unitFrequencyGroupNode :=
            if decide (size l = 0) then
              let* unitFrequencyGroupNode :=
                createFrequencyGroupNode cacheItemNode 1 in
              let* list := onGroups (linkedlist.New unitFrequencyGroupNode) in
              update_cache (set_freqGroupsList list) ;;
              ret unitFrequencyGroupNode
            else
              let* last := onGroups (Last (freqGroupsList l)) in
              let* g := group_of last in
              if decide (group_frequency g = 1) then
                let* lastListElement := onGroups (Last (freqGroupsList l)) in
                let unitFrequencyGroupNode := lastListElement in
                let* g := group_of unitFrequencyGroupNode in
                update_item cacheItemNode (set_item_frequency (group_frequency g)) ;;
                let* g := group_of unitFrequencyGroupNode in
                onItems (PushFront (group_elementsList g) cacheItemNode) ;;
                update_group unitFrequencyGroupNode
                  (λ g, set_group_size (int_add (group_size g) 1) g) ;;
                ret unitFrequencyGroupNode
              else
                let* unitFrequencyGroupNode :=
                  getNewFrequencyGroupNode cacheItemNode 1 in
                let* l := the_cache in
                onGroups (PushBack (freqGroupsList l) unitFrequencyGroupNode) ;;
                ret unitFrequencyGroupNode
          in
          update_cache (λ l, set_freqToFreqGroupNode
                               (<[1 := unitFrequencyGroupNode]>
                                  (freqToFreqGroupNode l)) l) ;;
          update_cache (λ l, set_size (int_add (size l) 1) l) ;;
          ret cacheItemNode
      in
      update_cache (λ l, set_keyToCacheItem
                           (<[key := cacheItemNode]> (keyToCacheItem l)) l)
  end.

(** [func (l *cacheImpl[K, V]) All() iter.Seq2[K, V]], applied to a
    consumer [yield] that threads a state [A].  A list loop that
    ends visits no node twice, so each loop is given as many
    iterations as the store has nodes; [yieldResult] is the first
    component of the inner loop's state. *)
Definition All {A} (yield : K → V → A → bool * A) (w : world) (acc : A)
    : result A :=
  if decide (size (self w) = 0) then Ok acc
  else
    linkedlist.All (length (groups w)) (freqGroupsList (self w)) (groups w)
      (λ freqGroup acc,
         linkedlist.All (length (items w)) (group_elementsList freqGroup) (items w)
           (λ cacheItem '(_, acc),
              let '(yieldResult, acc) :=
                yield (item_key cacheItem) (item_value cacheItem) acc in
              Ok (yieldResult, (yieldResult, acc)))
           (true, acc))
      acc.

(** The sequence [All()] hands to a consumer that never stops. *)
Definition All_pairs (w : world) : result (list (K * V)) :=
  All (λ k v acc, (true, acc ++ [(k, v)])) w [].

(** [func (l *cacheImpl[K, V]) Size() int] *)
Definition Size : M world Z :=
  let* l := the_cache in ret (size l).

(** [func (l *cacheImpl[K, V]) Capacity() int] *)
Definition Capacity : M world Z :=
  let* l := the_cache in ret (capacity l).

(** [func (l *cacheImpl[K, V]) GetKeyFrequency(key K) (int, error)] *)
Definition GetKeyFrequency (key : K) : M world (Z * option error) :=
  let* l := the_cache in
  match keyToCacheItem l !! key with
  | None => ret (0, Some ErrKeyNotFound)
  | Some element =>
      let* c := item_of element in
      ret (item_frequency c, None)
  end.

(** *** Sequences of calls on one cache *)

Inductive call :=
| CallGet (key : K)
| CallPut (key : K) (value : V)
| CallGetKeyFrequency (key : K)
| CallAll
| CallSize
| CallCapacity.

Definition discard {A} (m : M world A) : M world unit :=
  let* _ := m in ret tt.

Definition perform (c : call) : M world unit :=
  match c with
  | CallGet key => discard (Get key)
  | CallPut key value => Put key value
  | CallGetKeyFrequency key => discard (GetKeyFrequency key)
  | CallAll => λ w, match All_pairs w with
                    | Ok _ => Ok (tt, w)
                    | Panicked p => Panicked p
                    | OutOfFuel => OutOfFuel
                    end
  | CallSize => discard Size
  | CallCapacity => discard Capacity
  end.

Fixpoint perform_all (cs : list call) : M world unit :=
  match cs with
  | [] => ret tt
  | c :: cs => perform c ;; perform_all cs
  end.

(** The memory after [New(capacity...)] followed by the calls [cs]. *)
Definition after (capacity : list Z) (cs : list call) : result world :=
  match New capacity with
  | Ok w => match perform_all cs w with
            | Ok (_, w') => Ok w'
            | Panicked p => Panicked p
            | OutOfFuel => OutOfFuel
            end
  | Panicked p => Panicked p
  | OutOfFuel => OutOfFuel
  end.

End Cache.
End lfu.

(** ** Well-formed lists in the store *)

Module dll.
Import linkedlist.

Section Shape.
Context {V : Type}.
Implicit Types (h : heap V) (a b x y z : loc) (l : list loc).

(** The three fields of the node at an address. *)
Definition nextOf h a : option ptr := Next <$> h !! a.
Definition prevOf h a : option ptr := Prev <$> h !! a.
Definition valOf h a : option V := Value <$> h !! a.

(** [b] follows [a]: [a.Next = b] and [b.Prev = a]. *)
Definition linked h a b : Prop :=
  nextOf h a = Some (Some b) ∧ prevOf h b = Some (Some a).

(** The nodes [l] are chained, in this order, between [a] and [z]. *)
Fixpoint seg h a l z : Prop :=
  match l with
  | [] => linked h a z
  | x :: l' => linked h a x ∧ seg h x l' z
  end.

(** The list whose dummy head is [hd] holds exactly the nodes [l],
    first to last. *)
Definition dll h hd l : Prop := NoDup (hd :: l) ∧ seg h hd l hd.

(** Field assignments as store transformers. *)
Definition setNext h a (p : ptr) : heap V :=
  match h !! a with Some n => <[a := set_Next n p]> h | None => h end.
Definition setPrev h a (p : ptr) : heap V :=
  match h !! a with Some n => <[a := set_Prev n p]> h | None => h end.
Definition setValue h a (v : V) : heap V :=
  match h !! a with Some n => <[a := set_Value n v]> h | None => h end.

(** The store after unlinking a node whose neighbours are [p], [q]. *)
Definition unlink h p q : heap V := setPrev (setNext h p (Some q)) q (Some p).

(** The store after linking [x] between [p] and [y]. *)
Definition link h p x y : heap V :=
  setPrev (setNext (setNext (setPrev h x (Some p)) x (Some y)) p (Some x)) y (Some x).

(** The values the loop of [All] hands to the consumer, first to last. *)
Definition values h l : list V := omap (valOf h) l.

(** Handing values to a consumer until it declines. *)
Fixpoint feed {A} (yield : V → A → result (bool * A)) (vs : list V) (acc : A)
    : result A :=
  match vs with
  | [] => Ok acc
  | v :: vs =>
      match yield v acc with
      | Ok (true, acc') => feed yield vs acc'
      | Ok (false, acc') => Ok acc'
      | Panicked p => Panicked p
      | OutOfFuel => OutOfFuel
      end
  end.

(** [h'] is [h] with some links of the nodes [F] redirected: same
    size, same values, same links elsewhere. *)
Definition relinked (F : list loc) h h' : Prop :=
  length h' = length h ∧
  (∀ c, valOf h' c = valOf h c) ∧
  (∀ c, c ∉ F → nextOf h' c = nextOf h c ∧ prevOf h' c = prevOf h c).

(** [h'] keeps every node of [h] outside [F] as it is, and may
    hold new nodes. *)
Definition evolves (F : list loc) h h' : Prop :=
  (length h ≤ length h')%nat ∧
  (∀ c, is_Some (h !! c) → c ∉ F → h' !! c = h !! c).

End Shape.

(** *** Two stores used as examples *)

(** One node, of value 5, that is in no list. *)
Definition one_node : heap Z := [mkNode None None 5].

(** The list with the dummy head at address 2 and the single node
    at address 0, of value 5; the node at address 1, of value 7, is
    in no list. *)
Definition two_nodes : heap Z :=
  [mkNode (Some 2%nat) (Some 2%nat) 5; mkNode None None 7;
   mkNode (Some 0%nat) (Some 0%nat) 0].

(** The same list after the node at address 1 was pushed to its
    front. *)
Definition both_listed : heap Z :=
  [mkNode (Some 2%nat) (Some 1%nat) 5; mkNode (Some 0%nat) (Some 2%nat) 7;
   mkNode (Some 1%nat) (Some 0%nat) 0].

End dll.

(** ** The cache's representation invariant *)

Module lfu_inv.
Import linkedlist dll lfu.

Section Invariant.
Context `{Countable K} {V : Type} `{!Zero K, !Zero V}.
Local Abbreviation world := (world (K := K) (V := V)).
Local Abbreviation CacheItem := (CacheItem (K := K) (V := V)).
Local Abbreviation call := (call (K := K) (V := V)).

(** *** A session with its history *)

(** A cache together with what the claims speak about but the code
    does not store: how many calls were made, and at which call
    each key was last touched (inserted, overwritten, or read
    successfully). *)
Record traced := mkTraced {
  mem : world;
  clock : nat;
  touched : gmap K nat;
}.

(** The key a call touches, if any. *)
Definition hit (c : call) (w : world) : option K :=
  match c with
  | CallGet k => if keyToCacheItem (self w) !! k is Some _ then Some k else None
  | CallPut k _ => Some k
  | _ => None
  end.

Definition note (c : call) (t : traced) (w' : world) : traced :=
  {| mem := w';
     clock := S (clock t);
     touched := match hit c (mem t) with
                | Some k => <[k := clock t]> (touched t)
                | None => touched t
                end |}.

Definition perform_traced (c : call) (t : traced) : result traced :=
  match perform c (mem t) with
  | Ok (_, w') => Ok (note c t w')
  | Panicked p => Panicked p
  | OutOfFuel => OutOfFuel
  end.

Fixpoint run (cs : list call) (t : traced) : result traced :=
  match cs with
  | [] => Ok t
  | c :: cs => match perform_traced c t with
               | Ok t' => run cs t'
               | Panicked p => Panicked p
               | OutOfFuel => OutOfFuel
               end
  end.

(** [New(capacity...)] followed by the calls [cs]. *)
Definition session (capacity : list Z) (cs : list call) : result traced :=
  match New capacity with
  | Ok w => run cs {| mem := w; clock := 0; touched := ∅ |}
  | Panicked p => Panicked p
  | OutOfFuel => OutOfFuel
  end.

(** What [GetKeyFrequency] and [Get] answer, as options. *)
Definition frequency_of (w : world) (k : K) : option Z :=
  match GetKeyFrequency k w with
  | Ok ((f, None), _) => Some f
  | _ => None
  end.
Definition cached (w : world) (k : K) : Prop :=
  is_Some (keyToCacheItem (self w) !! k).
Definition last_touch (t : traced) (k : K) : nat :=
  default 0%nat (touched t !! k).

(** [k1] is listed before [k2]: higher frequency, or the same
    frequency and touched later. *)
Definition precedes (t : traced) (k1 k2 : K) : Prop :=
  ∃ f1 f2, frequency_of (mem t) k1 = Some f1 ∧ frequency_of (mem t) k2 = Some f2 ∧
           (f2 < f1 ∨ (f1 = f2 ∧ (last_touch t k2 < last_touch t k1)%nat)).

(** *** Shapes *)

(** One frequency group as laid out in memory: its node in the outer
    list, the dummy head of its inner list, and its entries' nodes
    from most to least recently touched. *)
Record gshape := mkShape {
  g_node : loc;
  g_head : loc;
  g_items : list loc;
}.

Definition itemAt (w : world) (x : loc) : option CacheItem := valOf (items w) x.
Definition groupAt (w : world) (g : loc) : option FrequencyGroup :=
  valOf (groups w) g.

Definition fp (g : gshape) : list loc := g_head g :: g_items g.

Definition separate (gs : list gshape) : Prop :=
  ∀ g1 g2 x, g1 ∈ gs → g2 ∈ gs → x ∈ fp g1 → x ∈ fp g2 → g1 = g2.

(** The inner lists of the groups [gs] are well formed and share
    no node. *)
Definition inner_ok (i : heap CacheItem) (gs : list gshape) : Prop :=
  (∀ g, g ∈ gs → dll i (g_head g) (g_items g)) ∧ separate gs.

(** [x] is a node of the store that is in none of the lists. *)
Definition orphan (i : heap CacheItem) (gs : list gshape) (x : loc) : Prop :=
  is_Some (i !! x) ∧ ∀ g, g ∈ gs → x ∉ fp g.

(** The group node of [g] points to the inner list of [g]. *)
Definition bound (gr : heap FrequencyGroup) (g : gshape) : Prop :=
  ∃ G, valOf gr (g_node g) = Some G ∧
       group_elementsList G = Some {| head := Some (g_head g) |}.

Definition sized (gr : heap FrequencyGroup) (g : gshape) : Prop :=
  ∃ G, valOf gr (g_node g) = Some G ∧
       group_size G = Z.of_nat (length (g_items g)) ∧ g_items g ≠ [].

(** The outer list behind the dummy [gh] holds the nodes of
    [active]; the nodes of [idle] are detached. *)
Definition outer_ok (gr : heap FrequencyGroup) (gh : loc)
    (active idle : list gshape) : Prop :=
  dll gr gh (g_node <$> active) ∧
  valOf gr gh = Some zero ∧
  NoDup (gh :: (g_node <$> (active ++ idle))) ∧
  (∀ g, g ∈ active ++ idle → bound gr g).

(** The memory holds the outer list [active] behind the dummy [gh]
    and the detached group nodes [idle]. *)
Record Rep (w : world) (gh : loc) (active idle : list gshape) : Prop := mkRep {
  rep_list : freqGroupsList (self w) = Some {| head := Some gh |};
  rep_free : freeNodesOfFreqGroups (self w) = (λ g, Some (g_node g)) <$> idle;
  rep_outer : outer_ok (groups w) gh active idle;
  rep_inner : inner_ok (items w) (active ++ idle);
  rep_sized : ∀ g, g ∈ active → sized (groups w) g;
  rep_idle : ∀ g, g ∈ idle → g_items g = [];
}.

(** *** The logical content of a memory *)

Record agroup := mkAGroup {
  a_node : loc;
  a_label : Z;
  a_entries : list (loc * CacheItem);
}.

Definition entries (w : world) (l : list loc) : list (loc * CacheItem) :=
  omap (λ x, pair x <$> itemAt w x) l.

Definition label (w : world) (g : loc) : Z :=
  default 0 (group_frequency <$> groupAt w g).

Definition aview_group (w : world) (g : gshape) : agroup :=
  {| a_node := g_node g; a_label := label w (g_node g);
     a_entries := entries w (g_items g) |}.

Definition aview (w : world) (active : list gshape) : list agroup :=
  aview_group w <$> active.

Definition all_entries (a : list agroup) : list (loc * CacheItem) :=
  a ≫= a_entries.

(** What the entries give when listed. *)
Definition pairs_of (a : list agroup) : list (K * V) :=
  (λ e, (item_key e.2, item_value e.2)) <$> all_entries a.

(** The same view without the stored values, which no decision of
    the cache depends on. *)
Record sentry := mkSE {
  e_addr : loc;
  e_key : K;
  e_freq : Z;
}.

Record sgroup := mkSG {
  s_node : loc;
  s_label : Z;
  s_entries : list sentry;
}.

Definition strip_entry (e : loc * CacheItem) : sentry :=
  mkSE e.1 (item_key e.2) (item_frequency e.2).

Definition strip_group (g : agroup) : sgroup :=
  mkSG (a_node g) (a_label g) (strip_entry <$> a_entries g).

Definition sview (w : world) (active : list gshape) : list sgroup :=
  strip_group <$> aview w active.

Definition s_all (a : list sgroup) : list sentry := a ≫= s_entries.

(** The frequency the entries of a group carry. *)
Definition carried (g : sgroup) : Z :=
  default 0 (e_freq <$> hd_error (s_entries g)).

Definition stamp (touched : gmap K nat) (e : sentry) : nat :=
  default 0%nat (touched !! e_key e).

(** A group is labelled with the frequency its entries carry. *)
Definition normal (g : sgroup) : Prop := s_label g = carried g.

(** Every group is [normal], except that the last one may be
    labelled 1 whatever its single entry carries, in a full cache. *)
Fixpoint labels_ok (full : Prop) (a : list sgroup) : Prop :=
  match a with
  | [] => True
  | g :: r =>
      match r with
      | [] => normal g ∨ (s_label g = 1 ∧ length (s_entries g) = 1%nat ∧ full)
      | _ => normal g ∧ labels_ok full r
      end
  end.

Definition later (touched : gmap K nat) (e1 e2 : sentry) : Prop :=
  (stamp touched e2 < stamp touched e1)%nat.

Definition above (g1 g2 : sgroup) : Prop := carried g2 < carried g1.

Record LI (a : list sgroup) (fm : gmap Z ptr) (km : gmap K ptr)
    (touched : gmap K nat) (clock : nat) (full : Prop) : Prop := mkLI {
  li_keys : ∀ k p, km !! k = Some p ↔
                   ∃ e, e ∈ s_all a ∧ e_key e = k ∧ p = Some (e_addr e);
  li_nonempty : Forall (λ g, s_entries g ≠ []) a;
  li_uniform : Forall (λ g, Forall (λ e, e_freq e = carried g) (s_entries g)) a;
  li_index : Forall (λ g, fm !! carried g = Some (Some (s_node g)) ∧
                          fm !! s_label g = Some (Some (s_node g))) a;
  li_bound : Forall (λ g, 1 ≤ carried g ≤ Z.of_nat clock) a;
  li_labels : labels_ok full a;
  li_order : StronglySorted above a;
  li_recent : Forall (λ g, StronglySorted (later touched) (s_entries g)) a;
  li_past : Forall (λ g, Forall (λ e, (stamp touched e < clock)%nat) (s_entries g)) a;
}.

Record LInv (a : list sgroup) (l : cacheImpl) (clock : nat) (touched : gmap K nat)
    : Prop := mkLInv {
  lv_core : LI a (freqToFreqGroupNode l) (keyToCacheItem l) touched clock
              (size l = capacity l);
  lv_size : size l = Z.of_nat (length (s_all a));
  lv_le : size l ≤ capacity l;
  lv_some : a ≠ [];
}.

(** A cache nothing was put into yet. *)
Definition Empty (w : world) : Prop :=
  size (self w) = 0 ∧ freqGroupsList (self w) = None ∧
  keyToCacheItem (self w) = ∅ ∧ freeNodesOfFreqGroups (self w) = [].

Definition Inv (t : traced) : Prop :=
  0 < capacity (self (mem t)) ≤ int_max ∧
  (Empty (mem t) ∨
   ∃ gh active idle,
     Rep (mem t) gh active idle ∧
     LInv (sview (mem t) active) (self (mem t)) (clock t) (touched t)).

(** The entries of the cache with their addresses, in the order
    [All] visits them. *)
Definition Listed (t : traced) (E : list (loc * CacheItem)) : Prop :=
  (Empty (mem t) ∧ E = []) ∨
  ∃ gh active idle,
    Rep (mem t) gh active idle ∧
    LInv (sview (mem t) active) (self (mem t)) (clock t) (touched t) ∧
    E = all_entries (aview (mem t) active).

(** *** Auxiliary notions *)

(** Two shapes of the same group node. *)
Definition same_frame (g g' : gshape) : Prop :=
  g_node g = g_node g' ∧ g_head g = g_head g'.

(** The entry of an evicted key after [Put] wrote the new key and
    value into it. *)
Definition evicted (key : K) (value : V) (c : CacheItem) : CacheItem :=
  set_item_value value (set_item_key key c).

(** [CacheItem[K, V]{key: key, value: value}] *)
Definition fresh_item (key : K) (value : V) : CacheItem :=
  {| item_key := key; item_value := value; item_frequency := 0 |}.

(** The listed entry [e] after the entry at [x] was overwritten
    with [c2]. *)
Definition rewritten (x : loc) (c2 : CacheItem) (e : loc * CacheItem)
    : loc * CacheItem :=
  if decide (e.1 = x) then (x, c2) else e.

(** The key map holds exactly the keys of the entries [l], each
    with the address of its entry. *)
Definition keyed (km : gmap K ptr) (l : list sentry) : Prop :=
  ∀ k p, km !! k = Some p ↔ ∃ e, e ∈ l ∧ e_key e = k ∧ p = Some (e_addr e).

(** No group of [L] carries or is labelled with the frequency [v]. *)
Definition avoids (v : Z) (L : list sgroup) : Prop :=
  Forall (λ g, carried g ≠ v ∧ s_label g ≠ v) L.

(** The label of the last group of [La]; 0, the label of the dummy,
    if there is none. *)
Definition pred_label (La : list sgroup) : Z := default 0 (s_label <$> last La).

(** [e1] is listed before [e2]. *)
Definition before (touched : gmap K nat) (e1 e2 : sentry) : Prop :=
  e_freq e2 < e_freq e1 ∨
  (e_freq e1 = e_freq e2 ∧ (stamp touched e2 < stamp touched e1)%nat).

Definition sentries (w : world) (l : list loc) : list sentry :=
  strip_entry <$> entries w l.

Definition kv (c : CacheItem) : K * V := (item_key c, item_value c).

(** The pairs [All] yields for the entries [E]. *)
Definition listing (E : list (loc * CacheItem)) : list (K * V) :=
  (λ e, kv e.2) <$> E.

(** The entry of a key that was touched: its frequency is one
    higher. *)
Definition bumped (c : CacheItem) : CacheItem :=
  set_item_frequency (item_frequency c + 1) c.

(** Handing pairs to a consumer, one after the other, until it
    declines: what [for k, v := range seq] does with the body
    [yield].  The first component tells whether the consumer took
    every pair. *)
Fixpoint hand {A} (yield : K → V → A → bool * A) (ps : list (K * V)) (acc : A)
    : bool * A :=
  match ps with
  | [] => (true, acc)
  | (k, v) :: ps =>
      let '(go, acc') := yield k v acc in
      if go then hand yield ps acc' else (false, acc')
  end.

(** The keys the calls [cs] put. *)
Definition put_key (c : call) : option K :=
  match c with
  | CallPut k _ => Some k
  | _ => None
  end.

Definition put_keys (cs : list call) : gset K := list_to_set (omap put_key cs).

(** How often the calls [cs] touch the key [k]: once for each
    [Put] of [k], and once for each [Get] of [k] that comes after a
    [Put] of [k]; [present] tells whether [k] was put before. *)
Fixpoint touches (k : K) (present : bool) (cs : list call) : Z :=
  match cs with
  | [] => 0
  | CallPut k' _ :: cs =>
      if decide (k' = k) then 1 + touches k true cs else touches k present cs
  | CallGet k' :: cs =>
      if decide (k' = k) then (if present then 1 else 0) + touches k present cs
      else touches k present cs
  | _ :: cs => touches k present cs
  end.

(** The frequency the key [k] has after the calls [cs], if none of
    them evicts. *)
Definition counted (k : K) (cs : list call) : option Z :=
  if decide (k ∈ put_keys cs) then Some (touches k false cs) else None.

(** The consumer [All_pairs] runs the inner loop of [All] with. *)
Definition collect (cacheItem : CacheItem) (st : bool * list (K * V))
    : result (bool * (bool * list (K * V))) :=
  let '(_, acc) := st in
  let '(yieldResult, acc) := (true, acc ++ [(item_key cacheItem, item_value cacheItem)]) in
  Ok (yieldResult, (yieldResult, acc)).

(** The frequency written on the last group of the outer list, and
    the frequency its last entry carries. *)
Definition last_group_frequencies : M world (Z * Z) :=
  let* l := the_cache in
  let* minFrequencyGroup := onGroups (Last (freqGroupsList l)) in
  let* g := group_of minFrequencyGroup in
  let* cacheItemNode := onItems (Last (group_elementsList g)) in
  let* c := item_of cacheItemNode in
  ret (group_frequency g, item_frequency c).

(** What an observation [f] gives at the end of a session, if the
    session ends. *)
Definition observe {A} (capacity : list Z) (cs : list call) (f : traced → A)
    : option A :=
  match session capacity cs with
  | Ok t => Some (f t)
  | _ => None
  end.

(** The answer of a call, if it returns. *)
Definition answer {A} (m : M world A) (w : world) : option A :=
  match m w with
  | Ok (a, _) => Some a
  | _ => None
  end.

End Invariant.

(** *** A session used as an example *)

(** [put(1,10); put(2,20); get(1)]: afterwards key 1 has frequency 2
    and key 2 has frequency 1. *)
Definition warm : list (call (K := Z) (V := Z)) :=
  [CallPut 1 10; CallPut 2 20; CallGet 1].

(** A consumer of [All] that takes one pair and stops. *)
Definition first_pair (k v : Z) (acc : list (Z * Z)) : bool * list (Z * Z) :=
  (false, acc ++ [(k, v)]).

End lfu_inv.

(** ** package crawler *)

Module crawler.

(** A non-nil value of Go's [error] interface, as its message; an
    [error] that may be nil is an [option error]. *)
Definition error := string.

(** What a panic carries: a value that satisfies [error], or any
    other value. *)
Inductive payload :=
| ErrorPayload (e : error)
| OtherPayload (v : string).

(** How a call ends: with a result, or panicking. *)
Inductive outcome (T : Type) :=
| Returns (v : T)
| Panics (p : payload).
Arguments Returns {T} v.
Arguments Panics {T} p.

(** The panic of the runtime at a method call on a nil interface; the
    runtime's panics satisfy [error]. *)
Definition nilDereference : error :=
  "runtime error: invalid memory address or nil pointer dereference".

(** [type atomicErr struct], without its mutex: the calls of
    [addError] are taken one after the other, as the mutex orders
    them. *)
Record atomicErr := mkAtomicErr {
  err : option error;
}.

(** [func (a *atomicErr) addError(e error)] *)
Definition addError (e : option error) (a : atomicErr) : atomicErr :=
  match err a with
  | None => {| err := e |}
  | Some _ => a
  end.

(** [aE := &atomicErr{mu: new(sync.Mutex)}] after the calls
    [addError(e)] for the [e] of [es], in this order. *)
Definition latched (es : list (option error)) : atomicErr :=
  fold_left (λ a e, addError e a) es {| err := None |}.

(** The first error of a list that is not nil. *)
Fixpoint first_error (es : list (option error)) : option error :=
  match es with
  | [] => None
  | Some e :: _ => Some e
  | None :: es => first_error es
  end.

(** A callable of the pipeline: it takes a name, may write to the
    error latch, and returns or panics. *)
Definition callable (T : Type) : Type :=
  string → atomicErr → outcome T * atomicErr.

(** A deferred call runs when the body is over; if it panics, its
    panic is the one that goes on. *)
Definition defer {A} (deferred : outcome unit) (body : outcome A * atomicErr)
    : outcome A * atomicErr :=
  match deferred with
  | Returns _ => body
  | Panics p => (Panics p, body.2)
  end.

Section Guard.
Context {T : Type} `{!Zero T}.

(** [func protect[T any](aE *atomicErr, fn func(string) T) func(string) T]:
    the deferred function calls [recover()], which ends any panic
    of [fn]; the named [result] then still holds its zero value. *)
Definition protect (fn : callable T) : callable T := λ arg aE,
  match fn arg aE with
  | (Returns result, aE) => (Returns result, aE)
  | (Panics (ErrorPayload e), aE) => (Returns zero, addError (Some e) aE)
  | (Panics (OtherPayload _), aE) => (Returns zero, aE)
  end.

End Guard.

Section Transform.
Context {T File : Type} `{!Zero T}.

(** The file system and the decoder the transformer calls:
    [fileSystem.Open], [f.Read] with the bytes [buffer[:n]] it
    gave, and [json.Unmarshal] with the record it leaves in
    [result]. *)
Variable Open : string → option File * option error.
Variable Read : File → list Byte.byte * option error.
Variable Unmarshal : list Byte.byte → T → T * option error.

(** [_ = f.Close()] *)
Definition Close (f : option File) : outcome unit :=
  match f with
  | Some _ => Returns tt
  | None => Panics (ErrorPayload nilDereference)
  end.

(** The transformer handed to [transformWp.Transform], before it
    is wrapped in [protect]. *)
Definition readFile : callable T := λ current aE,
  let '(f, err) := Open current in
  defer (Close f)
    match err with
    | Some e => (Returns zero, addError (Some e) aE)
    | None =>
        match f with
        | None => (Panics (ErrorPayload nilDereference), aE)
        | Some file =>
            let '(content, readErr) := Read file in
            match readErr with
            | Some e => (Returns zero, addError (Some e) aE)
            | None =>
                let '(result, er) := Unmarshal content zero in
                match er with
                | Some e => (Returns result, addError (Some e) aE)
                | None => (Returns result, aE)
                end
            end
        end
    end.

End Transform.

(** [os.DirEntry], as far as the searcher reads it: [entry.Name()]
    and [entry.IsDir()]. *)
Record DirEntry := mkDirEntry {
  Name : string;
  IsDir : bool;
}.

Section Search.

(** The file system the searcher calls: [fileSystem.ReadDir] and
    [fileSystem.Join]. *)
Variable ReadDir : string → list DirEntry * option error.
Variable Join : string → string → string.

(** The [select] the searcher runs for each file is decided by
    what goes on around it: [taken i] tells whether the [select]
    at the [i]-th file of a call takes [case <-ctx.Done()]; it
    takes [case fileChan <- join] otherwise. *)
Variable taken : nat → bool.

(** [for _, entry := range dirEntries { ... }], with the
    directories found and the names sent to [fileChan] so far,
    and the number of files met; [return nil] is the empty
    slice. *)
Fixpoint searchEntries (parent : string) (dirEntries : list DirEntry)
    (dirs sent : list string) (i : nat) : list string * list string :=
  match dirEntries with
  | [] => (dirs, sent)
  | entry :: dirEntries =>
      let join := Join parent (Name entry) in
      if IsDir entry then searchEntries parent dirEntries (dirs ++ [join]) sent i
      else if taken i then ([], sent)
      else searchEntries parent dirEntries dirs (sent ++ [join]) (S i)
  end.

(** The searcher handed to [searchWp.List], before it is wrapped
    in [protect]: what it returns, what it sent to [fileChan], and
    the latch afterwards. *)
Definition searchDir (parent : string) (aE : atomicErr)
    : list string * list string * atomicErr :=
  let '(dirEntries, err) := ReadDir parent in
  match err with
  | Some e => ([], [], addError (Some e) aE)
  | None =>
      let '(dirs, sent) := searchEntries parent dirEntries [] [] 0 in
      (dirs, sent, aE)
  end.

(** The entries of a directory that are directories, and those
    that are files, joined with the directory's name. *)
Definition subdirs (parent : string) (dirEntries : list DirEntry) : list string :=
  (λ entry, Join parent (Name entry)) <$> filter (λ entry, IsDir entry = true) dirEntries.
Definition files (parent : string) (dirEntries : list DirEntry) : list string :=
  (λ entry, Join parent (Name entry)) <$> filter (λ entry, IsDir entry = false) dirEntries.

(** The first of [n] files, counted from the [i]-th, at which the
    context is found done. *)
Definition stopped (i n : nat) : option nat :=
  fst <$> list_find (λ j, taken j = true) (seq i n).

End Search.

Section Collect.
Context {R : Type} `{!Zero R}.

(** [for _, rv := range resultValues { result = combiner(rv, result) }] *)
Fixpoint combine (combiner : R → R → R) (resultValues : list R) (result : R) : R :=
  match resultValues with
  | [] => result
  | rv :: resultValues => combine combiner resultValues (combiner rv result)
  end.

(** What [Collect] returns once the result channel is closed:
    [resultValues] are the partial results received, [ctxErr] is
    [ctx.Err()]. *)
Definition Collect_return (aE : atomicErr) (resultValues : list R)
    (ctxErr : option error) (combiner : R → R → R) : R * option error :=
  match err aE with
  | Some e => (zero, Some e)
  | None => (combine combiner resultValues zero, ctxErr)
  end.

(** The end of [Collect], from the closing of the result channel
    on.  [aE.err] is read when the channel is found closed; only
    then comes [fWg.Wait()], and the searchers and transformers
    that still run call [addError] meanwhile: once the context is
    done, the workers of [Accumulate] return and the channel is
    closed without waiting for what comes before.  [early] are the
    errors handed to the latch before that read, [late] those
    handed to it from the read until [Collect] returns.  This
    gives what [Collect] returns and the latch as it is when
    [Collect] returns. *)
Definition Collect_end (early late : list (option error)) (resultValues : list R)
    (ctxErr : option error) (combiner : R → R → R)
    : (R * option error) * atomicErr :=
  (Collect_return (latched early) resultValues ctxErr combiner,
   latched (early ++ late)).

End Collect.

(** [type AB struct { A int; B int }], a record type [T] of two
    fields. *)
Record AB := mkAB {
  A : Z;
  B : Z;
}.
#[global] Instance AB_zero : Zero AB := mkAB 0 0.

#[global] Instance byte_eq_dec : EqDecision Byte.byte := Byte.byte_eq_dec.

(** The content of a file: the JSON object whose member A is the
    number 7 and whose member B is the string x. *)
Definition seven_and_x : list Byte.byte :=
  [Byte.x7b; Byte.x22; Byte.x41; Byte.x22; Byte.x3a; Byte.x37; Byte.x2c;
   Byte.x22; Byte.x42; Byte.x22; Byte.x3a; Byte.x22; Byte.x78; Byte.x22; Byte.x7d].

(** [json.Unmarshal(content, &result)] at [T = AB], on that content:
    a value of the wrong type for a field is skipped and reported
    when the object is through, so A is set, B is left and the
    error is that of B.  No other content is used: each is
    answered here as one that is not JSON is, with an error and
    [result] as it was. *)
Definition Unmarshal_AB (content : list Byte.byte) (result : AB) : AB * option error :=
  if decide (content = seven_and_x)
  then (mkAB 7 (B result),
        Some "json: cannot unmarshal string into Go struct field AB.B of type int")
  else (result, Some "invalid character looking for beginning of value").

End crawler.

(** ** package workerpool *)

(** The goroutines of a pool are taken as a transition system.  A state
    holds where each worker goroutine stands and what the channels and
    the context are like; a step is one [select] of one goroutine
    taking one of its cases.  The callables are taken as functions of
    their arguments.  What is outside a pool is always ready: the
    values of [input] are there to be received, and the reader of
    [result] takes whatever is sent. *)

Module workerpool.

Section Pool.
Context {T R : Type}.

(** The workers of a pool, each at its place [W] in the code, and
    around them: the values that still come through [input], in
    that order, and whether [input] is closed after them; whether
    [ctx.Done()] is closed; the values the reader of [result] has
    received; whether [close(result)] has run. *)
Record pool (W : Type) := mkPool {
  workers : list W;
  input : list T;
  input_closes : bool;
  ctx_done : bool;
  results : list R;
  result_closed : bool;
}.
Arguments mkPool {W} _ _ _ _ _ _.
Arguments workers {W} _.
Arguments input {W} _.
Arguments input_closes {W} _.
Arguments ctx_done {W} _.
Arguments results {W} _.
Arguments result_closed {W} _.

(** The context is cancelled: something outside the pool. *)
Inductive cancel {W} : pool W → pool W → Prop :=
| cancel_ctx ws vs e rs c :
    cancel (mkPool ws vs e false rs c) (mkPool ws vs e true rs c).

(** *** [func (p *poolImpl[T, R]) Transform] *)

(** A worker goroutine of [Transform]: at the outer [select]; at
    the inner [select], where [transformer(v)] is evaluated on
    entry; or returned, its [wg.Done()] run. *)
Inductive transforming :=
| TAtInput
| TAtResult (r : R)
| TReturned.

Inductive Transform_step (transformer : T → R)
    : pool transforming → pool transforming → Prop :=
(* case v, ok := <-input, with ok *)
| T_receive ws1 ws2 v vs e d rs c :
    Transform_step transformer
      (mkPool (ws1 ++ TAtInput :: ws2) (v :: vs) e d rs c)
      (mkPool (ws1 ++ TAtResult (transformer v) :: ws2) vs e d rs c)
(* case v, ok := <-input, with !ok: return *)
| T_input_closed ws1 ws2 d rs c :
    Transform_step transformer
      (mkPool (ws1 ++ TAtInput :: ws2) [] true d rs c)
      (mkPool (ws1 ++ TReturned :: ws2) [] true d rs c)
(* case <-ctx.Done(): return, at the outer select *)
| T_done_at_input ws1 ws2 vs e rs c :
    Transform_step transformer
      (mkPool (ws1 ++ TAtInput :: ws2) vs e true rs c)
      (mkPool (ws1 ++ TReturned :: ws2) vs e true rs c)
(* case result <- transformer(v) *)
| T_send ws1 ws2 r vs e d rs :
    Transform_step transformer
      (mkPool (ws1 ++ TAtResult r :: ws2) vs e d rs false)
      (mkPool (ws1 ++ TAtInput :: ws2) vs e d (rs ++ [r]) false)
(* case <-ctx.Done(): return, at the inner select *)
| T_done_at_result ws1 ws2 r vs e rs c :
    Transform_step transformer
      (mkPool (ws1 ++ TAtResult r :: ws2) vs e true rs c)
      (mkPool (ws1 ++ TReturned :: ws2) vs e true rs c)
(* wg.Wait() is over: close(result) *)
| T_close ws vs e d rs :
    Forall (λ w, w = TReturned) ws →
    Transform_step transformer (mkPool ws vs e d rs false) (mkPool ws vs e d rs true).

(** [for i := 0; i < workers; i++ { wg.Add(1); go func() {...}() }] *)
Definition Transform_start (n : Z) (vs : list T) (e : bool) : pool transforming :=
  mkPool (replicate (Z.to_nat n) TAtInput) vs e false [] false.

(** The results the workers hold and have not sent. *)
Definition held (ws : list transforming) : list R :=
  omap (λ w, match w with TAtResult r => Some r | _ => None end) ws.

(** *** [func (p *poolImpl[T, R]) Accumulate] *)

(** A worker goroutine of [Accumulate]: at the outer [select] with
    its [res]; at the inner [select], about to send [res]; or
    returned. *)
Inductive accumulating :=
| AAtInput (res : R)
| AAtResult (res : R)
| AReturned.

Inductive Accumulate_step (accumulator : T → R → R)
    : pool accumulating → pool accumulating → Prop :=
(* case v, ok := <-input, with ok: res = accumulator(v, res) *)
| A_receive ws1 ws2 res v vs e d rs c :
    Accumulate_step accumulator
      (mkPool (ws1 ++ AAtInput res :: ws2) (v :: vs) e d rs c)
      (mkPool (ws1 ++ AAtInput (accumulator v res) :: ws2) vs e d rs c)
(* case v, ok := <-input, with !ok: on to the inner select *)
| A_input_closed ws1 ws2 res d rs c :
    Accumulate_step accumulator
      (mkPool (ws1 ++ AAtInput res :: ws2) [] true d rs c)
      (mkPool (ws1 ++ AAtResult res :: ws2) [] true d rs c)
(* case <-ctx.Done(): return, at the outer select *)
| A_done_at_input ws1 ws2 res vs e rs c :
    Accumulate_step accumulator
      (mkPool (ws1 ++ AAtInput res :: ws2) vs e true rs c)
      (mkPool (ws1 ++ AReturned :: ws2) vs e true rs c)
(* case result <- res: return *)
| A_send ws1 ws2 res vs e d rs :
    Accumulate_step accumulator
      (mkPool (ws1 ++ AAtResult res :: ws2) vs e d rs false)
      (mkPool (ws1 ++ AReturned :: ws2) vs e d (rs ++ [res]) false)
(* case <-ctx.Done(): return, at the inner select *)
| A_done_at_result ws1 ws2 res vs e rs c :
    Accumulate_step accumulator
      (mkPool (ws1 ++ AAtResult res :: ws2) vs e true rs c)
      (mkPool (ws1 ++ AReturned :: ws2) vs e true rs c)
(* wg.Wait() is over: close(result) *)
| A_close ws vs e d rs :
    Forall (λ w, w = AReturned) ws →
    Accumulate_step accumulator (mkPool ws vs e d rs false) (mkPool ws vs e d rs true).

(** [var res R] in each of the [workers] goroutines. *)
Definition Accumulate_start `{Zero R} (n : Z) (vs : list T) (e : bool)
    : pool accumulating :=
  mkPool (replicate (Z.to_nat n) (AAtInput zero)) vs e false [] false.

(** [res] after the values [part] were accumulated into it, one
    after the other. *)
Definition accumulated (accumulator : T → R → R) (res : R) (part : list T) : R :=
  foldl (λ res v, accumulator v res) res part.

(** The workers of [Accumulate], each with the values it has
    received, which the code does not keep: the parts of those
    that have returned. *)
Definition returned_parts (wh : list (accumulating * list T)) : list (list T) :=
  omap (λ p, match p.1 with AReturned => Some p.2 | _ => None end) wh.

(** The [res] of a worker is what the values it received give. *)
Definition agrees `{Zero R} (accumulator : T → R → R)
    (p : accumulating * list T) : Prop :=
  match p.1 with
  | AAtInput res | AAtResult res => res = accumulated accumulator zero p.2
  | AReturned => True
  end.

(** *** [func (p *poolImpl[T, R]) List] *)

(** A worker goroutine of a level of [List]: at the outer
    [select]; at the inner [select], where [searcher(v)] is
    evaluated on entry; or returned. *)
Inductive searching :=
| LAtInput
| LAtResult (children : list T)
| LReturned.

(** [List] at one level: its workers; the values of [data] the
    goroutine that feeds [input] has still to send, [None] once it
    has returned and its [close(input)] has run; whether
    [ctx.Done()] is closed; [newData]; whether [close(result)] has
    run; whether [List] has returned.  [searched] is not in the
    code: the arguments [searcher] was called with, in the order
    of the calls. *)
Record levels := mkLevels {
  searchers : list searching;
  feeder : option (list T);
  done : bool;
  newData : list T;
  closed : bool;
  returned : bool;
  searched : list T;
}.

(** [input] and [result] have no buffer: a send and its receive
    are one step.  The goroutines of a level that are left when
    [List] goes on to the next level are not kept: their channels
    are of the level that is over, where no worker is left to
    receive and nobody reads [result]. *)
Inductive List_step (n : Z) (searcher : T → list T) : levels → levels → Prop :=
(* case input <- v, with case v, ok := <-input of a worker, ok *)
| L_feed ws1 ws2 v vs d nd c ret tr :
    List_step n searcher
      (mkLevels (ws1 ++ LAtInput :: ws2) (Some (v :: vs)) d nd c ret tr)
      (mkLevels (ws1 ++ LAtResult (searcher v) :: ws2) (Some vs) d nd c ret (tr ++ [v]))
(* the range over data is over: close(input) *)
| L_fed ws d nd c ret tr :
    List_step n searcher
      (mkLevels ws (Some []) d nd c ret tr) (mkLevels ws None d nd c ret tr)
(* case <-ctx.Done() of the feeding goroutine: return, close(input) *)
| L_feeder_done ws vs nd c ret tr :
    List_step n searcher
      (mkLevels ws (Some vs) true nd c ret tr) (mkLevels ws None true nd c ret tr)
(* case v, ok := <-input, with !ok: return *)
| L_input_closed ws1 ws2 d nd c ret tr :
    List_step n searcher
      (mkLevels (ws1 ++ LAtInput :: ws2) None d nd c ret tr)
      (mkLevels (ws1 ++ LReturned :: ws2) None d nd c ret tr)
(* case <-ctx.Done(): return, at the outer select *)
| L_done_at_input ws1 ws2 fd nd c ret tr :
    List_step n searcher
      (mkLevels (ws1 ++ LAtInput :: ws2) fd true nd c ret tr)
      (mkLevels (ws1 ++ LReturned :: ws2) fd true nd c ret tr)
(* case result <- searcher(v), with case r, ok := <-result of List,
   ok: newData = append(newData, r...) *)
| L_send ws1 ws2 r fd d nd tr :
    List_step n searcher
      (mkLevels (ws1 ++ LAtResult r :: ws2) fd d nd false false tr)
      (mkLevels (ws1 ++ LAtInput :: ws2) fd d (nd ++ r) false false tr)
(* case <-ctx.Done(): return, at the inner select *)
| L_done_at_result ws1 ws2 r fd nd c ret tr :
    List_step n searcher
      (mkLevels (ws1 ++ LAtResult r :: ws2) fd true nd c ret tr)
      (mkLevels (ws1 ++ LReturned :: ws2) fd true nd c ret tr)
(* wg.Wait() is over: close(result) *)
| L_close ws fd d nd ret tr :
    Forall (λ w, w = LReturned) ws →
    List_step n searcher
      (mkLevels ws fd d nd false ret tr) (mkLevels ws fd d nd true ret tr)
(* case <-ctx.Done() of List: return *)
| L_return_done ws fd nd c tr :
    List_step n searcher
      (mkLevels ws fd true nd c false tr) (mkLevels ws fd true nd c true tr)
(* case r, ok := <-result, with !ok: data = newData, and
   len(data) == 0: return *)
| L_return ws fd d tr :
    List_step n searcher
      (mkLevels ws fd d [] true false tr) (mkLevels ws fd d [] true true tr)
(* case r, ok := <-result, with !ok: data = newData, and the next
   level *)
| L_next ws fd d nd tr :
    nd ≠ [] →
    List_step n searcher
      (mkLevels ws fd d nd true false tr)
      (mkLevels (replicate (Z.to_nat n) LAtInput) (Some nd) d [] false false tr).

(** [data := []T{start}] and the first level. *)
Definition List_start (n : Z) (start : T) : levels :=
  mkLevels (replicate (Z.to_nat n) LAtInput) (Some [start]) false [] false false [].

(** The context is cancelled. *)
Inductive List_cancel : levels → levels → Prop :=
| L_cancel ws fd nd c ret tr :
    List_cancel (mkLevels ws fd false nd c ret tr) (mkLevels ws fd true nd c ret tr).

Definition List_moves (n : Z) (searcher : T → list T) (s s' : levels) : Prop :=
  List_step n searcher s s' ∨ List_cancel s s'.

(** The children the workers hold and have not sent. *)
Definition held_children (ws : list searching) : list T :=
  ws ≫= λ w, match w with LAtResult r => r | _ => [] end.

(** The values the feeding goroutine has still to send. *)
Definition pending (fd : option (list T)) : list T := default [] fd.

(** The children of the values of [vs], as [searcher] gives them. *)
Definition children_of (searcher : T → list T) (vs : list T) : list T :=
  vs ≫= searcher.

(** A pool and what is around it may take these steps. *)
Definition moves {W} (step : pool W → pool W → Prop) (s s' : pool W) : Prop :=
  step s s' ∨ cancel s s'.

(** The pool is at rest: none of its goroutines can take a step. *)
Definition at_rest {W} (step : pool W → pool W → Prop) (s : pool W) : Prop :=
  ∀ s', ¬ step s s'.

End Pool.

Arguments mkPool {T R W} _ _ _ _ _ _.
Arguments workers {T R W} _.
Arguments input {T R W} _.
Arguments input_closes {T R W} _.
Arguments ctx_done {T R W} _.
Arguments results {T R W} _.
Arguments result_closed {T R W} _.
Arguments mkLevels {T} _ _ _ _ _ _ _.
Arguments searchers {T} _.
Arguments feeder {T} _.
Arguments done {T} _.
Arguments newData {T} _.
Arguments closed {T} _.
Arguments returned {T} _.
Arguments searched {T} _.
Arguments transforming : clear implicits.
Arguments accumulating : clear implicits.

(** One worker of [Transform] with [Z.succ], the value 5 and then a
    closed [input]: when all is over. *)
Definition transformed : pool (T := Z) (R := Z) (transforming Z) :=
  mkPool [TReturned] [] true false [6] true.

(** One worker of [Accumulate] with [Z.add], the values 5 and 7 and
    then a closed [input]: when all is over. *)
Definition summed : pool (T := Z) (R := Z) (accumulating Z) :=
  mkPool [AReturned] [] true false [12] true.

(** A tree: 2 under 1, and nothing else. *)
Definition below (v : Z) : list Z := if decide (v = 1) then [2] else [].

(** One worker of [List] on that tree, from 1: when [List] has
    returned. *)
Definition listed : levels (T := Z) :=
  mkLevels [LReturned] None false [] true true [1; 2].

End workerpool.

(** * Properties *)

Module dll_facts.
Import linkedlist dll.

#[global] Arguments load : simpl never.
#[global] Arguments store : simpl never.
#[global] Arguments values : simpl never.

Section Fields.
Context {V : Type}.
Implicit Types (h : heap V) (a b c x y z p q : loc) (l : list loc).

Lemma alloc_lt h a : is_Some (h !! a) ↔ (a < length h)%nat.
Proof. apply lookup_lt_is_Some. Qed.

Lemma nextOf_is_Some h a : is_Some (nextOf h a) ↔ is_Some (h !! a).
Proof. unfold nextOf. apply fmap_is_Some. Qed.
Lemma prevOf_is_Some h a : is_Some (prevOf h a) ↔ is_Some (h !! a).
Proof. unfold prevOf. apply fmap_is_Some. Qed.
Lemma valOf_is_Some h a : is_Some (valOf h a) ↔ is_Some (h !! a).
Proof. unfold valOf. apply fmap_is_Some. Qed.

Lemma length_setNext h a (p : ptr) : length (setNext h a p) = length h.
Proof. unfold setNext. destruct (h !! a); [apply length_insert | done]. Qed.
Lemma length_setPrev h a (p : ptr) : length (setPrev h a p) = length h.
Proof. unfold setPrev. destruct (h !! a); [apply length_insert | done]. Qed.
Lemma length_setValue h a v : length (setValue h a v) = length h.
Proof. unfold setValue. destruct (h !! a); [apply length_insert | done]. Qed.

Lemma lookup_setNext_ne h a (p : ptr) c : c ≠ a → setNext h a p !! c = h !! c.
Proof.
  intros. unfold setNext. destruct (h !! a); [|done].
  by rewrite list_lookup_insert_ne.
Qed.
Lemma lookup_setPrev_ne h a (p : ptr) c : c ≠ a → setPrev h a p !! c = h !! c.
Proof.
  intros. unfold setPrev. destruct (h !! a); [|done].
  by rewrite list_lookup_insert_ne.
Qed.
Lemma lookup_setValue_ne h a v c : c ≠ a → setValue h a v !! c = h !! c.
Proof.
  intros. unfold setValue. destruct (h !! a); [|done].
  by rewrite list_lookup_insert_ne.
Qed.

Lemma lookup_setNext_eq h a (p : ptr) n :
  h !! a = Some n → setNext h a p !! a = Some (set_Next n p).
Proof.
  intros E. unfold setNext. rewrite E.
  apply list_lookup_insert_eq. by eapply lookup_lt_Some.
Qed.
Lemma lookup_setPrev_eq h a (p : ptr) n :
  h !! a = Some n → setPrev h a p !! a = Some (set_Prev n p).
Proof.
  intros E. unfold setPrev. rewrite E.
  apply list_lookup_insert_eq. by eapply lookup_lt_Some.
Qed.
Lemma lookup_setValue_eq h a v n :
  h !! a = Some n → setValue h a v !! a = Some (set_Value n v).
Proof.
  intros E. unfold setValue. rewrite E.
  apply list_lookup_insert_eq. by eapply lookup_lt_Some.
Qed.

Lemma is_Some_setNext h a (p : ptr) c : is_Some (setNext h a p !! c) ↔ is_Some (h !! c).
Proof. by rewrite !alloc_lt, length_setNext. Qed.
Lemma is_Some_setPrev h a (p : ptr) c : is_Some (setPrev h a p !! c) ↔ is_Some (h !! c).
Proof. by rewrite !alloc_lt, length_setPrev. Qed.
Lemma is_Some_setValue h a v c : is_Some (setValue h a v !! c) ↔ is_Some (h !! c).
Proof. by rewrite !alloc_lt, length_setValue. Qed.

(** Each assignment changes one field of one node. *)
Lemma nextOf_setNext h a (p : ptr) c :
  nextOf (setNext h a p) c =
  if decide (c = a) then (λ _, p) <$> h !! a else nextOf h c.
Proof.
  unfold nextOf. case_decide as E.
  - subst. destruct (h !! a) as [n|] eqn:En.
    + by erewrite lookup_setNext_eq.
    + unfold setNext. by rewrite En, En.
  - by rewrite lookup_setNext_ne.
Qed.
Lemma prevOf_setNext h a (p : ptr) c : prevOf (setNext h a p) c = prevOf h c.
Proof.
  unfold prevOf. destruct (decide (c = a)) as [->|].
  - destruct (h !! a) as [n|] eqn:En.
    + by erewrite lookup_setNext_eq.
    + unfold setNext. by rewrite En, En.
  - by rewrite lookup_setNext_ne.
Qed.
Lemma valOf_setNext h a (p : ptr) c : valOf (setNext h a p) c = valOf h c.
Proof.
  unfold valOf. destruct (decide (c = a)) as [->|].
  - destruct (h !! a) as [n|] eqn:En.
    + by erewrite lookup_setNext_eq.
    + unfold setNext. by rewrite En, En.
  - by rewrite lookup_setNext_ne.
Qed.

Lemma prevOf_setPrev h a (p : ptr) c :
  prevOf (setPrev h a p) c =
  if decide (c = a) then (λ _, p) <$> h !! a else prevOf h c.
Proof.
  unfold prevOf. case_decide as E.
  - subst. destruct (h !! a) as [n|] eqn:En.
    + by erewrite lookup_setPrev_eq.
    + unfold setPrev. by rewrite En, En.
  - by rewrite lookup_setPrev_ne.
Qed.
Lemma nextOf_setPrev h a (p : ptr) c : nextOf (setPrev h a p) c = nextOf h c.
Proof.
  unfold nextOf. destruct (decide (c = a)) as [->|].
  - destruct (h !! a) as [n|] eqn:En.
    + by erewrite lookup_setPrev_eq.
    + unfold setPrev. by rewrite En, En.
  - by rewrite lookup_setPrev_ne.
Qed.
Lemma valOf_setPrev h a (p : ptr) c : valOf (setPrev h a p) c = valOf h c.
Proof.
  unfold valOf. destruct (decide (c = a)) as [->|].
  - destruct (h !! a) as [n|] eqn:En.
    + by erewrite lookup_setPrev_eq.
    + unfold setPrev. by rewrite En, En.
  - by rewrite lookup_setPrev_ne.
Qed.

Lemma valOf_setValue h a v c :
  valOf (setValue h a v) c =
  if decide (c = a) then (λ _, v) <$> h !! a else valOf h c.
Proof.
  unfold valOf. case_decide as E.
  - subst. destruct (h !! a) as [n|] eqn:En.
    + by erewrite lookup_setValue_eq.
    + unfold setValue. by rewrite En, En.
  - by rewrite lookup_setValue_ne.
Qed.
Lemma nextOf_setValue h a v c : nextOf (setValue h a v) c = nextOf h c.
Proof.
  unfold nextOf. destruct (decide (c = a)) as [->|].
  - destruct (h !! a) as [n|] eqn:En.
    + by erewrite lookup_setValue_eq.
    + unfold setValue. by rewrite En, En.
  - by rewrite lookup_setValue_ne.
Qed.
Lemma prevOf_setValue h a v c : prevOf (setValue h a v) c = prevOf h c.
Proof.
  unfold prevOf. destruct (decide (c = a)) as [->|].
  - destruct (h !! a) as [n|] eqn:En.
    + by erewrite lookup_setValue_eq.
    + unfold setValue. by rewrite En, En.
  - by rewrite lookup_setValue_ne.
Qed.

(** Allocation leaves the old nodes alone. *)
Lemma lookup_alloc_old h n a : is_Some (h !! a) → (h ++ [n]) !! a = h !! a.
Proof. intros ?%alloc_lt. by apply lookup_app_l. Qed.
Lemma lookup_alloc_new h n : (h ++ [n]) !! length h = Some n.
Proof. by rewrite list_lookup_middle. Qed.

(** The monadic code computes these transformers. *)
Lemma load_eq h a n : h !! a = Some n → load (Some a) h = Ok (n, h).
Proof. intros E. unfold load. by rewrite E. Qed.

Lemma assign_Next_eq h a (p : ptr) :
  is_Some (h !! a) → assign_Next (Some a) p h = Ok (tt, setNext h a p).
Proof.
  intros [n E]. unfold assign_Next, bind, load, store, setNext. by rewrite E, E.
Qed.
Lemma assign_Prev_eq h a (p : ptr) :
  is_Some (h !! a) → assign_Prev (Some a) p h = Ok (tt, setPrev h a p).
Proof.
  intros [n E]. unfold assign_Prev, bind, load, store, setPrev. by rewrite E, E.
Qed.
Lemma assign_Value_eq h a v :
  is_Some (h !! a) → assign_Value (Some a) v h = Ok (tt, setValue h a v).
Proof.
  intros [n E]. unfold assign_Value, bind, load, store, setValue. by rewrite E, E.
Qed.

Lemma RemoveNode_eq h x p q :
  nextOf h x = Some (Some q) → prevOf h x = Some (Some p) →
  is_Some (h !! p) → is_Some (h !! q) →
  RemoveNode (Some x) h = Ok (tt, unlink h p q).
Proof.
  intros Hn Hp Ap Aq. unfold RemoveNode, bind.
  destruct (h !! x) as [n|] eqn:En; [|by unfold nextOf in Hn; rewrite En in Hn].
  rewrite (load_eq _ _ _ En).
  assert (Next n = Some q) as Eq by (unfold nextOf in Hn; rewrite En in Hn; by simplify_eq/=).
  assert (Prev n = Some p) as Ep by (unfold prevOf in Hp; rewrite En in Hp; by simplify_eq/=).
  rewrite Ep, Eq, (assign_Next_eq _ _ _ Ap).
  assert (∃ n', setNext h p (Some q) !! x = Some n' ∧ Next n' = Some q ∧ Prev n' = Some p)
    as (n' & En' & Eq' & Ep').
  { pose proof (nextOf_setNext h p (Some q) x) as H1.
    pose proof (prevOf_setNext h p (Some q) x) as H2.
    unfold nextOf, prevOf in H1, H2.
    destruct (setNext h p (Some q) !! x) as [n'|] eqn:E'.
    - exists n'. split; [done|]. rewrite En in H1, H2. simpl in *.
      case_decide; destruct Ap as [? Ap]; rewrite ?Ap in H1; simplify_eq/=; split; congruence.
    - rewrite En in H2. done. }
  rewrite (load_eq _ _ _ En'), Eq', Ep'.
  rewrite assign_Prev_eq; [done|]. by apply is_Some_setNext.
Qed.

Lemma PutNodeBeforeAnotherNode_eq h x y p :
  x ≠ y → prevOf h y = Some (Some p) →
  is_Some (h !! x) → is_Some (h !! p) →
  PutNodeBeforeAnotherNode (Some x) (Some y) h = Ok (tt, link h p x y).
Proof.
  intros Hxy Hp Ax Ap. unfold PutNodeBeforeAnotherNode, bind.
  destruct (h !! y) as [n|] eqn:En; [|by unfold prevOf in Hp; rewrite En in Hp].
  rewrite (load_eq _ _ _ En).
  assert (Prev n = Some p) as Ep by (unfold prevOf in Hp; rewrite En in Hp; by simplify_eq/=).
  rewrite Ep, (assign_Prev_eq _ _ _ Ax).
  rewrite assign_Next_eq by (by apply is_Some_setPrev).
  set (h2 := setNext (setPrev h x (Some p)) x (Some y)).
  assert (h2 !! y = Some n) as En2.
  { unfold h2. rewrite lookup_setNext_ne, lookup_setPrev_ne by done. done. }
  rewrite (load_eq _ _ _ En2), Ep.
  rewrite assign_Next_eq by (unfold h2; by apply is_Some_setNext, is_Some_setPrev).
  rewrite assign_Prev_eq; [done|].
  apply is_Some_setNext. by rewrite En2.
Qed.

Lemma length_unlink h p q : length (unlink h p q) = length h.
Proof. unfold unlink. by rewrite length_setPrev, length_setNext. Qed.
Lemma valOf_unlink h p q c : valOf (unlink h p q) c = valOf h c.
Proof. unfold unlink. by rewrite valOf_setPrev, valOf_setNext. Qed.
Lemma nextOf_unlink h p q c :
  is_Some (h !! p) →
  nextOf (unlink h p q) c = if decide (c = p) then Some (Some q) else nextOf h c.
Proof.
  intros [n E]. unfold unlink. rewrite nextOf_setPrev, nextOf_setNext.
  case_decide; [by rewrite E|done].
Qed.
Lemma prevOf_unlink h p q c :
  is_Some (h !! q) →
  prevOf (unlink h p q) c = if decide (c = q) then Some (Some p) else prevOf h c.
Proof.
  intros Hq. unfold unlink. rewrite prevOf_setPrev, prevOf_setNext.
  case_decide; [|done].
  apply (is_Some_setNext h p (Some q)) in Hq as [n E]. by rewrite E.
Qed.

Lemma length_link h p x y : length (link h p x y) = length h.
Proof. unfold link. by rewrite length_setPrev, !length_setNext, length_setPrev. Qed.
Lemma valOf_link h p x y c : valOf (link h p x y) c = valOf h c.
Proof. unfold link. by rewrite valOf_setPrev, !valOf_setNext, valOf_setPrev. Qed.
Lemma nextOf_link h p x y c :
  is_Some (h !! p) → is_Some (h !! x) →
  nextOf (link h p x y) c =
  if decide (c = p) then Some (Some x)
  else if decide (c = x) then Some (Some y) else nextOf h c.
Proof.
  intros Hp Hx. unfold link. rewrite nextOf_setPrev, !nextOf_setNext, nextOf_setPrev.
  case_decide.
  - apply (is_Some_setPrev h x (Some p)), (is_Some_setNext _ x (Some y)) in Hp as [n E].
    by rewrite E.
  - case_decide; [|done].
    apply (is_Some_setPrev h x (Some p)) in Hx as [n E]. by rewrite E.
Qed.
Lemma prevOf_link h p x y c :
  is_Some (h !! y) → is_Some (h !! x) →
  prevOf (link h p x y) c =
  if decide (c = y) then Some (Some x)
  else if decide (c = x) then Some (Some p) else prevOf h c.
Proof.
  intros Hy Hx. unfold link. rewrite prevOf_setPrev, !prevOf_setNext, prevOf_setPrev.
  case_decide.
  - apply (is_Some_setPrev h x (Some p)), (is_Some_setNext _ x (Some y)),
      (is_Some_setNext _ p (Some x)) in Hy as [n E].
    by rewrite E.
  - case_decide; [|done]. destruct Hx as [n E]. by rewrite E.
Qed.

(** *** Segments *)

Lemma linked_alloc h a b : linked h a b → is_Some (h !! a) ∧ is_Some (h !! b).
Proof.
  intros [H1 H2]. split.
  - apply nextOf_is_Some. by rewrite H1.
  - apply prevOf_is_Some. by rewrite H2.
Qed.

Lemma linked_frame h h' a b :
  nextOf h' a = nextOf h a → prevOf h' b = prevOf h b →
  linked h a b → linked h' a b.
Proof. unfold linked. by intros -> ->. Qed.

Lemma seg_frame h h' a l z :
  (∀ s, s ∈ a :: l → nextOf h' s = nextOf h s) →
  (∀ t, t ∈ l ++ [z] → prevOf h' t = prevOf h t) →
  seg h a l z → seg h' a l z.
Proof.
  revert a. induction l as [|x l IH]; intros a Hn Hp; simpl.
  - apply linked_frame; [apply Hn | apply Hp]; set_solver.
  - intros [H1 H2]. split.
    + revert H1. apply linked_frame; [apply Hn | apply Hp]; set_solver.
    + apply IH; [| |done]; intros; [apply Hn | apply Hp]; set_solver.
Qed.

Lemma seg_alloc h a l z s : seg h a l z → s ∈ a :: l ++ [z] → is_Some (h !! s).
Proof.
  revert a. induction l as [|x l IH]; intros a; simpl.
  - intros [??]%linked_alloc. set_solver.
  - intros [[??]%linked_alloc H2] Hs.
    apply elem_of_cons in Hs as [->|Hs]; [done|]. by apply (IH x).
Qed.

Lemma seg_app h a l1 x l2 z :
  seg h a (l1 ++ x :: l2) z ↔ seg h a l1 x ∧ seg h x l2 z.
Proof.
  revert a. induction l1 as [|b l1 IH]; intros a; simpl; [done|].
  rewrite IH. tauto.
Qed.

Lemma seg_first h a l z :
  seg h a l z → nextOf h a = Some (Some (default z (hd_error l))).
Proof. destruct l; simpl; unfold linked; tauto. Qed.

Lemma seg_last h a l z :
  seg h a l z → prevOf h z = Some (Some (default a (last l))).
Proof.
  revert a. induction l as [|x l IH]; intros a; simpl.
  - unfold linked; tauto.
  - intros [_ H2]. rewrite (IH _ H2), last_cons. by destruct (last l).
Qed.

Lemma default_last_cons {A} (d e : A) (k : list A) :
  default d (last (e :: k)) = default e (last k).
Proof. rewrite last_cons. by destruct (last k). Qed.

Lemma default_last_elem {A} (d : A) (k : list A) : default d (last k) ∈ d :: k.
Proof.
  destruct (last k) as [e|] eqn:E; simpl; [|set_solver].
  apply last_Some in E as [k' ->]. set_solver.
Qed.

Lemma default_head_elem {A} (d : A) (k : list A) :
  default d (hd_error k) ∈ k ++ [d].
Proof. destruct k; simpl; set_solver. Qed.

(** Unlinking [x] from a segment. *)
Lemma seg_remove h a l1 x l2 z :
  NoDup (a :: l1 ++ x :: l2) → z ∉ l1 ++ x :: l2 →
  seg h a (l1 ++ x :: l2) z →
  let p := default a (last l1) in
  let q := default z (hd_error l2) in
  nextOf h x = Some (Some q) ∧ prevOf h x = Some (Some p) ∧
  seg (unlink h p q) a (l1 ++ l2) z.
Proof.
  revert a. induction l1 as [|b l1 IH]; intros a Hnd Hz Hs p q.
  - simpl in *. destruct Hs as [Hax Hs]. subst p.
    pose proof (seg_first _ _ _ _ Hs) as Hq. fold q in Hq.
    split; [done|]. split; [apply Hax|].
    pose proof (linked_alloc _ _ _ Hax) as [Aa _].
    assert (is_Some (h !! q)) as Aq.
    { eapply (seg_alloc _ _ _ _ q Hs). subst q.
      apply elem_of_cons. right. apply default_head_elem. }
    apply NoDup_cons in Hnd as [Ha Hnd]. apply NoDup_cons in Hnd as [Hx Hnd].
    destruct l2 as [|y l2]; simpl in *.
    + subst q. split.
      * rewrite nextOf_unlink by done. by rewrite decide_True.
      * rewrite prevOf_unlink by done. by rewrite decide_True.
    + subst q. destruct Hs as [Hxy Hs]. split.
      * split; [rewrite nextOf_unlink by done; by rewrite decide_True|].
        rewrite prevOf_unlink by done. by rewrite decide_True.
      * revert Hs. apply seg_frame.
        -- intros s Hs. rewrite nextOf_unlink by done.
           rewrite decide_False; [done|]. set_solver.
        -- intros t Ht. rewrite prevOf_unlink by done.
           rewrite decide_False; [done|].
           apply NoDup_cons in Hnd as [Hy Hnd]. set_solver.
  - simpl in Hs. destruct Hs as [Hab Hs].
    change ((b :: l1) ++ x :: l2) with (b :: (l1 ++ x :: l2)) in *.
    apply NoDup_cons in Hnd as [Ha Hnd].
    specialize (IH b Hnd ltac:(set_solver) Hs). simpl in IH.
    destruct IH as (Hq & Hp & IH).
    subst p q. rewrite default_last_cons.
    split; [done|]. split; [done|]. simpl. split; [|done].
    assert (is_Some (h !! default b (last l1))) as Ap.
    { eapply (seg_alloc _ _ _ _ _ Hs). apply elem_of_cons.
      pose proof (default_last_elem b l1). set_solver. }
    assert (is_Some (h !! default z (hd_error l2))) as Aq.
    { apply seg_app in Hs as [_ Hs].
      eapply (seg_alloc _ _ _ _ _ Hs). apply elem_of_cons. right.
      apply default_head_elem. }
    revert Hab. apply linked_frame.
    + rewrite nextOf_unlink by done. rewrite decide_False; [done|].
      pose proof (default_last_elem b l1). set_solver.
    + rewrite prevOf_unlink by done. rewrite decide_False; [done|].
      pose proof (default_head_elem z l2) as Hh.
      apply NoDup_cons in Hnd as [Hb Hnd]. set_solver.
Qed.

(** Linking a fresh node [x] into a segment, after [l1]. *)
Lemma seg_insert h a l1 l2 z x :
  NoDup (a :: l1 ++ l2) → z ∉ l1 ++ l2 → x ∉ a :: l1 ++ l2 → x ≠ z →
  is_Some (h !! x) →
  seg h a (l1 ++ l2) z →
  let p := default a (last l1) in
  let y := default z (hd_error l2) in
  prevOf h y = Some (Some p) ∧ seg (link h p x y) a (l1 ++ x :: l2) z.
Proof.
  revert a. induction l1 as [|b l1 IH]; intros a Hnd Hz Hx Hxz Ax Hs p y.
  - simpl in *. subst p.
    pose proof (seg_first _ _ _ _ Hs) as Hy. fold y in Hy.
    assert (is_Some (h !! a)) as Aa.
    { eapply (seg_alloc _ _ _ _ _ Hs). set_solver. }
    assert (is_Some (h !! y)) as Ay.
    { eapply (seg_alloc _ _ _ _ _ Hs). subst y. apply elem_of_cons. right.
      apply default_head_elem. }
    apply NoDup_cons in Hnd as [Ha Hnd].
    destruct l2 as [|c l2]; simpl in *; subst y.
    + split; [apply Hs|]. split.
      * split; [rewrite nextOf_link by done; by rewrite decide_True|].
        rewrite prevOf_link by done.
        destruct (decide (x = z)); [done|]. by rewrite decide_True.
      * split.
        -- rewrite nextOf_link by done.
           rewrite decide_False by set_solver. by rewrite decide_True.
        -- rewrite prevOf_link by done. by rewrite decide_True.
    + destruct Hs as [Hac Hs]. split; [apply Hac|]. split; [|split].
      * split; [rewrite nextOf_link by done; by rewrite decide_True|].
        rewrite prevOf_link by done.
        rewrite decide_False by set_solver. by rewrite decide_True.
      * split.
        -- rewrite nextOf_link by done.
           rewrite decide_False by set_solver. by rewrite decide_True.
        -- rewrite prevOf_link by done. by rewrite decide_True.
      * revert Hs. apply seg_frame.
        -- intros s Hs. rewrite nextOf_link by done.
           rewrite !decide_False; [done| |]; set_solver.
        -- intros t Ht. rewrite prevOf_link by done.
           apply NoDup_cons in Hnd as [Hc Hnd].
           rewrite !decide_False; [done| |]; set_solver.
  - simpl in Hs. destruct Hs as [Hab Hs].
    change ((b :: l1) ++ l2) with (b :: (l1 ++ l2)) in *.
    apply NoDup_cons in Hnd as [Ha Hnd].
    specialize (IH b Hnd ltac:(set_solver) ltac:(set_solver) Hxz Ax Hs). simpl in IH.
    destruct IH as (Hp & IH).
    subst p y. rewrite default_last_cons.
    split; [done|]. simpl. split; [|done].
    assert (is_Some (h !! default b (last l1))) as Ap.
    { eapply (seg_alloc _ _ _ _ _ Hs). apply elem_of_cons.
      pose proof (default_last_elem b l1). set_solver. }
    assert (is_Some (h !! default z (hd_error l2))) as Ay.
    { apply prevOf_is_Some. by rewrite Hp. }
    revert Hab. apply linked_frame.
    + rewrite nextOf_link by done.
      pose proof (default_last_elem b l1).
      rewrite !decide_False; [done| |]; set_solver.
    + rewrite prevOf_link by done.
      pose proof (default_head_elem z l2) as Hh.
      apply NoDup_cons in Hnd as [Hb Hnd].
      rewrite !decide_False; [done| |]; set_solver.
Qed.

(** *** Whole lists *)

Lemma dll_alloc h hd l s : dll h hd l → s ∈ hd :: l → is_Some (h !! s).
Proof. intros [_ Hs] Hin. eapply seg_alloc; [done|]. set_solver. Qed.

Lemma dll_lt h hd l s : dll h hd l → s ∈ hd :: l → (s < length h)%nat.
Proof. intros. by eapply alloc_lt, dll_alloc. Qed.

Lemma dll_NoDup h hd l : dll h hd l → NoDup l.
Proof. intros [Hnd _]. by apply NoDup_cons in Hnd as [_ ?]. Qed.

Lemma dll_head_notin h hd l : dll h hd l → hd ∉ l.
Proof. intros [Hnd _]. by apply NoDup_cons in Hnd as [? _]. Qed.

Lemma dll_frame h h' hd l :
  (∀ s, s ∈ hd :: l → nextOf h' s = nextOf h s ∧ prevOf h' s = prevOf h s) →
  dll h hd l → dll h' hd l.
Proof.
  intros Hf [Hnd Hs]. split; [done|]. revert Hs. apply seg_frame.
  - intros s Hin. by apply Hf.
  - intros t Hin. apply Hf. set_solver.
Qed.

Lemma dll_relinked F h h' hd l :
  relinked F h h' → (∀ s, s ∈ hd :: l → s ∉ F) → dll h hd l → dll h' hd l.
Proof. intros (_ & _ & Hl) Hd. apply dll_frame. intros s Hs. by apply Hl, Hd. Qed.

Lemma relinked_refl F h : relinked F h h.
Proof. done. Qed.

Lemma relinked_trans F h1 h2 h3 :
  relinked F h1 h2 → relinked F h2 h3 → relinked F h1 h3.
Proof.
  intros (L1 & V1 & N1) (L2 & V2 & N2). split; [congruence|]. split.
  - intros c. by rewrite V2, V1.
  - intros c Hc. destruct (N1 c Hc) as [<- <-]. by apply N2.
Qed.

Lemma relinked_mono F G h h' : F ⊆ G → relinked F h h' → relinked G h h'.
Proof. intros HFG (L & Vs & N). split; [done|]. split; [done|]. intros c Hc. apply N. set_solver. Qed.

Lemma relinked_lookup F h h' c : relinked F h h' → c ∉ F → h' !! c = h !! c.
Proof.
  intros (_ & Vs & N) Hc. destruct (N c Hc) as [Hn Hp]. specialize (Vs c).
  unfold nextOf, prevOf, valOf in *.
  destruct (h' !! c) as [[]|], (h !! c) as [[]|]; simplify_eq/=; done.
Qed.

Lemma relinked_alloc F h h' c : relinked F h h' → is_Some (h' !! c) ↔ is_Some (h !! c).
Proof. intros (L & _). by rewrite !alloc_lt, L. Qed.

Lemma dll_Last h hd l :
  dll h hd l →
  Last (Some {| head := Some hd |}) h = Ok (Some (default hd (last l)), h).
Proof.
  intros [_ Hs]. pose proof (seg_last _ _ _ _ Hs) as Hp. unfold prevOf in Hp.
  destruct (h !! hd) as [n|] eqn:E; [|done]. simpl in Hp.
  unfold Last, bind, receiver. simpl. rewrite (load_eq _ _ _ E).
  unfold ret. congruence.
Qed.

Lemma dll_First h hd l :
  dll h hd l →
  First (Some {| head := Some hd |}) h = Ok (Some (default hd (hd_error l)), h).
Proof.
  intros [_ Hs]. pose proof (seg_first _ _ _ _ Hs) as Hp. unfold nextOf in Hp.
  destruct (h !! hd) as [n|] eqn:E; [|done]. simpl in Hp.
  unfold First, bind, receiver. simpl. rewrite (load_eq _ _ _ E).
  unfold ret. congruence.
Qed.

Lemma dll_prev h hd l1 x l2 :
  dll h hd (l1 ++ x :: l2) → prevOf h x = Some (Some (default hd (last l1))).
Proof. intros [_ Hs]. apply seg_app in Hs as [Hs _]. by apply seg_last in Hs. Qed.

Lemma dll_RemoveNode h hd l1 x l2 :
  dll h hd (l1 ++ x :: l2) →
  ∃ h', RemoveNode (Some x) h = Ok (tt, h') ∧
        dll h' hd (l1 ++ l2) ∧ relinked (hd :: l1 ++ l2) h h'.
Proof.
  intros [Hnd Hs].
  assert (hd ∉ l1 ++ x :: l2) as Hhd by (by apply NoDup_cons in Hnd as [? _]).
  destruct (seg_remove _ _ _ _ _ _ Hnd Hhd Hs) as (Hq & Hp & Hs').
  set (p := default hd (last l1)) in *. set (q := default hd (hd_error l2)) in *.
  assert (p ∈ hd :: l1 ++ l2) as Hpin.
  { pose proof (default_last_elem hd l1). set_solver. }
  assert (q ∈ hd :: l1 ++ l2) as Hqin.
  { pose proof (default_head_elem hd l2). set_solver. }
  assert (is_Some (h !! p)) as Ap.
  { eapply (seg_alloc _ _ _ _ _ Hs). set_solver. }
  assert (is_Some (h !! q)) as Aq.
  { eapply (seg_alloc _ _ _ _ _ Hs). set_solver. }
  exists (unlink h p q). split; [by apply RemoveNode_eq|]. split.
  - split; [|done]. revert Hnd. rewrite !NoDup_cons, !NoDup_app, !NoDup_cons.
    set_solver.
  - split; [apply length_unlink|]. split; [apply valOf_unlink|].
    intros c Hc. rewrite nextOf_unlink, prevOf_unlink by done.
    rewrite !decide_False; [done| |]; set_solver.
Qed.

Lemma dll_link h hd l1 l2 x :
  dll h hd (l1 ++ l2) → x ∉ hd :: l1 ++ l2 → is_Some (h !! x) →
  ∃ h', PutNodeBeforeAnotherNode (Some x) (Some (default hd (hd_error l2))) h
          = Ok (tt, h') ∧
        dll h' hd (l1 ++ x :: l2) ∧ relinked (x :: hd :: l1 ++ l2) h h'.
Proof.
  intros [Hnd Hs] Hx Ax.
  assert (hd ∉ l1 ++ l2) as Hhd by (by apply NoDup_cons in Hnd as [? _]).
  assert (x ≠ hd) as Hxh by set_solver.
  destruct (seg_insert _ _ _ _ _ _ Hnd Hhd Hx Hxh Ax Hs) as (Hp & Hs').
  set (p := default hd (last l1)) in *. set (y := default hd (hd_error l2)) in *.
  assert (p ∈ hd :: l1 ++ l2) as Hpin.
  { pose proof (default_last_elem hd l1). set_solver. }
  assert (y ∈ hd :: l1 ++ l2) as Hyin.
  { pose proof (default_head_elem hd l2). set_solver. }
  assert (is_Some (h !! p)) as Ap.
  { eapply (seg_alloc _ _ _ _ _ Hs). set_solver. }
  assert (is_Some (h !! y)) as Ay.
  { eapply (seg_alloc _ _ _ _ _ Hs). set_solver. }
  exists (link h p x y). split.
  { apply PutNodeBeforeAnotherNode_eq; try done. set_solver. }
  split.
  - split; [|done]. revert Hnd Hx. rewrite !NoDup_cons, !NoDup_app, !NoDup_cons.
    set_solver.
  - split; [apply length_link|]. split; [apply valOf_link|].
    intros c Hc. rewrite nextOf_link, prevOf_link by done.
    rewrite !decide_False; [done| | | |]; set_solver.
Qed.

Lemma dll_insert_before h hd l1 y l2 x :
  dll h hd (l1 ++ y :: l2) → x ∉ hd :: l1 ++ y :: l2 → is_Some (h !! x) →
  ∃ h', PutNodeBeforeAnotherNode (Some x) (Some y) h = Ok (tt, h') ∧
        dll h' hd (l1 ++ x :: y :: l2) ∧ relinked (x :: hd :: l1 ++ y :: l2) h h'.
Proof. intros. by apply (dll_link h hd l1 (y :: l2) x). Qed.

Lemma dll_PushBack h hd l x :
  dll h hd l → x ∉ hd :: l → is_Some (h !! x) →
  ∃ h', PushBack (Some {| head := Some hd |}) (Some x) h = Ok (tt, h') ∧
        dll h' hd (l ++ [x]) ∧ relinked (x :: hd :: l) h h'.
Proof.
  intros Hd Hx Ax.
  destruct (dll_link h hd l [] x) as (h' & E & Hd' & Hr);
    rewrite ?app_nil_r; try done.
  exists h'. rewrite app_nil_r in Hr. by split.
Qed.

Lemma dll_PushFront h hd l x :
  dll h hd l → x ∉ hd :: l → is_Some (h !! x) →
  ∃ h', PushFront (Some {| head := Some hd |}) (Some x) h = Ok (tt, h') ∧
        dll h' hd (x :: l) ∧ relinked (x :: hd :: l) h h'.
Proof.
  intros Hd Hx Ax.
  destruct (dll_link h hd [] l x) as (h' & E & Hd' & Hr); try done.
  exists h'. split; [|done].
  destruct Hd as [_ Hs]. apply seg_first in Hs. unfold nextOf in Hs.
  destruct (h !! hd) as [n|] eqn:En; [|done]. simpl in Hs.
  unfold PushFront, bind, receiver. simpl. rewrite (load_eq _ _ _ En). congruence.
Qed.

(** *** Frames *)

Lemma evolves_refl F h : evolves F h h.
Proof. split; [lia|done]. Qed.

Lemma evolves_trans F h1 h2 h3 :
  evolves F h1 h2 → evolves F h2 h3 → evolves F h1 h3.
Proof.
  intros [L1 N1] [L2 N2]. split; [lia|]. intros c Hc HF.
  rewrite N2, N1; try done. rewrite N1 by done. done.
Qed.

Lemma evolves_mono F G h h' : F ⊆ G → evolves F h h' → evolves G h h'.
Proof. intros HFG [L N]. split; [done|]. intros c Hc HG. apply N; set_solver. Qed.

Lemma relinked_evolves F h h' : relinked F h h' → evolves F h h'.
Proof.
  intros Hr. split; [destruct Hr as [-> _]; lia|].
  intros c _ Hc. by eapply relinked_lookup.
Qed.

Lemma evolves_alloc F h h' c : evolves F h h' → is_Some (h !! c) → is_Some (h' !! c).
Proof. intros [L _]. rewrite !alloc_lt. lia. Qed.

Lemma dll_evolves F h h' hd l :
  evolves F h h' → (∀ s, s ∈ hd :: l → s ∉ F) → dll h hd l → dll h' hd l.
Proof.
  intros [_ N] HF Hd. revert Hd. intros Hd. generalize Hd. apply dll_frame.
  intros s Hs. unfold nextOf, prevOf. rewrite N; [done| |by apply HF].
  by eapply dll_alloc.
Qed.

Lemma evolves_setValue h a v : evolves [a] h (setValue h a v).
Proof.
  split; [by rewrite length_setValue|]. intros c _ Hc.
  apply lookup_setValue_ne. set_solver.
Qed.

Lemma relinked_valOf F h h' c : relinked F h h' → valOf h' c = valOf h c.
Proof. intros (_ & Hv & _). apply Hv. Qed.

Lemma dll_setValue h a v hd l : dll h hd l → dll (setValue h a v) hd l.
Proof.
  apply dll_frame. intros. by rewrite nextOf_setValue, prevOf_setValue.
Qed.

Lemma evolves_app F h n : evolves F h (h ++ [n]).
Proof.
  split; [rewrite length_app; lia|]. intros c Hc _. by apply lookup_alloc_old.
Qed.

Lemma valOf_app_new h n : valOf (h ++ [n]) (length h) = Some (Value n).
Proof. unfold valOf. by rewrite lookup_alloc_new. Qed.

Lemma NewNode_eq h v :
  NewNode v h = Ok (Some (length h), h ++ [{| Next := nil; Prev := nil; Value := v |}]).
Proof. done. Qed.

Lemma dll_New `{Zero V} h x :
  is_Some (h !! x) →
  ∃ h', New (Some x) h = Ok (Some {| head := Some (length h) |}, h') ∧
        dll h' (length h) [x] ∧
        length h' = S (length h) ∧
        evolves [x] h h' ∧
        valOf h' (length h) = Some zero ∧
        valOf h' x = valOf h x.
Proof.
  intros Ax. set (d := length h).
  set (h1 := h ++ [{| Next := Some x; Prev := Some x; Value := zero |}]).
  assert (x ≠ d) as Hxd by (apply alloc_lt in Ax; unfold d; lia).
  assert (is_Some (h1 !! x)) as Ax1 by (unfold h1; by rewrite lookup_alloc_old).
  assert (h1 !! d = Some {| Next := Some x; Prev := Some x; Value := zero |}) as Ed.
  { apply lookup_alloc_new. }
  exists (setPrev (setNext h1 x (Some d)) x (Some d)). split.
  { unfold New, bind, alloc. fold d. fold h1.
    rewrite assign_Next_eq by done.
    rewrite assign_Prev_eq by (by apply is_Some_setNext). done. }
  split; [|split; [|split; [|split]]].
  - split; [apply NoDup_cons; split; [set_solver|apply NoDup_singleton]|].
    simpl. split; split.
    + rewrite nextOf_setPrev, nextOf_setNext, decide_False by done.
      unfold nextOf. by rewrite Ed.
    + rewrite prevOf_setPrev, decide_True by done.
      apply (is_Some_setNext h1 x (Some d)) in Ax1 as [? ->]. done.
    + rewrite nextOf_setPrev, nextOf_setNext, decide_True by done.
      destruct Ax1 as [? ->]. done.
    + rewrite prevOf_setPrev, decide_False by done. rewrite prevOf_setNext.
      unfold prevOf. by rewrite Ed.
  - rewrite length_setPrev, length_setNext. unfold h1.
    rewrite length_app. simpl. lia.
  - split.
    + rewrite length_setPrev, length_setNext. unfold h1. rewrite length_app. lia.
    + intros c Hc Hcx.
      rewrite lookup_setPrev_ne, lookup_setNext_ne by set_solver.
      by apply lookup_alloc_old.
  - rewrite valOf_setPrev, valOf_setNext. apply valOf_app_new.
  - rewrite valOf_setPrev, valOf_setNext. unfold valOf, h1.
    by rewrite lookup_alloc_old.
Qed.

(** *** Traversal *)

Lemma values_cons h x l v :
  valOf h x = Some v → values h (x :: l) = v :: values h l.
Proof. intros E. unfold values. cbn [omap list_omap]. by rewrite E. Qed.

Lemma values_nil h : values h [] = [].
Proof. done. Qed.

Lemma values_ext h h' l :
  (∀ x, x ∈ l → valOf h' x = valOf h x) → values h' l = values h l.
Proof.
  induction l as [|x l IH]; intros Hv; [done|].
  assert (values h' l = values h l) as IH'.
  { apply IH. intros. apply Hv. set_solver. }
  unfold values in *. cbn [omap list_omap]. rewrite Hv by set_solver.
  by rewrite IH'.
Qed.

Lemma values_app h l1 l2 : values h (l1 ++ l2) = values h l1 ++ values h l2.
Proof. unfold values. apply omap_app. Qed.

Lemma values_length h l :
  (∀ x, x ∈ l → is_Some (h !! x)) → length (values h l) = length l.
Proof.
  induction l as [|x l IH]; intros Hv; [done|].
  destruct (Hv x ltac:(set_solver)) as [n E].
  rewrite (values_cons _ _ _ (Value n)) by (unfold valOf; by rewrite E).
  simpl. rewrite IH; [done|]. intros. apply Hv. set_solver.
Qed.

Lemma All_loop_seg {A} fuel h a l hd (yield : V → A → result (bool * A)) acc :
  seg h a l hd → hd ∉ l → (length l ≤ fuel)%nat →
  All_loop fuel h (Some hd) (Some (default hd (hd_error l))) yield acc
  = feed yield (values h l) acc.
Proof.
  revert fuel a acc. induction l as [|x l IH]; intros fuel a acc Hs Hhd Hf.
  - simpl. destruct fuel; simpl; by rewrite decide_True.
  - simpl in Hs. destruct Hs as [Hax Hs]. simpl in Hf.
    destruct fuel as [|fuel]; [lia|]. simpl.
    rewrite decide_False by (intros ?; simplify_eq; set_solver).
    pose proof (seg_first _ _ _ _ Hs) as Hn. unfold nextOf in Hn.
    destruct (h !! x) as [n|] eqn:En; [|done]. simpl in Hn.
    rewrite (load_eq _ _ _ En).
    rewrite (values_cons _ _ _ (Value n)) by (unfold valOf; by rewrite En).
    simpl. destruct (yield (Value n) acc) as [[[] acc']| |]; try done.
    assert (Next n = Some (default hd (hd_error l))) as -> by congruence.
    apply (IH _ x); [done|set_solver|lia].
Qed.

Lemma dll_All {A} fuel h hd l (yield : V → A → result (bool * A)) acc :
  dll h hd l → (length l ≤ fuel)%nat →
  All fuel (Some {| head := Some hd |}) h yield acc = feed yield (values h l) acc.
Proof.
  intros Hd Hf. pose proof (dll_head_notin _ _ _ Hd) as Hhd.
  destruct Hd as [_ Hs]. unfold All. simpl.
  pose proof (seg_first _ _ _ _ Hs) as Hn. unfold nextOf in Hn.
  destruct (h !! hd) as [n|] eqn:En; [|done]. simpl in Hn.
  rewrite (load_eq _ _ _ En).
  assert (Next n = Some (default hd (hd_error l))) as -> by congruence.
  by apply (All_loop_seg _ _ hd).
Qed.

Lemma dll_pred_ne h hd l1 x l2 :
  dll h hd (l1 ++ x :: l2) → default hd (last l1) ≠ x.
Proof.
  intros [Hnd _]. pose proof (default_last_elem hd l1) as Hin.
  revert Hnd Hin. generalize (default hd (last l1)). intros p.
  rewrite NoDup_cons, NoDup_app, NoDup_cons. clear. set_solver.
Qed.

Lemma dll_pred_alloc h hd l1 x l2 :
  dll h hd (l1 ++ x :: l2) → is_Some (h !! default hd (last l1)).
Proof.
  intros Hd. eapply dll_alloc; [exact Hd|].
  pose proof (default_last_elem hd l1) as Hin.
  revert Hin. generalize (default hd (last l1)). clear. set_solver.
Qed.

Lemma dll_elem_ne_head h hd l x : dll h hd l → x ∈ l → x ≠ hd.
Proof. intros Hd Hx ->. by eapply dll_head_notin. Qed.

End Fields.
End dll_facts.

(** ** The linked list as its callers see it *)

Module linkedlist_behaviour.
Import linkedlist dll dll_facts.

Section Lists.
Context {V : Type}.
Implicit Types (h : heap V) (hd x y : loc) (l : list loc).

Lemma dll_apart h hd l1 x l2 : dll h hd (l1 ++ x :: l2) → x ∉ hd :: l1 ++ l2.
Proof.
  intros [Hnd _]. apply NoDup_cons in Hnd as [Hhd Hnd].
  apply NoDup_app in Hnd as (_ & Hx & Hnd2). apply NoDup_cons in Hnd2 as [Hx2 _].
  rewrite elem_of_cons, elem_of_app. intros [->|[Hin|Hin]].
  - apply Hhd. apply elem_of_app. right. by left.
  - apply (Hx x Hin). by left.
  - done.
Qed.

(** [New(node)] makes a well-formed list that holds exactly
    [node]: [First] and [Last] answer [node], the dummy head
    carries the zero value, and no other node of the store is
    written. *)
Theorem New_singleton `{Zero V} h x :
  is_Some (h !! x) →
  ∃ h', New (Some x) h = Ok (Some {| head := Some (length h) |}, h') ∧
        dll h' (length h) [x] ∧
        valOf h' x = valOf h x ∧ valOf h' (length h) = Some zero ∧
        (∀ y, y ≠ x → is_Some (h !! y) → h' !! y = h !! y) ∧
        First (Some {| head := Some (length h) |}) h' = Ok (Some x, h') ∧
        Last (Some {| head := Some (length h) |}) h' = Ok (Some x, h').
Proof.
  intros Hx.
  destruct (dll_New h x Hx) as (h' & Hrun & Hd & Hlen & Hev & Hz & Hv).
  exists h'. split_and!; try done.
  - intros y Hne Hy. apply Hev; [done|]. by intros ->%list_elem_of_singleton.
  - by rewrite (dll_First _ _ _ Hd).
  - by rewrite (dll_Last _ _ _ Hd).
Qed.

(** [PushFront] puts a node that is in no list before all others:
    [First] then answers it; the values in the store stay. *)
Theorem PushFront_first h hd l x :
  dll h hd l → x ∉ hd :: l → is_Some (h !! x) →
  ∃ h', PushFront (Some {| head := Some hd |}) (Some x) h = Ok (tt, h') ∧
        dll h' hd (x :: l) ∧
        First (Some {| head := Some hd |}) h' = Ok (Some x, h') ∧
        (∀ y, valOf h' y = valOf h y) ∧ length h' = length h.
Proof.
  intros Hd Hx Ax.
  destruct (dll_PushFront h hd l x Hd Hx Ax) as (h' & Hrun & Hd' & Hlen & Hv & _).
  exists h'. split_and!; try done. by rewrite (dll_First _ _ _ Hd').
Qed.

(** [PushBack] puts a node that is in no list behind all others:
    [Last] then answers it; the values in the store stay. *)
Theorem PushBack_last h hd l x :
  dll h hd l → x ∉ hd :: l → is_Some (h !! x) →
  ∃ h', PushBack (Some {| head := Some hd |}) (Some x) h = Ok (tt, h') ∧
        dll h' hd (l ++ [x]) ∧
        Last (Some {| head := Some hd |}) h' = Ok (Some x, h') ∧
        (∀ y, valOf h' y = valOf h y) ∧ length h' = length h.
Proof.
  intros Hd Hx Ax.
  destruct (dll_PushBack h hd l x Hd Hx Ax) as (h' & Hrun & Hd' & Hlen & Hv & _).
  exists h'. split_and!; try done.
  rewrite (dll_Last _ _ _ Hd'). by rewrite last_snoc.
Qed.

(** [PutNodeBeforeAnotherNode] puts a node that is in no list
    directly before a node of the list. *)
Theorem PutNodeBeforeAnotherNode_inserts h hd l1 y l2 x :
  dll h hd (l1 ++ y :: l2) → x ∉ hd :: l1 ++ y :: l2 → is_Some (h !! x) →
  ∃ h', PutNodeBeforeAnotherNode (Some x) (Some y) h = Ok (tt, h') ∧
        dll h' hd (l1 ++ x :: y :: l2) ∧
        (∀ z, valOf h' z = valOf h z) ∧ length h' = length h.
Proof.
  intros Hd Hx Ax.
  destruct (dll_insert_before h hd l1 y l2 x Hd Hx Ax)
    as (h' & Hrun & Hd' & Hlen & Hv & _).
  by exists h'.
Qed.

(** [RemoveNode] takes a node out of its list and leaves the order
    of the others.  The node itself is not written: it keeps its
    links into the list. *)
Theorem RemoveNode_unlinks h hd l1 x l2 :
  dll h hd (l1 ++ x :: l2) →
  ∃ h', RemoveNode (Some x) h = Ok (tt, h') ∧
        dll h' hd (l1 ++ l2) ∧
        (∀ y, valOf h' y = valOf h y) ∧ h' !! x = h !! x.
Proof.
  intros Hd.
  destruct (dll_RemoveNode h hd l1 x l2 Hd) as (h' & Hrun & Hd' & Hrel).
  exists h'. split_and!; try done.
  - by destruct Hrel as (_ & Hv & _).
  - eapply relinked_lookup; [exact Hrel|]. by eapply dll_apart.
Qed.

(** [RemoveNode] followed by [PushFront] moves a node of the list
    to its front. *)
Theorem move_to_front h hd l1 x l2 :
  dll h hd (l1 ++ x :: l2) →
  ∃ h', (RemoveNode (Some x) ;; PushFront (Some {| head := Some hd |}) (Some x)) h
        = Ok (tt, h') ∧
        dll h' hd (x :: l1 ++ l2) ∧
        (∀ y, valOf h' y = valOf h y).
Proof.
  intros Hd.
  destruct (dll_RemoveNode h hd l1 x l2 Hd) as (h1 & Hrun1 & Hd1 & Hrel1).
  assert (is_Some (h1 !! x)) as Ax.
  { apply (relinked_alloc _ _ _ _ Hrel1). eapply dll_alloc; [exact Hd|].
    rewrite elem_of_cons, elem_of_app, elem_of_cons. tauto. }
  destruct (dll_PushFront h1 hd (l1 ++ l2) x Hd1 (dll_apart _ _ _ _ _ Hd) Ax)
    as (h' & Hrun2 & Hd' & Hrel2).
  exists h'. unfold bind. rewrite Hrun1. split_and!; try done.
  intros y. destruct Hrel1 as (_ & Hv1 & _), Hrel2 as (_ & Hv2 & _).
  by rewrite Hv2, Hv1.
Qed.

(** [All] hands the values of the nodes to the consumer, first to
    last, and stops when the consumer declines; it needs no more
    iterations than the list has nodes. *)
Theorem All_in_order {A} (fuel : nat) h hd l (yield : V → A → result (bool * A))
    (acc : A) :
  dll h hd l → (length l ≤ fuel)%nat →
  All fuel (Some {| head := Some hd |}) h yield acc = feed yield (values h l) acc ∧
  length (values h l) = length l.
Proof.
  intros Hd Hfuel. split; [by apply dll_All|].
  apply values_length. intros y Hy. eapply dll_alloc; [exact Hd|by right].
Qed.

(** Once its only node is removed, the list is empty: [First] and
    [Last] answer the dummy head, not nil, and [All] yields
    nothing. *)
Theorem emptied_list `{Zero V} h x :
  is_Some (h !! x) →
  ∃ h1 h2,
    New (Some x) h = Ok (Some {| head := Some (length h) |}, h1) ∧
    RemoveNode (Some x) h1 = Ok (tt, h2) ∧
    First (Some {| head := Some (length h) |}) h2 = Ok (Some (length h), h2) ∧
    Last (Some {| head := Some (length h) |}) h2 = Ok (Some (length h), h2) ∧
    valOf h2 (length h) = Some zero ∧
    ∀ A fuel (yield : V → A → result (bool * A)) acc,
      All fuel (Some {| head := Some (length h) |}) h2 yield acc = Ok acc.
Proof.
  intros Hx.
  destruct (dll_New h x Hx) as (h1 & Hrun & Hd & Hlen & Hev & Hz & Hv).
  destruct (dll_RemoveNode h1 (length h) [] x [] Hd) as (h2 & Hrun2 & Hd2 & Hrel).
  exists h1, h2. split_and!; try done.
  - by rewrite (dll_First _ _ _ Hd2).
  - by rewrite (dll_Last _ _ _ Hd2).
  - destruct Hrel as (_ & Hv2 & _). by rewrite Hv2.
  - intros A fuel yield acc.
    rewrite (dll_All _ _ _ _ yield acc Hd2); [done|simpl; lia].
Qed.

(** A node made by [NewNode] is in no list, and [RemoveNode] of it
    panics: its links are nil. *)
Theorem RemoveNode_unlinked_panics h (v : V) :
  ∃ h', NewNode v h = Ok (Some (length h), h') ∧
        RemoveNode (Some (length h)) h' = Panicked NilDereference.
Proof.
  eexists. split; [apply NewNode_eq|].
  unfold RemoveNode, bind.
  rewrite (load_eq _ _ _ (lookup_alloc_new h _)). done.
Qed.

End Lists.

(** The theorems at work on small stores. *)

Ltac by_evaluation :=
  first [ eexists; reflexivity
        | apply (bool_decide_unpack _); vm_compute; exact I
        | split; [apply (bool_decide_unpack _); vm_compute; exact I
                 |vm_compute; repeat split] ].

Lemma New_singleton_witness :
  ∃ h', New (Some 0%nat) one_node = Ok (Some {| head := Some 1%nat |}, h') ∧
        First (Some {| head := Some 1%nat |}) h' = Ok (Some 0%nat, h') ∧
        Last (Some {| head := Some 1%nat |}) h' = Ok (Some 0%nat, h').
Proof.
  destruct (New_singleton one_node 0 ltac:(by_evaluation))
    as (h' & H1 & _ & _ & _ & _ & H6 & H7).
  exists h'. exact (conj H1 (conj H6 H7)).
Defined.

Lemma PushFront_first_witness :
  ∃ h', PushFront (Some {| head := Some 2%nat |}) (Some 1%nat) two_nodes = Ok (tt, h') ∧
        dll h' 2 [1%nat; 0%nat] ∧
        First (Some {| head := Some 2%nat |}) h' = Ok (Some 1%nat, h').
Proof.
  destruct (PushFront_first two_nodes 2 [0%nat] 1 ltac:(by_evaluation)
              ltac:(by_evaluation) ltac:(by_evaluation))
    as (h' & H1 & H2 & H3 & _).
  exists h'. exact (conj H1 (conj H2 H3)).
Defined.

Lemma PushBack_last_witness :
  ∃ h', PushBack (Some {| head := Some 2%nat |}) (Some 1%nat) two_nodes = Ok (tt, h') ∧
        dll h' 2 [0%nat; 1%nat] ∧
        Last (Some {| head := Some 2%nat |}) h' = Ok (Some 1%nat, h').
Proof.
  destruct (PushBack_last two_nodes 2 [0%nat] 1 ltac:(by_evaluation)
              ltac:(by_evaluation) ltac:(by_evaluation))
    as (h' & H1 & H2 & H3 & _).
  exists h'. exact (conj H1 (conj H2 H3)).
Defined.

Lemma PutNodeBeforeAnotherNode_inserts_witness :
  ∃ h', PutNodeBeforeAnotherNode (Some 1%nat) (Some 0%nat) two_nodes = Ok (tt, h') ∧
        dll h' 2 [1%nat; 0%nat].
Proof.
  destruct (PutNodeBeforeAnotherNode_inserts two_nodes 2 [] 0 [] 1
              ltac:(by_evaluation) ltac:(by_evaluation) ltac:(by_evaluation))
    as (h' & H1 & H2 & _).
  exists h'. exact (conj H1 H2).
Defined.

Lemma RemoveNode_unlinks_witness :
  ∃ h', RemoveNode (Some 0%nat) both_listed = Ok (tt, h') ∧
        dll h' 2 [1%nat] ∧ h' !! 0%nat = both_listed !! 0%nat.
Proof.
  destruct (RemoveNode_unlinks both_listed 2 [1%nat] 0 [] ltac:(by_evaluation))
    as (h' & H1 & H2 & _ & H4).
  exists h'. exact (conj H1 (conj H2 H4)).
Defined.

Lemma move_to_front_witness :
  ∃ h', (RemoveNode (Some 0%nat) ;;
         PushFront (Some {| head := Some 2%nat |}) (Some 0%nat)) both_listed
        = Ok (tt, h') ∧
        dll h' 2 [0%nat; 1%nat].
Proof.
  destruct (move_to_front both_listed 2 [1%nat] 0 [] ltac:(by_evaluation))
    as (h' & H1 & H2 & _).
  exists h'. exact (conj H1 H2).
Defined.

Lemma All_in_order_witness :
  All 2 (Some {| head := Some 2%nat |}) both_listed
    (λ v acc, Ok (true, acc ++ [v])) []
  = feed (λ v acc, Ok (true, acc ++ [v])) (values both_listed [1%nat; 0%nat]) [] ∧
  values both_listed [1%nat; 0%nat] = [7; 5].
Proof.
  destruct (All_in_order (A := list Z) 2 both_listed 2 [1%nat; 0%nat]
              (λ v acc, Ok (true, acc ++ [v])) []
              ltac:(by_evaluation) ltac:(simpl; lia))
    as (H1 & _).
  split; [exact H1|reflexivity].
Defined.

Lemma emptied_list_witness :
  ∃ h1 h2,
    New (Some 0%nat) one_node = Ok (Some {| head := Some 1%nat |}, h1) ∧
    RemoveNode (Some 0%nat) h1 = Ok (tt, h2) ∧
    First (Some {| head := Some 1%nat |}) h2 = Ok (Some 1%nat, h2).
Proof.
  destruct (emptied_list one_node 0 ltac:(by_evaluation))
    as (h1 & h2 & H1 & H2 & H3 & _).
  exists h1, h2. exact (conj H1 (conj H2 H3)).
Defined.

End linkedlist_behaviour.

Module lfu_exec.
Import linkedlist dll dll_facts lfu lfu_inv.

#[global] Arguments wrap : simpl never.
#[global] Arguments int_add : simpl never.
#[global] Arguments int_sub : simpl never.

Lemma wrap_id z : is_int z → wrap z = z.
Proof.
  unfold is_int, int_min, int_max, wrap. intros Hz.
  rewrite Z.mod_small; lia.
Qed.

Lemma int_add_id a b : is_int (a + b) → int_add a b = a + b.
Proof. apply wrap_id. Qed.
Lemma int_sub_id a b : is_int (a - b) → int_sub a b = a - b.
Proof. apply wrap_id. Qed.

Lemma bind_Ok {S A B} (m : M S A) (k : A → M S B) s a s' :
  m s = Ok (a, s') → bind m k s = k a s'.
Proof. unfold bind. by intros ->. Qed.

Section Exec.
Context `{Countable K} {V : Type} `{!Zero K, !Zero V}.
Local Abbreviation world := (world (K := K) (V := V)).
Local Abbreviation CacheItem := (CacheItem (K := K) (V := V)).
Implicit Types (w : world) (i : heap CacheItem) (g : heap FrequencyGroup)
  (s : cacheImpl (K := K)).

Lemma load_val {T} (h : heap T) a v :
  valOf h a = Some v → ∃ n, h !! a = Some n ∧ Value n = v.
Proof.
  unfold valOf. destruct (h !! a) as [n|]; [|done]. intros; simplify_eq/=. eauto.
Qed.

Lemma setValue_set_Value {T} (h : heap T) a n v :
  h !! a = Some n → <[a := set_Value n v]> h = setValue h a v.
Proof. intros E. unfold setValue. by rewrite E. Qed.

Lemma exec_item_of {B} x c (k : CacheItem → M world B) i g s :
  valOf i x = Some c →
  bind (item_of (Some x)) k (mkWorld i g s) = k c (mkWorld i g s).
Proof.
  intros (n & E & <-)%load_val. unfold item_of, bind, onItems. simpl.
  by rewrite (load_eq _ _ _ E).
Qed.

Lemma exec_group_of {B} x c (k : FrequencyGroup → M world B) i g s :
  valOf g x = Some c →
  bind (group_of (Some x)) k (mkWorld i g s) = k c (mkWorld i g s).
Proof.
  intros (n & E & <-)%load_val. unfold group_of, bind, onGroups. simpl.
  by rewrite (load_eq _ _ _ E).
Qed.

Lemma exec_update_item {B} x c f (k : unit → M world B) i g s :
  valOf i x = Some c →
  bind (update_item (Some x) f) k (mkWorld i g s)
  = k tt (mkWorld (setValue i x (f c)) g s).
Proof.
  intros (n & E & <-)%load_val. unfold update_item, bind, onItems. simpl.
  rewrite (load_eq _ _ _ E). simpl. unfold store. rewrite E.
  unfold with_items. simpl. by rewrite (setValue_set_Value _ _ _ _ E).
Qed.

Lemma exec_update_group {B} x c f (k : unit → M world B) i g s :
  valOf g x = Some c →
  bind (update_group (Some x) f) k (mkWorld i g s)
  = k tt (mkWorld i (setValue g x (f c)) s).
Proof.
  intros (n & E & <-)%load_val. unfold update_group, bind, onGroups. simpl.
  rewrite (load_eq _ _ _ E). simpl. unfold store. rewrite E.
  unfold with_groups. simpl. by rewrite (setValue_set_Value _ _ _ _ E).
Qed.

Lemma exec_the_cache {B} (k : cacheImpl → M world B) i g s :
  bind the_cache k (mkWorld i g s) = k s (mkWorld i g s).
Proof. done. Qed.

Lemma exec_update_cache {B} f (k : unit → M world B) i g s :
  bind (update_cache f) k (mkWorld i g s) = k tt (mkWorld i g (f s)).
Proof. done. Qed.

Lemma exec_onItems {A B} (m : M (heap CacheItem) A) a i' (k : A → M world B) i g s :
  m i = Ok (a, i') →
  bind (onItems m) k (mkWorld i g s) = k a (mkWorld i' g s).
Proof. intros E. unfold bind, onItems. simpl. by rewrite E. Qed.

Lemma exec_onGroups {A B} (m : M (heap FrequencyGroup) A) a g' (k : A → M world B) i g s :
  m g = Ok (a, g') →
  bind (onGroups m) k (mkWorld i g s) = k a (mkWorld i g' s).
Proof. intros E. unfold bind, onGroups. simpl. by rewrite E. Qed.

Lemma exec_ret {A B} (a : A) (k : A → M world B) w :
  bind (ret a) k w = k a w.
Proof. done. Qed.

Lemma bind_assoc {S A B C} (m : M S A) (k1 : A → M S B) (k2 : B → M S C) (st : S) :
  bind (bind m k1) k2 st = bind m (λ a, bind (k1 a) k2) st.
Proof. unfold bind. by destruct (m st) as [[]| |]. Qed.

End Exec.
End lfu_exec.

Module lfu_paths.
Import linkedlist dll dll_facts lfu lfu_inv lfu_exec.

Lemma NoDup_sub {T} (l k : list T) : l ⊆+ k → NoDup k → NoDup l.
Proof. intros [k' E]%submseteq_Permutation. rewrite E. by intros [? _]%NoDup_app. Qed.

Lemma NoDup_notin {T} (l k : list T) x : x :: l ⊆+ k → NoDup k → x ∉ l.
Proof. intros Hs Hk. by eapply NoDup_cons_1_1, NoDup_sub. Qed.

Ltac fmap_norm :=
  repeat first [rewrite fmap_app | rewrite fmap_cons | rewrite fmap_nil]; simpl.

(** [NoDup l] from a hypothesis [NoDup k] with [l] a sub-multiset of [k]. *)
Ltac nodup_from H :=
  let H' := fresh in
  pose proof H as H'; revert H'; fmap_norm; intros H';
  first [ eapply NoDup_sub; [|exact H']; solve_submseteq
        | eapply NoDup_notin; [|exact H']; solve_submseteq ].

Ltac mem :=
  repeat first [rewrite elem_of_app | rewrite elem_of_cons | rewrite elem_of_nil];
  tauto.

#[global] Arguments entries : simpl never.
#[global] Arguments aview : simpl never.
#[global] Arguments label : simpl never.

Section Paths.
Context `{Countable K} {V : Type} `{!Zero K, !Zero V}.
Local Abbreviation world := (world (K := K) (V := V)).
Local Abbreviation CacheItem := (CacheItem (K := K) (V := V)).
Local Abbreviation cacheImpl := (cacheImpl (K := K)).
Implicit Types (w : world) (i : heap CacheItem) (gr : heap FrequencyGroup)
  (s : cacheImpl) (x y gh : loc) (g A B : gshape) (active idle : list gshape).

(** *** Families of inner lists *)

Lemma separate_sub (gs gs' : list gshape) :
  (∀ g, g ∈ gs' → g ∈ gs) → separate gs → separate gs'.
Proof. intros Hs Hsep g1 g2 y H1 H2. apply Hsep; by apply Hs. Qed.

Lemma inner_ok_sub i (gs gs' : list gshape) :
  (∀ g, g ∈ gs' → g ∈ gs) → inner_ok i gs → inner_ok i gs'.
Proof.
  intros Hs [Hd Hsep]. split; [|by eapply separate_sub].
  intros g Hg. by apply Hd, Hs.
Qed.

Lemma inner_ok_cons i A (rest : list gshape) :
  inner_ok i rest → dll i (g_head A) (g_items A) →
  (∀ g y, g ∈ rest → y ∈ fp A → y ∉ fp g) →
  inner_ok i (A :: rest).
Proof.
  intros [Hd Hsep] HA Hdis. split.
  - intros g [->|Hg]%elem_of_cons; [done|by apply Hd].
  - intros g1 g2 y [->|H1]%elem_of_cons [->|H2]%elem_of_cons Hy1 Hy2; try done.
    + by destruct (Hdis g2 y).
    + by destruct (Hdis g1 y).
    + by eapply Hsep.
Qed.

Lemma inner_ok_inv i A (rest : list gshape) :
  inner_ok i (A :: rest) → A ∉ rest →
  dll i (g_head A) (g_items A) ∧ inner_ok i rest ∧
  (∀ g y, g ∈ rest → y ∈ fp A → y ∉ fp g).
Proof.
  intros [Hd Hsep] HA. split; [apply Hd; by left|]. split.
  - split; [intros g Hg; apply Hd; by right|].
    eapply separate_sub; [|done]. intros g Hg. by right.
  - intros g y Hg Hy Hy'. apply HA.
    rewrite (Hsep A g y); [done|by left|by right|done|done].
Qed.

Lemma inner_ok_alloc i (gs : list gshape) g y :
  inner_ok i gs → g ∈ gs → y ∈ fp g → is_Some (i !! y).
Proof. intros [Hd _] Hg Hy. eapply dll_alloc; [by apply Hd|done]. Qed.

Lemma inner_evolves F i i' (gs : list gshape) :
  inner_ok i gs → evolves F i i' →
  (∀ g y, g ∈ gs → y ∈ fp g → y ∉ F) → inner_ok i' gs.
Proof.
  intros [Hd Hsep] He HF. split; [|done]. intros g Hg.
  eapply dll_evolves; [done| |by apply Hd]. intros y Hy. by eapply HF.
Qed.

Lemma inner_setValue i (gs : list gshape) x c :
  inner_ok i gs → inner_ok (setValue i x c) gs.
Proof.
  intros [Hd Hsep]. split; [|done]. intros g Hg. by apply dll_setValue, Hd.
Qed.

Lemma orphan_setValue i (gs : list gshape) x y c :
  orphan i gs x → orphan (setValue i y c) gs x.
Proof. intros [Ha Hn]. split; [by apply is_Some_setValue|done]. Qed.

Lemma orphan_sub i (gs gs' : list gshape) x :
  (∀ g, g ∈ gs' → g ∈ gs) → orphan i gs x → orphan i gs' x.
Proof. intros Hs [Ha Hn]. split; [done|]. intros g Hg. by apply Hn, Hs. Qed.

Lemma inner_alloc i (gs : list gshape) n :
  inner_ok i gs → inner_ok (i ++ [n]) gs ∧ orphan (i ++ [n]) gs (length i).
Proof.
  intros Hin. split.
  - eapply (inner_evolves []); [done|apply evolves_app|]. intros. apply not_elem_of_nil.
  - split; [rewrite lookup_alloc_new; eauto|].
    intros g Hg Hy. pose proof (inner_ok_alloc _ _ _ _ Hin Hg Hy) as Ha.
    apply alloc_lt in Ha. lia.
Qed.

Lemma inner_remove i A (rest : list gshape) I1 x I2 :
  inner_ok i (A :: rest) → A ∉ rest → g_items A = I1 ++ x :: I2 →
  let A' := mkShape (g_node A) (g_head A) (I1 ++ I2) in
  ∃ i', RemoveNode (Some x) i = Ok (tt, i') ∧
        relinked (fp A') i i' ∧
        inner_ok i' (A' :: rest) ∧ orphan i' (A' :: rest) x.
Proof.
  intros Hin HA HI A'.
  destruct (inner_ok_inv _ _ _ Hin HA) as (Hd & Hrest & Hdis).
  rewrite HI in Hd.
  destruct (dll_RemoveNode _ _ _ _ _ Hd) as (i' & E & Hd' & Hr).
  exists i'. split; [done|]. split; [done|].
  assert (∀ y, y ∈ fp A' → y ∈ fp A) as Hsub.
  { intros y. unfold fp. rewrite HI. simpl. clear. set_solver. }
  split.
  - apply inner_ok_cons; [|done|].
    + eapply inner_evolves; [done|by apply relinked_evolves|].
      intros g y Hg Hy Hy'. by eapply Hdis, Hy; [|apply Hsub].
    + intros g y Hg Hy. by apply Hdis, Hsub.
  - split.
    + eapply relinked_alloc; [done|]. eapply dll_alloc; [done|]. clear. set_solver.
    + intros g [->|Hg]%elem_of_cons.
      * destruct Hd as [Hnd _]. simpl. revert Hnd.
        rewrite !NoDup_cons, !NoDup_app, !NoDup_cons. clear. set_solver.
      * apply Hdis; [done|]. unfold fp. rewrite HI. clear. set_solver.
Qed.

Lemma inner_push i B (rest : list gshape) x :
  inner_ok i (B :: rest) → B ∉ rest → orphan i (B :: rest) x →
  let B' := mkShape (g_node B) (g_head B) (x :: g_items B) in
  ∃ i', PushFront (Some {| head := Some (g_head B) |}) (Some x) i = Ok (tt, i') ∧
        relinked (x :: fp B) i i' ∧ inner_ok i' (B' :: rest).
Proof.
  intros Hin HB [Ax Hx] B'.
  destruct (inner_ok_inv _ _ _ Hin HB) as (Hd & Hrest & Hdis).
  destruct (dll_PushFront _ _ _ x Hd) as (i' & E & Hd' & Hr); [|done|].
  { apply Hx. by left. }
  exists i'. split; [done|]. split; [done|].
  apply inner_ok_cons; [|done|].
  - eapply inner_evolves; [done|by apply relinked_evolves|].
    intros g y Hg Hy [->|Hy']%elem_of_cons.
    + apply (Hx g); [by right|done].
    + by eapply Hdis.
  - intros g y Hg Hy.
    assert (y = x ∨ y ∈ fp B) as [->|Hy'].
    { revert Hy. unfold fp. simpl. clear. set_solver. }
    + apply (Hx g). by right.
    + by eapply Hdis.
Qed.

Lemma inner_new i (gs : list gshape) x n :
  inner_ok i gs → orphan i gs x →
  let N := mkShape n (length i) [x] in
  ∃ i', linkedlist.New (Some x) i = Ok (Some {| head := Some (length i) |}, i') ∧
        evolves [x] i i' ∧ valOf i' x = valOf i x ∧
        valOf i' (length i) = Some zero ∧
        length i' = S (length i) ∧
        inner_ok i' (N :: gs).
Proof.
  intros Hin [Ax Hx] N.
  destruct (dll_New i x Ax) as (i' & E & Hd & HL & He & Hz & Hv).
  exists i'. split; [done|]. split; [done|]. split; [done|]. split; [done|].
  split; [done|].
  apply inner_ok_cons; [|done|].
  - eapply inner_evolves; [done..|]. intros g y Hg Hy Hy'%list_elem_of_singleton.
    subst. by apply (Hx g).
  - intros g y Hg Hy Hy'. unfold fp in Hy; simpl in Hy.
    apply elem_of_cons in Hy as [->|Hy%list_elem_of_singleton]; [|subst].
    + pose proof (inner_ok_alloc _ _ _ _ Hin Hg Hy') as Ha. apply alloc_lt in Ha. lia.
    + by apply (Hx g).
Qed.

Lemma inner_Last i (gs : list gshape) A :
  inner_ok i gs → A ∈ gs →
  Last (Some {| head := Some (g_head A) |}) i
  = Ok (Some (default (g_head A) (last (g_items A))), i).
Proof. intros [Hd _] HA. by apply dll_Last, Hd. Qed.

Lemma setValue_twice {T} (h : heap T) a v1 v2 :
  setValue (setValue h a v1) a v2 = setValue h a v2.
Proof.
  unfold setValue at 1. destruct (setValue h a v1 !! a) as [n|] eqn:E.
  - unfold setValue in *. destruct (h !! a) as [m|] eqn:Em.
    + rewrite list_insert_insert_eq.
      rewrite list_lookup_insert_eq in E by (by eapply lookup_lt_Some).
      by simplify_eq/=.
    + by rewrite Em in E.
  - unfold setValue in *. destruct (h !! a) as [m|] eqn:Em; [|done].
    rewrite list_lookup_insert_eq in E by (by eapply lookup_lt_Some). done.
Qed.

Lemma valOf_setValue_eq {T} (h : heap T) a v :
  is_Some (h !! a) → valOf (setValue h a v) a = Some v.
Proof. intros [n E]. rewrite valOf_setValue, decide_True by done. by rewrite E. Qed.

Lemma valOf_setValue_ne {T} (h : heap T) a v c :
  c ≠ a → valOf (setValue h a v) c = valOf h c.
Proof. intros. by rewrite valOf_setValue, decide_False. Qed.

Lemma valOf_alloc {T} (h : heap T) a : is_Some (valOf h a) → is_Some (h !! a).
Proof. apply valOf_is_Some. Qed.

Lemma valOf_alloc' {T} (h : heap T) a v : valOf h a = Some v → is_Some (h !! a).
Proof. intros E. apply valOf_is_Some. by rewrite E. Qed.

(** *** The outer list *)

Lemma same_frame_refl (gs : list gshape) : Forall2 same_frame gs gs.
Proof. induction gs; constructor; done. Qed.

Lemma same_frame_nodes (gs gs' : list gshape) :
  Forall2 same_frame gs gs' → g_node <$> gs = g_node <$> gs'.
Proof. induction 1 as [|???? [??]]; [done|]. rewrite !fmap_cons. congruence. Qed.

Lemma same_frame_elem (gs gs' : list gshape) g' :
  Forall2 same_frame gs gs' → g' ∈ gs' → ∃ g, g ∈ gs ∧ same_frame g g'.
Proof.
  induction 1 as [|a b ?? Hab ? IH]; [by intros ?%elem_of_nil|].
  intros [->|Hg]%elem_of_cons.
  - exists a. split; [by left|done].
  - destruct (IH Hg) as (g & ? & ?). exists g. split; [by right|done].
Qed.

Lemma outer_reshape gr gh active idle active' idle' :
  Forall2 same_frame active active' → Forall2 same_frame idle idle' →
  outer_ok gr gh active idle → outer_ok gr gh active' idle'.
Proof.
  intros Ha Hi (Hd & Hz & Hnd & Hb).
  pose proof (same_frame_nodes _ _ Ha) as Ea.
  pose proof (same_frame_nodes _ _ Hi) as Ei.
  split; [by rewrite <- Ea|]. split; [done|]. split.
  - rewrite fmap_app, <- Ea, <- Ei, <- fmap_app. done.
  - intros g' Hg'.
    destruct (same_frame_elem (active ++ idle) (active' ++ idle') g') as (g & Hg & [E1 E2]);
      [by apply Forall2_app|done|].
    destruct (Hb g Hg) as (G & HG & HL). exists G. by rewrite <- E1, <- E2.
Qed.

Lemma outer_alloc_node gr gh active idle g :
  outer_ok gr gh active idle → g ∈ active ++ idle → is_Some (gr !! g_node g).
Proof.
  intros (_ & _ & _ & Hb) Hg. destruct (Hb g Hg) as (G & HG & _).
  by eapply valOf_alloc'.
Qed.

Lemma outer_node_ne_dummy gr gh active idle g :
  outer_ok gr gh active idle → g ∈ active ++ idle → g_node g ≠ gh.
Proof.
  intros (_ & _ & Hnd & _) Hg E. apply NoDup_cons in Hnd as [Hgh _].
  apply Hgh. rewrite <- E. by apply list_elem_of_fmap_2.
Qed.

Lemma NoDup_fmap_inj {T U} (f : T → U) (l : list T) (a b : T) :
  NoDup (f <$> l) → a ∈ l → b ∈ l → f a = f b → a = b.
Proof.
  intros Hnd [n1 H1]%list_elem_of_lookup [n2 H2]%list_elem_of_lookup E.
  assert (n1 = n2); [|congruence].
  eapply NoDup_lookup; [exact Hnd| |]; rewrite list_lookup_fmap.
  - by rewrite H1.
  - rewrite H2. simpl. by rewrite E.
Qed.

Lemma outer_node_inj gr gh active idle g1 g2 :
  outer_ok gr gh active idle → g1 ∈ active ++ idle → g2 ∈ active ++ idle →
  g_node g1 = g_node g2 → g1 = g2.
Proof.
  intros (_ & _ & Hnd & _) H1 H2 E. apply NoDup_cons in Hnd as [_ Hnd].
  by eapply NoDup_fmap_inj.
Qed.

Lemma outer_setValue gr gh active idle n G G' :
  outer_ok gr gh active idle → n ≠ gh → valOf gr n = Some G →
  group_elementsList G' = group_elementsList G →
  outer_ok (setValue gr n G') gh active idle.
Proof.
  intros (Hd & Hz & Hnd & Hb) Hn HG HL.
  split; [by apply dll_setValue|]. split.
  { by rewrite valOf_setValue_ne. }
  split; [done|]. intros g Hg. destruct (Hb g Hg) as (G0 & HG0 & HL0).
  unfold bound. destruct (decide (g_node g = n)) as [E|E].
  - exists G'. rewrite E, valOf_setValue_eq by (by eapply valOf_alloc').
    split; [done|]. rewrite HL. congruence.
  - exists G0. by rewrite valOf_setValue_ne.
Qed.

Lemma outer_Last gr gh active idle :
  outer_ok gr gh active idle →
  Last (Some {| head := Some gh |}) gr
  = Ok (Some (default gh (last (g_node <$> active))), gr).
Proof. intros (Hd & _). by apply dll_Last. Qed.

Lemma outer_prev gr gh L1 A L2 idle :
  outer_ok gr gh (L1 ++ A :: L2) idle →
  prevOf gr (g_node A) = Some (Some (default gh (last (g_node <$> L1)))).
Proof.
  intros (Hd & _). rewrite fmap_app, fmap_cons in Hd. by eapply dll_prev.
Qed.

Lemma outer_pred gr gh L1 A L2 idle :
  outer_ok gr gh (L1 ++ A :: L2) idle →
  let pred := default gh (last (g_node <$> L1)) in
  pred ≠ g_node A ∧ is_Some (gr !! pred).
Proof.
  intros (Hd & _). rewrite fmap_app, fmap_cons in Hd. split.
  - by eapply dll_pred_ne.
  - by eapply dll_pred_alloc.
Qed.

Lemma outer_remove gr gh L1 A L2 idle :
  outer_ok gr gh (L1 ++ A :: L2) idle →
  ∃ gr', RemoveNode (Some (g_node A)) gr = Ok (tt, gr') ∧
         relinked (gh :: (g_node <$> L1 ++ L2)) gr gr' ∧
         outer_ok gr' gh (L1 ++ L2) (idle ++ [A]).
Proof.
  intros (Hd & Hz & Hnd & Hb). rewrite fmap_app, fmap_cons in Hd.
  destruct (dll_RemoveNode _ _ _ _ _ Hd) as (gr' & E & Hd' & Hr).
  rewrite <- fmap_app in Hd', Hr.
  exists gr'. split; [done|]. split; [done|]. split; [done|]. split.
  { by rewrite (relinked_valOf _ _ _ _ Hr). }
  split.
  - nodup_from Hnd.
  - intros g Hg. destruct (Hb g) as (G & HG & HL).
    { revert Hg. clear. mem. }
    exists G. by rewrite (relinked_valOf _ _ _ _ Hr).
Qed.

Lemma outer_link gr gh L1 L2 idle N :
  outer_ok gr gh (L1 ++ L2) idle →
  g_node N ∉ gh :: (g_node <$> (L1 ++ L2) ++ idle) →
  bound gr N →
  ∃ gr', PutNodeBeforeAnotherNode (Some (g_node N))
           (Some (default gh (hd_error (g_node <$> L2)))) gr = Ok (tt, gr') ∧
         relinked (g_node N :: gh :: (g_node <$> L1 ++ L2)) gr gr' ∧
         outer_ok gr' gh (L1 ++ N :: L2) idle.
Proof.
  intros (Hd & Hz & Hnd & Hb) HN HbN. rewrite fmap_app in Hd.
  assert (is_Some (gr !! g_node N)) as AN.
  { destruct HbN as (G & HG & _). by eapply valOf_alloc'. }
  destruct (dll_link _ _ _ _ (g_node N) Hd) as (gr' & E & Hd' & Hr); [|done|].
  { revert HN. fmap_norm. clear. mem. }
  rewrite <- fmap_app in Hr.
  exists gr'. split; [done|]. split; [done|].
  split; [by rewrite fmap_app, fmap_cons|]. split.
  { by rewrite (relinked_valOf _ _ _ _ Hr). }
  split.
  - assert (NoDup (g_node N :: gh :: (g_node <$> (L1 ++ L2) ++ idle))) as Hnd'.
    { by apply NoDup_cons. }
    nodup_from Hnd'.
  - intros g Hg. unfold bound. rewrite (relinked_valOf _ _ _ _ Hr).
    assert (g = N ∨ g ∈ (L1 ++ L2) ++ idle) as [->|Hg'].
    { revert Hg. clear. mem. }
    + done.
    + by apply Hb.
Qed.

Lemma outer_pop gr gh active idle I :
  outer_ok gr gh active (idle ++ [I]) →
  outer_ok gr gh active idle ∧
  (g_node I ∉ gh :: (g_node <$> (active ++ idle))) ∧ bound gr I.
Proof.
  intros (Hd & Hz & Hnd & Hb). split; [|split].
  - split; [done|]. split; [done|]. split.
    + nodup_from Hnd.
    + intros g Hg. apply Hb. revert Hg. clear. mem.
  - nodup_from Hnd.
  - apply Hb. clear. mem.
Qed.

Lemma outer_alloc gr gh active idle n :
  outer_ok gr gh active idle →
  outer_ok (gr ++ [n]) gh active idle ∧
  length gr ∉ gh :: (g_node <$> (active ++ idle)).
Proof.
  intros Hout. pose proof Hout as (Hd & Hz & Hnd & Hb).
  assert (∀ a, is_Some (gr !! a) → valOf (gr ++ [n]) a = valOf gr a) as Hv.
  { intros a Ha. unfold valOf. by rewrite lookup_alloc_old. }
  split.
  - split; [|split; [|split]].
    + eapply (dll_evolves []); [apply evolves_app| |done].
      intros. apply not_elem_of_nil.
    + rewrite Hv; [done|]. by eapply valOf_alloc'.
    + done.
    + intros g Hg. destruct (Hb g Hg) as (G & HG & HL). exists G.
      rewrite Hv; [done|]. by eapply valOf_alloc'.
  - intros [E|Hin]%elem_of_cons.
    + apply valOf_alloc', alloc_lt in Hz. lia.
    + apply list_elem_of_fmap in Hin as (g & E & Hg).
      pose proof (outer_alloc_node _ _ _ _ _ Hout Hg) as Ha.
      apply alloc_lt in Ha. lia.
Qed.

Lemma sized_frame gr gr' g :
  valOf gr' (g_node g) = valOf gr (g_node g) → sized gr g → sized gr' g.
Proof. intros E (G & HG & Hs). exists G. by rewrite E. Qed.

Lemma bound_frame gr gr' g :
  valOf gr' (g_node g) = valOf gr (g_node g) → bound gr g → bound gr' g.
Proof. intros E (G & HG & Hs). exists G. by rewrite E. Qed.

(** *** Reading the logical content *)

Lemma entries_ext w w' (l : list loc) :
  (∀ y, y ∈ l → itemAt w' y = itemAt w y) → entries w' l = entries w l.
Proof.
  induction l as [|y l IH]; intros Hv; [done|].
  assert (entries w' l = entries w l) as IH'.
  { apply IH. intros. apply Hv. by right. }
  unfold entries in *. cbn [omap list_omap]. rewrite Hv by (by left).
  by rewrite IH'.
Qed.

Lemma entries_cons w y l c :
  itemAt w y = Some c → entries w (y :: l) = (y, c) :: entries w l.
Proof. intros E. unfold entries. cbn [omap list_omap]. by rewrite E. Qed.

Lemma entries_app w (l1 l2 : list loc) :
  entries w (l1 ++ l2) = entries w l1 ++ entries w l2.
Proof. unfold entries. apply omap_app. Qed.

Lemma entries_nil w : entries w [] = [].
Proof. done. Qed.

Lemma aview_ext w w' (gs : list gshape) :
  (∀ g, g ∈ gs → label w' (g_node g) = label w (g_node g) ∧
                  ∀ y, y ∈ g_items g → itemAt w' y = itemAt w y) →
  aview w' gs = aview w gs.
Proof.
  intros Hg. unfold aview. apply list_fmap_ext. intros n g Hn.
  destruct (Hg g) as [Hl Hi]; [by eapply list_elem_of_lookup_2|].
  unfold aview_group. rewrite Hl. f_equal. by apply entries_ext.
Qed.

Lemma aview_app w (l1 l2 : list gshape) : aview w (l1 ++ l2) = aview w l1 ++ aview w l2.
Proof. unfold aview. apply fmap_app. Qed.

Lemma aview_cons w g (l : list gshape) : aview w (g :: l) = aview_group w g :: aview w l.
Proof. done. Qed.

Lemma label_val (w : world) n G :
  groupAt w n = Some G → label w n = group_frequency G.
Proof. unfold label. by intros ->. Qed.

(** An entry of one group is in no other group. *)
Lemma separate_notin (gs : list gshape) g A y :
  separate gs → g ∈ gs → A ∈ gs → g ≠ A → y ∈ fp A → y ∉ fp g.
Proof. intros Hsep Hg HA Hne Hy Hy'. apply Hne. by eapply Hsep. Qed.

Lemma items_in_fp g y : y ∈ g_items g → y ∈ fp g.
Proof. unfold fp. by right. Qed.

(** The shapes of a representation are pairwise different. *)
Lemma Rep_split_notin w gh L1 A L2 idle :
  Rep w gh (L1 ++ A :: L2) idle → A ∉ L1 ++ L2 ++ idle.
Proof.
  intros HR. destruct (rep_outer _ _ _ _ HR) as (_ & _ & Hnd & _).
  intros Hin. apply (list_elem_of_fmap_2 g_node) in Hin.
  revert Hin. change (g_node A ∉ g_node <$> L1 ++ L2 ++ idle).
  fmap_norm. nodup_from Hnd.
Qed.

Lemma Rep_group w gh active idle A :
  Rep w gh active idle → A ∈ active →
  ∃ G, groupAt w (g_node A) = Some G ∧
       group_elementsList G = Some {| head := Some (g_head A) |} ∧
       group_size G = Z.of_nat (length (g_items A)) ∧
       g_items A ≠ [] ∧
       dll (items w) (g_head A) (g_items A).
Proof.
  intros HR HA. destruct (rep_sized _ _ _ _ HR A HA) as (G & HG & Hs & Hne).
  destruct (rep_outer _ _ _ _ HR) as (_ & _ & _ & Hb).
  destruct (Hb A) as (G' & HG' & HL); [apply elem_of_app; by left|].
  assert (G' = G) as -> by congruence.
  exists G. split; [done|]. split; [done|]. split; [done|]. split; [done|].
  destruct (rep_inner _ _ _ _ HR) as [Hd _]. apply Hd. apply elem_of_app. by left.
Qed.

Lemma Rep_other_node w gh L1 A L2 idle g :
  Rep w gh (L1 ++ A :: L2) idle → g ∈ L1 ++ L2 ++ idle → g_node g ≠ g_node A.
Proof.
  intros HR Hg E. pose proof (Rep_split_notin _ _ _ _ _ _ HR) as Hn.
  apply Hn. replace A with g; [done|].
  eapply outer_node_inj; [apply (rep_outer _ _ _ _ HR)| | |done].
  - revert Hg. clear. mem.
  - clear. mem.
Qed.

Lemma Rep_other_item w gh L1 A L2 idle g y :
  Rep w gh (L1 ++ A :: L2) idle → g ∈ L1 ++ L2 ++ idle → y ∈ fp g → y ∉ fp A.
Proof.
  intros HR Hg Hy Hy'. pose proof (Rep_split_notin _ _ _ _ _ _ HR) as Hn.
  apply Hn. replace A with g; [done|].
  destruct (rep_inner _ _ _ _ HR) as [_ Hsep]. eapply Hsep; [| |done..].
  - revert Hg. clear. mem.
  - clear. mem.
Qed.

Lemma sized_setValue gr g n G G' :
  sized gr g → valOf gr n = Some G → group_size G' = group_size G →
  sized (setValue gr n G') g.
Proof.
  intros (G0 & HG0 & Hs & Hne) HG HS. unfold sized.
  destruct (decide (g_node g = n)) as [E|E].
  - exists G'. rewrite E, valOf_setValue_eq by (by eapply valOf_alloc').
    split; [done|]. split; [|done]. rewrite HS. congruence.
  - exists G0. by rewrite valOf_setValue_ne.
Qed.

(** *** Raising a frequency: the sole entry of its group, no group
    of the next frequency in front of it *)

Lemma bump_relabel w gh L1 A L2 idle x c G :
  let f := item_frequency c in
  let pred := default gh (last (g_node <$> L1)) in
  let c' := set_item_frequency (f + 1) c in
  Rep w gh (L1 ++ A :: L2) idle →
  g_items A = [x] →
  itemAt w x = Some c →
  index (freqToFreqGroupNode (self w)) f = Some (g_node A) →
  groupAt w (g_node A) = Some G →
  label w pred ≠ f + 1 →
  is_int (f + 1) →
  ∃ w', updateFreqAndMoveCacheItemNode (Some x) w = Ok (tt, w') ∧
        Rep w' gh (L1 ++ A :: L2) idle ∧
        self w' = set_freqToFreqGroupNode
                    (<[f + 1 := Some (g_node A)]>
                       (delete f (freqToFreqGroupNode (self w)))) (self w) ∧
        itemAt w' x = Some c' ∧
        aview w' (L1 ++ A :: L2)
        = aview w L1 ++ mkAGroup (g_node A) (f + 1) [(x, c')] :: aview w L2.
Proof.
  intros f pred c' HR HI Hc Hidx HG Hlab Hint. destruct w as [i gr s].
  assert (A ∈ L1 ++ A :: L2) as HA0 by (clear; mem).
  destruct (Rep_group _ _ _ _ _ HR HA0) as (G' & HG' & HL & Hsz & _ & HdA).
  assert (G' = G) as -> by congruence. clear HG'.
  rewrite HI in Hsz. simpl in Hsz.
  pose proof (rep_outer _ _ _ _ HR) as Hout.
  pose proof (outer_prev _ _ _ _ _ _ Hout) as Hprev. fold pred in Hprev.
  destruct (outer_pred _ _ _ _ _ _ Hout) as [Hpa Ap]. fold pred in Hpa, Ap.
  assert (∃ P, valOf gr pred = Some P) as [P HP].
  { apply valOf_is_Some in Ap. destruct Ap; eauto. }
  unfold label in Hlab. unfold groupAt, itemAt in *. simpl in *.
  rewrite HP in Hlab. simpl in Hlab.
  pose proof (valOf_alloc' _ _ _ HG) as AA.
  pose proof (valOf_alloc' _ _ _ Hc) as Ax.
  eexists. split.
  { unfold updateFreqAndMoveCacheItemNode.
    erewrite exec_item_of by done.
    rewrite exec_the_cache. fold f. rewrite Hidx.
    erewrite exec_update_group by done.
    erewrite exec_group_of by (by apply valOf_setValue_eq).
    simpl. rewrite Hsz. rewrite int_sub_id by (unfold is_int, int_min, int_max; lia).
    simpl. rewrite exec_update_cache.
    destruct (load_val _ _ _ (valOf_setValue_eq gr (g_node A)
                (set_group_size 0 G) AA)) as (n1 & En1 & Vn1).
    erewrite exec_onGroups by (by apply load_eq).
    assert (Prev n1 = Some pred) as ->.
    { pose proof (prevOf_setValue gr (g_node A) (set_group_size 0 G) (g_node A)) as Hp.
      unfold prevOf in Hp at 1. rewrite En1, Hprev in Hp. simpl in Hp. congruence. }
    erewrite exec_group_of by (rewrite valOf_setValue_ne by done; done).
    rewrite int_add_id by done.
    rewrite decide_False by done.
    erewrite exec_group_of by (by apply valOf_setValue_eq).
    simpl.
    erewrite exec_update_group by (by apply valOf_setValue_eq).
    rewrite exec_update_cache.
    rewrite setValue_twice.
    erewrite exec_update_group by (by apply valOf_setValue_eq).
    rewrite setValue_twice. simpl.
    rewrite int_add_id by (unfold is_int, int_min, int_max; lia).
    unfold update_item, bind, onItems. simpl.
    destruct (load_val _ _ _ Hc) as (nx & Enx & Vnx).
    rewrite (load_eq _ _ _ Enx). simpl. unfold store. rewrite Enx. unfold with_items. simpl.
    rewrite (setValue_set_Value _ _ _ _ Enx), Vnx. reflexivity. }
  set (G1 := set_group_size (0 + 1) (set_group_frequency (f + 1) (set_group_size 0 G))).
  assert (group_elementsList G1 = group_elementsList G) as HL1 by done.
  assert (group_size G1 = group_size G) as HS1 by (simpl; lia).
  assert (g_node A ≠ gh) as Hngh.
  { eapply outer_node_ne_dummy; [done|]. clear. mem. }
  split; [|split; [done|split]].
  - destruct HR as [R1 R2 R3 R4 R5 R6]. split; simpl in *; try done.
    + by eapply outer_setValue.
    + by apply inner_setValue.
    + intros g Hg. eapply sized_setValue; [by apply R5|done..].
  - simpl. by apply valOf_setValue_eq.
  - rewrite aview_app, aview_cons. f_equal; [|f_equal].
    + apply aview_ext. intros g Hg. split.
      * unfold label, groupAt. simpl. rewrite valOf_setValue_ne; [done|].
        eapply Rep_other_node; [done|]. revert Hg. clear. mem.
      * intros y Hy. unfold itemAt. simpl. rewrite valOf_setValue_ne; [done|].
        intros ->. eapply (Rep_other_item _ _ _ _ _ _ g x HR).
        -- revert Hg. clear. mem.
        -- by apply items_in_fp.
        -- apply items_in_fp. rewrite HI. by left.
    + unfold aview_group. f_equal.
      * unfold label, groupAt. simpl.
        rewrite valOf_setValue_eq by done. done.
      * rewrite HI. erewrite entries_cons; [done|].
        unfold itemAt. simpl. by apply valOf_setValue_eq.
    + apply aview_ext. intros g Hg. split.
      * unfold label, groupAt. simpl. rewrite valOf_setValue_ne; [done|].
        eapply Rep_other_node; [done|]. revert Hg. clear. mem.
      * intros y Hy. unfold itemAt. simpl. rewrite valOf_setValue_ne; [done|].
        intros ->. eapply (Rep_other_item _ _ _ _ _ _ g x HR).
        -- revert Hg. clear. mem.
        -- by apply items_in_fp.
        -- apply items_in_fp. rewrite HI. by left.
Qed.

Lemma Rep_NoDup w gh active idle : Rep w gh active idle → NoDup (active ++ idle).
Proof.
  intros HR. destruct (rep_outer _ _ _ _ HR) as (_ & _ & Hnd & _).
  apply NoDup_cons in Hnd as [_ Hnd]. by eapply NoDup_fmap_1.
Qed.

Lemma aview_keep w w' (gs : list gshape) (X Y : list loc) :
  (∀ y, y ∉ X → is_Some (items w !! y) → itemAt w' y = itemAt w y) →
  (∀ n, n ∉ Y → is_Some (groups w !! n) → label w' n = label w n) →
  (∀ g, g ∈ gs → (g_node g ∉ Y) ∧ is_Some (groups w !! g_node g) ∧
                  ∀ y, y ∈ g_items g → (y ∉ X) ∧ is_Some (items w !! y)) →
  aview w' gs = aview w gs.
Proof.
  intros HX HY Hg. apply aview_ext. intros g Hin.
  destruct (Hg g Hin) as (H1 & H2 & H3). split; [by apply HY|].
  intros y Hy. destruct (H3 y Hy). by apply HX.
Qed.

(** The groups other than a given set are untouched by what
    happens to the nodes of that set. *)
Lemma Rep_keep_cond w gh active idle (T : list gshape) (gs : list gshape) :
  Rep w gh active idle →
  (∀ g, g ∈ T → g ∈ active ++ idle) →
  (∀ g, g ∈ gs → g ∈ active ++ idle ∧ g ∉ T) →
  ∀ g, g ∈ gs →
    (g_node g ∉ (g_node <$> T)) ∧ is_Some (groups w !! g_node g) ∧
    ∀ y, y ∈ g_items g → (y ∉ (T ≫= fp)) ∧ is_Some (items w !! y).
Proof.
  intros HR HT Hgs g Hg. destruct (Hgs g Hg) as [Hin HnT].
  pose proof (rep_outer _ _ _ _ HR) as Hout.
  pose proof (rep_inner _ _ _ _ HR) as Hinn.
  split; [|split].
  - intros (t & E & Ht)%list_elem_of_fmap. apply HnT.
    replace g with t; [done|]. symmetry.
    eapply outer_node_inj; [done|done|by apply HT|done].
  - by eapply outer_alloc_node.
  - intros y Hy. split.
    + intros (t & Hyl & Ht)%list_elem_of_bind.
      apply HnT. replace g with t; [done|]. destruct Hinn as [_ Hsep].
      eapply Hsep; [by apply HT|done|done|by apply items_in_fp].
    + eapply inner_ok_alloc; [done|done|by apply items_in_fp].
Qed.

Lemma length_remove_middle {T} (l1 l2 : list T) a :
  Z.of_nat (length (l1 ++ a :: l2)) - 1 = Z.of_nat (length (l1 ++ l2)).
Proof. rewrite !length_app. simpl. lia. Qed.

Lemma is_int_small (n : nat) : Z.of_nat n ≤ int_max → is_int (Z.of_nat n).
Proof. unfold is_int, int_min, int_max. lia. Qed.

Lemma is_int_pred (n : nat) : Z.of_nat n ≤ int_max → is_int (Z.of_nat n - 1).
Proof. unfold is_int, int_min, int_max. lia. Qed.

Lemma load_prev {T} (h : heap T) a n p :
  h !! a = Some n → prevOf h a = Some p → Prev n = p.
Proof. unfold prevOf. intros ->. simpl. congruence. Qed.

(** *** Raising a frequency: a group of the next frequency is in
    front *)

Lemma bump_merge w gh L1 B A L2 idle I1 x I2 c GA GB :
  let f := item_frequency c in
  let c' := set_item_frequency (f + 1) c in
  let A' := mkShape (g_node A) (g_head A) (I1 ++ I2) in
  let B' := mkShape (g_node B) (g_head B) (x :: g_items B) in
  let Bv := mkAGroup (g_node B) (f + 1) ((x, c') :: entries w (g_items B)) in
  Rep w gh (L1 ++ B :: A :: L2) idle →
  g_items A = I1 ++ x :: I2 →
  itemAt w x = Some c →
  index (freqToFreqGroupNode (self w)) f = Some (g_node A) →
  groupAt w (g_node A) = Some GA →
  groupAt w (g_node B) = Some GB →
  group_frequency GB = f + 1 →
  is_int (f + 1) →
  Z.of_nat (length (g_items A)) ≤ int_max →
  Z.of_nat (length (g_items B)) + 1 ≤ int_max →
  ∃ w', updateFreqAndMoveCacheItemNode (Some x) w = Ok (tt, w') ∧
        itemAt w' x = Some c' ∧
        if decide (I1 ++ I2 = []) then
          Rep w' gh (L1 ++ B' :: L2) (idle ++ [A']) ∧
          self w' = set_freeNodesOfFreqGroups
                      (freeNodesOfFreqGroups (self w) ++ [Some (g_node A)])
                      (set_freqToFreqGroupNode
                         (delete f (freqToFreqGroupNode (self w))) (self w)) ∧
          aview w' (L1 ++ B' :: L2) = aview w L1 ++ Bv :: aview w L2
        else
          Rep w' gh (L1 ++ B' :: A' :: L2) idle ∧
          self w' = self w ∧
          aview w' (L1 ++ B' :: A' :: L2)
          = aview w L1 ++ Bv ::
              mkAGroup (g_node A) (label w (g_node A)) (entries w (I1 ++ I2)) ::
              aview w L2.
Proof.
  intros f c' A' B' Bv HR HI Hc Hidx HGA HGB HlB Hint HlenA HlenB.
  destruct w as [i gr s].
  assert (A ∈ L1 ++ B :: A :: L2) as HA0 by (clear; mem).
  assert (B ∈ L1 ++ B :: A :: L2) as HB0 by (clear; mem).
  destruct (Rep_group _ _ _ _ _ HR HA0) as (G' & HG' & HLA & HszA & _ & HdA).
  assert (G' = GA) as -> by congruence. clear HG'.
  destruct (Rep_group _ _ _ _ _ HR HB0) as (G' & HG' & HLB & HszB & _ & HdB).
  assert (G' = GB) as -> by congruence. clear HG'.
  pose proof (rep_outer _ _ _ _ HR) as Hout.
  pose proof (rep_inner _ _ _ _ HR) as Hinn.
  pose proof (Rep_NoDup _ _ _ _ HR) as Hnd.
  assert (prevOf gr (g_node A) = Some (Some (g_node B))) as Hprev.
  { pose proof (outer_prev gr gh (L1 ++ [B]) A L2 idle) as Hp.
    rewrite <- (assoc_L (++)) in Hp. specialize (Hp Hout).
    rewrite fmap_app in Hp. change (g_node <$> [B]) with [g_node B] in Hp.
    rewrite last_snoc in Hp. done. }
  assert (g_node B ≠ g_node A) as HBA.
  { intros E. assert (B = A) as EBA.
    { eapply outer_node_inj; [done| | |done]; clear; mem. }
    revert Hnd. rewrite EBA. clear. intros Hnd.
    assert (A ∉ [A]); [nodup_from Hnd|]. set_solver. }
  unfold groupAt, itemAt in *. simpl in *.
  pose proof (valOf_alloc' _ _ _ HGA) as AA.
  pose proof (valOf_alloc' _ _ _ HGB) as AB.
  pose proof (valOf_alloc' _ _ _ Hc) as Ax.
  (* the inner lists *)
  set (rest := L1 ++ L2 ++ idle).
  assert (inner_ok i (A :: B :: rest)) as Hinn0.
  { eapply inner_ok_sub; [|done]. intros g. unfold rest. clear. mem. }
  destruct (inner_remove i A (B :: rest) I1 x I2 Hinn0) as (i1 & E1 & Hr1 & Hinn1 & Ho1);
    [unfold rest; nodup_from Hnd|done|]. fold A' in Hr1, Hinn1, Ho1.
  assert (B ∉ A' :: rest) as HBrest.
  { intros [E|Hin]%elem_of_cons.
    - apply HBA. by rewrite E.
    - revert Hin. unfold rest. nodup_from Hnd. }
  assert (inner_ok i1 (B :: A' :: rest)) as Hinn1'.
  { eapply inner_ok_sub; [|done]. intros g. clear. mem. }
  destruct (inner_push i1 B (A' :: rest) x Hinn1' HBrest) as (i2 & E2 & Hr2 & Hinn2).
  { eapply orphan_sub; [|done]. intros g. clear. mem. }
  fold B' in Hinn2.
  assert (valOf i2 x = Some c) as Hc2.
  { by rewrite (relinked_valOf _ _ _ _ Hr2), (relinked_valOf _ _ _ _ Hr1). }
  pose proof (valOf_alloc' _ _ _ Hc2) as Ax2.
  (* the group nodes *)
  set (sA := Z.of_nat (length (I1 ++ I2))).
  assert (int_sub (group_size GA) 1 = sA) as HsA.
  { rewrite HszA, HI. rewrite int_sub_id.
    - apply length_remove_middle.
    - rewrite <- HI. by apply is_int_pred. }
  set (gr1 := setValue gr (g_node A) (set_group_size sA GA)).
  set (sB := Z.of_nat (length (x :: g_items B))).
  assert (int_add (group_size GB) 1 = sB) as HsB.
  { rewrite HszB. rewrite int_add_id.
    - unfold sB. simpl. lia.
    - unfold is_int, int_min, int_max in *. lia. }
  set (gr2 := setValue gr1 (g_node B) (set_group_size sB GB)).
  assert (valOf gr1 (g_node A) = Some (set_group_size sA GA)) as HA1.
  { by apply valOf_setValue_eq. }
  assert (valOf gr1 (g_node B) = Some GB) as HB1.
  { unfold gr1. by rewrite valOf_setValue_ne. }
  assert (valOf gr2 (g_node A) = Some (set_group_size sA GA)) as HA2.
  { unfold gr2. by rewrite valOf_setValue_ne. }
  assert (valOf gr2 (g_node B) = Some (set_group_size sB GB)) as HB2.
  { apply valOf_setValue_eq. by eapply valOf_alloc'. }
  destruct (load_val _ _ _ HA1) as (n1 & En1 & Vn1).
  assert (Prev n1 = Some (g_node B)) as Hn1.
  { eapply load_prev; [done|]. unfold gr1. by rewrite prevOf_setValue. }
  assert (outer_ok gr2 gh (L1 ++ B' :: A' :: L2) idle) as Hout2.
  { eapply (outer_reshape _ _ (L1 ++ B :: A :: L2) idle).
    - apply Forall2_app; [apply same_frame_refl|].
      constructor; [done|]. constructor; [done|]. apply same_frame_refl.
    - apply same_frame_refl.
    - eapply outer_setValue; [|eapply outer_node_ne_dummy; [exact Hout|]|exact HB1|done].
      + eapply outer_setValue; [done| |done|done].
        eapply outer_node_ne_dummy; [exact Hout|]. clear; mem.
      + clear; mem. }
  assert (sA = 0 ↔ I1 ++ I2 = []) as HsA0.
  { unfold sA. destruct (I1 ++ I2); simpl; split; (done || lia). }
  assert (∀ g, g ∈ L1 ++ L2 →
            (g_node g ∉ (g_node <$> [A; B])) ∧ is_Some (gr !! g_node g) ∧
            ∀ y, y ∈ g_items g → (y ∉ ([A; B] ≫= fp)) ∧ is_Some (i !! y)) as Hkeep.
  { apply (Rep_keep_cond _ _ _ _ [A; B] (L1 ++ L2) HR).
    - intros g. clear. mem.
    - intros g Hg. split; [revert Hg; clear; mem|].
      intros [->|[->|?%elem_of_nil]%elem_of_cons]%elem_of_cons; [| |done].
      + revert Hg. nodup_from Hnd.
      + revert Hg. nodup_from Hnd. }
  assert (relinked (x :: fp A ++ fp B) i i2) as Hr12.
  { eapply relinked_trans; (eapply relinked_mono; [|done]).
    - intros y. unfold fp, A'. simpl. rewrite HI. clear. mem.
    - intros y. unfold fp. clear. mem. }
  assert (∀ y, y ∉ ([A; B] ≫= fp) → is_Some (i !! y) →
            valOf (setValue i2 x c') y = valOf i y) as HkeepI.
  { intros y Hy _. rewrite valOf_setValue_ne.
    - by rewrite (relinked_valOf _ _ _ _ Hr12).
    - intros ->. apply Hy. apply list_elem_of_bind. exists A. split; [|by left].
      apply items_in_fp. rewrite HI. clear. mem. }
  assert (∀ gr0 s0, entries (mkWorld (setValue i2 x c') gr0 s0) (x :: g_items B)
          = (x, c') :: entries (mkWorld i gr s) (g_items B)) as HentB.
  { intros gr0 s0.
    erewrite entries_cons by (unfold itemAt; simpl; by apply valOf_setValue_eq).
    f_equal. apply entries_ext. intros y Hy. unfold itemAt. simpl.
    rewrite valOf_setValue_ne.
    - by rewrite (relinked_valOf _ _ _ _ Hr12).
    - intros ->. destruct Ho1 as [_ Ho1]. apply (Ho1 B); [clear; mem|].
      by apply items_in_fp. }
  destruct (decide (I1 ++ I2 = [])) as [Hemp|Hne].
  - (* the group of [x] empties and is detached *)
    assert (sA = 0) as HsA' by (by apply HsA0).
    destruct (outer_remove gr2 gh (L1 ++ [B']) A' L2 idle) as (gr3 & E3 & Hr3 & Hout3).
    { by rewrite <- (assoc_L (++)). }
    exists (mkWorld (setValue i2 x c') gr3
              (set_freeNodesOfFreqGroups
                 (freeNodesOfFreqGroups s ++ [Some (g_node A)])
                 (set_freqToFreqGroupNode (delete f (freqToFreqGroupNode s)) s))).
    split; [|split; [by apply valOf_setValue_eq|split; [|split; [done|]]]].
    + unfold updateFreqAndMoveCacheItemNode.
      erewrite exec_item_of by done.
      rewrite exec_the_cache. fold f. rewrite Hidx.
      erewrite exec_update_group by done. simpl. rewrite HsA. fold gr1.
      erewrite exec_group_of by done. simpl. rewrite HsA'. simpl.
      rewrite exec_update_cache.
      erewrite exec_onGroups by (by apply load_eq). rewrite Hn1.
      erewrite exec_group_of by done.
      rewrite int_add_id by done. rewrite decide_True by done.
      erewrite exec_onItems by done.
      rewrite HLB. erewrite exec_onItems by done.
      erewrite exec_onGroups by (by apply load_eq). rewrite Hn1.
      erewrite exec_update_group by done. simpl. rewrite HsB. fold gr2.
      erewrite exec_update_item by done. rewrite HlB. fold c'.
      erewrite exec_group_of by done. simpl. rewrite HsA'. simpl.
      erewrite exec_onGroups by done. done.
    + rewrite <- (assoc_L (++)) in Hout3. simpl in Hout3.
      destruct HR as [R1 R2 R3 R4 R5 R6]. split; simpl in *.
      * done.
      * rewrite R2. by rewrite fmap_app.
      * done.
      * apply inner_setValue. eapply inner_ok_sub; [|done].
        intros g. unfold rest. clear. mem.
      * intros g Hg.
        assert (g = B' ∨ g ∈ L1 ++ L2) as [->|Hg'] by (revert Hg; clear; mem).
        -- exists (set_group_size sB GB). split; [|done].
           by rewrite (relinked_valOf _ _ _ _ Hr3).
        -- destruct (Hkeep g Hg') as (Hn & _ & _).
           eapply sized_frame; [|apply R5; revert Hg'; clear; mem].
           rewrite (relinked_valOf _ _ _ _ Hr3). unfold gr2, gr1.
           rewrite !valOf_setValue_ne; [done| |]; intros E; apply Hn; rewrite E;
             clear; fmap_norm; mem.
      * intros g [Hg| ->%list_elem_of_singleton]%elem_of_app; [by apply R6|done].
    + rewrite !aview_app, aview_cons. f_equal; [|f_equal].
      * eapply (aview_keep _ _ _ ([A; B] ≫= fp) (g_node <$> [A; B])).
        -- done.
        -- intros n Hn _. unfold label, groupAt. simpl.
           rewrite (relinked_valOf _ _ _ _ Hr3). unfold gr2, gr1.
           rewrite !valOf_setValue_ne; [done| |]; intros ->; apply Hn; clear; fmap_norm; mem.
        -- intros g Hg. apply Hkeep. revert Hg. clear. mem.
      * unfold aview_group, Bv. f_equal.
        -- unfold label, groupAt. simpl. rewrite (relinked_valOf _ _ _ _ Hr3), HB2. done.
        -- apply HentB.
      * eapply (aview_keep _ _ _ ([A; B] ≫= fp) (g_node <$> [A; B])).
        -- done.
        -- intros n Hn _. unfold label, groupAt. simpl.
           rewrite (relinked_valOf _ _ _ _ Hr3). unfold gr2, gr1.
           rewrite !valOf_setValue_ne; [done| |]; intros ->; apply Hn; clear; fmap_norm; mem.
        -- intros g Hg. apply Hkeep. revert Hg. clear. mem.
  - (* the group of [x] keeps other entries *)
    assert (sA ≠ 0) as HsA' by (by rewrite HsA0).
    exists (mkWorld (setValue i2 x c') gr2 s).
    split; [|split; [by apply valOf_setValue_eq|split; [|split; [done|]]]].
    + unfold updateFreqAndMoveCacheItemNode.
      erewrite exec_item_of by done.
      rewrite exec_the_cache. fold f. rewrite Hidx.
      erewrite exec_update_group by done. simpl. rewrite HsA. fold gr1.
      erewrite exec_group_of by done. simpl.
      rewrite bool_decide_eq_false_2 by done. simpl. rewrite exec_ret.
      erewrite exec_onGroups by (by apply load_eq). rewrite Hn1.
      erewrite exec_group_of by done.
      rewrite int_add_id by done. rewrite decide_True by done.
      erewrite exec_onItems by done.
      rewrite HLB. erewrite exec_onItems by done.
      erewrite exec_onGroups by (by apply load_eq). rewrite Hn1.
      erewrite exec_update_group by done. simpl. rewrite HsB. fold gr2.
      erewrite exec_update_item by done. rewrite HlB. fold c'.
      erewrite exec_group_of by done. simpl.
      rewrite bool_decide_eq_false_2 by done. done.
    + destruct HR as [R1 R2 R3 R4 R5 R6]. split; simpl in *.
      * done.
      * done.
      * done.
      * apply inner_setValue. eapply inner_ok_sub; [|done].
        intros g. unfold rest. clear. mem.
      * intros g Hg.
        assert (g = B' ∨ g = A' ∨ g ∈ L1 ++ L2) as [->|[->|Hg']]
          by (revert Hg; clear; mem).
        -- exists (set_group_size sB GB). split; [|done]. done.
        -- exists (set_group_size sA GA). split; [done|]. split; [done|]. done.
        -- destruct (Hkeep g Hg') as (Hn & _ & _).
           eapply sized_frame; [|apply R5; revert Hg'; clear; mem].
           unfold gr2, gr1.
           rewrite !valOf_setValue_ne; [done| |]; intros E; apply Hn; rewrite E;
             clear; fmap_norm; mem.
      * done.
    + rewrite !aview_app, !aview_cons. f_equal; [|f_equal; [|f_equal]].
      * eapply (aview_keep _ _ _ ([A; B] ≫= fp) (g_node <$> [A; B])).
        -- done.
        -- intros n Hn _. unfold label, groupAt. simpl. unfold gr2, gr1.
           rewrite !valOf_setValue_ne; [done| |]; intros ->; apply Hn; clear; fmap_norm; mem.
        -- intros g Hg. apply Hkeep. revert Hg. clear. mem.
      * unfold aview_group, Bv. f_equal.
        -- unfold label, groupAt. simpl. rewrite HB2. done.
        -- apply HentB.
      * unfold aview_group. f_equal.
        -- unfold label, groupAt. simpl. by rewrite HA2, HGA.
        -- unfold A'. simpl. apply entries_ext. intros y Hy. unfold itemAt. simpl.
           rewrite valOf_setValue_ne.
           ++ by rewrite (relinked_valOf _ _ _ _ Hr12).
           ++ intros ->. destruct Ho1 as [_ Ho1]. apply (Ho1 A'); [clear; mem|].
              by apply items_in_fp.
      * eapply (aview_keep _ _ _ ([A; B] ≫= fp) (g_node <$> [A; B])).
        -- done.
        -- intros n Hn _. unfold label, groupAt. simpl. unfold gr2, gr1.
           rewrite !valOf_setValue_ne; [done| |]; intros ->; apply Hn; clear; fmap_norm; mem.
        -- intros g Hg. apply Hkeep. revert Hg. clear. mem.
Qed.

(** *** Getting a group node for one entry *)

Lemma lookup_last_index {T} (l : list T) a :
  (l ++ [a]) !! (length (l ++ [a]) - 1)%nat = Some a.
Proof.
  rewrite length_app. simpl.
  replace (length l + 1 - 1)%nat with (length l) by lia.
  by rewrite list_lookup_middle.
Qed.

Lemma take_last_index {T} (l : list T) a :
  take (length (l ++ [a]) - 1) (l ++ [a]) = l.
Proof.
  rewrite length_app. simpl.
  replace (length l + 1 - 1)%nat with (length l) by lia.
  by rewrite take_app_length.
Qed.

Lemma set_free_same s : set_freeNodesOfFreqGroups (freeNodesOfFreqGroups s) s = s.
Proof. by destruct s. Qed.

Lemma getNew_spec w gh active idle x c f' :
  let c' := set_item_frequency f' c in
  Rep w gh active idle →
  orphan (items w) (active ++ idle) x →
  itemAt w x = Some c →
  ∃ w' N idle',
    getNewFrequencyGroupNode (Some x) f' w = Ok (Some (g_node N), w') ∧
    g_items N = [x] ∧
    Rep w' gh active idle' ∧
    inner_ok (items w') (N :: active ++ idle') ∧
    (g_node N ∉ gh :: (g_node <$> (active ++ idle'))) ∧
    bound (groups w') N ∧ sized (groups w') N ∧
    label w' (g_node N) = f' ∧
    self w' = set_freeNodesOfFreqGroups ((λ g, Some (g_node g)) <$> idle') (self w) ∧
    itemAt w' x = Some c' ∧
    (∀ y, y ≠ x → is_Some (items w !! y) → itemAt w' y = itemAt w y) ∧
    (∀ g, g ∈ active → groupAt w' (g_node g) = groupAt w (g_node g)).
Proof.
  intros c' HR Ho Hc. destruct w as [i gr s].
  pose proof (rep_outer _ _ _ _ HR) as Hout.
  pose proof (rep_inner _ _ _ _ HR) as Hinn.
  pose proof (rep_free _ _ _ _ HR) as Hfree.
  unfold itemAt, groupAt in *. simpl in *.
  destruct (decide (idle = [])) as [->|Hne].
  - (* no unused node: a new one is made *)
    destruct (inner_new i (active ++ []) x (length gr) Hinn Ho)
      as (i1 & E1 & He1 & Hv1 & Hz1 & HL1 & Hinn1).
    set (N := mkShape (length gr) (length i) [x]) in *.
    set (GN := {| group_frequency := f';
                  group_elementsList := Some {| head := Some (length i) |};
                  group_size := 1 |}).
    set (gr1 := gr ++ [{| Next := nil; Prev := nil; Value := GN |}]).
    destruct (outer_alloc gr gh active [] {| Next := nil; Prev := nil; Value := GN |} Hout)
      as [Hout1 Hfresh]. fold gr1 in Hout1.
    assert (valOf gr1 (length gr) = Some GN) as HGN by apply valOf_app_new.
    assert (valOf i1 x = Some c) as Hc1 by congruence.
    exists (mkWorld (setValue i1 x c') gr1 s), N, [].
    split; [|split; [done|split; [|split; [|split; [done|split; [|split; [|split;
      [|split; [|split; [|split]]]]]]]]]].
    + unfold getNewFrequencyGroupNode. rewrite exec_the_cache.
      rewrite Hfree. simpl. unfold createFrequencyGroupNode.
      erewrite exec_onItems by done.
      erewrite exec_onGroups by (apply NewNode_eq).
      erewrite exec_update_item by done. done.
    + destruct HR as [R1 R2 R3 R4 R5 R6]. split; simpl in *; try done.
      * apply inner_setValue. eapply inner_ok_sub; [|done]. intros g. clear. mem.
      * intros g Hg. eapply sized_frame; [|by apply R5].
        unfold valOf, gr1. rewrite lookup_alloc_old; [done|].
        eapply outer_alloc_node; [done|]. revert Hg. clear. mem.
    + simpl. by apply inner_setValue.
    + exists GN. by split.
    + exists GN. by split.
    + unfold label, groupAt. simpl. by rewrite HGN.
    + simpl. simpl in Hfree. rewrite <- Hfree. by rewrite set_free_same.
    + simpl. apply valOf_setValue_eq. by eapply valOf_alloc'.
    + intros y Hy Ay. simpl. rewrite valOf_setValue_ne by done.
      destruct He1 as [_ He1]. unfold valOf. rewrite He1; [done|done|].
      by intros ?%list_elem_of_singleton.
    + intros g Hg. simpl. unfold valOf, gr1. rewrite lookup_alloc_old; [done|].
      eapply outer_alloc_node; [done|]. revert Hg. clear. mem.
  - (* an unused node is taken *)
    destruct (exists_last Hne) as (idle' & I & ->).
    destruct (outer_pop _ _ _ _ _ Hout) as (Hout' & HIfresh & (GI & HGI & HLI)).
    pose proof (Rep_NoDup _ _ _ _ HR) as Hnd.
    pose proof (rep_idle _ _ _ _ HR I ltac:(clear; mem)) as HIe.
    assert (inner_ok i (I :: active ++ idle')) as Hinn0.
    { eapply inner_ok_sub; [|done]. intros g. clear. mem. }
    destruct (inner_push i I (active ++ idle') x Hinn0) as (i1 & E1 & Hr1 & Hinn1).
    { nodup_from Hnd. }
    { eapply orphan_sub; [|done]. intros g. clear. mem. }
    rewrite HIe in Hinn1. set (N := mkShape (g_node I) (g_head I) [x]) in *.
    set (GN := set_group_frequency f' (set_group_size 1 GI)).
    set (gr1 := setValue gr (g_node I) GN).
    assert (is_Some (gr !! g_node I)) as AI by (by eapply valOf_alloc').
    assert (g_node I ≠ gh) as HIgh.
    { intros E. apply HIfresh. rewrite E. by left. }
    assert (valOf gr1 (g_node I) = Some GN) as HGN by (by apply valOf_setValue_eq).
    assert (valOf i1 x = Some c) as Hc1.
    { by rewrite (relinked_valOf _ _ _ _ Hr1). }
    assert (outer_ok gr1 gh active idle') as Hout1.
    { eapply outer_setValue; [done|done|done|done]. }
    exists (mkWorld (setValue i1 x c') gr1
              (set_freeNodesOfFreqGroups ((λ g, Some (g_node g)) <$> idle') s)), N, idle'.
    split; [|split; [done|split; [|split; [|split; [done|split; [|split; [|split;
      [|split; [|split; [|split]]]]]]]]]].
    + unfold getNewFrequencyGroupNode. rewrite exec_the_cache.
      rewrite Hfree, fmap_app. simpl.
      rewrite decide_False by (rewrite length_app; simpl; lia).
      rewrite lookup_last_index, take_last_index. simpl.
      rewrite exec_update_cache.
      erewrite exec_group_of by done. rewrite HLI.
      erewrite exec_onItems by done.
      erewrite exec_update_group by done.
      erewrite exec_update_group by (by apply valOf_setValue_eq).
      rewrite setValue_twice.
      erewrite exec_update_item by done. done.
    + destruct HR as [R1 R2 R3 R4 R5 R6]. split; simpl in *; try done.
      * apply inner_setValue. eapply inner_ok_sub; [|done]. intros g. clear. mem.
      * intros g Hg. eapply sized_frame; [|by apply R5].
        unfold gr1. rewrite valOf_setValue_ne; [done|].
        intros E. apply HIfresh. rewrite <- E. right.
        apply list_elem_of_fmap_2. revert Hg. clear. mem.
      * intros g Hg. apply R6. revert Hg. clear. mem.
    + simpl. by apply inner_setValue.
    + exists GN. by split.
    + exists GN. by split.
    + unfold label, groupAt. simpl. by rewrite HGN.
    + done.
    + simpl. apply valOf_setValue_eq. by eapply valOf_alloc'.
    + intros y Hy Ay. simpl. rewrite valOf_setValue_ne by done.
      by rewrite (relinked_valOf _ _ _ _ Hr1).
    + intros g Hg. simpl. unfold gr1. rewrite valOf_setValue_ne; [done|].
      intros E. apply HIfresh. rewrite <- E. right.
      apply list_elem_of_fmap_2. revert Hg. clear. mem.
Qed.

(** [Rep] does not depend on the entries' payloads, and depends on
    [l] only through the outer list and the free nodes. *)
Lemma Rep_set_item i gr s gh active idle x c :
  Rep (mkWorld i gr s) gh active idle →
  Rep (mkWorld (setValue i x c) gr s) gh active idle.
Proof.
  intros [R1 R2 R3 R4 R5 R6]. split; simpl in *; try done.
  by apply inner_setValue.
Qed.

Lemma Rep_set_self i gr s s' gh active idle :
  Rep (mkWorld i gr s) gh active idle →
  freqGroupsList s' = freqGroupsList s →
  freeNodesOfFreqGroups s' = freeNodesOfFreqGroups s →
  Rep (mkWorld i gr s') gh active idle.
Proof.
  intros [R1 R2 R3 R4 R5 R6] E1 E2. split; simpl in *; try done; congruence.
Qed.

(** *** Taking an entry out of a group that keeps others *)

Lemma Rep_detach i gr s gh L1 A L2 idle I1 x I2 GA :
  let A' := mkShape (g_node A) (g_head A) (I1 ++ I2) in
  let gr1 := setValue gr (g_node A)
               (set_group_size (Z.of_nat (length (I1 ++ I2))) GA) in
  Rep (mkWorld i gr s) gh (L1 ++ A :: L2) idle →
  g_items A = I1 ++ x :: I2 → I1 ++ I2 ≠ [] →
  valOf gr (g_node A) = Some GA →
  ∃ i1, RemoveNode (Some x) i = Ok (tt, i1) ∧
        relinked (fp A') i i1 ∧
        Rep (mkWorld i1 gr1 s) gh (L1 ++ A' :: L2) idle ∧
        orphan i1 ((L1 ++ A' :: L2) ++ idle) x.
Proof.
  intros A' gr1 HR HI Hne HGA.
  pose proof (rep_outer _ _ _ _ HR) as Hout.
  pose proof (rep_inner _ _ _ _ HR) as Hinn.
  pose proof (Rep_NoDup _ _ _ _ HR) as Hnd. simpl in *.
  set (rest := L1 ++ L2 ++ idle).
  assert (inner_ok i (A :: rest)) as Hinn0.
  { eapply inner_ok_sub; [|done]. intros g. unfold rest. clear. mem. }
  destruct (inner_remove i A rest I1 x I2 Hinn0) as (i1 & E1 & Hr1 & Hinn1 & Ho1);
    [unfold rest; nodup_from Hnd|done|]. fold A' in Hr1, Hinn1, Ho1.
  exists i1. split; [done|]. split; [done|]. split.
  - destruct HR as [R1 R2 R3 R4 R5 R6]. split; simpl in *; try done.
    + eapply (outer_reshape _ _ (L1 ++ A :: L2) idle).
      * apply Forall2_app; [apply same_frame_refl|].
        constructor; [done|]. apply same_frame_refl.
      * apply same_frame_refl.
      * eapply outer_setValue; [done| |done|done].
        eapply outer_node_ne_dummy; [exact Hout|]. clear; mem.
    + eapply inner_ok_sub; [|done]. intros g. unfold rest. clear. mem.
    + intros g Hg.
      assert (g = A' ∨ g ∈ L1 ++ L2) as [->|Hg'] by (revert Hg; clear; mem).
      * exists (set_group_size (Z.of_nat (length (I1 ++ I2))) GA).
        split; [|done]. apply valOf_setValue_eq. by eapply valOf_alloc'.
      * eapply sized_frame; [|apply R5; revert Hg'; clear; mem].
        unfold gr1. rewrite valOf_setValue_ne; [done|].
        eapply (Rep_other_node (mkWorld i gr s)); [by split|].
        revert Hg'. clear. mem.
  - eapply orphan_sub; [|done]. intros g. unfold rest. clear. mem.
Qed.

(** *** Putting a prepared group node into the outer list *)

Lemma PushBack_eq {T} p n :
  PushBack (V := T) (Some {| head := p |}) n = PutNodeBeforeAnotherNode n p.
Proof. reflexivity. Qed.

Lemma Rep_link w gh L1 L2 idle N :
  Rep w gh (L1 ++ L2) idle →
  inner_ok (items w) (N :: (L1 ++ L2) ++ idle) →
  g_node N ∉ gh :: (g_node <$> ((L1 ++ L2) ++ idle)) →
  bound (groups w) N → sized (groups w) N →
  ∃ gr', PutNodeBeforeAnotherNode (Some (g_node N))
           (Some (default gh (hd_error (g_node <$> L2)))) (groups w) = Ok (tt, gr') ∧
         (∀ n, valOf gr' n = valOf (groups w) n) ∧
         ∀ s', freqGroupsList s' = freqGroupsList (self w) →
               freeNodesOfFreqGroups s' = freeNodesOfFreqGroups (self w) →
               Rep (mkWorld (items w) gr' s') gh (L1 ++ N :: L2) idle.
Proof.
  intros HR Hinn HN Hb Hs. destruct w as [i gr s]. simpl in *.
  destruct (outer_link gr gh L1 L2 idle N (rep_outer _ _ _ _ HR) HN Hb)
    as (gr' & E & Hr & Hout').
  exists gr'. split; [done|]. split; [intros n; by eapply relinked_valOf|].
  intros s' E1 E2. destruct HR as [R1 R2 R3 R4 R5 R6]. split; simpl in *.
  - congruence.
  - congruence.
  - done.
  - eapply inner_ok_sub; [|done]. intros g. clear. mem.
  - intros g Hg. eapply sized_frame; [by eapply relinked_valOf|].
    assert (g = N ∨ g ∈ L1 ++ L2) as [->|Hg'] by (revert Hg; clear; mem); [done|].
    by apply R5.
  - done.
Qed.

Lemma index_insert (m : gmap Z (option nat)) f p : index (<[f := p]> m) f = p.
Proof. unfold index. by rewrite lookup_insert_eq. Qed.

(** *** Raising a frequency: the group keeps other entries and no
    group of the next frequency is in front *)

Lemma bump_split w gh L1 A L2 idle I1 x I2 c GA :
  let f := item_frequency c in
  let c' := set_item_frequency (f + 1) c in
  let A' := mkShape (g_node A) (g_head A) (I1 ++ I2) in
  let pred := default gh (last (g_node <$> L1)) in
  Rep w gh (L1 ++ A :: L2) idle →
  g_items A = I1 ++ x :: I2 → I1 ++ I2 ≠ [] →
  itemAt w x = Some c →
  index (freqToFreqGroupNode (self w)) f = Some (g_node A) →
  groupAt w (g_node A) = Some GA →
  label w pred ≠ f + 1 →
  is_int (f + 1) →
  Z.of_nat (length (g_items A)) ≤ int_max →
  ∃ w' N idle',
    updateFreqAndMoveCacheItemNode (Some x) w = Ok (tt, w') ∧
    g_items N = [x] ∧
    Rep w' gh (L1 ++ N :: A' :: L2) idle' ∧
    self w' = set_freqToFreqGroupNode
                (<[f + 1 := Some (g_node N)]> (freqToFreqGroupNode (self w)))
                (set_freeNodesOfFreqGroups ((λ g, Some (g_node g)) <$> idle') (self w)) ∧
    itemAt w' x = Some c' ∧
    aview w' (L1 ++ N :: A' :: L2)
    = aview w L1 ++ mkAGroup (g_node N) (f + 1) [(x, c')] ::
        mkAGroup (g_node A) (label w (g_node A)) (entries w (I1 ++ I2)) ::
        aview w L2.
Proof.
  intros f c' A' pred HR HI Hne Hc Hidx HGA Hlab Hint HlenA.
  destruct w as [i gr s].
  assert (A ∈ L1 ++ A :: L2) as HA0 by (clear; mem).
  destruct (Rep_group _ _ _ _ _ HR HA0) as (G' & HG' & HLA & HszA & _ & HdA).
  assert (G' = GA) as -> by congruence. clear HG'.
  pose proof (rep_outer _ _ _ _ HR) as Hout.
  pose proof (Rep_NoDup _ _ _ _ HR) as Hnd.
  pose proof (outer_prev _ _ _ _ _ _ Hout) as Hprev. fold pred in Hprev.
  destruct (outer_pred _ _ _ _ _ _ Hout) as [Hpa Ap]. fold pred in Hpa, Ap.
  assert (∃ P, valOf gr pred = Some P) as [P HP].
  { apply valOf_is_Some in Ap. destruct Ap; eauto. }
  unfold label in Hlab. unfold groupAt, itemAt in *. simpl in *.
  rewrite HP in Hlab. simpl in Hlab.
  set (sA := Z.of_nat (length (I1 ++ I2))).
  assert (int_sub (group_size GA) 1 = sA) as HsA.
  { rewrite HszA, HI. rewrite int_sub_id.
    - apply length_remove_middle.
    - rewrite <- HI. by apply is_int_pred. }
  assert (sA ≠ 0) as HsA'.
  { unfold sA. destruct (I1 ++ I2); [done|simpl; lia]. }
  destruct (Rep_detach i gr s gh L1 A L2 idle I1 x I2 GA HR HI Hne HGA)
    as (i1 & E1 & Hr1 & HR1 & Ho1).
  fold A' in Hr1, HR1, Ho1. fold sA in HR1.
  set (gr1 := setValue gr (g_node A) (set_group_size sA GA)) in *.
  assert (valOf i1 x = Some c) as Hc1 by (by rewrite (relinked_valOf _ _ _ _ Hr1)).
  destruct (getNew_spec (mkWorld i1 gr1 s) gh (L1 ++ A' :: L2) idle x c (f + 1)
              HR1 Ho1 Hc1)
    as ([i2 gr2 s2] & N & idle' & E2 & HNi & HR2 & Hinn2 & HNfresh & HbN & HsN
        & HlN & Hs2 & Hc2 & Hkeep2 & Hgkeep2).
  unfold itemAt, groupAt in *. simpl in *.
  destruct (Rep_link (mkWorld i2 gr2 s2) gh L1 (A' :: L2) idle' N HR2 Hinn2 HNfresh HbN HsN)
    as (gr3 & E3 & Hv3 & HR3).
  simpl in *.
  assert (valOf gr1 (g_node A) = Some (set_group_size sA GA)) as HA1.
  { apply valOf_setValue_eq. by eapply valOf_alloc'. }
  assert (valOf gr1 pred = Some P) as HP1.
  { unfold gr1. by rewrite valOf_setValue_ne. }
  destruct (load_val _ _ _ HA1) as (n1 & En1 & Vn1).
  assert (Prev n1 = Some pred) as Hn1.
  { eapply load_prev; [done|]. unfold gr1. by rewrite prevOf_setValue. }
  set (s3 := set_freqToFreqGroupNode
               (<[f + 1 := Some (g_node N)]> (freqToFreqGroupNode s2)) s2).
  exists (mkWorld i2 gr3 s3), N, idle'.
  split; [|split; [done|split; [|split; [|split; [done|]]]]].
  - unfold updateFreqAndMoveCacheItemNode.
    erewrite exec_item_of by done.
    rewrite exec_the_cache. fold f. rewrite Hidx.
    erewrite exec_update_group by done. simpl. rewrite HsA. fold gr1.
    erewrite exec_group_of by done. simpl.
    rewrite bool_decide_eq_false_2 by done. simpl. rewrite exec_ret.
    erewrite exec_onGroups by (by apply load_eq). rewrite Hn1.
    erewrite exec_group_of by done.
    rewrite int_add_id by done. rewrite decide_False by done.
    erewrite exec_group_of by done. simpl.
    rewrite decide_False by done.
    erewrite exec_onItems by done.
    erewrite bind_Ok by done.
    rewrite exec_update_cache. rewrite exec_the_cache. simpl.
    rewrite index_insert.
    unfold onGroups. simpl. rewrite E3. done.
  - apply HR3; done.
  - unfold s3. rewrite Hs2. done.
  - assert (∀ g, g ∈ L1 ++ L2 →
              (g_node g ∉ (g_node <$> [A])) ∧ is_Some (gr !! g_node g) ∧
              ∀ y, y ∈ g_items g → (y ∉ ([A] ≫= fp)) ∧ is_Some (i !! y)) as Hkeep.
    { apply (Rep_keep_cond _ _ _ _ [A] (L1 ++ L2) HR).
      - intros g. clear. mem.
      - intros g Hg. split; [revert Hg; clear; mem|].
        intros ->%list_elem_of_singleton. revert Hg. nodup_from Hnd. }
    assert (∀ y, y ≠ x → is_Some (i !! y) → valOf i2 y = valOf i y) as HkeepI.
    { intros y Hy Ay. rewrite Hkeep2; [|done|by eapply relinked_alloc].
      by rewrite (relinked_valOf _ _ _ _ Hr1). }
    assert (∀ g, g ∈ L1 ++ L2 → label (mkWorld i2 gr3 s3) (g_node g)
                                 = label (mkWorld i gr s) (g_node g)) as HkeepL.
    { intros g Hg. unfold label, groupAt. simpl. rewrite Hv3.
      rewrite Hgkeep2 by (revert Hg; clear; mem).
      unfold gr1. rewrite valOf_setValue_ne; [done|].
      destruct (Hkeep g Hg) as (Hn & _). intros E. apply Hn. rewrite E. clear.
      fmap_norm. mem. }
    assert (x ∈ fp A) as HxA.
    { apply items_in_fp. rewrite HI. clear. mem. }
    rewrite !aview_app, !aview_cons. f_equal; [|f_equal; [|f_equal]].
    + apply aview_ext. intros g Hg. split; [apply HkeepL; revert Hg; clear; mem|].
      intros y Hy. destruct (Hkeep g ltac:(revert Hg; clear; mem)) as (_ & _ & Hy').
      destruct (Hy' y Hy) as [Hy1 Hy2]. unfold itemAt. simpl. apply HkeepI; [|done].
      intros ->. apply Hy1. apply list_elem_of_bind. exists A. split; [done|by left].
    + unfold aview_group. f_equal.
      * unfold label, groupAt in *. simpl in *. by rewrite Hv3.
      * rewrite HNi. erewrite entries_cons; [done|]. done.
    + unfold aview_group. f_equal.
      * unfold label, groupAt. simpl. rewrite Hv3.
        pose proof (Hgkeep2 A' ltac:(clear; mem)) as HkA. simpl in HkA.
        by rewrite HkA, HA1, HGA.
      * unfold A'. simpl. apply entries_ext. intros y Hy. unfold itemAt. simpl.
        apply HkeepI.
        -- intros ->. destruct Ho1 as [_ Ho1]. apply (Ho1 A'); [clear; mem|].
           by apply items_in_fp.
        -- eapply dll_alloc; [exact HdA|]. rewrite HI. revert Hy. clear. mem.
    + apply aview_ext. intros g Hg. split; [apply HkeepL; revert Hg; clear; mem|].
      intros y Hy. destruct (Hkeep g ltac:(revert Hg; clear; mem)) as (_ & _ & Hy').
      destruct (Hy' y Hy) as [Hy1 Hy2]. unfold itemAt. simpl. apply HkeepI; [|done].
      intros ->. apply Hy1. apply list_elem_of_bind. exists A. split; [done|by left].
Qed.

(** *** Putting a new key into a full cache *)

(** What every eviction begins with: the victim is the last entry
    of the last group; its key leaves the key map and the node takes
    the new key and value. *)
Lemma evict_facts i gr s gh L1 Mg idle I1 x GM :
  Rep (mkWorld i gr s) gh (L1 ++ [Mg]) idle →
  g_items Mg = I1 ++ [x] →
  valOf gr (g_node Mg) = Some GM →
  freqGroupsList s = Some {| head := Some gh |} ∧
  Last (Some {| head := Some gh |}) gr = Ok (Some (g_node Mg), gr) ∧
  group_elementsList GM = Some {| head := Some (g_head Mg) |} ∧
  Last (Some {| head := Some (g_head Mg) |}) i = Ok (Some x, i) ∧
  group_size GM = Z.of_nat (length (g_items Mg)) ∧
  is_Some (i !! x) ∧ g_node Mg ≠ gh.
Proof.
  intros HR HI HGM.
  assert (Mg ∈ L1 ++ [Mg]) as HM0 by (clear; mem).
  destruct (Rep_group _ _ _ _ _ HR HM0) as (G' & HG' & HLM & HszM & _ & HdM).
  unfold groupAt in HG'. simpl in *.
  assert (G' = GM) as -> by congruence. clear HG'.
  pose proof (rep_outer _ _ _ _ HR) as Hout. simpl in Hout.
  pose proof (outer_Last _ _ _ _ Hout) as HLast.
  rewrite fmap_app in HLast. change (g_node <$> [Mg]) with [g_node Mg] in HLast.
  rewrite last_snoc in HLast. simpl in HLast.
  split; [apply (rep_list _ _ _ _ HR)|]. split; [done|]. split; [done|].
  split; [|split; [done|split]].
  - rewrite (dll_Last _ _ _ HdM), HI, last_snoc. done.
  - eapply dll_alloc; [done|]. rewrite HI. clear. mem.
  - eapply outer_node_ne_dummy; [done|]. clear. mem.
Qed.

Ltac run_evict_begin Hlist HLast HGM HLM HLastI Hc Ax :=
  rewrite Hlist;
  rewrite ?bind_assoc; erewrite exec_onGroups by exact HLast;
  rewrite ?bind_assoc; erewrite exec_group_of by exact HGM;
  rewrite HLM; rewrite ?bind_assoc; erewrite exec_onItems by exact HLastI;
  rewrite ?bind_assoc; erewrite exec_item_of by exact Hc;
  rewrite ?bind_assoc; rewrite exec_update_cache;
  rewrite ?bind_assoc; erewrite exec_update_item by exact Hc;
  rewrite ?bind_assoc; erewrite exec_update_item by (by apply valOf_setValue_eq);
  rewrite setValue_twice; rewrite ?bind_assoc.

(** The victim is alone in a group of frequency other than 1: the
    group is relabelled. *)
Lemma put_evict_relabel w gh L1 Mg idle x c GM key value :
  let c1 := evicted key value c in
  Rep w gh (L1 ++ [Mg]) idle →
  g_items Mg = [x] →
  itemAt w x = Some c →
  groupAt w (g_node Mg) = Some GM →
  keyToCacheItem (self w) !! key = None →
  size (self w) = capacity (self w) →
  group_frequency GM ≠ 1 →
  ∃ w', Put key value w = Ok (tt, w') ∧
        Rep w' gh (L1 ++ [Mg]) idle ∧
        freqToFreqGroupNode (self w')
          = <[1 := Some (g_node Mg)]> (freqToFreqGroupNode (self w)) ∧
        keyToCacheItem (self w')
          = <[key := Some x]> (delete (item_key c) (keyToCacheItem (self w))) ∧
        size (self w') = size (self w) ∧ capacity (self w') = capacity (self w) ∧
        aview w' (L1 ++ [Mg]) = aview w L1 ++ [mkAGroup (g_node Mg) 1 [(x, c1)]].
Proof.
  intros c1 HR HI Hc HGM Hkey Hfull Hlab. destruct w as [i gr s].
  unfold itemAt, groupAt in *. simpl in *.
  destruct (evict_facts i gr s gh L1 Mg idle [] x GM HR HI HGM)
    as (Hlist & HLast & HLM & HLastI & HszM & Ax & HMgh).
  rewrite HI in HszM. simpl in HszM.
  pose proof (valOf_alloc' _ _ _ HGM) as AM.
  eexists. split.
  { unfold Put. rewrite exec_the_cache. rewrite Hkey.
    rewrite decide_True by done. rewrite ?bind_assoc.
    run_evict_begin Hlist HLast HGM HLM HLastI Hc Ax.
    rewrite ?bind_assoc.
    erewrite exec_group_of by done.
    rewrite decide_True by done. rewrite ?bind_assoc.
    erewrite exec_group_of by done.
    rewrite decide_True by done. rewrite ?bind_assoc.
    erewrite exec_update_group by done.
    rewrite ?bind_assoc. rewrite exec_update_cache. rewrite exec_ret.
    reflexivity. }
  split; [|split; [done|split; [done|split; [done|split; [done|]]]]].
  - destruct HR as [R1 R2 R3 R4 R5 R6]. split; simpl in *; try done.
    + by eapply outer_setValue.
    + by apply inner_setValue.
    + intros g Hg. eapply sized_setValue; [by apply R5|done..].
  - assert (∀ g, g ∈ L1 →
              (g_node g ∉ (g_node <$> [Mg])) ∧ is_Some (gr !! g_node g) ∧
              ∀ y, y ∈ g_items g → (y ∉ ([Mg] ≫= fp)) ∧ is_Some (i !! y)) as Hkeep.
    { pose proof (Rep_NoDup _ _ _ _ HR) as Hnd.
      apply (Rep_keep_cond _ _ _ _ [Mg] L1 HR).
      - intros g. clear. mem.
      - intros g Hg. split; [revert Hg; clear; mem|].
        intros ->%list_elem_of_singleton. revert Hg. nodup_from Hnd. }
    rewrite aview_app. f_equal.
    + eapply (aview_keep _ _ _ ([Mg] ≫= fp) (g_node <$> [Mg])); [| |done].
      * intros y Hy _. unfold itemAt. simpl. rewrite valOf_setValue_ne; [done|].
        intros ->. apply Hy. apply list_elem_of_bind. exists Mg. split; [|by left].
        apply items_in_fp. rewrite HI. by left.
      * intros n Hn _. unfold label, groupAt. simpl.
        rewrite valOf_setValue_ne; [done|]. intros ->. apply Hn. by left.
    + unfold aview, aview_group. simpl. f_equal. f_equal.
      * unfold label, groupAt. simpl. by rewrite valOf_setValue_eq.
      * rewrite HI. erewrite entries_cons; [done|].
        unfold itemAt. simpl. by apply valOf_setValue_eq.
Qed.

Lemma keep_one w gh L1 Mg L2 idle :
  Rep w gh (L1 ++ Mg :: L2) idle →
  ∀ g, g ∈ L1 ++ L2 →
    (g_node g ∉ (g_node <$> [Mg])) ∧ is_Some (groups w !! g_node g) ∧
    ∀ y, y ∈ g_items g → (y ∉ ([Mg] ≫= fp)) ∧ is_Some (items w !! y).
Proof.
  intros HR. pose proof (Rep_NoDup _ _ _ _ HR) as Hnd.
  apply (Rep_keep_cond _ _ _ _ [Mg] (L1 ++ L2) HR).
  - intros g. clear. mem.
  - intros g Hg. split; [revert Hg; clear; mem|].
    intros ->%list_elem_of_singleton. revert Hg. nodup_from Hnd.
Qed.

Lemma in_bind_one Mg y : y ∈ fp Mg → y ∈ [Mg] ≫= fp.
Proof. intros Hy. apply list_elem_of_bind. exists Mg. split; [done|by left]. Qed.

(** The victim is alone in the group of frequency 1: it stays. *)
Lemma put_evict_stay w gh L1 Mg idle x c GM key value :
  let c1 := evicted key value c in
  Rep w gh (L1 ++ [Mg]) idle →
  g_items Mg = [x] →
  itemAt w x = Some c →
  groupAt w (g_node Mg) = Some GM →
  keyToCacheItem (self w) !! key = None →
  size (self w) = capacity (self w) →
  group_frequency GM = 1 →
  ∃ w', Put key value w = Ok (tt, w') ∧
        Rep w' gh (L1 ++ [Mg]) idle ∧
        freqToFreqGroupNode (self w') = freqToFreqGroupNode (self w) ∧
        keyToCacheItem (self w')
          = <[key := Some x]> (delete (item_key c) (keyToCacheItem (self w))) ∧
        size (self w') = size (self w) ∧ capacity (self w') = capacity (self w) ∧
        aview w' (L1 ++ [Mg]) = aview w L1 ++ [mkAGroup (g_node Mg) 1 [(x, c1)]].
Proof.
  intros c1 HR HI Hc HGM Hkey Hfull Hlab. destruct w as [i gr s].
  unfold itemAt, groupAt in *. simpl in *.
  destruct (evict_facts i gr s gh L1 Mg idle [] x GM HR HI HGM)
    as (Hlist & HLast & HLM & HLastI & HszM & Ax & HMgh).
  rewrite HI in HszM. simpl in HszM.
  pose proof (valOf_alloc' _ _ _ HGM) as AM.
  pose proof (keep_one _ _ _ _ [] _ HR) as Hkeep. rewrite app_nil_r in Hkeep.
  eexists. split.
  { unfold Put. rewrite exec_the_cache. rewrite Hkey.
    rewrite decide_True by done. rewrite ?bind_assoc.
    run_evict_begin Hlist HLast HGM HLM HLastI Hc Ax.
    erewrite exec_group_of by done.
    rewrite decide_False by (intros ?; done). rewrite ?bind_assoc.
    erewrite exec_group_of by done.
    rewrite decide_False by (intros ?; done). rewrite ?bind_assoc.
    rewrite exec_ret. rewrite exec_ret.
    reflexivity. }
  split; [|split; [done|split; [done|split; [done|split; [done|]]]]].
  - destruct HR as [R1 R2 R3 R4 R5 R6]. split; simpl in *; try done.
    by apply inner_setValue.
  - rewrite aview_app. f_equal.
    + eapply (aview_keep _ _ _ ([Mg] ≫= fp) (g_node <$> [Mg])); [| |done].
      * intros y Hy _. unfold itemAt. simpl. rewrite valOf_setValue_ne; [done|].
        intros ->. apply Hy, in_bind_one, items_in_fp. rewrite HI. by left.
      * done.
    + unfold aview, aview_group. simpl. f_equal. f_equal.
      * unfold label, groupAt. simpl. by rewrite HGM.
      * rewrite HI. erewrite entries_cons; [done|].
        unfold itemAt. simpl. by apply valOf_setValue_eq.
Qed.

(** The victim is the oldest of several entries of frequency 1: it
    becomes the most recent of its group. *)
Lemma put_evict_front w gh L1 Mg idle I1 x c GM key value :
  let c1 := evicted key value c in
  let M' := mkShape (g_node Mg) (g_head Mg) (x :: I1) in
  Rep w gh (L1 ++ [Mg]) idle →
  g_items Mg = I1 ++ [x] → I1 ≠ [] →
  itemAt w x = Some c →
  groupAt w (g_node Mg) = Some GM →
  keyToCacheItem (self w) !! key = None →
  size (self w) = capacity (self w) →
  group_frequency GM = 1 →
  ∃ w', Put key value w = Ok (tt, w') ∧
        Rep w' gh (L1 ++ [M']) idle ∧
        freqToFreqGroupNode (self w') = freqToFreqGroupNode (self w) ∧
        keyToCacheItem (self w')
          = <[key := Some x]> (delete (item_key c) (keyToCacheItem (self w))) ∧
        size (self w') = size (self w) ∧ capacity (self w') = capacity (self w) ∧
        aview w' (L1 ++ [M'])
        = aview w L1 ++
            [mkAGroup (g_node Mg) 1 ((x, set_item_frequency 1 c1) :: entries w I1)].
Proof.
  intros c1 M' HR HI HI1 Hc HGM Hkey Hfull Hlab. destruct w as [i gr s].
  unfold itemAt, groupAt in *. simpl in *.
  destruct (evict_facts i gr s gh L1 Mg idle I1 x GM HR HI HGM)
    as (Hlist & HLast & HLM & HLastI & HszM & Ax & HMgh).
  pose proof (valOf_alloc' _ _ _ HGM) as AM.
  pose proof (keep_one _ _ _ _ [] _ HR) as Hkeep. rewrite app_nil_r in Hkeep.
  pose proof (Rep_NoDup _ _ _ _ HR) as Hnd.
  pose proof (rep_inner _ _ _ _ HR) as Hinn. simpl in Hinn.
  set (i0 := setValue i x c1).
  set (rest := L1 ++ idle).
  assert (inner_ok i0 (Mg :: rest)) as Hinn0.
  { apply inner_setValue. eapply inner_ok_sub; [|done].
    intros g. unfold rest. clear. mem. }
  destruct (inner_remove i0 Mg rest I1 x [] Hinn0) as (i1 & E1 & Hr1 & Hinn1 & Ho1);
    [unfold rest; nodup_from Hnd|done|].
  rewrite app_nil_r in Hr1, Hinn1, Ho1.
  set (M1 := mkShape (g_node Mg) (g_head Mg) I1) in *.
  destruct (inner_push i1 M1 rest x Hinn1) as (i2 & E2 & Hr2 & Hinn2); [|done|].
  { intros Hin. apply (list_elem_of_fmap_2 g_node) in Hin. simpl in Hin.
    revert Hin. unfold rest. fmap_norm.
    destruct (rep_outer _ _ _ _ HR) as (_ & _ & Hnd' & _). nodup_from Hnd'. }
  simpl in E2, Hr2, Hinn2. fold M' in Hinn2.
  assert (valOf i0 x = Some c1) as Hc0 by (by apply valOf_setValue_eq).
  assert (valOf i2 x = Some c1) as Hc2.
  { by rewrite (relinked_valOf _ _ _ _ Hr2), (relinked_valOf _ _ _ _ Hr1). }
  assert (group_size GM ≠ 1) as Hsz1.
  { rewrite HszM, HI, length_app. simpl. destruct I1; [done|simpl; lia]. }
  eexists. split.
  { unfold Put. rewrite exec_the_cache. rewrite Hkey.
    rewrite decide_True by done. rewrite ?bind_assoc.
    run_evict_begin Hlist HLast HGM HLM HLastI Hc Ax.
    erewrite exec_group_of by done.
    rewrite decide_False by (intros ?; done). rewrite ?bind_assoc.
    erewrite exec_group_of by done.
    rewrite decide_True by done. rewrite ?bind_assoc.
    erewrite exec_onItems by done. rewrite ?bind_assoc.
    erewrite exec_group_of by done. rewrite HLM. rewrite ?bind_assoc.
    erewrite exec_onItems by done. rewrite ?bind_assoc.
    erewrite exec_group_of by done. rewrite ?bind_assoc.
    erewrite exec_update_item by done. rewrite Hlab.
    rewrite exec_ret.
    reflexivity. }
  split; [|split; [done|split; [done|split; [done|split; [done|]]]]].
  - destruct HR as [R1 R2 R3 R4 R5 R6]. split; simpl in *; try done.
    + eapply (outer_reshape _ _ (L1 ++ [Mg]) idle); [|apply same_frame_refl|done].
      apply Forall2_app; [apply same_frame_refl|]. constructor; [done|constructor].
    + apply inner_setValue. eapply inner_ok_sub; [|done].
      intros g. unfold rest. clear. mem.
    + intros g Hg.
      assert (g = M' ∨ g ∈ L1) as [->|Hg'] by (revert Hg; clear; mem).
      * exists GM. split; [done|]. split; [|done]. simpl. rewrite HszM, HI.
        rewrite length_app. simpl. lia.
      * apply R5. revert Hg'. clear. mem.
  - assert (relinked (x :: fp Mg) i0 i2) as Hr12.
    { eapply relinked_trans; (eapply relinked_mono; [|done]).
      - intros y. unfold fp. simpl. rewrite HI. clear. mem.
      - intros y. unfold fp. simpl. rewrite HI. clear. mem. }
    assert (∀ y, y ≠ x → valOf (setValue i2 x (set_item_frequency 1 c1)) y = valOf i y)
      as HkeepI.
    { intros y Hy. rewrite valOf_setValue_ne by done.
      rewrite (relinked_valOf _ _ _ _ Hr12). unfold i0.
      by rewrite valOf_setValue_ne. }
    rewrite aview_app. f_equal.
    + eapply (aview_keep _ _ _ ([Mg] ≫= fp) (g_node <$> [Mg])); [| |done].
      * intros y Hy _. unfold itemAt. simpl. apply HkeepI.
        intros ->. apply Hy, in_bind_one, items_in_fp. rewrite HI. clear. mem.
      * done.
    + unfold aview, aview_group. simpl. f_equal. f_equal.
      * unfold label, groupAt. simpl. by rewrite HGM.
      * erewrite entries_cons
          by (unfold itemAt; simpl; apply valOf_setValue_eq; by eapply valOf_alloc').
        f_equal. apply entries_ext. intros y Hy. unfold itemAt. simpl. apply HkeepI.
        intros ->. destruct Ho1 as [_ Ho1]. apply (Ho1 M1); [by left|].
        by apply items_in_fp.
Qed.

(** The victim is the oldest of several entries of a frequency
    other than 1: it moves to a group of frequency 1 at the end. *)
Lemma put_evict_split w gh L1 Mg idle I1 x c GM key value :
  let c1 := evicted key value c in
  let M' := mkShape (g_node Mg) (g_head Mg) I1 in
  Rep w gh (L1 ++ [Mg]) idle →
  g_items Mg = I1 ++ [x] → I1 ≠ [] →
  itemAt w x = Some c →
  groupAt w (g_node Mg) = Some GM →
  keyToCacheItem (self w) !! key = None →
  size (self w) = capacity (self w) →
  group_frequency GM ≠ 1 →
  Z.of_nat (length (g_items Mg)) ≤ int_max →
  ∃ w' N idle',
    Put key value w = Ok (tt, w') ∧
    g_items N = [x] ∧
    Rep w' gh (L1 ++ [M'; N]) idle' ∧
    freqToFreqGroupNode (self w')
      = <[1 := Some (g_node N)]> (freqToFreqGroupNode (self w)) ∧
    keyToCacheItem (self w')
      = <[key := Some x]> (delete (item_key c) (keyToCacheItem (self w))) ∧
    size (self w') = size (self w) ∧ capacity (self w') = capacity (self w) ∧
    aview w' (L1 ++ [M'; N])
    = aview w L1 ++
        [mkAGroup (g_node Mg) (label w (g_node Mg)) (entries w I1);
         mkAGroup (g_node N) 1 [(x, set_item_frequency 1 c1)]].
Proof.
  intros c1 M' HR HI HI1 Hc HGM Hkey Hfull Hlab HlenM. destruct w as [i gr s].
  unfold itemAt, groupAt in *. simpl in *.
  destruct (evict_facts i gr s gh L1 Mg idle I1 x GM HR HI HGM)
    as (Hlist & HLast & HLM & HLastI & HszM & Ax & HMgh).
  pose proof (valOf_alloc' _ _ _ HGM) as AM.
  pose proof (keep_one _ _ _ _ [] _ HR) as Hkeep. rewrite app_nil_r in Hkeep.
  set (i0 := setValue i x c1).
  set (s0 := set_keyToCacheItem (delete (item_key c) (keyToCacheItem s)) s).
  assert (Rep (mkWorld i0 gr s0) gh (L1 ++ [Mg]) idle) as HR0.
  { apply (Rep_set_self _ _ s); [|reflexivity|reflexivity].
    apply Rep_set_item. exact HR. }
  assert (I1 ++ [] ≠ []) as HI1' by (by rewrite app_nil_r).
  destruct (Rep_detach i0 gr s0 gh L1 Mg [] idle I1 x [] GM HR0 HI HI1' HGM)
    as (i1 & E1 & Hr1 & HR1 & Ho1).
  rewrite app_nil_r in Hr1, HR1, Ho1. fold M' in Hr1, HR1, Ho1.
  set (sM := Z.of_nat (length I1)) in *.
  assert (int_sub (group_size GM) 1 = sM) as HsM.
  { rewrite HszM, HI. rewrite int_sub_id.
    - rewrite length_app. simpl. unfold sM. lia.
    - rewrite <- HI. by apply is_int_pred. }
  assert (group_size GM ≠ 1) as Hsz1.
  { rewrite HszM, HI, length_app. simpl. destruct I1; [done|simpl; lia]. }
  set (gr1 := setValue gr (g_node Mg) (set_group_size sM GM)) in *.
  assert (valOf i0 x = Some c1) as Hc0 by (by apply valOf_setValue_eq).
  assert (valOf i1 x = Some c1) as Hc1 by (by rewrite (relinked_valOf _ _ _ _ Hr1)).
  destruct (getNew_spec (mkWorld i1 gr1 s0) gh (L1 ++ [M']) idle x c1 1 HR1 Ho1 Hc1)
    as ([i2 gr2 s2] & N & idle' & E2 & HNi & HR2 & Hinn2 & HNfresh & HbN & HsN
        & HlN & Hs2 & Hc2 & Hkeep2 & Hgkeep2).
  unfold itemAt, groupAt in *. simpl in *.
  destruct (Rep_link (mkWorld i2 gr2 s2) gh (L1 ++ [M']) [] idle' N)
    as (gr3 & E3 & Hv3 & HR3); rewrite ?app_nil_r; try done.
  simpl in *.
  set (s3 := set_freqToFreqGroupNode
               (<[1 := Some (g_node N)]> (freqToFreqGroupNode s2)) s2).
  set (s4 := set_keyToCacheItem (<[key := Some x]> (keyToCacheItem s3)) s3).
  exists (mkWorld i2 gr3 s4), N, idle'.
  split; [|split; [done|split; [|split; [|split; [|split; [|split]]]]]].
  - unfold Put. rewrite exec_the_cache. rewrite Hkey.
    rewrite decide_True by done. rewrite ?bind_assoc.
    run_evict_begin Hlist HLast HGM HLM HLastI Hc Ax.
    erewrite exec_group_of by done.
    rewrite decide_True by done. rewrite ?bind_assoc.
    erewrite exec_group_of by done.
    rewrite decide_False by done. rewrite ?bind_assoc.
    erewrite exec_update_group by done. simpl. rewrite HsM. fold gr1.
    rewrite ?bind_assoc.
    erewrite exec_onItems by done. rewrite ?bind_assoc.
    erewrite bind_Ok by done. rewrite ?bind_assoc.
    rewrite exec_update_cache. rewrite ?bind_assoc.
    rewrite exec_the_cache. simpl. rewrite index_insert.
    assert (freqGroupsList s2 = Some {| head := Some gh |}) as ->.
    { rewrite Hs2. done. }
    rewrite PushBack_eq.
    erewrite exec_onGroups by done.
    rewrite exec_ret. reflexivity.
  - rewrite <- (assoc_L (++)) in HR3. apply HR3; done.
  - simpl. by rewrite Hs2.
  - simpl. by rewrite Hs2.
  - simpl. by rewrite Hs2.
  - simpl. by rewrite Hs2.
  - assert (∀ y, y ≠ x → is_Some (i !! y) → valOf i2 y = valOf i y) as HkeepI.
    { intros y Hy Ay. rewrite Hkeep2; [|done|].
      - rewrite (relinked_valOf _ _ _ _ Hr1). unfold i0. by rewrite valOf_setValue_ne.
      - eapply relinked_alloc; [done|]. unfold i0. by apply is_Some_setValue. }
    assert (x ∈ fp Mg) as HxM.
    { apply items_in_fp. rewrite HI. clear. mem. }
    change (L1 ++ [M'; N]) with (L1 ++ M' :: [N]).
    rewrite !aview_app, !aview_cons. f_equal; [|f_equal; [|f_equal]].
    + apply aview_ext. intros g Hg.
      destruct (Hkeep g Hg) as (Hn & _ & Hy'). split.
      * unfold label, groupAt. simpl. rewrite Hv3.
        rewrite Hgkeep2 by (revert Hg; clear; mem).
        unfold gr1. rewrite valOf_setValue_ne; [done|].
        intros E. apply Hn. rewrite E. by left.
      * intros y Hy. destruct (Hy' y Hy) as [Hy1 Hy2].
        unfold itemAt. simpl. apply HkeepI; [|done].
        intros ->. by apply Hy1, in_bind_one.
    + unfold aview_group. f_equal.
      * unfold label, groupAt. simpl. rewrite Hv3.
        pose proof (Hgkeep2 M' ltac:(clear; mem)) as HkA. simpl in HkA.
        rewrite HkA. unfold gr1. rewrite valOf_setValue_eq by done.
        by rewrite HGM.
      * unfold M'. simpl. apply entries_ext. intros y Hy. unfold itemAt. simpl.
        apply HkeepI.
        -- intros ->. destruct Ho1 as [_ Ho1]. apply (Ho1 M'); [clear; mem|].
           by apply items_in_fp.
        -- eapply (inner_ok_alloc _ _ Mg); [apply (rep_inner _ _ _ _ HR)|clear; mem|].
           apply items_in_fp. rewrite HI. revert Hy. clear. mem.
    + unfold aview_group. f_equal.
      * unfold label, groupAt in *. simpl in *. by rewrite Hv3.
      * rewrite HNi. erewrite entries_cons; [done|]. done.
Qed.

(** *** Putting a new key into a cache that has room *)

Lemma Rep_alloc_item i gr s gh active idle n :
  Rep (mkWorld i gr s) gh active idle →
  Rep (mkWorld (i ++ [n]) gr s) gh active idle ∧
  orphan (i ++ [n]) (active ++ idle) (length i).
Proof.
  intros [R1 R2 R3 R4 R5 R6]. simpl in *.
  destruct (inner_alloc i (active ++ idle) n R4) as [Hinn Ho].
  split; [|done]. split; simpl; done.
Qed.

(** The first key of all. *)
Lemma put_first w key value :
  let x := length (items w) in
  let u := length (groups w) in
  let U := mkShape u (S x) [x] in
  let c1 := set_item_frequency 1 (fresh_item key value) in
  Empty w → size (self w) ≠ capacity (self w) →
  ∃ w', Put key value w = Ok (tt, w') ∧
        Rep w' (S u) [U] [] ∧
        freqToFreqGroupNode (self w') = <[1 := Some u]> (freqToFreqGroupNode (self w)) ∧
        keyToCacheItem (self w') = <[key := Some x]> ∅ ∧
        size (self w') = 1 ∧ capacity (self w') = capacity (self w) ∧
        aview w' [U] = [mkAGroup u 1 [(x, c1)]].
Proof.
  intros x u U c1 (Hsz & Hlist & Hkm & Hfree) Hcap. destruct w as [i gr s]. simpl in *.
  set (i0 := i ++ [{| Next := nil; Prev := nil; Value := fresh_item key value |}]).
  assert (i0 !! x = Some {| Next := nil; Prev := nil; Value := fresh_item key value |})
    as Ex by apply lookup_alloc_new.
  destruct (dll_New i0 x ltac:(by rewrite Ex)) as (i1 & E1 & Hd1 & HL1 & He1 & Hz1 & Hv1).
  assert (length i0 = S x) as Hlen0.
  { unfold i0. rewrite length_app. simpl. unfold x. lia. }
  rewrite Hlen0 in E1, Hd1, HL1, Hz1.
  assert (valOf i1 x = Some (fresh_item key value)) as Hc1.
  { rewrite Hv1. unfold valOf. by rewrite Ex. }
  set (GU := {| group_frequency := 1;
                group_elementsList := Some {| head := Some (S x) |};
                group_size := 1 |}).
  set (gr0 := gr ++ [{| Next := nil; Prev := nil; Value := GU |}]).
  assert (gr0 !! u = Some {| Next := nil; Prev := nil; Value := GU |})
    as Eu by apply lookup_alloc_new.
  destruct (dll_New gr0 u ltac:(by rewrite Eu)) as (gr1 & E2 & Hd2 & HL2 & He2 & Hz2 & Hv2).
  assert (length gr0 = S u) as Hlen1.
  { unfold gr0. rewrite length_app. simpl. unfold u. lia. }
  rewrite Hlen1 in E2, Hd2, HL2, Hz2.
  assert (valOf gr1 u = Some GU) as HGU.
  { rewrite Hv2. unfold valOf. by rewrite Eu. }
  eexists. split.
  { unfold Put. rewrite exec_the_cache. rewrite Hkm, lookup_empty.
    rewrite decide_False by done. rewrite ?bind_assoc.
    erewrite exec_onItems by (apply NewNode_eq). fold i0. fold x.
    rewrite ?bind_assoc. rewrite exec_the_cache.
    rewrite decide_True by done. rewrite ?bind_assoc.
    unfold createFrequencyGroupNode. rewrite ?bind_assoc.
    erewrite exec_onItems by done. rewrite ?bind_assoc.
    erewrite exec_onGroups by (apply NewNode_eq). fold GU gr0 u.
    rewrite ?bind_assoc.
    erewrite exec_update_item by done. rewrite ?bind_assoc.
    rewrite exec_ret. rewrite ?bind_assoc.
    erewrite exec_onGroups by done. rewrite ?bind_assoc.
    rewrite exec_update_cache. rewrite ?bind_assoc.
    rewrite exec_ret. rewrite ?bind_assoc.
    rewrite exec_update_cache. rewrite ?bind_assoc.
    rewrite exec_update_cache. rewrite ?bind_assoc.
    rewrite exec_ret. reflexivity. }
  split; [|split; [done|split; [|split; [|split; [done|]]]]].
  - split; simpl.
    + done.
    + by rewrite Hfree.
    + split; [done|]. split; [done|]. split.
      * simpl. apply NoDup_cons. split; [|apply NoDup_singleton].
        intros ?%list_elem_of_singleton. lia.
      * intros g Hg. simpl in Hg.
        apply list_elem_of_singleton in Hg as ->. exists GU. by split.
    + split.
      * intros g Hg. apply list_elem_of_singleton in Hg as ->.
        by apply dll_setValue.
      * intros g1 g2 y Hg1 Hg2 _ _.
        apply list_elem_of_singleton in Hg1, Hg2. congruence.
    + intros g Hg. apply list_elem_of_singleton in Hg as ->. exists GU. by split.
    + intros g Hg. by apply elem_of_nil in Hg.
  - simpl. by rewrite Hkm.
  - simpl. rewrite Hsz. apply int_add_id. unfold is_int, int_min, int_max. lia.
  - unfold aview, aview_group. simpl. f_equal. f_equal.
    + unfold label, groupAt. simpl. by rewrite HGU.
    + erewrite entries_cons; [done|]. unfold itemAt. simpl.
      apply valOf_setValue_eq. by eapply valOf_alloc'.
Qed.

(** The last group has frequency 1: the new entry joins it. *)
Lemma put_join w gh L1 Lg idle GL key value :
  let x := length (items w) in
  let c1 := set_item_frequency 1 (fresh_item key value) in
  let L' := mkShape (g_node Lg) (g_head Lg) (x :: g_items Lg) in
  Rep w gh (L1 ++ [Lg]) idle →
  groupAt w (g_node Lg) = Some GL →
  keyToCacheItem (self w) !! key = None →
  size (self w) ≠ capacity (self w) → size (self w) ≠ 0 →
  group_frequency GL = 1 →
  is_int (size (self w) + 1) →
  Z.of_nat (length (g_items Lg)) + 1 ≤ int_max →
  ∃ w', Put key value w = Ok (tt, w') ∧
        Rep w' gh (L1 ++ [L']) idle ∧
        freqToFreqGroupNode (self w')
          = <[1 := Some (g_node Lg)]> (freqToFreqGroupNode (self w)) ∧
        keyToCacheItem (self w') = <[key := Some x]> (keyToCacheItem (self w)) ∧
        size (self w') = size (self w) + 1 ∧ capacity (self w') = capacity (self w) ∧
        aview w' (L1 ++ [L'])
        = aview w L1 ++
            [mkAGroup (g_node Lg) 1 ((x, c1) :: entries w (g_items Lg))].
Proof.
  intros x c1 L' HR HGL Hkey Hcap Hsz0 Hlab Hint HlenL. destruct w as [i gr s].
  unfold itemAt, groupAt in *. simpl in *.
  assert (Lg ∈ L1 ++ [Lg]) as HL0 by (clear; mem).
  destruct (Rep_group _ _ _ _ _ HR HL0) as (G' & HG' & HLL & HszL & _ & HdL).
  unfold groupAt in HG'. simpl in *.
  assert (G' = GL) as -> by congruence. clear HG'.
  pose proof (rep_outer _ _ _ _ HR) as Hout. simpl in Hout.
  pose proof (outer_Last _ _ _ _ Hout) as HLast.
  rewrite fmap_app in HLast. change (g_node <$> [Lg]) with [g_node Lg] in HLast.
  rewrite last_snoc in HLast. simpl in HLast.
  pose proof (rep_list _ _ _ _ HR) as Hlist. simpl in Hlist.
  pose proof (keep_one _ _ _ _ [] _ HR) as Hkeep. rewrite app_nil_r in Hkeep.
  pose proof (Rep_NoDup _ _ _ _ HR) as Hnd.
  set (n0 := {| Next := nil; Prev := nil; Value := fresh_item key value |}).
  set (i0 := i ++ [n0]).
  destruct (Rep_alloc_item i gr s gh (L1 ++ [Lg]) idle n0 HR) as [HR0 Ho0].
  fold i0 in HR0, Ho0. fold x in Ho0.
  assert (valOf i0 x = Some (fresh_item key value)) as Hc0 by apply valOf_app_new.
  set (i1 := setValue i0 x c1).
  assert (valOf i1 x = Some c1) as Hc1.
  { apply valOf_setValue_eq. by eapply valOf_alloc'. }
  set (rest := L1 ++ idle).
  assert (inner_ok i1 (Lg :: rest)) as Hinn1.
  { apply inner_setValue. eapply inner_ok_sub; [|apply (rep_inner _ _ _ _ HR0)].
    intros g. unfold rest. clear. mem. }
  destruct (inner_push i1 Lg rest x Hinn1) as (i2 & E2 & Hr2 & Hinn2).
  { unfold rest. nodup_from Hnd. }
  { apply orphan_setValue. eapply orphan_sub; [|done].
    intros g. unfold rest. clear. mem. }
  fold L' in Hinn2.
  set (sL := Z.of_nat (length (x :: g_items Lg))).
  assert (int_add (group_size GL) 1 = sL) as HsL.
  { rewrite HszL. rewrite int_add_id.
    - unfold sL. simpl. lia.
    - unfold is_int, int_min, int_max in *. lia. }
  pose proof (valOf_alloc' _ _ _ HGL) as AL.
  eexists. split.
  { unfold Put. rewrite exec_the_cache. rewrite Hkey.
    rewrite decide_False by done. rewrite ?bind_assoc.
    erewrite exec_onItems by (apply NewNode_eq). fold n0 i0 x.
    rewrite ?bind_assoc. rewrite exec_the_cache.
    rewrite decide_False by done. rewrite ?bind_assoc. rewrite Hlist.
    erewrite exec_onGroups by done. rewrite ?bind_assoc.
    erewrite exec_group_of by done.
    rewrite decide_True by done. rewrite ?bind_assoc.
    erewrite exec_onGroups by done. rewrite ?bind_assoc.
    erewrite exec_group_of by done. rewrite ?bind_assoc.
    erewrite exec_update_item by done. rewrite Hlab. fold c1 i1.
    rewrite ?bind_assoc.
    erewrite exec_group_of by done. rewrite HLL. rewrite ?bind_assoc.
    erewrite exec_onItems by done. rewrite ?bind_assoc.
    erewrite exec_update_group by done. simpl. rewrite HsL.
    rewrite ?bind_assoc. rewrite exec_ret. rewrite ?bind_assoc.
    rewrite exec_update_cache. rewrite ?bind_assoc.
    rewrite exec_update_cache. rewrite ?bind_assoc.
    rewrite exec_ret. reflexivity. }
  split; [|split; [done|split; [done|split; [|split; [done|]]]]].
  - destruct HR as [R1 R2 R3 R4 R5 R6]. split; simpl in *; try done.
    + eapply (outer_reshape _ _ (L1 ++ [Lg]) idle); [|apply same_frame_refl|].
      * apply Forall2_app; [apply same_frame_refl|]. constructor; [done|constructor].
      * eapply outer_setValue; [done| |done|done].
        eapply outer_node_ne_dummy; [done|]. clear. mem.
    + eapply inner_ok_sub; [|done]. intros g. unfold rest. clear. mem.
    + intros g Hg.
      assert (g = L' ∨ g ∈ L1) as [->|Hg'] by (revert Hg; clear; mem).
      * exists (set_group_size sL GL). split; [by apply valOf_setValue_eq|done].
      * destruct (Hkeep g Hg') as (Hn & _).
        eapply sized_frame; [|apply R5; revert Hg'; clear; mem].
        rewrite valOf_setValue_ne; [done|]. intros E. apply Hn. rewrite E. by left.
  - simpl. by apply int_add_id.
  - assert (∀ y, is_Some (i !! y) → valOf i2 y = valOf i y) as HkeepI.
    { intros y Ay. rewrite (relinked_valOf _ _ _ _ Hr2). unfold i1.
      rewrite valOf_setValue_ne.
      - unfold valOf, i0. by rewrite lookup_alloc_old.
      - apply alloc_lt in Ay. unfold x. lia. }
    rewrite aview_app. f_equal.
    + apply aview_ext. intros g Hg. destruct (Hkeep g Hg) as (Hn & _ & Hy'). split.
      * unfold label, groupAt. simpl.
        rewrite valOf_setValue_ne; [done|]. intros E. apply Hn. rewrite E. by left.
      * intros y Hy. destruct (Hy' y Hy) as [_ Hy2]. by apply HkeepI.
    + unfold aview at 1. simpl. unfold aview_group. f_equal. f_equal.
      * unfold label, groupAt. simpl. by rewrite valOf_setValue_eq.
      * simpl. erewrite entries_cons
          by (unfold itemAt; simpl; by rewrite (relinked_valOf _ _ _ _ Hr2)).
        f_equal. apply entries_ext. intros y Hy. unfold itemAt. simpl.
        apply HkeepI. eapply dll_alloc; [exact HdL|]. by right.
Qed.

(** The last group has another frequency: a group of frequency 1
    is added at the end. *)
Lemma put_append w gh active idle key value :
  let x := length (items w) in
  let c1 := set_item_frequency 1 (fresh_item key value) in
  Rep w gh active idle →
  keyToCacheItem (self w) !! key = None →
  size (self w) ≠ capacity (self w) → size (self w) ≠ 0 →
  label w (default gh (last (g_node <$> active))) ≠ 1 →
  is_int (size (self w) + 1) →
  ∃ w' N idle',
    Put key value w = Ok (tt, w') ∧
    g_items N = [x] ∧
    Rep w' gh (active ++ [N]) idle' ∧
    freqToFreqGroupNode (self w')
      = <[1 := Some (g_node N)]> (freqToFreqGroupNode (self w)) ∧
    keyToCacheItem (self w') = <[key := Some x]> (keyToCacheItem (self w)) ∧
    size (self w') = size (self w) + 1 ∧ capacity (self w') = capacity (self w) ∧
    aview w' (active ++ [N]) = aview w active ++ [mkAGroup (g_node N) 1 [(x, c1)]].
Proof.
  intros x c1 HR Hkey Hcap Hsz0 Hlab Hint. destruct w as [i gr s].
  unfold itemAt, groupAt in *. simpl in *.
  pose proof (rep_outer _ _ _ _ HR) as Hout. simpl in Hout.
  pose proof (outer_Last _ _ _ _ Hout) as HLast.
  set (lastn := default gh (last (g_node <$> active))) in *.
  pose proof (rep_list _ _ _ _ HR) as Hlist. simpl in Hlist.
  assert (∃ GL, valOf gr lastn = Some GL) as [GL HGL].
  { destruct Hout as (Hd & _). assert (is_Some (gr !! lastn)) as Ha.
    { eapply dll_alloc; [done|]. apply default_last_elem. }
    apply valOf_is_Some in Ha. destruct Ha; eauto. }
  unfold label, groupAt in Hlab. simpl in Hlab. rewrite HGL in Hlab. simpl in Hlab.
  set (n0 := {| Next := nil; Prev := nil; Value := fresh_item key value |}).
  set (i0 := i ++ [n0]).
  destruct (Rep_alloc_item i gr s gh active idle n0 HR) as [HR0 Ho0].
  fold i0 in HR0, Ho0. fold x in Ho0.
  assert (valOf i0 x = Some (fresh_item key value)) as Hc0 by apply valOf_app_new.
  destruct (getNew_spec (mkWorld i0 gr s) gh active idle x (fresh_item key value) 1
              HR0 Ho0 Hc0)
    as ([i2 gr2 s2] & N & idle' & E2 & HNi & HR2 & Hinn2 & HNfresh & HbN & HsN
        & HlN & Hs2 & Hc2 & Hkeep2 & Hgkeep2).
  unfold itemAt, groupAt in *. simpl in *.
  destruct (Rep_link (mkWorld i2 gr2 s2) gh active [] idle' N)
    as (gr3 & E3 & Hv3 & HR3); rewrite ?app_nil_r; try done.
  simpl in *.
  eexists _, N, idle'. split.
  { unfold Put. rewrite exec_the_cache. rewrite Hkey.
    rewrite decide_False by done. rewrite ?bind_assoc.
    erewrite exec_onItems by (apply NewNode_eq). fold n0 i0 x.
    rewrite ?bind_assoc. rewrite exec_the_cache.
    rewrite decide_False by done. rewrite ?bind_assoc. rewrite Hlist.
    erewrite exec_onGroups by done. rewrite ?bind_assoc.
    erewrite exec_group_of by done.
    rewrite decide_False by done. rewrite ?bind_assoc.
    erewrite bind_Ok by done. rewrite ?bind_assoc.
    rewrite exec_the_cache.
    assert (freqGroupsList s2 = Some {| head := Some gh |}) as ->.
    { rewrite Hs2. done. }
    rewrite PushBack_eq. rewrite ?bind_assoc.
    erewrite exec_onGroups by done. rewrite ?bind_assoc.
    rewrite exec_ret. rewrite ?bind_assoc.
    rewrite exec_update_cache. rewrite ?bind_assoc.
    rewrite exec_update_cache. rewrite ?bind_assoc.
    rewrite exec_ret. reflexivity. }
  split; [done|]. split; [|split; [|split; [|split; [|split]]]].
  - apply HR3; done.
  - simpl. by rewrite Hs2.
  - simpl. by rewrite Hs2.
  - simpl. rewrite Hs2. simpl. by apply int_add_id.
  - simpl. by rewrite Hs2.
  - assert (∀ y, is_Some (i !! y) → valOf i2 y = valOf i y) as HkeepI.
    { intros y Ay. rewrite Hkeep2.
      - unfold valOf, i0. by rewrite lookup_alloc_old.
      - apply alloc_lt in Ay. unfold x. lia.
      - unfold i0. by rewrite lookup_alloc_old. }
    rewrite aview_app. f_equal.
    + apply aview_ext. intros g Hg. split.
      * unfold label, groupAt. simpl. rewrite Hv3. by rewrite Hgkeep2.
      * intros y Hy. unfold itemAt. simpl. apply HkeepI.
        eapply inner_ok_alloc; [apply (rep_inner _ _ _ _ HR)| |by apply items_in_fp].
        revert Hg. clear. mem.
    + unfold aview at 1. simpl. unfold aview_group. f_equal. f_equal.
      * unfold label, groupAt in *. simpl in *. by rewrite Hv3.
      * rewrite HNi. erewrite entries_cons; [done|]. done.
Qed.

End Paths.
End lfu_paths.

(** ** The logical invariant under removal and insertion of entries *)

Module lfu_logic.
Import linkedlist dll lfu lfu_inv lfu_paths.

Ltac unpack :=
  repeat first
    [ rewrite Forall_app in * | rewrite Forall_cons in * | rewrite Forall_nil in *
    | rewrite StronglySorted_app in * | rewrite StronglySorted_cons in * ].

Section Logic.
Context `{Countable K}.
Local Abbreviation sentry := (sentry (K := K)).
Local Abbreviation sgroup := (sgroup (K := K)).
Implicit Types (a La Lb : list sgroup) (g : sgroup) (e : sentry)
  (E : list sentry) (fm : gmap Z ptr) (km : gmap K ptr)
  (touched : gmap K nat) (clock : nat) (full : Prop).

Lemma Forall_impl_in {T} (P Q : T → Prop) (l : list T) :
  Forall P l → (∀ x, x ∈ l → P x → Q x) → Forall Q l.
Proof. rewrite !Forall_forall. eauto. Qed.

Lemma s_all_app La Lb : s_all (La ++ Lb) = s_all La ++ s_all Lb.
Proof. apply bind_app. Qed.

Lemma s_all_cons g a : s_all (g :: a) = s_entries g ++ s_all a.
Proof. apply bind_cons. Qed.

Lemma s_all_nil : s_all (K := K) [] = [].
Proof. reflexivity. Qed.

Lemma elem_of_s_all e a : e ∈ s_all a ↔ ∃ g, e ∈ s_entries g ∧ g ∈ a.
Proof. apply list_elem_of_bind. Qed.

(** *** Labels *)

Lemma labels_ok_normal full a : Forall normal a → labels_ok full a.
Proof.
  induction 1 as [|g r Hg Hr IH]; [done|]. simpl.
  destruct r; [by left|by split].
Qed.

Lemma labels_ok_app full La Lb :
  Lb ≠ [] → labels_ok full (La ++ Lb) ↔ Forall normal La ∧ labels_ok full Lb.
Proof.
  intros Hne. induction La as [|g r IH]; simpl.
  - rewrite Forall_nil. tauto.
  - rewrite Forall_cons. destruct (r ++ Lb) eqn:E.
    + apply app_eq_nil in E as [_ ?]. done.
    + change (normal g ∧ labels_ok full (s :: l) ↔
              (normal g ∧ Forall normal r) ∧ labels_ok full Lb). tauto.
Qed.

Lemma labels_ok_cons full g a :
  a ≠ [] → labels_ok full (g :: a) ↔ normal g ∧ labels_ok full a.
Proof. intros Hne. simpl. destruct a; [done|tauto]. Qed.

Lemma labels_ok_mono (full full' : Prop) a :
  (full → full') → labels_ok full a → labels_ok full' a.
Proof.
  intros Hf. induction a as [|g r IH]; [done|]. simpl.
  destruct r; [tauto|]. intros [? ?]. split; [done|]. by apply IH.
Qed.

Lemma labels_ok_before full La g Lb :
  labels_ok full (La ++ g :: Lb) → Forall normal La.
Proof. rewrite labels_ok_app by done. tauto. Qed.

Lemma labels_ok_remove full La g Lb :
  labels_ok full (La ++ g :: Lb) → labels_ok full (La ++ Lb).
Proof.
  rewrite labels_ok_app by done. intros [Ha Hg].
  destruct Lb as [|g' r].
  - rewrite app_nil_r. by apply labels_ok_normal.
  - apply labels_ok_app; [done|]. rewrite labels_ok_cons in Hg by done. tauto.
Qed.

Lemma labels_ok_replace full La g g' Lb :
  labels_ok full (La ++ g :: Lb) → normal g' → labels_ok full (La ++ g' :: Lb).
Proof.
  rewrite !labels_ok_app by done. intros [Ha Hg] Hn. split; [done|].
  destruct Lb as [|g2 r]; [by left|].
  rewrite labels_ok_cons in Hg by done. rewrite labels_ok_cons by done. tauto.
Qed.

Lemma labels_ok_insert full La g Lb :
  labels_ok full (La ++ Lb) → (Lb = [] → Forall normal La) →
  normal g ∨ (Lb = [] ∧ s_label g = 1 ∧ length (s_entries g) = 1%nat ∧ full) →
  labels_ok full (La ++ g :: Lb).
Proof.
  intros Hl Ha Hg. apply labels_ok_app; [done|].
  destruct Lb as [|g2 r].
  - split; [by apply Ha|]. simpl. tauto.
  - rewrite labels_ok_app in Hl by done. destruct Hl as [? ?]. split; [done|].
    rewrite labels_ok_cons by done. split; [|done].
    destruct Hg as [?|[? _]]; done.
Qed.

Lemma labels_ok_multi full La g Lb :
  labels_ok full (La ++ g :: Lb) → (1 < length (s_entries g))%nat → normal g.
Proof.
  rewrite labels_ok_app by done. intros [_ Hg] Hlen.
  destruct Lb as [|g2 r].
  - simpl in Hg. destruct Hg as [?|(_ & ? & _)]; [done|lia].
  - rewrite labels_ok_cons in Hg by done. tauto.
Qed.

Lemma labels_ok_open (full : Prop) La g Lb :
  labels_ok full (La ++ g :: Lb) → ¬ full → normal g.
Proof.
  rewrite labels_ok_app by done. intros [_ Hg] Hnf.
  destruct Lb as [|g2 r].
  - simpl in Hg. destruct Hg as [?|(_ & _ & ?)]; done.
  - rewrite labels_ok_cons in Hg by done. tauto.
Qed.

Lemma labels_ok_inner full La g g2 Lb :
  labels_ok full (La ++ g :: g2 :: Lb) → normal g.
Proof.
  rewrite labels_ok_app by done. intros [_ Hg].
  rewrite labels_ok_cons in Hg by done. tauto.
Qed.

(** *** Order *)

Lemma order_remove La g Lb :
  StronglySorted above (La ++ g :: Lb) → StronglySorted above (La ++ Lb).
Proof.
  rewrite !StronglySorted_app, StronglySorted_cons.
  intros (Hx & ? & ? & ?). split_and!; [|done..].
  intros x1 x2 Hx1 Hx2. apply Hx; [done|by right].
Qed.

Lemma order_insert La g Lb :
  StronglySorted above (La ++ Lb) →
  Forall (λ g1, carried g < carried g1) La →
  Forall (λ g2, carried g2 < carried g) Lb →
  StronglySorted above (La ++ g :: Lb).
Proof.
  rewrite !StronglySorted_app, StronglySorted_cons, !Forall_forall.
  intros (Hx & ? & ?) Ha Hb. split_and!; [|done..].
  intros x1 x2 Hx1 [->|Hx2]%elem_of_cons; [by apply Ha|by apply Hx].
Qed.

Lemma order_sides La g Lb :
  StronglySorted above (La ++ g :: Lb) →
  Forall (λ g1, carried g < carried g1) La ∧
  Forall (λ g2, carried g2 < carried g) Lb.
Proof.
  rewrite !StronglySorted_app, StronglySorted_cons, !Forall_forall.
  intros (Hx & ? & Hb & ?). split.
  - intros g1 Hg1. apply (Hx g1 g); [done|by left].
  - intros g2 Hg2. by apply Hb.
Qed.

Lemma order_replace La g g' Lb :
  StronglySorted above (La ++ g :: Lb) → carried g' = carried g →
  StronglySorted above (La ++ g' :: Lb).
Proof.
  intros Hs E. pose proof (order_sides _ _ _ Hs) as [Ha Hb].
  apply order_insert; [by eapply order_remove| |]; by rewrite E.
Qed.

(** *** Keys *)

Lemma keyed_perm km (l l' : list sentry) : l ≡ₚ l' → keyed km l → keyed km l'.
Proof.
  intros Hp Hk k p. rewrite (Hk k p).
  split; intros (e & He & ?); exists e; split; try done.
  - by rewrite <- Hp.
  - by rewrite Hp.
Qed.

Lemma keyed_remove km e (l : list sentry) :
  keyed km (e :: l) → NoDup (e_addr <$> e :: l) →
  keyed (delete (e_key e) km) l.
Proof.
  intros Hk Hnd k p. rewrite lookup_delete_Some, (Hk k p).
  rewrite fmap_cons in Hnd. apply NoDup_cons in Hnd as [Hnotin _].
  split.
  - intros (Hne & e' & [->|He']%elem_of_cons & Hk' & ->); [done|]. by exists e'.
  - intros (e' & He' & Hk' & ->). split.
    + intros Heq. apply Hnotin.
      assert (km !! e_key e = Some (Some (e_addr e))) as Hl1.
      { apply Hk. exists e. split_and!; [by left|done..]. }
      assert (km !! e_key e = Some (Some (e_addr e'))) as Hl2.
      { apply Hk. exists e'. split_and!; [by right|congruence|done]. }
      rewrite Hl1 in Hl2. injection Hl2 as ->.
      apply list_elem_of_fmap. by exists e'.
    + exists e'. split_and!; [by right|done..].
Qed.

Lemma keyed_insert km (l : list sentry) x k f :
  keyed km l → km !! k = None →
  keyed (<[k := Some x]> km) (mkSE x k f :: l).
Proof.
  intros Hk Hnone k' p. rewrite lookup_insert_Some. split.
  - intros [[<- <-]|[Hne Hl]].
    + exists (mkSE x k f). split_and!; [by left|done..].
    + apply Hk in Hl as (e & ? & ? & ?). exists e. split_and!; [by right|done..].
  - intros (e & [->|He]%elem_of_cons & Hk' & ->); simpl in *.
    + by left.
    + right. assert (km !! k' = Some (Some (e_addr e))) as Hl.
      { apply Hk. by exists e. }
      split; [congruence|done].
Qed.

Lemma keyed_fresh km (l : list sentry) k e :
  keyed km l → km !! k = None → e ∈ l → e_key e ≠ k.
Proof.
  intros Hk Hnone He <-.
  assert (km !! e_key e = Some (Some (e_addr e))) as Hl; [|congruence].
  apply Hk. by exists e.
Qed.

Lemma keyed_nil : keyed (K := K) ∅ [].
Proof.
  intros k p. rewrite lookup_empty. split; [done|].
  by intros (e & ?%elem_of_nil & _).
Qed.

(** *** Stamps *)

Lemma stamp_insert_ne touched k (c : nat) e :
  e_key e ≠ k → stamp (<[k := c]> touched) e = stamp touched e.
Proof. intros Hne. unfold stamp. by rewrite lookup_insert_ne. Qed.

Lemma stamp_insert_eq touched k (c : nat) x f :
  stamp (<[k := c]> touched) (mkSE x k f) = c.
Proof. unfold stamp. simpl. by rewrite lookup_insert_eq. Qed.

Lemma recent_ext touched touched' E :
  (∀ e, e ∈ E → stamp touched' e = stamp touched e) →
  StronglySorted (later touched) E → StronglySorted (later touched') E.
Proof.
  intros Hs. induction 1 as [|e r Hr IH Hall]; constructor.
  - apply IH. intros e' He'. apply Hs. by right.
  - eapply Forall_impl_in; [exact Hall|]. intros e' He' Hl. unfold later in *.
    rewrite !Hs; [done|by left|by right].
Qed.

Lemma carried_cons n lab e E : carried (mkSG n lab (e :: E)) = e_freq e.
Proof. reflexivity. Qed.

Lemma carried_remove n lab E1 e E2 :
  E1 ++ E2 ≠ [] →
  Forall (λ e', e_freq e' = carried (mkSG n lab (E1 ++ e :: E2))) (E1 ++ e :: E2) →
  carried (mkSG n lab (E1 ++ E2)) = carried (mkSG n lab (E1 ++ e :: E2)).
Proof.
  intros Hne Hu. destruct E1 as [|e1 E1]; [|done].
  destruct E2 as [|e2 E2]; [done|]. simpl in *.
  rewrite !Forall_cons in Hu. unfold carried in *. simpl in *. lia.
Qed.

(** *** Entries leaving and joining the view *)

Lemma s_all_vanish La n lab e Lb :
  s_all (La ++ mkSG n lab [e] :: Lb) ≡ₚ e :: s_all (La ++ Lb).
Proof.
  rewrite !s_all_app, s_all_cons. simpl. by rewrite <- Permutation_middle.
Qed.

Lemma s_all_leave La n lab E1 e E2 Lb :
  s_all (La ++ mkSG n lab (E1 ++ e :: E2) :: Lb)
  ≡ₚ e :: s_all (La ++ mkSG n lab (E1 ++ E2) :: Lb).
Proof.
  rewrite !s_all_app, !s_all_cons. simpl.
  rewrite <- !app_assoc. simpl. rewrite <- !Permutation_middle.
  by rewrite !app_assoc.
Qed.

Lemma s_all_join La n lab e E Lb :
  e :: s_all (La ++ mkSG n lab E :: Lb) ≡ₚ s_all (La ++ mkSG n lab (e :: E) :: Lb).
Proof.
  rewrite !s_all_app, !s_all_cons. simpl. by rewrite <- Permutation_middle.
Qed.

Lemma s_all_enter La n lab e Lb :
  e :: s_all (La ++ Lb) ≡ₚ s_all (La ++ mkSG n lab [e] :: Lb).
Proof. symmetry. apply s_all_vanish. Qed.

Lemma fresh_groups km a k :
  keyed km (s_all a) → km !! k = None →
  Forall (λ g, Forall (λ e, e_key e ≠ k) (s_entries g)) a.
Proof.
  intros Hk Hnone. rewrite Forall_forall. intros g Hg.
  rewrite Forall_forall. intros e He.
  eapply keyed_fresh; [exact Hk|done|]. apply elem_of_s_all. by exists g.
Qed.

Lemma recent_keep touched k (c : nat) a :
  Forall (λ g, StronglySorted (later touched) (s_entries g)) a →
  Forall (λ g, Forall (λ e, e_key e ≠ k) (s_entries g)) a →
  Forall (λ g, StronglySorted (later (<[k := c]> touched)) (s_entries g)) a.
Proof.
  rewrite !Forall_forall. intros Hs Hf g Hg.
  eapply recent_ext; [|by apply Hs]. intros e He.
  apply stamp_insert_ne. specialize (Hf g Hg). rewrite Forall_forall in Hf. by apply Hf.
Qed.

Lemma past_keep touched k (c : nat) clock a :
  Forall (λ g, Forall (λ e, (stamp touched e < clock)%nat) (s_entries g)) a →
  Forall (λ g, Forall (λ e, e_key e ≠ k) (s_entries g)) a →
  Forall (λ g, Forall (λ e, (stamp (<[k := c]> touched) e < S clock)%nat)
                 (s_entries g)) a.
Proof.
  rewrite !Forall_forall. intros Hs Hf g Hg.
  specialize (Hs g Hg). specialize (Hf g Hg). rewrite !Forall_forall in *.
  intros e He. rewrite stamp_insert_ne by by apply Hf.
  specialize (Hs e He). lia.
Qed.

Lemma newest touched k clock x f E :
  Forall (λ e, (stamp touched e < clock)%nat) E →
  Forall (λ e, e_key e ≠ k) E →
  Forall (later (<[k := clock]> touched) (mkSE x k f)) E.
Proof.
  rewrite !Forall_forall. intros Hp Hf e He. unfold later.
  rewrite stamp_insert_eq, stamp_insert_ne by by apply Hf. by apply Hp.
Qed.

Lemma bound_keep clock a :
  Forall (λ g, 1 ≤ carried g ≤ Z.of_nat clock) a →
  Forall (λ g, 1 ≤ carried g ≤ Z.of_nat (S clock)) a.
Proof. intros Hb. eapply Forall_impl; [exact Hb|]. intros g. simpl. lia. Qed.

Lemma LI_nil fm touched clock full : LI [] fm ∅ touched clock full.
Proof.
  constructor; try by constructor.
  apply keyed_nil.
Qed.

Lemma LI_tick a fm km touched clock full :
  LI a fm km touched clock full → LI a fm km touched (S clock) full.
Proof.
  intros [Hkeys Hne Huni Hidx Hbd Hlab Hord Hrec Hpast].
  constructor; try done.
  - by apply bound_keep.
  - eapply Forall_impl; [exact Hpast|]. intros g Hg. simpl in *.
    eapply Forall_impl; [exact Hg|]. intros e. simpl. lia.
Qed.

Lemma LI_fmap a fm fm' km touched clock full :
  LI a fm km touched clock full →
  Forall (λ g, fm' !! carried g = fm !! carried g ∧
               fm' !! s_label g = fm !! s_label g) a →
  LI a fm' km touched clock full.
Proof.
  intros [Hkeys Hne Huni Hidx Hbd Hlab Hord Hrec Hpast] Hag.
  constructor; try done.
  rewrite Forall_forall in *. intros g Hg.
  destruct (Hidx g Hg), (Hag g Hg). split; congruence.
Qed.

Lemma LI_full a fm km touched clock (full full' : Prop) :
  (full → full') → LI a fm km touched clock full → LI a fm km touched clock full'.
Proof.
  intros Hf [Hkeys Hne Huni Hidx Hbd Hlab Hord Hrec Hpast].
  constructor; try done. by eapply labels_ok_mono.
Qed.

Lemma LI_remove_group La n lab e Lb fm km touched clock full :
  LI (La ++ mkSG n lab [e] :: Lb) fm km touched clock full →
  NoDup (e_addr <$> s_all (La ++ mkSG n lab [e] :: Lb)) →
  LI (La ++ Lb) fm (delete (e_key e) km) touched clock full.
Proof.
  intros [Hkeys Hne Huni Hidx Hbd Hlab Hord Hrec Hpast] Hnd.
  constructor.
  - apply keyed_remove.
    + eapply keyed_perm; [|exact Hkeys]. apply s_all_vanish.
    + by rewrite <- s_all_vanish.
  - unpack. tauto.
  - unpack. tauto.
  - unpack. tauto.
  - unpack. tauto.
  - by eapply labels_ok_remove.
  - by eapply order_remove.
  - unpack. tauto.
  - unpack. tauto.
Qed.

Lemma LI_remove_entry La n lab E1 e E2 Lb fm km touched clock full :
  LI (La ++ mkSG n lab (E1 ++ e :: E2) :: Lb) fm km touched clock full →
  NoDup (e_addr <$> s_all (La ++ mkSG n lab (E1 ++ e :: E2) :: Lb)) →
  E1 ++ E2 ≠ [] →
  LI (La ++ mkSG n lab (E1 ++ E2) :: Lb) fm (delete (e_key e) km) touched clock full.
Proof.
  intros [Hkeys Hne Huni Hidx Hbd Hlab Hord Hrec Hpast] Hnd Hrest.
  assert (carried (mkSG n lab (E1 ++ E2))
          = carried (mkSG n lab (E1 ++ e :: E2))) as Hc.
  { apply carried_remove; [done|].
    rewrite Forall_app, Forall_cons in Huni. tauto. }
  assert (normal (mkSG n lab (E1 ++ e :: E2))) as Hn.
  { eapply labels_ok_multi; [exact Hlab|]. simpl.
    rewrite length_app. simpl.
    destruct E1, E2; simpl in *; try done; lia. }
  constructor.
  - apply keyed_remove.
    + eapply keyed_perm; [|exact Hkeys]. apply s_all_leave.
    + by rewrite <- s_all_leave.
  - unpack. simpl. tauto.
  - rewrite !Forall_app, !Forall_cons in *. rewrite Hc. simpl in *.
    rewrite !Forall_app, !Forall_cons in *. tauto.
  - rewrite !Forall_app, !Forall_cons in *. rewrite Hc. simpl in *. tauto.
  - rewrite !Forall_app, !Forall_cons in *. rewrite Hc. tauto.
  - eapply labels_ok_replace; [exact Hlab|]. unfold normal in *. by rewrite Hc.
  - by eapply order_replace.
  - rewrite !Forall_app, !Forall_cons in *. simpl in *.
    rewrite !StronglySorted_app, !StronglySorted_cons in *.
    destruct Hrec as (? & ((Hx & ? & ? & ?) & ?)). split_and!; try done.
    intros x1 x2 Hx1 Hx2. apply Hx; [done|by right].
  - rewrite !Forall_app, !Forall_cons in *. simpl in *.
    rewrite !Forall_app, !Forall_cons in *. tauto.
Qed.

Lemma LI_insert_front La n lab E Lb fm km touched clock full x k :
  LI (La ++ mkSG n lab E :: Lb) fm km touched clock full →
  km !! k = None → lab = carried (mkSG n lab E) →
  LI (La ++ mkSG n lab (mkSE x k lab :: E) :: Lb) fm (<[k := Some x]> km)
     (<[k := clock]> touched) (S clock) full.
Proof.
  intros [Hkeys Hne Huni Hidx Hbd Hlab Hord Hrec Hpast] Hnone Hc.
  pose proof (fresh_groups _ _ _ Hkeys Hnone) as Hfr.
  pose proof (recent_keep _ k clock _ Hrec Hfr) as Hrec'.
  pose proof (past_keep _ k clock _ _ Hpast Hfr) as Hpast'.
  apply bound_keep in Hbd.
  assert (carried (mkSG n lab (mkSE x k lab :: E)) = lab) as Hc' by done.
  constructor.
  - eapply keyed_perm; [apply s_all_join|]. by apply keyed_insert.
  - rewrite !Forall_app, !Forall_cons in *. simpl. split_and!; try tauto. done.
  - rewrite !Forall_app, !Forall_cons in *. rewrite Hc'. simpl in *.
    rewrite Forall_cons. rewrite <- Hc in Huni. tauto.
  - rewrite !Forall_app, !Forall_cons in *. rewrite Hc'. simpl in *.
    rewrite <- Hc in Hidx. tauto.
  - rewrite !Forall_app, !Forall_cons in *. rewrite Hc'. rewrite <- Hc in Hbd. tauto.
  - eapply labels_ok_replace; [exact Hlab|]. done.
  - eapply order_replace; [exact Hord|]. by rewrite Hc'.
  - rewrite !Forall_app, !Forall_cons in *. simpl in *.
    split_and!; try tauto. constructor; [tauto|].
    apply newest; tauto.
  - rewrite !Forall_app, !Forall_cons in *. simpl in *.
    rewrite Forall_cons. rewrite stamp_insert_eq. split_and!; try tauto. lia.
Qed.

Lemma LI_insert_group La n lab Lb fm km touched clock full x k f :
  LI (La ++ Lb) fm km touched clock full →
  km !! k = None →
  fm !! f = Some (Some n) → fm !! lab = Some (Some n) →
  1 ≤ f ≤ Z.of_nat (S clock) →
  Forall (λ g, f < carried g) La → Forall (λ g, carried g < f) Lb →
  (Lb = [] → Forall normal La) →
  lab = f ∨ (Lb = [] ∧ lab = 1 ∧ full) →
  LI (La ++ mkSG n lab [mkSE x k f] :: Lb) fm (<[k := Some x]> km)
     (<[k := clock]> touched) (S clock) full.
Proof.
  intros [Hkeys Hne Huni Hidx Hbd Hlab Hord Hrec Hpast] Hnone Hf Hl Hb Ha Hz Hn Hlb.
  pose proof (fresh_groups _ _ _ Hkeys Hnone) as Hfr.
  pose proof (recent_keep _ k clock _ Hrec Hfr) as Hrec'.
  pose proof (past_keep _ k clock _ _ Hpast Hfr) as Hpast'.
  apply bound_keep in Hbd.
  constructor.
  - eapply keyed_perm; [apply s_all_enter|]. by apply keyed_insert.
  - rewrite !Forall_app, !Forall_cons in *. simpl. split_and!; try tauto. done.
  - rewrite !Forall_app, !Forall_cons in *. simpl.
    rewrite Forall_cons, Forall_nil. tauto.
  - rewrite !Forall_app, !Forall_cons in *. simpl. tauto.
  - rewrite !Forall_app, !Forall_cons in *. simpl. tauto.
  - apply labels_ok_insert; [done..|]. unfold normal. simpl. tauto.
  - by apply order_insert.
  - rewrite !Forall_app, !Forall_cons in *. simpl.
    split_and!; try tauto. repeat constructor.
  - rewrite !Forall_app, !Forall_cons in *. simpl.
    rewrite Forall_cons, Forall_nil, stamp_insert_eq. split_and!; try tauto. lia.
Qed.

(** *** Frequencies the other groups do not use *)

Lemma avoids_app v La Lb : avoids v (La ++ Lb) ↔ avoids v La ∧ avoids v Lb.
Proof. apply Forall_app. Qed.

Lemma LI_fmap_insert a fm km touched clock full v p :
  LI a fm km touched clock full → avoids v a →
  LI a (<[v := p]> fm) km touched clock full.
Proof.
  intros HLI Hav. eapply LI_fmap; [exact HLI|].
  eapply Forall_impl; [exact Hav|]. intros g [? ?]. simpl.
  by rewrite !lookup_insert_ne.
Qed.

Lemma LI_fmap_delete a fm km touched clock full v :
  LI a fm km touched clock full → avoids v a →
  LI a (delete v fm) km touched clock full.
Proof.
  intros HLI Hav. eapply LI_fmap; [exact HLI|].
  eapply Forall_impl; [exact Hav|]. intros g [? ?]. simpl.
  by rewrite !lookup_delete_ne.
Qed.

Lemma labels_ok_either full a :
  labels_ok full a → Forall (λ g, normal g ∨ s_label g = 1) a.
Proof.
  induction a as [|g r IH]; [constructor|].
  destruct r as [|g2 r].
  - simpl. intros [?|(? & _)]; repeat constructor; tauto.
  - rewrite labels_ok_cons by done. intros [? ?]. constructor; [tauto|]. by apply IH.
Qed.

Lemma labels_ok_all_normal (full : Prop) a :
  labels_ok full a → ¬ full → Forall normal a.
Proof.
  intros Hl Hnf. induction a as [|g r IH]; [constructor|].
  destruct r as [|g2 r].
  - simpl in Hl. destruct Hl as [?|(_ & _ & ?)]; [|done]. by repeat constructor.
  - rewrite labels_ok_cons in Hl by done. destruct Hl. constructor; [done|].
    by apply IH.
Qed.

Lemma above_succ La f :
  StronglySorted above La → Forall normal La →
  Forall (λ g, f < carried g) La → pred_label La ≠ f + 1 →
  Forall (λ g, f + 1 < carried g) La.
Proof.
  intros Hs Hn Ha Hp.
  destruct (last La) as [B|] eqn:El.
  - apply last_Some in El as [La' ->].
    unfold pred_label in Hp. rewrite last_snoc in Hp. simpl in Hp.
    rewrite Forall_app, Forall_cons in Hn, Ha. rewrite Forall_app, Forall_cons.
    destruct Hn as (_ & Hn & _), Ha as (_ & Ha & _). unfold normal in Hn.
    split_and!; [|lia|constructor].
    rewrite Forall_forall. intros g Hg.
    assert (above g B) as Hab; [|unfold above in Hab; lia].
    eapply StronglySorted_app_1_elem_of; [exact Hs|done|by left].
  - apply last_None in El as ->. constructor.
Qed.

Lemma keyed_lookup km (l : list sentry) e :
  keyed km l → e ∈ l → km !! e_key e = Some (Some (e_addr e)).
Proof. intros Hk He. apply Hk. by exists e. Qed.

Lemma in_s_all_mid La n lab E1 e E2 Lb :
  e ∈ s_all (La ++ mkSG n lab (E1 ++ e :: E2) :: Lb).
Proof.
  rewrite s_all_app, s_all_cons. simpl.
  rewrite !elem_of_app, elem_of_cons. tauto.
Qed.

Ltac at_each g Hg :=
  unfold avoids; rewrite Forall_forall; intros g Hg;
  repeat match goal with
         | H : Forall _ ?L |- _ =>
             lazymatch type of Hg with
             | _ ∈ L => rewrite Forall_forall in H; specialize (H g Hg); simpl in H
             end
         end;
  unfold normal in *.

(** *** The single steps of the cache on the view *)

(** The only entry of a group moves up in place. *)
Lemma LI_relabel La n lab x k f Lb fm km touched clock full :
  LI (La ++ mkSG n lab [mkSE x k f] :: Lb) fm km touched clock full →
  NoDup (e_addr <$> s_all (La ++ mkSG n lab [mkSE x k f] :: Lb)) →
  pred_label La ≠ f + 1 →
  LI (La ++ mkSG n (f + 1) [mkSE x k (f + 1)] :: Lb)
     (<[f + 1 := Some n]> (delete f fm)) km
     (<[k := clock]> touched) (S clock) full.
Proof.
  intros HLI Hnd Hpred.
  pose proof HLI as [Hkeys Hne Huni Hidx Hbd Hlab Hord Hrec Hpast].
  pose proof (keyed_lookup _ _ _ Hkeys (in_s_all_mid La n lab [] _ [] Lb)) as Hk.
  simpl in Hk.
  pose proof (order_sides _ _ _ Hord) as [Ha Hb]. simpl in Ha, Hb.
  rewrite carried_cons in Ha, Hb. simpl in Ha, Hb.
  pose proof (labels_ok_before _ _ _ _ Hlab) as Hna.
  pose proof (StronglySorted_app_1_l _ _ _ Hord) as Hsa.
  pose proof (above_succ _ _ Hsa Hna Ha Hpred) as Ha'.
  pose proof (labels_ok_either _ _ Hlab) as Hei.
  rewrite !Forall_app, !Forall_cons in Hbd, Hei.
  destruct Hbd as (Hbda & Hbdx & Hbdb), Hei as (_ & _ & Heib).
  rewrite carried_cons in Hbdx. simpl in Hbdx.
  apply LI_remove_group in HLI; [|done].
  apply (LI_fmap_delete _ _ _ _ _ _ f) in HLI.
  2:{ apply avoids_app. split; at_each g Hg; lia. }
  apply (LI_fmap_insert _ _ _ _ _ _ (f + 1) (Some n)) in HLI.
  2:{ apply avoids_app. split; at_each g Hg; lia. }
  rewrite <- (insert_delete_id km k (Some x)) by done.
  apply LI_insert_group; try done.
  - apply lookup_delete_eq.
  - apply lookup_insert_eq.
  - apply lookup_insert_eq.
  - lia.
  - at_each g Hg. lia.
  - by left.
Qed.

Lemma reassoc {T} (l1 : list T) b c l2 : l1 ++ b :: c :: l2 = (l1 ++ [b]) ++ c :: l2.
Proof. by rewrite <- app_assoc. Qed.

(** An entry joins the preceding group and leaves others behind. *)
Lemma LI_merge_stay La nB labB EB nA labA E1 x k f E2 Lb fm km touched clock full :
  let A := mkSG nA labA (E1 ++ mkSE x k f :: E2) in
  LI (La ++ mkSG nB labB EB :: A :: Lb) fm km touched clock full →
  NoDup (e_addr <$> s_all (La ++ mkSG nB labB EB :: A :: Lb)) →
  E1 ++ E2 ≠ [] →
  LI (La ++ mkSG nB labB (mkSE x k labB :: EB) :: mkSG nA labA (E1 ++ E2) :: Lb)
     fm km (<[k := clock]> touched) (S clock) full.
Proof.
  intros A. subst A. intros HLI Hnd Hrest.
  pose proof HLI as [_ _ _ _ _ Hlab _ _ _].
  pose proof (labels_ok_inner _ _ _ _ _ Hlab) as HnB.
  rewrite (reassoc La) in HLI, Hnd.
  pose proof HLI as [Hkeys _ _ _ _ _ _ _ _].
  pose proof (keyed_lookup _ _ _ Hkeys (in_s_all_mid _ nA labA E1 _ E2 Lb)) as Hk.
  simpl in Hk.
  apply LI_remove_entry in HLI; [|done..].
  rewrite <- app_assoc in HLI. simpl in HLI.
  rewrite <- (insert_delete_id km k (Some x)) by done.
  apply LI_insert_front; [done|apply lookup_delete_eq|done].
Qed.

(** The only entry of a group joins the preceding group. *)
Lemma LI_merge_vanish La nB labB EB nA labA x k f Lb fm km touched clock full :
  let A := mkSG nA labA [mkSE x k f] in
  LI (La ++ mkSG nB labB EB :: A :: Lb) fm km touched clock full →
  NoDup (e_addr <$> s_all (La ++ mkSG nB labB EB :: A :: Lb)) →
  labB = f + 1 →
  LI (La ++ mkSG nB labB (mkSE x k labB :: EB) :: Lb)
     (delete f fm) km (<[k := clock]> touched) (S clock) full.
Proof.
  intros A. subst A. intros HLI Hnd HlB.
  pose proof HLI as [_ _ _ _ _ Hlab0 _ _ _].
  pose proof (labels_ok_inner _ _ _ _ _ Hlab0) as HnB.
  rewrite (reassoc La) in HLI, Hnd.
  pose proof HLI as [Hkeys Hne Huni Hidx Hbd Hlab Hord Hrec Hpast].
  pose proof (keyed_lookup _ _ _ Hkeys (in_s_all_mid _ nA labA [] _ [] Lb)) as Hk.
  simpl in Hk.
  pose proof (order_sides _ _ _ Hord) as [Ha Hb]. simpl in Ha, Hb.
  rewrite carried_cons in Ha, Hb. simpl in Ha, Hb.
  pose proof (labels_ok_before _ _ _ _ Hlab) as Hna.
  pose proof (labels_ok_either _ _ Hlab) as Hei.
  rewrite !Forall_app, !Forall_cons in Hbd, Hei.
  destruct Hbd as (Hbda & Hbdx & Hbdb), Hei as (_ & _ & Heib).
  apply LI_remove_group in HLI; [|done].
  apply (LI_fmap_delete _ _ _ _ _ _ f) in HLI.
  2:{ apply avoids_app. split; at_each g Hg; lia. }
  rewrite <- app_assoc in HLI. simpl in HLI.
  rewrite <- (insert_delete_id km k (Some x)) by done.
  apply LI_insert_front; [done|apply lookup_delete_eq|done].
Qed.

(** An entry moves to a new group in front of its old one. *)
Lemma LI_split La nN nA labA E1 x k f E2 Lb fm km touched clock full :
  let A := mkSG nA labA (E1 ++ mkSE x k f :: E2) in
  LI (La ++ A :: Lb) fm km touched clock full →
  NoDup (e_addr <$> s_all (La ++ A :: Lb)) →
  E1 ++ E2 ≠ [] →
  pred_label La ≠ f + 1 →
  LI (La ++ mkSG nN (f + 1) [mkSE x k (f + 1)] :: mkSG nA labA (E1 ++ E2) :: Lb)
     (<[f + 1 := Some nN]> fm) km (<[k := clock]> touched) (S clock) full.
Proof.
  intros A HLI Hnd Hrest Hpred. subst A. set (A := mkSG nA labA (E1 ++ mkSE x k f :: E2)) in *.
  pose proof HLI as [Hkeys Hne Huni Hidx Hbd Hlab Hord Hrec Hpast].
  pose proof (keyed_lookup _ _ _ Hkeys (in_s_all_mid La nA labA E1 _ E2 Lb)) as Hk.
  simpl in Hk.
  assert (carried A = f) as HcA.
  { rewrite !Forall_app, !Forall_cons in Huni. destruct Huni as (_ & Hu & _).
    simpl in Hu. rewrite Forall_app, Forall_cons in Hu.
    destruct Hu as (_ & Hu & _). done. }
  assert (carried (mkSG nA labA (E1 ++ E2)) = f) as HcA'.
  { rewrite <- HcA. apply carried_remove; [done|].
    rewrite !Forall_app, !Forall_cons in Huni. tauto. }
  pose proof (order_sides _ _ _ Hord) as [Ha Hb]. rewrite HcA in Ha, Hb.
  pose proof (labels_ok_before _ _ _ _ Hlab) as Hna.
  pose proof (StronglySorted_app_1_l _ _ _ Hord) as Hsa.
  pose proof (above_succ _ _ Hsa Hna Ha Hpred) as Ha'.
  pose proof (labels_ok_either _ _ Hlab) as Hei.
  rewrite !Forall_app, !Forall_cons in Hbd, Hei.
  destruct Hbd as (Hbda & Hbdx & Hbdb), Hei as (_ & _ & Heib).
  rewrite HcA in Hbdx.
  apply LI_remove_entry in HLI; [|done..].
  pose proof HLI as [_ _ _ _ _ Hlab' _ _ _].
  assert (normal (mkSG nA labA (E1 ++ E2))) as HnA'.
  { assert (normal A) as HnA.
    { eapply labels_ok_multi; [exact Hlab|]. simpl. rewrite length_app. simpl.
      destruct E1, E2; simpl in *; try done; lia. }
    unfold normal in *. rewrite HcA'. rewrite HcA in HnA. exact HnA. }
  apply (LI_fmap_insert _ _ _ _ _ _ (f + 1) (Some nN)) in HLI.
  2:{ apply avoids_app. split; [at_each g Hg; lia|].
      constructor; [|at_each g Hg; lia].
      unfold normal in HnA'. rewrite HcA' in *. simpl in *. lia. }
  rewrite <- (insert_delete_id km k (Some x)) by done.
  apply LI_insert_group; try done.
  - apply lookup_delete_eq.
  - apply lookup_insert_eq.
  - apply lookup_insert_eq.
  - lia.
  - constructor; [lia|]. at_each g Hg. lia.
  - by left.
Qed.

(** The only entry of the last group is replaced by a new key. *)
Lemma LI_evict_single La n lab x ko f fm km touched clock (full : Prop) k :
  LI (La ++ [mkSG n lab [mkSE x ko f]]) fm km touched clock full →
  NoDup (e_addr <$> s_all (La ++ [mkSG n lab [mkSE x ko f]])) →
  full → km !! k = None →
  LI (La ++ [mkSG n 1 [mkSE x k f]]) (<[1 := Some n]> fm)
     (<[k := Some x]> (delete ko km)) (<[k := clock]> touched) (S clock) full.
Proof.
  intros HLI Hnd Hfull Hnone.
  pose proof HLI as [Hkeys Hne Huni Hidx Hbd Hlab Hord Hrec Hpast].
  pose proof (order_sides _ _ _ Hord) as [Ha _].
  rewrite carried_cons in Ha. simpl in Ha.
  pose proof (labels_ok_before _ _ _ _ Hlab) as Hna.
  rewrite !Forall_app, !Forall_cons in Hbd, Hidx.
  destruct Hbd as (Hbda & Hbdx & _), Hidx as (_ & [Hix _] & _).
  rewrite carried_cons in Hbdx, Hix. simpl in Hbdx, Hix.
  apply LI_remove_group in HLI; [|done].
  apply (LI_fmap_insert _ _ _ _ _ _ 1 (Some n)) in HLI.
  2:{ apply avoids_app. split; [at_each g Hg; lia|constructor]. }
  apply LI_insert_group; try done.
  - apply lookup_delete_None. by right.
  - destruct (decide (f = 1)) as [->|Hf1].
    + apply lookup_insert_eq.
    + by rewrite lookup_insert_ne.
  - apply lookup_insert_eq.
  - lia.
  - right. done.
Qed.

(** The least recent entry of the last group, labelled 1, is
    replaced by a new key at the front. *)
Lemma LI_evict_front La n E1 x ko f fm km touched clock full k :
  LI (La ++ [mkSG n 1 (E1 ++ [mkSE x ko f])]) fm km touched clock full →
  NoDup (e_addr <$> s_all (La ++ [mkSG n 1 (E1 ++ [mkSE x ko f])])) →
  E1 ≠ [] → km !! k = None →
  LI (La ++ [mkSG n 1 (mkSE x k 1 :: E1)]) fm
     (<[k := Some x]> (delete ko km)) (<[k := clock]> touched) (S clock) full.
Proof.
  intros HLI Hnd HE1 Hnone.
  pose proof HLI as [Hkeys Hne Huni Hidx Hbd Hlab Hord Hrec Hpast].
  assert (normal (mkSG n 1 (E1 ++ [mkSE x ko f]))) as Hn.
  { eapply labels_ok_multi; [exact Hlab|]. simpl. rewrite length_app. simpl.
    destruct E1; simpl in *; [done|lia]. }
  assert (carried (mkSG n 1 (E1 ++ []))
          = carried (mkSG n 1 (E1 ++ [mkSE x ko f]))) as Hc.
  { apply carried_remove; [by rewrite app_nil_r|].
    rewrite !Forall_app, !Forall_cons in Huni. tauto. }
  apply LI_remove_entry in HLI; [|done|by rewrite app_nil_r].
  unfold normal in Hn. rewrite <- Hc in Hn. rewrite app_nil_r in HLI, Hn.
  apply LI_insert_front; [done| |done].
  apply lookup_delete_None. by right.
Qed.

(** The least recent entry of the last group, not labelled 1, is
    replaced by a new key in a new last group. *)
Lemma LI_evict_split La n lab nN E1 x ko f fm km touched clock full k :
  LI (La ++ [mkSG n lab (E1 ++ [mkSE x ko f])]) fm km touched clock full →
  NoDup (e_addr <$> s_all (La ++ [mkSG n lab (E1 ++ [mkSE x ko f])])) →
  E1 ≠ [] → lab ≠ 1 → km !! k = None →
  LI (La ++ [mkSG n lab E1; mkSG nN 1 [mkSE x k 1]]) (<[1 := Some nN]> fm)
     (<[k := Some x]> (delete ko km)) (<[k := clock]> touched) (S clock) full.
Proof.
  intros HLI Hnd HE1 Hlab1 Hnone.
  pose proof HLI as [Hkeys Hne Huni Hidx Hbd Hlab Hord Hrec Hpast].
  assert (normal (mkSG n lab (E1 ++ [mkSE x ko f]))) as Hn.
  { eapply labels_ok_multi; [exact Hlab|]. simpl. rewrite length_app. simpl.
    destruct E1; simpl in *; [done|lia]. }
  assert (carried (mkSG n lab (E1 ++ []))
          = carried (mkSG n lab (E1 ++ [mkSE x ko f]))) as Hc.
  { apply carried_remove; [by rewrite app_nil_r|].
    rewrite !Forall_app, !Forall_cons in Huni. tauto. }
  pose proof (order_sides _ _ _ Hord) as [Ha _].
  pose proof (labels_ok_before _ _ _ _ Hlab) as Hna.
  rewrite !Forall_app, !Forall_cons in Hbd.
  destruct Hbd as (Hbda & Hbdx & _).
  unfold normal in Hn. simpl in Hn. rewrite <- Hn in Ha, Hbdx, Hc.
  apply LI_remove_entry in HLI; [|done|by rewrite app_nil_r].
  rewrite app_nil_r in HLI, Hc.
  apply (LI_fmap_insert _ _ _ _ _ _ 1 (Some nN)) in HLI.
  2:{ apply avoids_app. split; [at_each g Hg; lia|].
      constructor; [|constructor]. rewrite Hc. simpl. lia. }
  rewrite reassoc.
  apply LI_insert_group; try done.
  - by rewrite app_nil_r.
  - apply lookup_delete_None. by right.
  - apply lookup_insert_eq.
  - apply lookup_insert_eq.
  - lia.
  - apply Forall_app. split; [at_each g Hg; lia|].
    constructor; [|constructor]. rewrite Hc. lia.
  - intros _. apply Forall_app. split; [done|].
    constructor; [|constructor]. unfold normal. by rewrite Hc.
  - by left.
Qed.

(** A new key joins the last group, labelled 1. *)
Lemma LI_join La n E fm km touched clock (full full' : Prop) x k :
  LI (La ++ [mkSG n 1 E]) fm km touched clock full →
  ¬ full → km !! k = None →
  LI (La ++ [mkSG n 1 (mkSE x k 1 :: E)]) (<[1 := Some n]> fm)
     (<[k := Some x]> km) (<[k := clock]> touched) (S clock) full'.
Proof.
  intros HLI Hnf Hnone.
  pose proof HLI as [Hkeys Hne Huni Hidx Hbd Hlab Hord Hrec Hpast].
  pose proof (labels_ok_open _ _ _ _ Hlab Hnf) as Hn.
  rewrite !Forall_app, !Forall_cons in Hidx. destruct Hidx as (_ & [_ Hil] & _).
  simpl in Hil. rewrite (insert_id fm 1 (Some n)) by done.
  eapply LI_full; [|by apply LI_insert_front]. done.
Qed.

(** A new key opens a new last group. *)
Lemma LI_append a n fm km touched clock (full full' : Prop) x k :
  LI a fm km touched clock full →
  ¬ full → pred_label a ≠ 1 → km !! k = None →
  LI (a ++ [mkSG n 1 [mkSE x k 1]]) (<[1 := Some n]> fm)
     (<[k := Some x]> km) (<[k := clock]> touched) (S clock) full'.
Proof.
  intros HLI Hnf Hpred Hnone.
  pose proof HLI as [Hkeys Hne Huni Hidx Hbd Hlab Hord Hrec Hpast].
  pose proof (labels_ok_all_normal _ _ Hlab Hnf) as Hn.
  assert (Forall (λ g, 0 < carried g) a) as H0.
  { eapply Forall_impl; [exact Hbd|]. intros g. simpl. lia. }
  pose proof (above_succ _ 0 Hord Hn H0 Hpred) as H1. simpl in H1.
  apply (LI_fmap_insert _ _ _ _ _ _ 1 (Some n)) in HLI.
  2:{ at_each g Hg. lia. }
  rewrite <- (app_nil_r a) in HLI.
  eapply LI_full; [|apply LI_insert_group; try done].
  - done.
  - apply lookup_insert_eq.
  - apply lookup_insert_eq.
  - lia.
  - by left.
Qed.

(** The first key of a cache. *)
Lemma LI_first u fm touched clock full x k :
  LI [mkSG u 1 [mkSE x k 1]] (<[1 := Some u]> fm) (<[k := Some x]> ∅)
     (<[k := clock]> touched) (S clock) full.
Proof.
  apply (LI_insert_group [] u 1 []); try done.
  - apply LI_nil.
  - apply lookup_insert_eq.
  - apply lookup_insert_eq.
  - lia.
  - by left.
Qed.

Lemma LI_entry La n lab E1 e E2 Lb fm km touched clock full :
  LI (La ++ mkSG n lab (E1 ++ e :: E2) :: Lb) fm km touched clock full →
  carried (mkSG n lab (E1 ++ e :: E2)) = e_freq e ∧
  fm !! e_freq e = Some (Some n) ∧
  1 ≤ e_freq e ≤ Z.of_nat clock ∧
  km !! e_key e = Some (Some (e_addr e)).
Proof.
  intros [Hkeys Hne Huni Hidx Hbd Hlab Hord Hrec Hpast].
  rewrite !Forall_app, !Forall_cons in Huni, Hidx, Hbd.
  destruct Huni as (_ & Hu & _), Hidx as (_ & [Hi _] & _), Hbd as (_ & Hb & _).
  simpl in Hu. rewrite Forall_app, Forall_cons in Hu. destruct Hu as (_ & Hu & _).
  rewrite <- Hu in Hi, Hb. simpl in Hi.
  split; [done|]. split; [done|]. split; [done|].
  apply (keyed_lookup _ _ _ Hkeys (in_s_all_mid La n lab E1 e E2 Lb)).
Qed.

Lemma LI_label La g Lb fm km touched clock full :
  LI (La ++ g :: Lb) fm km touched clock full →
  fm !! s_label g = Some (Some (s_node g)) ∧ s_entries g ≠ [] ∧
  1 ≤ carried g ≤ Z.of_nat clock.
Proof.
  intros [Hkeys Hne Huni Hidx Hbd Hlab Hord Hrec Hpast].
  rewrite !Forall_app, !Forall_cons in Hne, Hidx, Hbd. tauto.
Qed.

(** The last entry is alone in the last group exactly if no other
    entry carries its frequency. *)
Lemma LI_last_alone La n lab E1 e fm km touched clock full :
  LI (La ++ [mkSG n lab (E1 ++ [e])]) fm km touched clock full →
  E1 = [] ↔ ∀ e', e' ∈ s_all La ++ E1 → e_freq e' ≠ e_freq e.
Proof.
  intros HLI. pose proof (LI_entry _ _ _ _ _ _ _ _ _ _ _ _ HLI) as (Hcar & _).
  destruct HLI as [_ _ Huni _ _ _ Hord _ _].
  rewrite Forall_app, Forall_cons in Huni. destruct Huni as (HuA & HuG & _).
  cbn [s_entries] in HuG. rewrite Hcar in HuG.
  rewrite StronglySorted_app in Hord. destruct Hord as (Hab & _ & _).
  split.
  - intros -> e' He'. rewrite app_nil_r in He'.
    unfold s_all in He'. apply list_elem_of_bind in He' as (g & He' & Hg).
    rewrite Forall_forall in HuA. specialize (HuA g Hg).
    rewrite Forall_forall in HuA. rewrite (HuA e' He').
    specialize (Hab g _ Hg ltac:(by left)). unfold above in Hab.
    rewrite Hcar in Hab. lia.
  - intros Hall. destruct E1 as [|e1 E1]; [done|]. exfalso.
    apply (Hall e1); [apply elem_of_app; right; by left|].
    rewrite Forall_forall in HuG. apply HuG. by left.
Qed.

Lemma length_s_all_mid La g Lb :
  length (s_all (La ++ g :: Lb))
  = (length (s_all La) + length (s_entries g) + length (s_all Lb))%nat.
Proof. rewrite s_all_app, s_all_cons, !length_app. lia. Qed.

(** *** How many entries the view holds after each step *)

Ltac count :=
  repeat first [rewrite s_all_app | rewrite s_all_cons | rewrite s_all_nil
               | rewrite length_app | progress cbn [s_entries length]];
  lia.

Lemma len_relabel La n lab e Lb n' lab' e' :
  length (s_all (La ++ mkSG n' lab' [e'] :: Lb))
  = length (s_all (La ++ mkSG n lab [e] :: Lb)).
Proof. count. Qed.

Lemma len_merge_vanish La nB labB labB' e' EB nA labA e Lb :
  length (s_all (La ++ mkSG nB labB (e' :: EB) :: Lb))
  = length (s_all (La ++ mkSG nB labB' EB :: mkSG nA labA [e] :: Lb)).
Proof. count. Qed.

Lemma len_merge_stay La nB labB labB' e' EB nA labA labA' E1 e E2 Lb :
  length (s_all (La ++ mkSG nB labB (e' :: EB) :: mkSG nA labA (E1 ++ E2) :: Lb))
  = length (s_all (La ++ mkSG nB labB' EB :: mkSG nA labA' (E1 ++ e :: E2) :: Lb)).
Proof. count. Qed.

Lemma len_split La nN labN e' nA labA labA' E1 e E2 Lb :
  length (s_all (La ++ mkSG nN labN [e'] :: mkSG nA labA (E1 ++ E2) :: Lb))
  = length (s_all (La ++ mkSG nA labA' (E1 ++ e :: E2) :: Lb)).
Proof. count. Qed.

Lemma len_evict_front La n lab lab' e' E1 e :
  length (s_all (La ++ [mkSG n lab (e' :: E1)]))
  = length (s_all (La ++ [mkSG n lab' (E1 ++ [e])])).
Proof. count. Qed.

Lemma len_evict_split La n lab lab' nN labN e' E1 e :
  length (s_all (La ++ [mkSG n lab E1; mkSG nN labN [e']]))
  = length (s_all (La ++ [mkSG n lab' (E1 ++ [e])])).
Proof. count. Qed.

Lemma len_join La n lab lab' e' E :
  length (s_all (La ++ [mkSG n lab (e' :: E)]))
  = S (length (s_all (La ++ [mkSG n lab' E]))).
Proof. count. Qed.

Lemma len_append a n lab e' :
  length (s_all (a ++ [mkSG n lab [e']])) = S (length (s_all a)).
Proof. count. Qed.

(** *** The order of the whole view *)

Lemma sorted_impl_in {T} (R R' : relation T) (l : list T) :
  StronglySorted R l → (∀ x y, x ∈ l → y ∈ l → R x y → R' x y) →
  StronglySorted R' l.
Proof.
  induction 1 as [|x l Hl IH Hx]; intros Himp; constructor.
  - apply IH. intros y z Hy Hz. apply Himp; by right.
  - eapply Forall_impl_in; [exact Hx|]. intros y Hy. apply Himp; [by left|by right].
Qed.

Lemma sorted_fmap_in {T U} (f : T → U) (R : relation T) (R' : relation U) (l : list T) :
  StronglySorted R l → (∀ x y, x ∈ l → y ∈ l → R x y → R' (f x) (f y)) →
  StronglySorted R' (f <$> l).
Proof.
  induction 1 as [|x l Hl IH Hx]; intros Himp; csimpl; constructor.
  - apply IH. intros y z Hy Hz. apply Himp; by right.
  - rewrite Forall_fmap. eapply Forall_impl_in; [exact Hx|].
    intros y Hy. apply Himp; [by left|by right].
Qed.

Lemma sorted_s_all touched a :
  Forall (λ g, Forall (λ e, e_freq e = carried g) (s_entries g)) a →
  StronglySorted above a →
  Forall (λ g, StronglySorted (later touched) (s_entries g)) a →
  StronglySorted (before touched) (s_all a).
Proof.
  induction a as [|g r IH]; intros Hu Ho Hr; [constructor|].
  rewrite s_all_cons. apply Forall_cons in Hu as [Hug Hu], Hr as [Hrg Hr].
  apply StronglySorted_cons in Ho as [Hog Ho].
  rewrite Forall_forall in Hug.
  apply StronglySorted_app_2; [| |by apply IH].
  - intros e1 e2 H1 (g' & H2 & Hg')%elem_of_s_all. left.
    rewrite Forall_forall in Hog, Hu. specialize (Hog g' Hg'). specialize (Hu g' Hg').
    rewrite Forall_forall in Hu. rewrite (Hug e1 H1), (Hu e2 H2). exact Hog.
  - eapply sorted_impl_in; [exact Hrg|]. intros e1 e2 H1 H2 Hl. right.
    split; [|exact Hl]. by rewrite (Hug e1 H1), (Hug e2 H2).
Qed.

Lemma LI_sorted a fm km touched clock full :
  LI a fm km touched clock full → StronglySorted (before touched) (s_all a).
Proof. intros [? ? ? ? ? ? ? ? ?]. by apply sorted_s_all. Qed.

End Logic.
End lfu_logic.

(** ** Every call keeps the invariant *)

Module lfu_main.
Import linkedlist dll dll_facts lfu lfu_inv lfu_exec lfu_paths lfu_logic.

#[global] Arguments sview : simpl never.
#[global] Arguments carried : simpl never.

Section Main.
Context `{Countable K} {V : Type} `{!Zero K, !Zero V}.
Local Abbreviation world := (world (K := K) (V := V)).
Local Abbreviation CacheItem := (CacheItem (K := K) (V := V)).
Local Abbreviation cacheImpl := (cacheImpl (K := K)).
Local Abbreviation traced := (traced (K := K) (V := V)).
Local Abbreviation call := (call (K := K) (V := V)).
Local Abbreviation sentry := (sentry (K := K)).
Local Abbreviation sgroup := (sgroup (K := K)).
Local Abbreviation agroup := (agroup (K := K) (V := V)).
Implicit Types (w : world) (i : heap CacheItem) (gr : heap FrequencyGroup)
  (s : cacheImpl) (x y gh : loc) (g A B : gshape) (active idle : list gshape).

(** *** The stripped view of a memory *)

Lemma sview_app w (l1 l2 : list gshape) : sview w (l1 ++ l2) = sview w l1 ++ sview w l2.
Proof. unfold sview. by rewrite aview_app, fmap_app. Qed.

Lemma sview_cons w g (l : list gshape) :
  sview w (g :: l) = strip_group (aview_group w g) :: sview w l.
Proof. done. Qed.

Lemma sview_nil w : sview w [] = [].
Proof. done. Qed.

Lemma strip_view w w' (X L1 L2 : list gshape) (G : agroup) :
  aview w' X = aview w L1 ++ G :: aview w L2 →
  sview w' X = sview w L1 ++ strip_group G :: sview w L2.
Proof. unfold sview. intros ->. by rewrite fmap_app. Qed.

Lemma strip_view2 w w' (X L1 L2 : list gshape) (G1 G2 : agroup) :
  aview w' X = aview w L1 ++ G1 :: G2 :: aview w L2 →
  sview w' X = sview w L1 ++ strip_group G1 :: strip_group G2 :: sview w L2.
Proof. unfold sview. intros ->. by rewrite fmap_app. Qed.

Lemma strip_view_last w w' (X L1 : list gshape) (Gs : list agroup) :
  aview w' X = aview w L1 ++ Gs →
  sview w' X = sview w L1 ++ (strip_group <$> Gs).
Proof. unfold sview. intros ->. by rewrite fmap_app. Qed.

Lemma sentries_app w (l1 l2 : list loc) :
  sentries w (l1 ++ l2) = sentries w l1 ++ sentries w l2.
Proof. unfold sentries. by rewrite entries_app, fmap_app. Qed.

Lemma sentries_cons w x c (l : list loc) :
  itemAt w x = Some c →
  sentries w (x :: l) = mkSE x (item_key c) (item_frequency c) :: sentries w l.
Proof. intros E. unfold sentries. by rewrite (entries_cons _ _ _ _ E). Qed.

Lemma sentries_cons_none w x (l : list loc) :
  itemAt w x = None → sentries w (x :: l) = sentries w l.
Proof. intros E. unfold sentries, entries. cbn [omap list_omap]. by rewrite E. Qed.

Lemma strip_mk w n lab (I : list loc) :
  strip_group (mkAGroup n lab (entries w I)) = mkSG n lab (sentries w I).
Proof. done. Qed.

Lemma sview_group w g :
  strip_group (aview_group w g)
  = mkSG (g_node g) (label w (g_node g)) (sentries w (g_items g)).
Proof. done. Qed.

Lemma sview_split w L1 A L2 I1 x I2 c :
  g_items A = I1 ++ x :: I2 → itemAt w x = Some c →
  sview w (L1 ++ A :: L2)
  = sview w L1 ++
      mkSG (g_node A) (label w (g_node A))
        (sentries w I1 ++ mkSE x (item_key c) (item_frequency c) :: sentries w I2)
      :: sview w L2.
Proof.
  intros HA Hx. rewrite sview_app, sview_cons, sview_group, HA.
  by rewrite sentries_app, (sentries_cons _ _ _ _ Hx).
Qed.

Lemma sentries_addr w (l : list loc) :
  (∀ x, x ∈ l → is_Some (itemAt w x)) → e_addr <$> sentries w l = l.
Proof.
  induction l as [|x l IH]; intros Hp; [done|].
  destruct (Hp x) as [c Hc]; [by left|].
  rewrite (sentries_cons _ _ _ _ Hc), fmap_cons, IH; [done|].
  intros y Hy. apply Hp. by right.
Qed.

Lemma sentries_length w (l : list loc) :
  (∀ x, x ∈ l → is_Some (itemAt w x)) → length (sentries w l) = length l.
Proof.
  intros Hp. rewrite <- (sentries_addr w l Hp) at 2. by rewrite length_fmap.
Qed.

Lemma Rep_present w gh active idle g x :
  Rep w gh active idle → g ∈ active → x ∈ g_items g → is_Some (itemAt w x).
Proof.
  intros HR Hg Hx. destruct (Rep_group _ _ _ _ _ HR Hg) as (G & _ & _ & _ & _ & Hd).
  assert (x < length (items w))%nat as Hlt.
  { eapply dll_lt; [exact Hd|]. by right. }
  apply lookup_lt_is_Some in Hlt as [n Hn]. exists (Value n).
  unfold itemAt, valOf. by rewrite Hn.
Qed.

Lemma s_all_sview_addr w gh active idle (gs : list gshape) :
  Rep w gh active idle → (∀ g, g ∈ gs → g ∈ active) →
  e_addr <$> s_all (sview w gs) = gs ≫= g_items.
Proof.
  intros HR. induction gs as [|g gs IH]; intros Hsub; [done|].
  rewrite sview_cons, s_all_cons, fmap_app, bind_cons, sview_group.
  cbn [s_entries]. rewrite IH by (intros; apply Hsub; by right).
  f_equal. apply sentries_addr. intros x Hx.
  eapply Rep_present; [exact HR| |exact Hx]. apply Hsub. by left.
Qed.

Lemma NoDup_items (gs : list gshape) :
  NoDup gs → separate gs → (∀ g, g ∈ gs → NoDup (g_items g)) →
  NoDup (gs ≫= g_items).
Proof.
  induction gs as [|g gs IH]; intros Hnd Hsep Hi; [constructor|].
  rewrite bind_cons. apply NoDup_cons in Hnd as [Hg Hnd].
  apply NoDup_app. split_and!.
  - apply Hi. by left.
  - intros x Hx (g' & Hx' & Hg')%list_elem_of_bind.
    apply Hg. replace g with g'; [done|].
    apply (Hsep g' g x); [by right|by left|by right|by right].
  - apply IH; [done| |].
    + eapply separate_sub; [|exact Hsep]. intros. by right.
    + intros. apply Hi. by right.
Qed.

Lemma Rep_addr_NoDup w gh active idle :
  Rep w gh active idle → NoDup (e_addr <$> s_all (sview w active)).
Proof.
  intros HR. rewrite (s_all_sview_addr _ _ _ _ _ HR) by done.
  pose proof (Rep_NoDup _ _ _ _ HR) as Hnd. apply NoDup_app in Hnd as (Hnd & _ & _).
  destruct (rep_inner _ _ _ _ HR) as [Hd Hsep].
  apply NoDup_items; [done| |].
  - eapply separate_sub; [|exact Hsep]. intros. apply elem_of_app. by left.
  - intros g Hg. eapply dll_NoDup. apply Hd. apply elem_of_app. by left.
Qed.

(** Where an entry of the view lies in memory. *)
Lemma find_entry w gh active idle (e : sentry) :
  Rep w gh active idle → e ∈ s_all (sview w active) →
  ∃ L1 A L2 I1 x I2 c,
    active = L1 ++ A :: L2 ∧ g_items A = I1 ++ x :: I2 ∧
    itemAt w x = Some c ∧ e = mkSE x (item_key c) (item_frequency c).
Proof.
  intros HR (sg & He & Hsg)%elem_of_s_all.
  unfold sview, aview in Hsg. rewrite <- list_fmap_compose in Hsg.
  apply list_elem_of_fmap in Hsg as (A & -> & HA).
  change (e ∈ strip_entry <$> entries w (g_items A)) in He.
  apply list_elem_of_fmap in He as ([x c] & -> & Hxc).
  unfold entries in Hxc. apply list_elem_of_omap in Hxc as (x' & Hx' & Hv).
  destruct (itemAt w x') as [c'|] eqn:Ec; [|done]. simpl in Hv.
  injection Hv as <- <-.
  apply list_elem_of_split in HA as (L1 & L2 & ->).
  apply list_elem_of_split in Hx' as (I1 & I2 & HI).
  by exists L1, A, L2, I1, x', I2, c'.
Qed.

Lemma label_dummy w gh active idle : Rep w gh active idle → label w gh = 0.
Proof.
  intros HR. destruct (rep_outer _ _ _ _ HR) as (_ & Hz & _).
  unfold label, groupAt. by rewrite Hz.
Qed.

Lemma pred_label_view w gh active idle (L1 : list gshape) :
  Rep w gh active idle →
  pred_label (sview w L1) = label w (default gh (last (g_node <$> L1))).
Proof.
  intros HR. unfold pred_label.
  destruct L1 as [|g L1 _] using rev_ind.
  - simpl. by rewrite (label_dummy _ _ _ _ HR).
  - rewrite sview_app, sview_cons, sview_nil, fmap_app.
    change (g_node <$> [g]) with [g_node g]. by rewrite !last_snoc.
Qed.

Lemma sview_split2 w L1 B A L2 I1 x I2 c :
  g_items A = I1 ++ x :: I2 → itemAt w x = Some c →
  sview w (L1 ++ B :: A :: L2)
  = sview w L1 ++
      mkSG (g_node B) (label w (g_node B)) (sentries w (g_items B)) ::
      mkSG (g_node A) (label w (g_node A))
        (sentries w I1 ++ mkSE x (item_key c) (item_frequency c) :: sentries w I2)
      :: sview w L2.
Proof.
  intros HA Hx. rewrite reassoc, (sview_split _ _ _ _ _ _ _ _ HA Hx).
  by rewrite sview_app, <- app_assoc.
Qed.

Lemma LInv_intro (a : list sgroup) s clock touched :
  LI a (freqToFreqGroupNode s) (keyToCacheItem s) touched clock
    (size s = capacity s) →
  size s = Z.of_nat (length (s_all a)) → size s ≤ capacity s → a ≠ [] →
  LInv a s clock touched.
Proof. by constructor. Qed.

Lemma Rep_sentries_length w gh active idle g :
  Rep w gh active idle → g ∈ active →
  length (sentries w (g_items g)) = length (g_items g).
Proof.
  intros HR Hg. apply sentries_length. intros x Hx. by eapply Rep_present.
Qed.

Lemma len_mid w (I1 I2 : list loc) x c :
  itemAt w x = Some c →
  length (sentries w I1 ++ mkSE x (item_key c) (item_frequency c) :: sentries w I2)
  = length (sentries w (I1 ++ x :: I2)).
Proof. intros Hc. by rewrite sentries_app, (sentries_cons _ _ _ _ Hc). Qed.

Lemma len_last w (I1 : list loc) x c :
  itemAt w x = Some c →
  length (sentries w I1 ++ [mkSE x (item_key c) (item_frequency c)])
  = length (sentries w (I1 ++ [x])).
Proof. apply (len_mid w I1 []). Qed.

Lemma app_cons_ne {T} (l1 : list T) a l2 : l1 ++ a :: l2 ≠ [].
Proof. by destruct l1. Qed.

Lemma index_Some (m : gmap Z ptr) f p : m !! f = Some p → index m f = p.
Proof. unfold index. by intros ->. Qed.

(** *** The entries of a memory, as they are listed *)

Lemma all_entries_app (a b : list agroup) :
  all_entries (a ++ b) = all_entries a ++ all_entries b.
Proof. apply bind_app. Qed.

Lemma all_entries_cons (g : agroup) (a : list agroup) :
  all_entries (g :: a) = a_entries g ++ all_entries a.
Proof. done. Qed.

Lemma all_entries_nil : all_entries (K := K) (V := V) [] = [].
Proof. done. Qed.

Lemma aview_nil w : aview w [] = [].
Proof. done. Qed.

Lemma all_entries_split w L1 A L2 I1 x I2 c :
  g_items A = I1 ++ x :: I2 → itemAt w x = Some c →
  all_entries (aview w (L1 ++ A :: L2))
  = (all_entries (aview w L1) ++ entries w I1) ++
      (x, c) :: (entries w I2 ++ all_entries (aview w L2)).
Proof.
  intros HA Hc.
  rewrite aview_app, aview_cons, all_entries_app, all_entries_cons.
  unfold aview_group at 1. cbn [a_entries].
  rewrite HA, entries_app, (entries_cons _ _ _ _ Hc), <- !app_assoc. done.
Qed.

Lemma all_entries_last w L1 Mg I1 x c :
  g_items Mg = I1 ++ [x] → itemAt w x = Some c →
  all_entries (aview w (L1 ++ [Mg]))
  = (all_entries (aview w L1) ++ entries w I1) ++ [(x, c)].
Proof.
  intros HM Hc. rewrite (all_entries_split _ _ _ _ _ _ _ _ HM Hc).
  by rewrite entries_nil.
Qed.

Lemma strip_all (a : list agroup) :
  s_all (strip_group <$> a) = strip_entry <$> all_entries a.
Proof.
  induction a as [|g a IH]; [done|].
  unfold all_entries in *. rewrite fmap_cons, s_all_cons, bind_cons, fmap_app, IH. done.
Qed.

Lemma entries_addr_NoDup w gh active idle :
  Rep w gh active idle → NoDup (all_entries (aview w active)).*1.
Proof.
  intros HR. pose proof (Rep_addr_NoDup _ _ _ _ HR) as Hnd.
  unfold sview in Hnd. rewrite strip_all, <- list_fmap_compose in Hnd.
  exact Hnd.
Qed.

Lemma entries_set_value i gr s x c2 (l : list loc) :
  is_Some (i !! x) →
  entries (mkWorld (setValue i x c2) gr s) l
  = rewritten x c2 <$> entries (mkWorld i gr s) l.
Proof.
  intros Hx. unfold entries, itemAt. cbn [items].
  induction l as [|y l IH]; [done|].
  cbn [omap list_omap]. destruct (decide (y = x)) as [->|Hne].
  - rewrite (valOf_setValue_eq _ _ _ Hx).
    apply valOf_is_Some in Hx as [c Hc]. rewrite Hc. cbn.
    rewrite IH. unfold rewritten at 2. cbn. by rewrite decide_True.
  - rewrite (valOf_setValue_ne _ _ _ _ Hne).
    destruct (valOf i y) as [cy|]; cbn; [|exact IH].
    rewrite IH. unfold rewritten at 2. cbn. by rewrite decide_False.
Qed.

Lemma all_entries_set_value i gr s x c2 (gs : list gshape) :
  is_Some (i !! x) →
  all_entries (aview (mkWorld (setValue i x c2) gr s) gs)
  = rewritten x c2 <$> all_entries (aview (mkWorld i gr s) gs).
Proof.
  intros Hx. induction gs as [|g gs IH]; [done|].
  rewrite !aview_cons, !all_entries_cons, fmap_app, IH.
  unfold aview_group. cbn [a_entries].
  by rewrite (entries_set_value _ _ _ _ _ _ Hx).
Qed.

Lemma rewritten_others x c2 (E : list (loc * CacheItem)) :
  x ∉ E.*1 → rewritten x c2 <$> E = E.
Proof.
  intros Hx. induction E as [|e E IH]; [done|].
  rewrite fmap_cons in Hx. apply not_elem_of_cons in Hx as [Hne Hx].
  rewrite fmap_cons, (IH Hx). unfold rewritten. by rewrite decide_False.
Qed.

(** Two listings with the same entries, one of them moved. *)
Ltac listed :=
  rewrite ?aview_app, ?aview_cons, ?aview_nil, ?all_entries_app, ?all_entries_cons,
    ?all_entries_nil, ?entries_app, ?entries_nil;
  cbn [a_entries aview_group app];
  rewrite <- ?app_assoc; cbn [app];
  rewrite <- ?Permutation_middle, ?app_nil_r; reflexivity.

(** *** Raising the frequency of a cached key *)

Lemma bump_step w gh active idle clock touched k p :
  Rep w gh active idle →
  LInv (sview w active) (self w) clock touched →
  capacity (self w) ≤ int_max →
  Z.of_nat clock < int_max →
  keyToCacheItem (self w) !! k = Some p →
  ∃ x c w' active' idle',
    p = Some x ∧ itemAt w x = Some c ∧ item_key c = k ∧
    updateFreqAndMoveCacheItemNode p w = Ok (tt, w') ∧
    Rep w' gh active' idle' ∧
    LInv (sview w' active') (self w') (S clock) (<[k := clock]> touched) ∧
    keyToCacheItem (self w') = keyToCacheItem (self w) ∧
    size (self w') = size (self w) ∧ capacity (self w') = capacity (self w) ∧
    itemAt w' x = Some (set_item_frequency (item_frequency c + 1) c) ∧
    ∃ E1 E2,
      all_entries (aview w active) = E1 ++ (x, c) :: E2 ∧
      all_entries (aview w' active')
      ≡ₚ (x, set_item_frequency (item_frequency c + 1) c) :: E1 ++ E2.
Proof.
  intros HR [HLI Hsize Hle Hsome] Hcap Hclk Hk.
  pose proof (Rep_addr_NoDup _ _ _ _ HR) as Hnd.
  apply (li_keys _ _ _ _ _ _ HLI) in Hk as (e & He & Hek & ->).
  destruct (find_entry _ _ _ _ _ HR He)
    as (L1 & A & L2 & I1 & x & I2 & c & -> & HA & Hc & ->).
  simpl in Hek. subst k. exists x, c.
  destruct (Rep_group _ _ _ _ A HR) as (GA & HGA & _ & HsA & HneA & HdA);
    [clear; mem|].
  pose proof (Rep_sentries_length _ _ _ _ A HR ltac:(clear; mem)) as HlenA.
  destruct (decide (label w (default gh (last (g_node <$> L1))) = item_frequency c + 1))
    as [Hm|Hm].
  - (* a group of the next frequency precedes *)
    destruct L1 as [|B L1 _] using rev_ind.
    { simpl in Hm. rewrite (label_dummy _ _ _ _ HR) in Hm.
      rewrite (sview_split _ _ _ _ _ _ _ _ HA Hc) in HLI.
      apply LI_entry in HLI. simpl in HLI. lia. }
    rewrite fmap_app in Hm. change (g_node <$> [B]) with [g_node B] in Hm.
    rewrite last_snoc in Hm. simpl in Hm.
    rewrite <- reassoc in HR, HLI, Hnd, Hsize.
    destruct (Rep_group _ _ _ _ B HR) as (GB & HGB & _ & HsB & HneB & HdB);
      [clear; mem|].
    pose proof (Rep_sentries_length _ _ _ _ B HR ltac:(clear; mem)) as HlenB.
    rewrite (sview_split2 _ _ _ _ _ _ _ _ _ HA Hc) in HLI, Hnd, Hsize.
    pose proof HLI as HLI0. rewrite reassoc in HLI0.
    apply LI_entry in HLI0 as (HcA & HfA & HbA & HkA). simpl in HcA, HfA, HbA, HkA.
    assert (Z.of_nat (length (g_items A)) + Z.of_nat (length (g_items B))
            ≤ size (self w)) as Hlen.
    { rewrite Hsize, reassoc, length_s_all_mid. cbn [s_entries].
      rewrite (len_mid _ _ _ _ _ Hc), <- HA, HlenA.
      rewrite s_all_app, length_app, s_all_cons, length_app. cbn [s_entries].
      rewrite HlenB. simpl. lia. }
    assert (0 < length (g_items A))%nat as HposA by (destruct (g_items A); simpl; [done|lia]).
    destruct (bump_merge w gh L1 B A L2 idle I1 x I2 c GA GB) as (w' & Hrun & Hc' & Hcase);
      try done.
    { by apply index_Some. }
    { rewrite <- Hm. symmetry. by apply label_val. }
    { unfold is_int, int_min, int_max in *. lia. }
    { lia. }
    { lia. }
    destruct (decide (I1 ++ I2 = [])) as [Hnil|Hrest].
    + destruct Hcase as (HR' & Hself & Hav).
      apply app_eq_nil in Hnil as [-> ->].
      eexists w', _, _. split_and!; try done; try (by rewrite Hself).
      pose proof (LI_merge_vanish _ _ _ _ _ _ _ _ _ _ _ _ _ _ _ HLI Hnd Hm) as HL'.
      apply LInv_intro.
      * rewrite (strip_view _ _ _ _ _ _ Hav), Hself. rewrite Hm in HL'. exact HL'.
      * rewrite (strip_view _ _ _ _ _ _ Hav), Hself.
        etrans; [exact Hsize|]. apply (f_equal Z.of_nat). symmetry.
        apply len_merge_vanish.
      * by rewrite Hself.
      * rewrite (strip_view _ _ _ _ _ _ Hav). apply app_cons_ne.
      * eexists _, _. split; [apply (all_entries_split _ _ _ _ _ _ _ _ HA Hc)|].
        rewrite Hav. listed.
    + destruct Hcase as (HR' & Hself & Hav).
      eexists w', _, _. split_and!; try done; try (by rewrite Hself).
      assert (sentries w I1 ++ sentries w I2 ≠ []) as Hrest'.
      { rewrite <- sentries_app. intros Hn. apply Hrest.
        apply (f_equal length) in Hn.
        rewrite sentries_length in Hn; [by apply nil_length_inv|].
        intros y Hy. eapply (Rep_present _ _ _ _ A); [exact HR|clear; mem|].
        rewrite HA. revert Hy. clear. mem. }
      pose proof (LI_merge_stay _ _ _ _ _ _ _ _ _ _ _ _ _ _ _ _ _ HLI Hnd Hrest') as HL'.
      apply LInv_intro.
      * rewrite (strip_view2 _ _ _ _ _ _ _ Hav), Hself. rewrite Hm in HL'.
        rewrite <- sentries_app in HL'. exact HL'.
      * rewrite (strip_view2 _ _ _ _ _ _ _ Hav), Hself, strip_mk, sentries_app.
        etrans; [exact Hsize|]. apply (f_equal Z.of_nat). symmetry.
        apply len_merge_stay.
      * by rewrite Hself.
      * rewrite (strip_view2 _ _ _ _ _ _ _ Hav). apply app_cons_ne.
      * eexists _, _. split; [apply (all_entries_split _ _ _ _ _ _ _ _ HA Hc)|].
        rewrite Hav. listed.
  - (* no group of the next frequency *)
    rewrite (sview_split _ _ _ _ _ _ _ _ HA Hc) in HLI, Hnd, Hsize.
    pose proof HLI as HLI0.
    apply LI_entry in HLI0 as (HcA & HfA & HbA & HkA). simpl in HcA, HfA, HbA, HkA.
    assert (Z.of_nat (length (g_items A)) ≤ size (self w)) as Hlen.
    { rewrite Hsize, length_s_all_mid. cbn [s_entries].
      rewrite (len_mid _ _ _ _ _ Hc), <- HA, HlenA. lia. }
    assert (pred_label (sview w L1) ≠ item_frequency c + 1) as Hpred.
    { by rewrite (pred_label_view _ _ _ _ _ HR). }
    destruct (decide (I1 ++ I2 = [])) as [Hnil|Hrest].
    + apply app_eq_nil in Hnil as [-> ->].
      destruct (bump_relabel w gh L1 A L2 idle x c GA)
        as (w' & Hrun & HR' & Hself & Hc' & Hav); try done.
      { by apply index_Some. }
      { unfold is_int, int_min, int_max in *. lia. }
      eexists w', _, _. split_and!; try done; try (by rewrite Hself).
      pose proof (LI_relabel _ _ _ _ _ _ _ _ _ _ _ _ HLI Hnd Hpred) as HL'.
      apply LInv_intro.
      * rewrite (strip_view _ _ _ _ _ _ Hav), Hself. exact HL'.
      * rewrite (strip_view _ _ _ _ _ _ Hav), Hself.
        etrans; [exact Hsize|]. apply (f_equal Z.of_nat). symmetry.
        apply len_relabel.
      * by rewrite Hself.
      * rewrite (strip_view _ _ _ _ _ _ Hav). apply app_cons_ne.
      * eexists _, _. split; [apply (all_entries_split _ _ _ _ _ _ _ _ HA Hc)|].
        rewrite Hav. listed.
    + destruct (bump_split w gh L1 A L2 idle I1 x I2 c GA)
        as (w' & N & idle' & Hrun & HN & HR' & Hself & Hc' & Hav); try done.
      { by apply index_Some. }
      { unfold is_int, int_min, int_max in *. lia. }
      { lia. }
      eexists w', _, _. split_and!; try done; try (by rewrite Hself).
      assert (sentries w I1 ++ sentries w I2 ≠ []) as Hrest'.
      { rewrite <- sentries_app. intros Hn. apply Hrest.
        apply (f_equal length) in Hn.
        rewrite sentries_length in Hn; [by apply nil_length_inv|].
        intros y Hy. eapply (Rep_present _ _ _ _ A); [exact HR|clear; mem|].
        rewrite HA. revert Hy. clear. mem. }
      pose proof (LI_split _ (g_node N) _ _ _ _ _ _ _ _ _ _ _ _ _ HLI Hnd Hrest' Hpred)
        as HL'.
      apply LInv_intro.
      * rewrite (strip_view2 _ _ _ _ _ _ _ Hav), Hself.
        rewrite <- sentries_app in HL'. exact HL'.
      * rewrite (strip_view2 _ _ _ _ _ _ _ Hav), Hself, strip_mk, sentries_app.
        etrans; [exact Hsize|]. apply (f_equal Z.of_nat). symmetry.
        apply len_split.
      * by rewrite Hself.
      * rewrite (strip_view2 _ _ _ _ _ _ _ Hav). apply app_cons_ne.
      * eexists _, _. split; [apply (all_entries_split _ _ _ _ _ _ _ _ HA Hc)|].
        rewrite Hav. listed.
Qed.

(** *** Replacing the least valuable entry *)

Lemma snoc_cases {T} (l : list T) : l ≠ [] → ∃ l' a, l = l' ++ [a].
Proof. destruct l as [|a l _] using rev_ind; [done|]. eauto. Qed.

Lemma sview_last w L1 Mg I1 x c :
  g_items Mg = I1 ++ [x] → itemAt w x = Some c →
  sview w (L1 ++ [Mg])
  = sview w L1 ++
      [mkSG (g_node Mg) (label w (g_node Mg))
         (sentries w I1 ++ [mkSE x (item_key c) (item_frequency c)])].
Proof. intros HA Hx. by rewrite (sview_split _ _ _ _ _ _ _ _ HA Hx). Qed.

Lemma sentries_ne w gh active idle g (I1 : list loc) :
  Rep w gh active idle → g ∈ active → (∀ y, y ∈ I1 → y ∈ g_items g) →
  I1 ≠ [] → sentries w I1 ≠ [].
Proof.
  intros HR Hg Hsub Hne Hn. apply Hne. apply (f_equal length) in Hn.
  rewrite sentries_length in Hn; [by apply nil_length_inv|].
  intros y Hy. eapply Rep_present; [exact HR|exact Hg|by apply Hsub].
Qed.

Lemma evict_step w gh active idle clock touched k v :
  Rep w gh active idle →
  LInv (sview w active) (self w) clock touched →
  capacity (self w) ≤ int_max →
  keyToCacheItem (self w) !! k = None →
  size (self w) = capacity (self w) →
  ∃ w' active' idle' L1 Mg I1 x c,
    Put k v w = Ok (tt, w') ∧
    Rep w' gh active' idle' ∧
    LInv (sview w' active') (self w') (S clock) (<[k := clock]> touched) ∧
    capacity (self w') = capacity (self w) ∧ size (self w') = size (self w) ∧
    active = L1 ++ [Mg] ∧ g_items Mg = I1 ++ [x] ∧ itemAt w x = Some c ∧
    keyToCacheItem (self w')
    = <[k := Some x]> (delete (item_key c) (keyToCacheItem (self w))) ∧
    ∃ E0,
      all_entries (aview w active) = E0 ++ [(x, c)] ∧
      all_entries (aview w' active')
      ≡ₚ (x, if decide (I1 = []) then evicted k v c
             else set_item_frequency 1 (evicted k v c)) :: E0 ∧
      (I1 = [] ↔ ∀ e, e ∈ E0 → item_frequency e.2 ≠ item_frequency c).
Proof.
  intros HR [HLI Hsize Hle Hsome] Hcap Hnone Hfull.
  pose proof (Rep_addr_NoDup _ _ _ _ HR) as Hnd.
  assert (active ≠ []) as Hact by (intros ->; by apply Hsome).
  apply snoc_cases in Hact as (L1 & Mg & ->).
  destruct (Rep_group _ _ _ _ Mg HR) as (GM & HGM & _ & HsM & HneM & HdM);
    [clear; mem|].
  apply snoc_cases in HneM as (I1 & x & HM).
  destruct (Rep_present _ _ _ _ Mg x HR) as [c Hc]; [clear; mem|rewrite HM; clear; mem|].
  pose proof (Rep_sentries_length _ _ _ _ Mg HR ltac:(clear; mem)) as HlenM.
  pose proof (label_val _ _ _ HGM) as Hlab.
  rewrite (sview_last _ _ _ _ _ _ HM Hc) in HLI, Hnd, Hsize.
  assert (Z.of_nat (length (g_items Mg)) ≤ size (self w)) as Hlen.
  { rewrite Hsize, length_s_all_mid. cbn [s_entries].
    rewrite (len_last _ _ _ _ Hc), <- HM, HlenM. lia. }
  assert (I1 = [] ↔ ∀ e, e ∈ all_entries (aview w L1) ++ entries w I1 →
                         item_frequency e.2 ≠ item_frequency c) as Halone.
  { pose proof (LI_last_alone _ _ _ _ _ _ _ _ _ _ HLI) as Ha. cbn [e_freq] in Ha.
    assert (strip_entry <$> (all_entries (aview w L1) ++ entries w I1)
            = s_all (sview w L1) ++ sentries w I1) as Hst.
    { rewrite fmap_app. unfold sview. by rewrite strip_all. }
    split.
    - intros -> e He. apply (proj1 Ha eq_refl (strip_entry e)).
      rewrite <- Hst. by apply list_elem_of_fmap_2.
    - intros Hall. destruct (decide (I1 = [])) as [|Hne]; [done|]. exfalso.
      eapply (sentries_ne _ _ _ _ Mg); [exact HR|clear; mem| |exact Hne|].
      { intros y Hy. rewrite HM. revert Hy. clear. mem. }
      apply Ha. intros e' He'. rewrite <- Hst in He'.
      apply list_elem_of_fmap in He' as (e & -> & He). by apply Hall. }
  destruct (decide (I1 = [])) as [->|HI1];
    (destruct (decide (group_frequency GM = 1)) as [Hf1|Hf1]).
  - destruct (put_evict_stay w gh L1 Mg idle x c GM k v)
      as (w' & Hrun & HR' & Hfm & Hkm & Hsz & Hcp & Hav); try done.
    exists w', (L1 ++ [Mg]), idle, L1, Mg, [], x, c. split_and!; try done.
    pose proof (LI_evict_single _ _ _ _ _ _ _ _ _ _ _ k HLI Hnd Hfull Hnone) as HL'.
    apply LI_label in HLI as (Hl1 & _). simpl in Hl1. rewrite Hlab, Hf1 in Hl1.
    rewrite (insert_id _ _ _ Hl1) in HL'.
    apply LInv_intro.
    + rewrite (strip_view_last _ _ _ _ _ Hav), Hfm, Hkm, Hsz, Hcp. exact HL'.
    + rewrite (strip_view_last _ _ _ _ _ Hav), Hsz.
      etrans; [exact Hsize|]. apply (f_equal Z.of_nat). symmetry.
      apply (len_relabel _ _ _ _ []).
    + by rewrite Hsz, Hcp.
    + rewrite (strip_view_last _ _ _ _ _ Hav). apply app_cons_ne.
    + eexists. split; [exact (all_entries_last _ _ _ _ _ _ HM Hc)|].
      split; [|exact Halone].
      rewrite Hav. first [rewrite decide_True by done|rewrite decide_False by done].
      listed.
  - destruct (put_evict_relabel w gh L1 Mg idle x c GM k v)
      as (w' & Hrun & HR' & Hfm & Hkm & Hsz & Hcp & Hav); try done.
    exists w', (L1 ++ [Mg]), idle, L1, Mg, [], x, c. split_and!; try done.
    pose proof (LI_evict_single _ _ _ _ _ _ _ _ _ _ _ k HLI Hnd Hfull Hnone) as HL'.
    apply LInv_intro.
    + rewrite (strip_view_last _ _ _ _ _ Hav), Hfm, Hkm, Hsz, Hcp. exact HL'.
    + rewrite (strip_view_last _ _ _ _ _ Hav), Hsz.
      etrans; [exact Hsize|]. apply (f_equal Z.of_nat). symmetry.
      apply (len_relabel _ _ _ _ []).
    + by rewrite Hsz, Hcp.
    + rewrite (strip_view_last _ _ _ _ _ Hav). apply app_cons_ne.
    + eexists. split; [exact (all_entries_last _ _ _ _ _ _ HM Hc)|].
      split; [|exact Halone].
      rewrite Hav. first [rewrite decide_True by done|rewrite decide_False by done].
      listed.
  - destruct (put_evict_front w gh L1 Mg idle I1 x c GM k v)
      as (w' & Hrun & HR' & Hfm & Hkm & Hsz & Hcp & Hav); try done.
    eexists w', _, idle, L1, Mg, I1, x, c. split_and!; try done.
    assert (sentries w I1 ≠ []) as HE1.
    { eapply (sentries_ne _ _ _ _ Mg); [exact HR|clear; mem| |done].
      intros y Hy. rewrite HM. revert Hy. clear. mem. }
    rewrite Hlab, Hf1 in HLI, Hnd.
    pose proof (LI_evict_front _ _ _ _ _ _ _ _ _ _ _ k HLI Hnd HE1 Hnone) as HL'.
    apply LInv_intro.
    + rewrite (strip_view_last _ _ _ _ _ Hav), Hfm, Hkm, Hsz, Hcp. exact HL'.
    + rewrite (strip_view_last _ _ _ _ _ Hav), Hsz.
      etrans; [exact Hsize|]. apply (f_equal Z.of_nat). symmetry.
      apply len_evict_front.
    + by rewrite Hsz, Hcp.
    + rewrite (strip_view_last _ _ _ _ _ Hav). apply app_cons_ne.
    + eexists. split; [exact (all_entries_last _ _ _ _ _ _ HM Hc)|].
      split; [|exact Halone].
      rewrite Hav. first [rewrite decide_True by done|rewrite decide_False by done].
      listed.
  - destruct (put_evict_split w gh L1 Mg idle I1 x c GM k v)
      as (w' & N & idle' & Hrun & HN & HR' & Hfm & Hkm & Hsz & Hcp & Hav); try done.
    { lia. }
    eexists w', _, idle', L1, Mg, I1, x, c. split_and!; try done.
    assert (sentries w I1 ≠ []) as HE1.
    { eapply (sentries_ne _ _ _ _ Mg); [exact HR|clear; mem| |done].
      intros y Hy. rewrite HM. revert Hy. clear. mem. }
    assert (label w (g_node Mg) ≠ 1) as Hl1 by by rewrite Hlab.
    pose proof (LI_evict_split _ _ _ (g_node N) _ _ _ _ _ _ _ _ _ k HLI Hnd HE1 Hl1 Hnone)
      as HL'.
    apply LInv_intro.
    + rewrite (strip_view_last _ _ _ _ _ Hav), Hfm, Hkm, Hsz, Hcp. exact HL'.
    + rewrite (strip_view_last _ _ _ _ _ Hav), Hsz.
      etrans; [exact Hsize|]. apply (f_equal Z.of_nat). symmetry.
      apply len_evict_split.
    + by rewrite Hsz, Hcp.
    + rewrite (strip_view_last _ _ _ _ _ Hav). apply app_cons_ne.
    + eexists. split; [exact (all_entries_last _ _ _ _ _ _ HM Hc)|].
      split; [|exact Halone].
      rewrite Hav. first [rewrite decide_True by done|rewrite decide_False by done].
      listed.
Qed.

(** *** Adding a key while there is room *)

Lemma LI_some (a : list sgroup) fm km touched clock full :
  LI a fm km touched clock full → a ≠ [] → (0 < length (s_all a))%nat.
Proof.
  intros HLI Hne. destruct a as [|g r]; [done|].
  pose proof (li_nonempty _ _ _ _ _ _ HLI) as Hn.
  apply Forall_cons in Hn as [Hn _].
  rewrite s_all_cons, length_app. destruct (s_entries g); [done|simpl; lia].
Qed.

Lemma sview_snoc w L1 Lg :
  sview w (L1 ++ [Lg])
  = sview w L1 ++ [mkSG (g_node Lg) (label w (g_node Lg)) (sentries w (g_items Lg))].
Proof. by rewrite sview_app. Qed.

Lemma grow_step w gh active idle clock touched k v :
  Rep w gh active idle →
  LInv (sview w active) (self w) clock touched →
  capacity (self w) ≤ int_max →
  keyToCacheItem (self w) !! k = None →
  size (self w) ≠ capacity (self w) →
  ∃ w' active' idle',
    Put k v w = Ok (tt, w') ∧
    Rep w' gh active' idle' ∧
    LInv (sview w' active') (self w') (S clock) (<[k := clock]> touched) ∧
    capacity (self w') = capacity (self w) ∧
    keyToCacheItem (self w')
    = <[k := Some (length (items w))]> (keyToCacheItem (self w)) ∧
    size (self w') = size (self w) + 1 ∧
    all_entries (aview w' active')
    ≡ₚ (length (items w), set_item_frequency 1 (fresh_item k v))
         :: all_entries (aview w active).
Proof.
  intros HR [HLI Hsize Hle Hsome] Hcap Hnone Hroom.
  pose proof (LI_some _ _ _ _ _ _ HLI Hsome) as Hpos.
  assert (0 < size (self w)) as Hpos' by lia. clear Hpos.
  assert (active ≠ []) as Hact by (intros ->; by apply Hsome).
  apply snoc_cases in Hact as (L1 & Lg & ->).
  destruct (Rep_group _ _ _ _ Lg HR) as (GL & HGL & _ & HsL & HneL & HdL);
    [clear; mem|].
  pose proof (Rep_sentries_length _ _ _ _ Lg HR ltac:(clear; mem)) as HlenL.
  pose proof (label_val _ _ _ HGL) as Hlab.
  assert (is_int (size (self w) + 1)) as Hint.
  { unfold is_int, int_min, int_max in *. lia. }
  destruct (decide (group_frequency GL = 1)) as [Hf1|Hf1].
  - rewrite sview_snoc in HLI, Hsize.
    assert (Z.of_nat (length (g_items Lg)) ≤ size (self w)) as Hlen.
    { rewrite Hsize, length_s_all_mid. cbn [s_entries]. rewrite HlenL. lia. }
    destruct (put_join w gh L1 Lg idle GL k v)
      as (w' & Hrun & HR' & Hfm & Hkm & Hsz & Hcp & Hav); try done.
    { lia. }
    { lia. }
    eexists w', _, idle. split_and!; try done.
    rewrite Hlab, Hf1 in HLI, Hsize.
    pose proof (LI_join _ _ _ _ _ _ _ _ (size (self w') = capacity (self w'))
                  (length (items w)) k HLI Hroom Hnone) as HL'.
    apply LInv_intro.
    + rewrite (strip_view_last _ _ _ _ _ Hav), Hfm, Hkm. exact HL'.
    + rewrite (strip_view_last _ _ _ _ _ Hav), Hsz, Hsize.
      match goal with
      | |- Z.of_nat (length (s_all ?old)) + 1 = Z.of_nat ?n =>
          replace n with (S (length (s_all old))) by (symmetry; apply len_join)
      end. lia.
    + rewrite Hsz, Hcp. lia.
    + rewrite (strip_view_last _ _ _ _ _ Hav). apply app_cons_ne.
    + rewrite Hav. listed.
  - assert (pred_label (sview w (L1 ++ [Lg])) ≠ 0 + 1) as Hpred.
    { rewrite (pred_label_view _ _ _ _ _ HR), fmap_app.
      change (g_node <$> [Lg]) with [g_node Lg]. rewrite last_snoc. simpl.
      by rewrite Hlab. }
    destruct (put_append w gh (L1 ++ [Lg]) idle k v)
      as (w' & N & idle' & Hrun & HN & HR' & Hfm & Hkm & Hsz & Hcp & Hav); try done.
    { lia. }
    { rewrite fmap_app. change (g_node <$> [Lg]) with [g_node Lg].
      rewrite last_snoc. simpl. by rewrite Hlab. }
    eexists w', _, idle'. split_and!; try done.
    pose proof (LI_append _ (g_node N) _ _ _ _ _ (size (self w') = capacity (self w'))
                  (length (items w)) k HLI Hroom Hpred Hnone) as HL'.
    apply LInv_intro.
    + rewrite (strip_view_last _ _ _ _ _ Hav), Hfm, Hkm. exact HL'.
    + rewrite (strip_view_last _ _ _ _ _ Hav), Hsz, Hsize.
      match goal with
      | |- Z.of_nat (length (s_all ?old)) + 1 = Z.of_nat ?n =>
          replace n with (S (length (s_all old))) by (symmetry; apply len_append)
      end. lia.
    + rewrite Hsz, Hcp. lia.
    + rewrite (strip_view_last _ _ _ _ _ Hav). apply app_cons_ne.
    + rewrite Hav. listed.
Qed.

Lemma first_step w clock touched k v :
  Empty w → 0 < capacity (self w) →
  ∃ w' gh active idle,
    Put k v w = Ok (tt, w') ∧
    Rep w' gh active idle ∧
    LInv (sview w' active) (self w') (S clock) (<[k := clock]> touched) ∧
    capacity (self w') = capacity (self w) ∧
    keyToCacheItem (self w') = <[k := Some (length (items w))]> ∅ ∧
    size (self w') = 1 ∧
    all_entries (aview w' active)
    = [(length (items w), set_item_frequency 1 (fresh_item k v))].
Proof.
  intros HE Hcap. pose proof HE as (Hs0 & _).
  destruct (put_first w k v) as (w' & Hrun & HR' & Hfm & Hkm & Hsz & Hcp & Hav);
    [done|lia|].
  eexists w', _, _, _. split_and!; try done.
  - apply LInv_intro.
    + unfold sview. rewrite Hav, Hfm, Hkm. apply LI_first.
    + unfold sview. rewrite Hav, Hsz. done.
    + rewrite Hsz, Hcp. lia.
    + unfold sview. by rewrite Hav.
  - by rewrite Hav.
Qed.

(** *** Calls that only read *)

Lemma bind_ret_r {S T} (m : M S T) (st : S) : bind m ret st = m st.
Proof. unfold bind, ret. by destruct (m st) as [[]| |]. Qed.

Lemma run_update_item x c f i gr s :
  valOf i x = Some c →
  update_item (Some x) f (mkWorld i gr s)
  = Ok (tt, mkWorld (setValue i x (f c)) gr s).
Proof.
  intros Hc. rewrite <- bind_ret_r. by rewrite (exec_update_item _ _ _ _ _ _ _ Hc).
Qed.

Lemma run_item_of x c w : itemAt w x = Some c → item_of (Some x) w = Ok (c, w).
Proof.
  intros Hc. destruct w as [i gr s]. rewrite <- bind_ret_r.
  by rewrite (exec_item_of _ _ _ _ _ _ Hc).
Qed.

Lemma GetKeyFrequency_miss w k :
  keyToCacheItem (self w) !! k = None →
  GetKeyFrequency k w = Ok ((0, Some ErrKeyNotFound), w).
Proof.
  intros Hk. destruct w as [i gr s]. unfold GetKeyFrequency.
  rewrite exec_the_cache. simpl in Hk. by rewrite Hk.
Qed.

Lemma GetKeyFrequency_hit w k x c :
  keyToCacheItem (self w) !! k = Some (Some x) → itemAt w x = Some c →
  GetKeyFrequency k w = Ok ((item_frequency c, None), w).
Proof.
  intros Hk Hc. destruct w as [i gr s]. unfold GetKeyFrequency.
  rewrite exec_the_cache. simpl in Hk. rewrite Hk.
  by rewrite (exec_item_of _ _ _ _ _ _ Hc).
Qed.

Lemma Get_miss w k :
  keyToCacheItem (self w) !! k = None →
  Get k w = Ok ((zero, Some ErrKeyNotFound), w).
Proof.
  intros Hk. destruct w as [i gr s]. unfold Get.
  rewrite exec_the_cache. simpl in Hk. by rewrite Hk.
Qed.

Lemma Get_hit w k x c w' :
  keyToCacheItem (self w) !! k = Some (Some x) → itemAt w x = Some c →
  updateFreqAndMoveCacheItemNode (Some x) w = Ok (tt, w') →
  Get k w = Ok ((item_value c, None), w').
Proof.
  intros Hk Hc Hrun. destruct w as [i gr s]. unfold Get.
  rewrite exec_the_cache. simpl in Hk. rewrite Hk.
  rewrite (exec_item_of _ _ _ _ _ _ Hc). by rewrite (bind_Ok _ _ _ _ _ Hrun).
Qed.

Lemma Put_hit w k v x c' i1 gr1 s1 :
  keyToCacheItem (self w) !! k = Some (Some x) →
  updateFreqAndMoveCacheItemNode (Some x) w = Ok (tt, mkWorld i1 gr1 s1) →
  valOf i1 x = Some c' →
  Put k v w = Ok (tt, mkWorld (setValue i1 x (set_item_value v c')) gr1 s1).
Proof.
  intros Hk Hrun Hc. destruct w as [i gr s]. unfold Put.
  rewrite exec_the_cache. simpl in Hk. rewrite Hk.
  rewrite (bind_Ok _ _ _ _ _ Hrun). by apply run_update_item.
Qed.

Lemma sentries_set_value i gr s x c c2 (l : list loc) :
  valOf i x = Some c → item_key c2 = item_key c →
  item_frequency c2 = item_frequency c →
  sentries (mkWorld (setValue i x c2) gr s) l = sentries (mkWorld i gr s) l.
Proof.
  intros Hc Hk Hf. induction l as [|y l IH]; [done|].
  destruct (decide (y = x)) as [->|Hne].
  - rewrite (sentries_cons _ _ c2), (sentries_cons _ _ c), IH; [|done|].
    + by rewrite Hk, Hf.
    + unfold itemAt. simpl. apply valOf_setValue_eq. by eapply valOf_alloc'.
  - assert (itemAt (mkWorld (setValue i x c2) gr s) y = itemAt (mkWorld i gr s) y)
      as Hy by (unfold itemAt; simpl; by rewrite valOf_setValue_ne).
    destruct (itemAt (mkWorld i gr s) y) as [cy|] eqn:Ey.
    + by rewrite (sentries_cons _ _ cy), (sentries_cons _ _ cy), IH.
    + by rewrite !sentries_cons_none, IH.
Qed.

Lemma sview_set_value i gr s x c c2 (gs : list gshape) :
  valOf i x = Some c → item_key c2 = item_key c →
  item_frequency c2 = item_frequency c →
  sview (mkWorld (setValue i x c2) gr s) gs = sview (mkWorld i gr s) gs.
Proof.
  intros Hc Hk Hf. induction gs as [|g gs IH]; [done|].
  rewrite !sview_cons, IH, !sview_group.
  by rewrite (sentries_set_value _ _ _ _ _ _ _ Hc Hk Hf).
Qed.

Lemma put_hit_step w gh active idle clock touched k v p :
  Rep w gh active idle →
  LInv (sview w active) (self w) clock touched →
  capacity (self w) ≤ int_max →
  Z.of_nat clock < int_max →
  keyToCacheItem (self w) !! k = Some p →
  ∃ w' active' idle',
    Put k v w = Ok (tt, w') ∧
    Rep w' gh active' idle' ∧
    LInv (sview w' active') (self w') (S clock) (<[k := clock]> touched) ∧
    capacity (self w') = capacity (self w) ∧
    keyToCacheItem (self w') = keyToCacheItem (self w) ∧
    size (self w') = size (self w) ∧
    ∃ x c E1 E2,
      p = Some x ∧ item_key c = k ∧
      all_entries (aview w active) = E1 ++ (x, c) :: E2 ∧
      all_entries (aview w' active')
      ≡ₚ (x, set_item_value v (set_item_frequency (item_frequency c + 1) c))
           :: E1 ++ E2.
Proof.
  intros HR HL Hcap Hclk Hk.
  destruct (bump_step _ _ _ _ _ _ _ _ HR HL Hcap Hclk Hk)
    as (x & c & w1 & active' & idle' & -> & Hc & Hkey & Hrun & HR1 & HL1 &
        Hkm & Hsz & Hcp & Hc1 & E1 & E2 & HE & HE1).
  destruct w1 as [i1 gr1 s1].
  eexists _, active', idle'. split_and!.
  - by eapply Put_hit.
  - by apply Rep_set_item.
  - by rewrite (sview_set_value _ _ _ _ _ _ _ Hc1).
  - done.
  - done.
  - done.
  - exists x, c, E1, E2. split_and!; [done..|].
    pose proof (entries_addr_NoDup _ _ _ _ HR1) as Hnd.
    rewrite HE1 in Hnd. rewrite fmap_cons in Hnd. apply NoDup_cons in Hnd as [Hx _].
    rewrite all_entries_set_value by by eapply valOf_alloc'.
    rewrite HE1, fmap_cons, (rewritten_others _ _ _ Hx).
    unfold rewritten. by rewrite decide_True.
Qed.

Lemma LInv_tick (a : list sgroup) s clock touched :
  LInv a s clock touched → LInv a s (S clock) touched.
Proof. intros [HLI ? ? ?]. constructor; try done. by apply LI_tick. Qed.

(** *** What [All] yields *)

Lemma bounded_length (l : list nat) (n : nat) :
  NoDup l → (∀ x, x ∈ l → (x < n)%nat) → (length l ≤ n)%nat.
Proof.
  intros Hnd Hlt. transitivity (length (seq 0 n)); [|by rewrite length_seq].
  apply submseteq_length, NoDup_submseteq; [done|].
  intros x Hx. apply elem_of_seq. specialize (Hlt x Hx). lia.
Qed.

Lemma feed_collect (vs : list CacheItem) acc :
  feed collect vs (true, acc) = Ok (true, acc ++ (kv <$> vs)).
Proof.
  revert acc. induction vs as [|c vs IH]; intros acc; simpl.
  - by rewrite app_nil_r.
  - rewrite IH. by rewrite <- app_assoc.
Qed.

Lemma values_entries w (l : list loc) : values (items w) l = snd <$> entries w l.
Proof.
  unfold values, entries, itemAt. induction l as [|x l IH]; [done|].
  cbn [omap list_omap]. destruct (valOf (items w) x); simpl; [|done].
  by rewrite IH.
Qed.

Lemma All_pairs_view w gh active idle :
  Rep w gh active idle → size (self w) ≠ 0 →
  All_pairs w = Ok (pairs_of (aview w active)).
Proof.
  intros HR Hs0. unfold All_pairs, All. rewrite decide_False by done.
  rewrite (rep_list _ _ _ _ HR).
  destruct (rep_outer _ _ _ _ HR) as (Hd & _ & Hnd & _).
  rewrite (dll_All _ _ _ _ _ _ Hd).
  2:{ rewrite length_fmap. rewrite <- (length_fmap g_node).
      apply bounded_length; [by eapply dll_NoDup|].
      intros y Hy. eapply dll_lt; [exact Hd|by right]. }
  assert (∀ gs acc, (∀ g, g ∈ gs → g ∈ active) →
            feed (λ freqGroup acc,
                    linkedlist.All (length (items w)) (group_elementsList freqGroup)
                      (items w)
                      (λ cacheItem '(_, acc),
                         let '(yieldResult, acc) :=
                           (true, acc ++ [(item_key cacheItem, item_value cacheItem)]) in
                         Ok (yieldResult, (yieldResult, acc)))
                      (true, acc))
              (values (groups w) (g_node <$> gs)) acc
            = Ok (acc ++ pairs_of (aview w gs))) as Hfeed.
  { induction gs as [|g gs IH]; intros acc Hsub.
    - simpl. by rewrite app_nil_r.
    - destruct (Rep_group _ _ _ _ g HR) as (G & HG & HGl & _ & _ & Hdg);
        [apply Hsub; by left|].
      rewrite fmap_cons, (values_cons _ _ _ _ HG). simpl. rewrite HGl.
      rewrite (dll_All _ _ _ _ collect _ Hdg).
      2:{ apply bounded_length; [by eapply dll_NoDup|].
          intros y Hy. eapply dll_lt; [exact Hdg|by right]. }
      rewrite feed_collect, IH by (intros; apply Hsub; by right).
      rewrite <- app_assoc. f_equal. f_equal.
      unfold pairs_of, all_entries. rewrite aview_cons, bind_cons, fmap_app.
      f_equal. simpl. rewrite values_entries, <- list_fmap_compose. done. }
  rewrite Hfeed by done. done.
Qed.

(** *** One call *)

Lemma keyed_Some w gh active idle clock touched k p :
  Rep w gh active idle →
  LInv (sview w active) (self w) clock touched →
  keyToCacheItem (self w) !! k = Some p →
  ∃ x c, p = Some x ∧ itemAt w x = Some c ∧ item_key c = k ∧
         mkSE x k (item_frequency c) ∈ s_all (sview w active).
Proof.
  intros HR [HLI _ _ _] Hk.
  apply (li_keys _ _ _ _ _ _ HLI) in Hk as (e & He & Hek & ->).
  destruct (find_entry _ _ _ _ _ HR He)
    as (L1 & A & L2 & I1 & x & I2 & c & -> & HA & Hc & ->).
  simpl in Hek. subst k. by exists x, c.
Qed.

Lemma perform_Inv (c : call) (t : traced) :
  Inv t → Z.of_nat (clock t) < int_max →
  ∃ w', perform c (mem t) = Ok (tt, w') ∧ Inv (note c t w') ∧
        capacity (self w') = capacity (self (mem t)).
Proof.
  destruct t as [w n tch]. unfold Inv. cbn [mem clock touched].
  intros [Hcap [HE|(gh & active & idle & HR & HL)]] Hclk.
  - (* nothing was put yet *)
    pose proof HE as (Hs0 & Hnil & Hkm & Hfree).
    destruct c as [k|k v|k| | |]; simpl.
    + exists w. unfold discard. rewrite (bind_Ok _ _ _ _ _ (Get_miss w k ltac:(by rewrite Hkm))).
      split; [done|]. split; [|done]. unfold note, hit. cbn [mem clock touched].
      rewrite Hkm, lookup_empty.
      split; [done|]. by left.
    + destruct (first_step w n tch k v HE ltac:(lia))
        as (w' & gh & active & idle & Hrun & HR' & HL' & Hcp & _).
      exists w'. split; [done|]. split; [|done]. split; simpl; [by rewrite Hcp|].
      right. by exists gh, active, idle.
    + exists w. unfold discard.
      rewrite (bind_Ok _ _ _ _ _ (GetKeyFrequency_miss w k ltac:(by rewrite Hkm))).
      split; [done|]. split; [|done]. split; [done|]. by left.
    + exists w. unfold All_pairs, All. rewrite decide_True by done.
      split; [done|]. split; [|done]. split; [done|]. by left.
    + exists w. split; [done|]. split; [|done]. split; [done|]. by left.
    + exists w. split; [done|]. split; [|done]. split; [done|]. by left.
  - pose proof (LI_some _ _ _ _ _ _ (lv_core _ _ _ _ HL) (lv_some _ _ _ _ HL)) as Hpos.
    assert (size (self w) ≠ 0) as Hs0 by (rewrite (lv_size _ _ _ _ HL); lia).
    destruct c as [k|k v|k| | |]; simpl.
    + destruct (keyToCacheItem (self w) !! k) as [p|] eqn:Hk.
      * destruct (bump_step _ _ _ _ _ _ _ _ HR HL ltac:(lia) Hclk Hk)
          as (x & c & w' & active' & idle' & -> & Hc & Hkey & Hrun & HR' & HL' &
              Hkm & Hsz & Hcp & Hc' & _).
        exists w'. unfold discard.
        rewrite (bind_Ok _ _ _ _ _ (Get_hit _ _ _ _ _ Hk Hc Hrun)).
        split; [done|]. split; [|done]. unfold note, hit. cbn [mem clock touched]. rewrite ?Hk.
        split; [by rewrite Hcp|]. right. by exists gh, active', idle'.
      * exists w. unfold discard. rewrite (bind_Ok _ _ _ _ _ (Get_miss w k Hk)).
        split; [done|]. split; [|done]. unfold note, hit. cbn [mem clock touched]. rewrite ?Hk.
        split; [done|]. right. exists gh, active, idle. split; [done|].
        by apply LInv_tick.
    + destruct (keyToCacheItem (self w) !! k) as [p|] eqn:Hk.
      * destruct (put_hit_step _ _ _ _ _ _ _ v _ HR HL ltac:(lia) Hclk Hk)
          as (w' & active' & idle' & Hrun & HR' & HL' & Hcp & Hkm & _).
        exists w'. split; [done|]. split; [|done].
        split; simpl; [by rewrite Hcp|]. right. by exists gh, active', idle'.
      * destruct (decide (size (self w) = capacity (self w))) as [Hfull|Hroom].
        -- destruct (evict_step _ _ _ _ _ _ _ v HR HL ltac:(lia) Hk Hfull)
             as (w' & active' & idle' & L1 & Mg & I1 & x & c & Hrun & HR' & HL' &
                 Hcp & _).
           exists w'. split; [done|]. split; [|done].
           split; simpl; [by rewrite Hcp|]. right. by exists gh, active', idle'.
        -- destruct (grow_step _ _ _ _ _ _ _ v HR HL ltac:(lia) Hk Hroom)
             as (w' & active' & idle' & Hrun & HR' & HL' & Hcp & _).
           exists w'. split; [done|]. split; [|done].
           split; simpl; [by rewrite Hcp|]. right. by exists gh, active', idle'.
    + exists w. unfold discard.
      assert (∃ r, GetKeyFrequency k w = Ok (r, w)) as [r Hr].
      { destruct (keyToCacheItem (self w) !! k) as [p|] eqn:Hk.
        - destruct (keyed_Some _ _ _ _ _ _ _ _ HR HL Hk) as (x & c & -> & Hc & _).
          eexists. by eapply GetKeyFrequency_hit.
        - eexists. by apply GetKeyFrequency_miss. }
      rewrite (bind_Ok _ _ _ _ _ Hr).
      split; [done|]. split; [|done]. split; [done|].
      right. exists gh, active, idle. split; [done|]. by apply LInv_tick.
    + exists w. rewrite (All_pairs_view _ _ _ _ HR Hs0).
      split; [done|]. split; [|done]. split; [done|].
      right. exists gh, active, idle. split; [done|]. by apply LInv_tick.
    + exists w. split; [done|]. split; [|done]. split; [done|].
      right. exists gh, active, idle. split; [done|]. by apply LInv_tick.
    + exists w. split; [done|]. split; [|done]. split; [done|].
      right. exists gh, active, idle. split; [done|]. by apply LInv_tick.
Qed.

(** *** Sessions *)

Lemma perform_traced_Inv (c : call) (t : traced) :
  Inv t → Z.of_nat (clock t) < int_max →
  ∃ t', perform_traced c t = Ok t' ∧ Inv t' ∧ clock t' = S (clock t) ∧
        capacity (self (mem t')) = capacity (self (mem t)).
Proof.
  intros HI Hclk. destruct (perform_Inv c t HI Hclk) as (w' & Hrun & HI' & Hcp).
  exists (note c t w'). unfold perform_traced. by rewrite Hrun.
Qed.

Lemma run_Inv (cs : list call) (t : traced) :
  Inv t → Z.of_nat (clock t + length cs) ≤ int_max →
  ∃ t', run cs t = Ok t' ∧ Inv t' ∧ clock t' = (clock t + length cs)%nat ∧
        capacity (self (mem t')) = capacity (self (mem t)).
Proof.
  revert t. induction cs as [|c cs IH]; intros t HI Hlen.
  - exists t. simpl. split_and!; try done; lia.
  - simpl in Hlen.
    destruct (perform_traced_Inv c t HI ltac:(lia)) as (t1 & Hrun & HI1 & Hc1 & Hcp1).
    destruct (IH t1 HI1 ltac:(lia)) as (t' & Hrun' & HI' & Hc' & Hcp').
    exists t'. simpl. rewrite Hrun. split_and!; try done; [simpl; lia|congruence].
Qed.

Lemma New_Inv (c : Z) :
  0 < c ≤ int_max →
  ∃ w, New [c] = Ok w ∧ Inv (mkTraced w 0 ∅) ∧ capacity (self w) = c.
Proof.
  intros Hc. unfold New. simpl.
  rewrite decide_False by lia.
  eexists. split; [done|]. split; [|done]. split; [done|]. by left.
Qed.

Lemma session_Inv (c : Z) (cs : list call) :
  0 < c ≤ int_max → Z.of_nat (length cs) ≤ int_max →
  ∃ t, session [c] cs = Ok t ∧ Inv t ∧ clock t = length cs ∧
       capacity (self (mem t)) = c.
Proof.
  intros Hc Hlen. destruct (New_Inv c Hc) as (w & HN & HI & Hcp).
  destruct (run_Inv cs _ HI ltac:(simpl; lia)) as (t & Hrun & HI' & Hc' & Hcp').
  exists t. unfold session. rewrite HN. split_and!; try done. simpl in Hcp'. congruence.
Qed.

(** *** What the view says about the calls *)

Lemma keys_of_pairs w active :
  (pairs_of (aview w active)).*1 = e_key <$> s_all (sview w active).
Proof.
  unfold sview, pairs_of. rewrite strip_all, <- !list_fmap_compose. done.
Qed.

Lemma entry_item w active x c :
  (x, c) ∈ all_entries (aview w active) → itemAt w x = Some c.
Proof.
  unfold all_entries. intros (ag & Hin & Hag)%list_elem_of_bind.
  unfold aview in Hag. apply list_elem_of_fmap in Hag as (g & -> & Hg).
  simpl in Hin. unfold entries in Hin.
  apply list_elem_of_omap in Hin as (y & Hy & Hv).
  destruct (itemAt w y) as [c'|] eqn:Ec; [|done]. simpl in Hv. by injection Hv as <- <-.
Qed.

Lemma frequency_of_entry w gh active idle clock touched (e : sentry) :
  Rep w gh active idle →
  LInv (sview w active) (self w) clock touched →
  e ∈ s_all (sview w active) →
  frequency_of w (e_key e) = Some (e_freq e).
Proof.
  intros HR HL He.
  pose proof (keyed_lookup _ _ _ (li_keys _ _ _ _ _ _ (lv_core _ _ _ _ HL)) He) as Hk.
  destruct (find_entry _ _ _ _ _ HR He)
    as (L1 & A & L2 & I1 & x & I2 & c & _ & _ & Hc & ->).
  simpl in *. unfold frequency_of. by rewrite (GetKeyFrequency_hit _ _ _ _ Hk Hc).
Qed.

Lemma cached_entry w gh active idle clock touched k :
  Rep w gh active idle →
  LInv (sview w active) (self w) clock touched →
  cached w k ↔ k ∈ e_key <$> s_all (sview w active).
Proof.
  intros HR HL. unfold cached. split.
  - intros [p Hp].
    apply (li_keys _ _ _ _ _ _ (lv_core _ _ _ _ HL)) in Hp as (e & He & Hk & _).
    apply list_elem_of_fmap. by exists e.
  - intros (e & -> & He)%list_elem_of_fmap. eexists.
    apply (keyed_lookup _ _ _ (li_keys _ _ _ _ _ _ (lv_core _ _ _ _ HL)) He).
Qed.

Lemma view_order (t : traced) gh active idle :
  Rep (mem t) gh active idle →
  LInv (sview (mem t) active) (self (mem t)) (clock t) (touched t) →
  StronglySorted (precedes t) (e_key <$> s_all (sview (mem t) active)).
Proof.
  intros HR HL.
  eapply sorted_fmap_in; [apply (LI_sorted _ _ _ _ _ _ (lv_core _ _ _ _ HL))|].
  intros e1 e2 H1 H2 Hb. exists (e_freq e1), (e_freq e2).
  split; [by eapply frequency_of_entry|]. split; [by eapply frequency_of_entry|].
  exact Hb.
Qed.

Lemma pairs_of_last w L1 Mg I1 x c :
  g_items Mg = I1 ++ [x] → itemAt w x = Some c →
  ∃ ps, pairs_of (aview w (L1 ++ [Mg])) = ps ++ [(item_key c, item_value c)].
Proof.
  intros HM Hc. unfold pairs_of, all_entries.
  rewrite aview_app, bind_app, aview_cons, bind_cons. simpl.
  rewrite HM, entries_app, (entries_cons _ _ _ _ Hc), entries_nil, app_nil_r.
  rewrite !fmap_app. simpl. rewrite app_assoc. eauto.
Qed.

Lemma Inv_full_Rep (t : traced) :
  Inv t → size (self (mem t)) = capacity (self (mem t)) →
  ∃ gh active idle,
    Rep (mem t) gh active idle ∧
    LInv (sview (mem t) active) (self (mem t)) (clock t) (touched t).
Proof.
  intros [Hcap [(Hs0 & _)|HRep]] Hfull; [lia|done].
Qed.

(** *** The order of [All] *)

Lemma all_order_Inv (t : traced) :
  Inv t → Z.of_nat (clock t) < int_max →
  ∃ ps, All_pairs (mem t) = Ok ps ∧
        StronglySorted (precedes t) ps.*1 ∧
        (∀ k, cached (mem t) k ↔ k ∈ ps.*1) ∧
        (∀ k v, (k, v) ∈ ps → ∃ w', Get k (mem t) = Ok ((v, None), w')).
Proof.
  destruct t as [w n tch]. unfold Inv. cbn [mem clock touched].
  intros [Hcap [HE|(gh & active & idle & HR & HL)]] Hclk.
  - destruct HE as (Hs0 & _ & Hkm & _). exists [].
    unfold All_pairs, All. rewrite decide_True by done. split_and!; try done.
    + constructor.
    + intros k. unfold cached. cbn [mem]. rewrite Hkm, lookup_empty. split.
      * by intros [? ?].
      * by intros ?%elem_of_nil.
    + by intros k v ?%elem_of_nil.
  - pose proof (LI_some _ _ _ _ _ _ (lv_core _ _ _ _ HL) (lv_some _ _ _ _ HL)) as Hpos.
    assert (size (self w) ≠ 0) as Hs0 by (rewrite (lv_size _ _ _ _ HL); lia).
    exists (pairs_of (aview w active)). split_and!.
    + by eapply All_pairs_view.
    + rewrite keys_of_pairs. by apply (view_order (mkTraced w n tch) gh active idle).
    + intros k. rewrite keys_of_pairs. cbn [mem]. by eapply cached_entry.
    + intros k v Hin. cbn [mem].
      unfold pairs_of in Hin. apply list_elem_of_fmap in Hin as ([x c] & Heq & Hxc).
      simpl in Heq. injection Heq as -> ->.
      pose proof (entry_item _ _ _ _ Hxc) as Hc.
      assert (strip_entry (x, c) ∈ s_all (sview w active)) as He.
      { unfold sview. rewrite strip_all. apply list_elem_of_fmap. by exists (x, c). }
      pose proof (keyed_lookup _ _ _ (li_keys _ _ _ _ _ _ (lv_core _ _ _ _ HL)) He) as Hk.
      simpl in Hk.
      destruct (bump_step _ _ _ _ _ _ _ _ HR HL ltac:(lia) Hclk Hk)
        as (x' & c' & w' & active' & idle' & Hx & Hc'' & _ & Hrun & _).
      injection Hx as <-. exists w'. by eapply Get_hit.
Qed.

(** *** The entry a full cache gives up *)

Lemma evict_Inv (t : traced) (k : K) (v : V) :
  Inv t → Z.of_nat (clock t) < int_max →
  size (self (mem t)) = capacity (self (mem t)) → ¬ cached (mem t) k →
  ∃ ps victim val t',
    All_pairs (mem t) = Ok (ps ++ [(victim, val)]) ∧
    (∀ k', k' ∈ ps.*1 → precedes t k' victim) ∧
    cached (mem t) victim ∧
    perform_traced (CallPut k v) t = Ok t' ∧
    ¬ cached (mem t') victim ∧
    Get victim (mem t') = Ok ((zero, Some ErrKeyNotFound), mem t') ∧
    cached (mem t') k ∧
    (∀ k', k' ≠ victim → cached (mem t) k' → cached (mem t') k') ∧
    size (self (mem t')) = capacity (self (mem t')).
Proof.
  intros HI Hclk Hfull Hnc.
  destruct (Inv_full_Rep t HI Hfull) as (gh & active & idle & HR & HL).
  destruct HI as [Hcap _].
  destruct t as [w n tch]. cbn [mem clock touched] in *.
  assert (keyToCacheItem (self w) !! k = None) as Hk.
  { unfold cached in Hnc. by apply eq_None_not_Some. }
  pose proof (LI_some _ _ _ _ _ _ (lv_core _ _ _ _ HL) (lv_some _ _ _ _ HL)) as Hpos.
  assert (size (self w) ≠ 0) as Hs0 by (rewrite (lv_size _ _ _ _ HL); lia).
  destruct (evict_step _ _ _ _ _ _ _ v HR HL ltac:(lia) Hk Hfull)
    as (w' & active' & idle' & L1 & Mg & I1 & x & c & Hrun & HR' & HL' & Hcp &
        Hsz & -> & HM & Hc & Hkm' & _).
  destruct (pairs_of_last w L1 Mg I1 x c HM Hc) as [ps Hps].
  assert (keyToCacheItem (self w) !! item_key c = Some (Some x)) as Hvk.
  { pose proof (li_keys _ _ _ _ _ _ (lv_core _ _ _ _ HL)) as Hkeys.
    rewrite (sview_last _ _ _ _ _ _ HM Hc) in Hkeys.
    apply (keyed_lookup _ _ _ Hkeys (in_s_all_mid _ _ _ _ _ [] [])). }
  assert (item_key c ≠ k) as Hne by congruence.
  exists ps, (item_key c), (item_value c), (note (CallPut k v) (mkTraced w n tch) w').
  cbn [mem note]. split_and!.
  - rewrite (All_pairs_view _ _ _ _ HR Hs0). by rewrite Hps.
  - intros k' Hk'.
    pose proof (view_order (mkTraced w n tch) gh _ idle HR HL) as Hso.
    rewrite <- keys_of_pairs in Hso. cbn [mem] in Hso.
    rewrite Hps, fmap_app in Hso.
    eapply StronglySorted_app_1_elem_of; [exact Hso|done|by left].
  - unfold cached. by rewrite Hvk.
  - unfold perform_traced. cbn [mem perform]. by rewrite Hrun.
  - unfold cached. rewrite Hkm', lookup_insert_ne, lookup_delete_eq by done.
    by intros [? ?].
  - apply Get_miss. by rewrite Hkm', lookup_insert_ne, lookup_delete_eq.
  - unfold cached. by rewrite Hkm', lookup_insert_eq.
  - intros k' Hk' Hc'. unfold cached in *. rewrite Hkm'.
    destruct (decide (k' = k)) as [->|Hkk]; [by rewrite lookup_insert_eq|].
    by rewrite lookup_insert_ne, lookup_delete_ne.
  - congruence.
Qed.

End Main.
End lfu_main.

(** ** The cache's contract *)

Module lfu_claims.
Import linkedlist dll dll_facts lfu lfu_inv lfu_exec lfu_paths lfu_logic lfu_main.

Section Claims.
Context `{Countable K} {V : Type} `{!Zero K, !Zero V}.
Local Abbreviation world := (world (K := K) (V := V)).
Local Abbreviation traced := (traced (K := K) (V := V)).
Local Abbreviation call := (call (K := K) (V := V)).

(** C1. In a cache of positive capacity that is full, [Put] of a
    key that is not cached returns, and gives up exactly the key
    [All] lists last: every other cached key has a higher
    frequency than it, or the same frequency and a later touch.
    That key is cached before and not after, [Get] of it then
    answers [ErrKeyNotFound], the new key is cached, and so is
    every other key that was. *)
Theorem put_evicts_last (c : Z) (cs : list call) (t : traced) (k : K) (v : V) :
  0 < c ≤ int_max → Z.of_nat (length cs) < int_max →
  session [c] cs = Ok t →
  size (self (mem t)) = capacity (self (mem t)) →
  ¬ cached (mem t) k →
  ∃ ps victim val t',
    All_pairs (mem t) = Ok (ps ++ [(victim, val)]) ∧
    (∀ k', k' ∈ ps.*1 → precedes t k' victim) ∧
    cached (mem t) victim ∧
    perform_traced (CallPut k v) t = Ok t' ∧
    ¬ cached (mem t') victim ∧
    Get victim (mem t') = Ok ((zero, Some ErrKeyNotFound), mem t') ∧
    cached (mem t') k ∧
    (∀ k', k' ≠ victim → cached (mem t) k' → cached (mem t') k') ∧
    size (self (mem t')) = capacity (self (mem t')).
Proof.
  intros Hc Hlen Hs Hfull Hnc.
  destruct (session_Inv c cs Hc ltac:(lia)) as (t0 & Hs0 & HI & Hclk & _).
  assert (t0 = t) as -> by congruence.
  apply evict_Inv; [done|lia|done|done].
Qed.

(** C2. After any calls on a cache of positive capacity, [All]
    ends and yields each cached key once, with the value [Get]
    returns for it; a key is listed before another only if it has
    the higher frequency, or the same frequency and the later
    touch. *)
Theorem all_order (c : Z) (cs : list call) :
  0 < c ≤ int_max → Z.of_nat (length cs) < int_max →
  ∃ t ps, session [c] cs = Ok t ∧ All_pairs (mem t) = Ok ps ∧
          StronglySorted (precedes t) ps.*1 ∧
          (∀ k, cached (mem t) k ↔ k ∈ ps.*1) ∧
          (∀ k v, (k, v) ∈ ps → ∃ w', Get k (mem t) = Ok ((v, None), w')).
Proof.
  intros Hc Hlen.
  destruct (session_Inv c cs Hc ltac:(lia)) as (t & Hs & HI & Hclk & _).
  destruct (all_order_Inv t HI ltac:(lia)) as (ps & Hall & Hrest).
  by exists t, ps.
Qed.

Lemma load_frame {T} (p : ptr) (h h' : heap T) n : load p h = Ok (n, h') → h' = h.
Proof.
  unfold load. destruct p as [a|]; [|done]. unfold ret, throw.
  destruct (h !! a); [|done]. intros Heq. by injection Heq as _ <-.
Qed.

Lemma item_of_frame (p : ptr) (w w' : world) c : item_of p w = Ok (c, w') → w' = w.
Proof.
  unfold item_of, bind, onItems, ret.
  destruct (load p (items w)) as [[n h]| |] eqn:E; [|done..].
  apply load_frame in E as ->. intros Heq. injection Heq as _ <-. by destruct w.
Qed.

Lemma GetKeyFrequency_frame (k : K) (w : world) r w' :
  GetKeyFrequency k w = Ok (r, w') → w' = w.
Proof.
  destruct w as [i gr s]. unfold GetKeyFrequency. rewrite exec_the_cache.
  destruct (keyToCacheItem s !! k) as [p|].
  - unfold bind at 1.
    destruct (item_of p _) as [[c w1]| |] eqn:E; [|done..].
    apply item_of_frame in E as ->. unfold ret. intros Heq. by injection Heq as _ <-.
  - unfold ret. intros Heq. by injection Heq as _ <-.
Qed.

(** C10. After any calls on a cache of positive capacity,
    [GetKeyFrequency] returns, for a cached key and for any other,
    and the memory of the cache is then exactly what it was. *)
Theorem GetKeyFrequency_reads_only (c : Z) (cs : list call) (k : K) :
  0 < c ≤ int_max → Z.of_nat (length cs) < int_max →
  ∃ t r, session [c] cs = Ok t ∧
         GetKeyFrequency k (mem t) = Ok (r, mem t) ∧
         (cached (mem t) k → ∃ f, r = (f, None)) ∧
         (¬ cached (mem t) k → r = (0, Some ErrKeyNotFound)).
Proof.
  intros Hc Hlen.
  destruct (session_Inv c cs Hc ltac:(lia)) as (t & Hs & HI & Hclk & _).
  exists t. destruct t as [w n tch]. cbn [mem] in *.
  destruct (keyToCacheItem (self w) !! k) as [p|] eqn:Hk.
  - destruct HI as [_ [(_ & _ & Hkm & _)|(gh & active & idle & HR & HL)]].
    { cbn [mem] in Hkm. by rewrite Hkm, lookup_empty in Hk. }
    cbn [mem clock touched] in *.
    destruct (keyed_Some _ _ _ _ _ _ _ _ HR HL Hk) as (x & c0 & -> & Hc0 & _).
    exists (item_frequency c0, None). split_and!.
    + done.
    + by eapply GetKeyFrequency_hit.
    + eauto.
    + intros Hn. exfalso. apply Hn. unfold cached. by rewrite Hk.
  - exists (0, Some ErrKeyNotFound). split_and!.
    + done.
    + by apply GetKeyFrequency_miss.
    + unfold cached. rewrite Hk. by intros [? ?].
    + done.
Qed.

(** C5, as the code has it. In a cache made with capacity 0, the
    first [Put] dereferences the list of groups, which is nil. *)
Theorem Put_capacity_zero (k : K) (v : V) :
  ∃ w, New [0] = Ok w ∧ size (self w) = capacity (self w) ∧
       Put k v w = Panicked NilDereference.
Proof.
  eexists. split; [reflexivity|]. split; [reflexivity|].
  unfold Put. rewrite exec_the_cache. cbn [self keyToCacheItem].
  rewrite lookup_empty, decide_True by done. reflexivity.
Qed.

(** C6, as the code has it. [New] panics exactly if it is given
    more than two values, or one or two of which the first is
    negative; given two values it takes the first and ignores the
    second. *)
Theorem New_capacity (capacity : list Z) :
  match New (K := K) (V := V) capacity with
  | Ok w =>
      (length capacity ≤ 2)%nat ∧ 0 ≤ lfu.capacity (self w) ∧
      lfu.capacity (self w) = default DefaultCapacity (capacity !! 0%nat)
  | Panicked p =>
      p = PanicString "Invalid capacity" ∧
      ((2 < length capacity)%nat ∨ ∃ c, capacity !! 0%nat = Some c ∧ c < 0)
  | OutOfFuel => False
  end.
Proof.
  unfold New. destruct capacity as [|c rest]; simpl.
  - unfold DefaultCapacity. split_and!; lia.
  - destruct (decide (2 < S (length rest))%nat) as [Hl|Hl].
    + split; [done|]. by left.
    + destruct (decide (c < 0)) as [Hn|Hn]; simpl.
      * split; [done|]. right. by exists c.
      * split_and!; [lia|lia|done].
Qed.

End Claims.

(** The scenarios of the specification, run on caches with integer
    or string keys and integer values. *)

Definition tie_break : list (call (K := Z) (V := Z)) :=
  [CallPut 1 1; CallPut 2 2; CallGet 1; CallGet 2].

Definition listing : list (call (K := string) (V := Z)) :=
  [CallPut "a" 1; CallPut "b" 2; CallPut "c" 3; CallGet "a"; CallGet "a"; CallGet "b"].

Definition slot_reuse : list (call (K := Z) (V := Z)) :=
  [CallPut 1 1; CallGet 1; CallPut 2 2].

Lemma put_evicts_last_witness :
  ∃ t ps victim val t',
    session [2] tie_break = Ok t ∧
    All_pairs (mem t) = Ok (ps ++ [(victim, val)]) ∧
    (∀ k', k' ∈ ps.*1 → precedes t k' victim) ∧
    perform_traced (CallPut 3 3) t = Ok t' ∧
    ¬ cached (mem t') victim ∧
    cached (mem t') 3.
Proof.
  assert (match session [2] tie_break with
          | Ok t => size (self (mem t)) = capacity (self (mem t)) ∧ ¬ cached (mem t) 3
          | _ => False
          end) as Hfull.
  { vm_compute. split; [reflexivity|]. intros [? ?]. discriminate. }
  destruct (session [2] tie_break) as [t| |] eqn:Hs; [|destruct Hfull..].
  destruct Hfull as [Hf Hn].
  destruct (put_evicts_last 2 tie_break t 3 3 ltac:(unfold int_max; lia)
              ltac:(unfold int_max; simpl; lia) Hs Hf Hn)
    as (ps & victim & val & t' & H1 & H2 & H3 & H4 & H5 & H6 & H7 & H8).
  exists t, ps, victim, val, t'. repeat split; assumption.
Defined.

(** The first scenario: with capacity 2, after [put(1,1); put(2,2);
    get(1); get(2)], both keys have frequency 2 and key 1 is listed
    last; [put(3,3)] then evicts key 1. *)
Lemma tie_break_evicts_1 :
  observe [2] tie_break (λ t, All_pairs (mem t)) = Some (Ok [(2, 2); (1, 1)]) ∧
  observe [2] tie_break (λ t, frequency_of (mem t) 1) = Some (Some 2) ∧
  observe [2] tie_break (λ t, frequency_of (mem t) 2) = Some (Some 2) ∧
  observe [2] (tie_break ++ [CallPut 3 3]) (λ t, All_pairs (mem t))
  = Some (Ok [(2, 2); (3, 3)]).
Proof. split_and!; vm_compute; reflexivity. Qed.

Lemma all_order_witness :
  ∃ t, session [3] listing = Ok t ∧
       All_pairs (mem t) = Ok [("a", 1); ("b", 2); ("c", 3)] ∧
       StronglySorted (precedes t) ["a"; "b"; "c"].
Proof.
  assert (match session [3] listing with
          | Ok t => All_pairs (mem t) = Ok [("a", 1); ("b", 2); ("c", 3)]
          | _ => False
          end) as Hall.
  { vm_compute. reflexivity. }
  destruct (all_order 3 listing ltac:(unfold int_max; lia)
              ltac:(unfold int_max; simpl; lia))
    as (t & ps & H1 & H2 & H3 & _).
  rewrite H1 in Hall. exists t. split; [exact H1|]. split; [exact Hall|].
  rewrite Hall in H2. injection H2 as <-. exact H3.
Defined.

(** The second scenario: with capacity 3, after [put(a,1); put(b,2);
    put(c,3); get(a); get(a); get(b)], [All] yields (a,1), (b,2),
    (c,3), of frequencies 3, 2 and 1. *)
Lemma listing_yields_a_b_c :
  observe [3] listing (λ t, All_pairs (mem t))
  = Some (Ok [("a", 1); ("b", 2); ("c", 3)]) ∧
  observe [3] listing (λ t, frequency_of (mem t) <$> ["a"; "b"; "c"])
  = Some [Some 3; Some 2; Some 1].
Proof. split; vm_compute; reflexivity. Qed.

Lemma GetKeyFrequency_reads_only_witness :
  ∃ t r, session [2] tie_break = Ok t ∧ GetKeyFrequency 1 (mem t) = Ok (r, mem t).
Proof.
  destruct (GetKeyFrequency_reads_only 2 tie_break 1 ltac:(unfold int_max; lia)
              ltac:(unfold int_max; simpl; lia))
    as (t & r & H1 & H2 & _).
  exists t, r. split; assumption.
Defined.

(** C3, as the code has it. With capacity 1, after [put(1,1);
    get(1)], [put(2,2)] writes key 2 into the entry of key 1 and
    leaves its frequency, 2, in it: [GetKeyFrequency(2)] answers 2
    for a key that was inserted and never touched again. *)
Theorem frequency_after_slot_reuse :
  observe [1] slot_reuse (λ t, answer (GetKeyFrequency 2) (mem t))
  = Some (Some (2, None)) ∧
  observe [1] slot_reuse (λ t, answer (GetKeyFrequency 1) (mem t))
  = Some (Some (0, Some ErrKeyNotFound)).
Proof. split; vm_compute; reflexivity. Qed.

(** C4, as the code has it. After the same calls the only group is
    labelled with frequency 1, the index maps frequency 1 to it, and
    its only entry carries frequency 2. *)
Theorem group_label_after_slot_reuse :
  observe [1] slot_reuse (λ t, answer last_group_frequencies (mem t))
  = Some (Some (1, 2)) ∧
  observe [1] slot_reuse
    (λ t, (answer (onGroups (Last (freqGroupsList (self (mem t))))) (mem t),
           index (freqToFreqGroupNode (self (mem t))) 1))
  = Some (Some (Some 0%nat), Some 0%nat).
Proof. split; vm_compute; reflexivity. Qed.

(** C6, as the code has it: [New(3, 7)] returns a cache of capacity 3. *)
Theorem New_accepts_two_values :
  (λ w : world (K := Z) (V := Z), capacity (self w)) <$>
    (match New [3; 7] with Ok w => Some w | _ => None end) = Some 3.
Proof. reflexivity. Qed.

End lfu_claims.

(** ** What each call does to the entries *)

Module lfu_effects.
Import linkedlist dll dll_facts lfu lfu_inv lfu_exec lfu_paths lfu_logic lfu_main.

Section Effects.
Context `{Countable K} {V : Type} `{!Zero K, !Zero V}.
Local Abbreviation world := (world (K := K) (V := V)).
Local Abbreviation CacheItem := (CacheItem (K := K) (V := V)).
Local Abbreviation traced := (traced (K := K) (V := V)).
Local Abbreviation call := (call (K := K) (V := V)).
Implicit Types (t : traced) (w : world) (E : list (loc * CacheItem))
  (x : loc) (c : CacheItem) (k : K).

(** *** What the listed entries say about the memory *)

Lemma Inv_Listed t : Inv t → ∃ E, Listed t E.
Proof.
  intros [_ [HE|(gh & active & idle & HR & HL)]].
  - exists []. by left.
  - eexists. right. by exists gh, active, idle.
Qed.

Lemma Listed_pairs t E : Listed t E → All_pairs (mem t) = Ok (listing E).
Proof.
  intros [[(Hs0 & _) ->]|(gh & active & idle & HR & HL & ->)].
  - unfold All_pairs, All. by rewrite decide_True.
  - pose proof (LI_some _ _ _ _ _ _ (lv_core _ _ _ _ HL) (lv_some _ _ _ _ HL)) as Hpos.
    assert (size (self (mem t)) ≠ 0) as Hs0 by (rewrite (lv_size _ _ _ _ HL); lia).
    by rewrite (All_pairs_view _ _ _ _ HR Hs0).
Qed.

Lemma Listed_item t E x c : Listed t E → (x, c) ∈ E → itemAt (mem t) x = Some c.
Proof.
  intros [[_ ->]|(gh & active & idle & HR & HL & ->)] Hin.
  - by apply elem_of_nil in Hin.
  - by eapply entry_item.
Qed.

Lemma Listed_key t E k p :
  Listed t E →
  keyToCacheItem (self (mem t)) !! k = Some p ↔
  ∃ x c, p = Some x ∧ (x, c) ∈ E ∧ item_key c = k.
Proof.
  intros [[(_ & _ & Hkm & _) ->]|(gh & active & idle & HR & HL & ->)].
  - rewrite Hkm, lookup_empty. split; [done|].
    by intros (x & c & _ & ?%elem_of_nil & _).
  - split.
    + intros Hk.
      destruct (keyed_Some _ _ _ _ _ _ _ _ HR HL Hk) as (x & c & -> & Hc & Hkey & He).
      exists x, c. split; [done|]. split; [|done].
      unfold sview in He. rewrite strip_all in He.
      apply list_elem_of_fmap in He as ([x' c'] & Heq & Hin).
      injection Heq as <- _ _.
      pose proof (entry_item _ _ _ _ Hin) as Hc'. by simplify_eq.
    + intros (x & c & -> & Hin & <-).
      assert (strip_entry (x, c) ∈ s_all (sview (mem t) active)) as He.
      { unfold sview. rewrite strip_all. apply list_elem_of_fmap. by exists (x, c). }
      apply (keyed_lookup _ _ _ (li_keys _ _ _ _ _ _ (lv_core _ _ _ _ HL)) He).
Qed.

Lemma Listed_addr t E : Listed t E → NoDup E.*1.
Proof.
  intros [[_ ->]|(gh & active & idle & HR & HL & ->)]; [constructor|].
  by eapply entries_addr_NoDup.
Qed.

Lemma Listed_same_key t E x1 c1 x2 c2 :
  Listed t E → (x1, c1) ∈ E → (x2, c2) ∈ E → item_key c1 = item_key c2 →
  (x1, c1) = (x2, c2).
Proof.
  intros HL H1 H2 Hk.
  assert (keyToCacheItem (self (mem t)) !! item_key c1 = Some (Some x1)) as Hk1.
  { apply (Listed_key _ _ _ _ HL). by exists x1, c1. }
  assert (keyToCacheItem (self (mem t)) !! item_key c1 = Some (Some x2)) as Hk2.
  { apply (Listed_key _ _ _ _ HL). by exists x2, c2. }
  assert (x1 = x2) as <- by congruence.
  pose proof (Listed_item _ _ _ _ HL H1). pose proof (Listed_item _ _ _ _ HL H2).
  congruence.
Qed.

Lemma Listed_keys t E : Listed t E → NoDup (listing E).*1.
Proof.
  intros HL. unfold listing. rewrite <- list_fmap_compose.
  apply NoDup_fmap_2_strong; [|eapply NoDup_fmap_1, Listed_addr, HL].
  intros [x1 c1] [x2 c2] H1 H2 Hk. simpl in Hk. by eapply Listed_same_key.
Qed.

Lemma Listed_size t E : Listed t E → size (self (mem t)) = Z.of_nat (length E).
Proof.
  intros [[(Hs0 & _) ->]|(gh & active & idle & HR & HL & ->)]; [done|].
  rewrite (lv_size _ _ _ _ HL). unfold sview. by rewrite strip_all, length_fmap.
Qed.

Lemma Listed_cached t E k :
  Listed t E → cached (mem t) k ↔ ∃ x c, (x, c) ∈ E ∧ item_key c = k.
Proof.
  intros HL. unfold cached. split.
  - intros [p Hp]. apply (Listed_key _ _ _ _ HL) in Hp as (x & c & _ & ? & ?). eauto.
  - intros (x & c & Hin & Hk). exists (Some x). apply (Listed_key _ _ _ _ HL). eauto.
Qed.

Lemma Listed_frequency t E k f :
  Listed t E →
  frequency_of (mem t) k = Some f ↔
  ∃ x c, (x, c) ∈ E ∧ item_key c = k ∧ item_frequency c = f.
Proof.
  intros HL. split.
  - unfold frequency_of. intros Hf.
    destruct (keyToCacheItem (self (mem t)) !! k) as [p|] eqn:Hk.
    + apply (Listed_key _ _ _ _ HL) in Hk as He.
      destruct He as (x & c & -> & Hin & Hkey).
      pose proof (Listed_item _ _ _ _ HL Hin) as Hc.
      rewrite (GetKeyFrequency_hit _ _ _ _ Hk Hc) in Hf.
      exists x, c. split_and!; [done|done|congruence].
    + by rewrite (GetKeyFrequency_miss _ _ Hk) in Hf.
  - intros (x & c & Hin & <- & <-).
    assert (keyToCacheItem (self (mem t)) !! item_key c = Some (Some x)) as Hk.
    { apply (Listed_key _ _ _ _ HL). by exists x, c. }
    pose proof (Listed_item _ _ _ _ HL Hin) as Hc.
    unfold frequency_of. by rewrite (GetKeyFrequency_hit _ _ _ _ Hk Hc).
Qed.

(** *** The four ways a call changes the entries *)

Lemma absent_None w k : ¬ cached w k → keyToCacheItem (self w) !! k = None.
Proof. unfold cached. by intros ?%eq_None_not_Some. Qed.

(** [Get] of a cached key. *)
Lemma touch_Listed t k :
  Inv t → Z.of_nat (clock t) < int_max → cached (mem t) k →
  ∃ x c E1 E2 t' E',
    Listed t (E1 ++ (x, c) :: E2) ∧ item_key c = k ∧
    Get k (mem t) = Ok ((item_value c, None), mem t') ∧
    perform_traced (CallGet k) t = Ok t' ∧
    Listed t' E' ∧ E' ≡ₚ (x, bumped c) :: E1 ++ E2 ∧
    size (self (mem t')) = size (self (mem t)).
Proof.
  destruct t as [w n tch]. unfold Inv. cbn [mem clock touched].
  intros [Hcap [HE|(gh & active & idle & HR & HL)]] Hclk [p Hk].
  { destruct HE as (_ & _ & Hkm & _). by rewrite Hkm, lookup_empty in Hk. }
  destruct (bump_step _ _ _ _ _ _ _ _ HR HL ltac:(lia) Hclk Hk)
    as (x & c & w' & active' & idle' & -> & Hc & Hkey & Hrun & HR' & HL' &
        Hkm & Hsz & Hcp & Hc' & E1 & E2 & HE & HE').
  pose proof (Get_hit _ _ _ _ _ Hk Hc Hrun) as Hget.
  eexists x, c, E1, E2, (note (CallGet k) (mkTraced w n tch) w'), _.
  unfold Listed. cbn [mem clock touched note]. split_and!; try done.
  - right. exists gh, active, idle. by rewrite HE.
  - unfold perform_traced. cbn [mem perform]. unfold discard.
    by rewrite (bind_Ok _ _ _ _ _ Hget).
  - right. exists gh, active', idle'. unfold hit. cbn [mem clock touched].
    rewrite Hk. done.
Qed.

(** [Put] of a cached key. *)
Lemma overwrite_Listed t k (v : V) :
  Inv t → Z.of_nat (clock t) < int_max → cached (mem t) k →
  ∃ x c E1 E2 t' E',
    Listed t (E1 ++ (x, c) :: E2) ∧ item_key c = k ∧
    perform_traced (CallPut k v) t = Ok t' ∧
    Listed t' E' ∧ E' ≡ₚ (x, set_item_value v (bumped c)) :: E1 ++ E2 ∧
    size (self (mem t')) = size (self (mem t)).
Proof.
  destruct t as [w n tch]. unfold Inv. cbn [mem clock touched].
  intros [Hcap [HE|(gh & active & idle & HR & HL)]] Hclk [p Hk].
  { destruct HE as (_ & _ & Hkm & _). by rewrite Hkm, lookup_empty in Hk. }
  destruct (put_hit_step _ _ _ _ _ _ _ v _ HR HL ltac:(lia) Hclk Hk)
    as (w' & active' & idle' & Hrun & HR' & HL' & Hcp & Hkm & Hsz &
        x & c & E1 & E2 & -> & Hkey & HE & HE').
  eexists x, c, E1, E2, (note (CallPut k v) (mkTraced w n tch) w'), _.
  unfold Listed. cbn [mem clock touched note]. split_and!; try done.
  - right. exists gh, active, idle. by rewrite HE.
  - unfold perform_traced. cbn [mem perform]. by rewrite Hrun.
  - right. by exists gh, active', idle'.
Qed.

(** [Put] of a new key while there is room. *)
Lemma grow_Listed t k (v : V) :
  Inv t → Z.of_nat (clock t) < int_max → ¬ cached (mem t) k →
  size (self (mem t)) ≠ capacity (self (mem t)) →
  ∃ E x t' E',
    Listed t E ∧
    perform_traced (CallPut k v) t = Ok t' ∧
    Listed t' E' ∧ E' ≡ₚ (x, set_item_frequency 1 (fresh_item k v)) :: E ∧
    size (self (mem t')) = size (self (mem t)) + 1.
Proof.
  destruct t as [w n tch]. unfold Inv. cbn [mem clock touched].
  intros [Hcap [HE|(gh & active & idle & HR & HL)]] Hclk Hk%absent_None Hroom.
  - destruct (first_step w n tch k v HE ltac:(lia))
      as (w' & gh & active & idle & Hrun & HR' & HL' & Hcp & Hkm & Hsz & HE').
    eexists [], (length (items w)), (note (CallPut k v) (mkTraced w n tch) w'), _.
    unfold Listed. cbn [mem clock touched note]. split_and!.
    + by left.
    + unfold perform_traced. cbn [mem perform]. by rewrite Hrun.
    + right. by exists gh, active, idle.
    + by rewrite ?HE'.
    + destruct HE as (-> & _). done.
  - destruct (grow_step _ _ _ _ _ _ _ v HR HL ltac:(lia) Hk Hroom)
      as (w' & active' & idle' & Hrun & HR' & HL' & Hcp & Hkm & Hsz & HE').
    eexists _, (length (items w)), (note (CallPut k v) (mkTraced w n tch) w'), _.
    unfold Listed. cbn [mem clock touched note]. split_and!.
    + right. by exists gh, active, idle.
    + unfold perform_traced. cbn [mem perform]. by rewrite Hrun.
    + right. by exists gh, active', idle'.
    + done.
    + done.
Qed.

(** [Put] of a new key into a full cache: the last entry is
    rewritten; it keeps its frequency if no other entry carries
    it, and gets frequency 1 otherwise. *)
Lemma evict_Listed t k (v : V) :
  Inv t → Z.of_nat (clock t) < int_max → ¬ cached (mem t) k →
  size (self (mem t)) = capacity (self (mem t)) →
  ∃ E0 x c t' E' c',
    Listed t (E0 ++ [(x, c)]) ∧
    perform_traced (CallPut k v) t = Ok t' ∧
    Listed t' E' ∧ E' ≡ₚ (x, c') :: E0 ∧
    size (self (mem t')) = size (self (mem t)) ∧
    (((∀ e, e ∈ E0 → item_frequency e.2 ≠ item_frequency c) ∧
      c' = evicted k v c) ∨
     ((∃ e, e ∈ E0 ∧ item_frequency e.2 = item_frequency c) ∧
      c' = set_item_frequency 1 (evicted k v c))).
Proof.
  intros HI Hclk Hk%absent_None Hfull.
  destruct (Inv_full_Rep t HI Hfull) as (gh & active & idle & HR & HL).
  destruct HI as [Hcap _].
  destruct t as [w n tch]. cbn [mem clock touched] in *.
  destruct (evict_step _ _ _ _ _ _ _ v HR HL ltac:(lia) Hk Hfull)
    as (w' & active' & idle' & L1 & Mg & I1 & x & c & Hrun & HR' & HL' & Hcp &
        Hsz & -> & HM & Hc & Hkm' & E0 & HE & HE' & Halone).
  eexists E0, x, c, (note (CallPut k v) (mkTraced w n tch) w'), _, _.
  unfold Listed. cbn [mem clock touched note]. split_and!.
  - right. exists gh, (L1 ++ [Mg]), idle. by rewrite HE.
  - unfold perform_traced. cbn [mem perform]. by rewrite Hrun.
  - right. by exists gh, active', idle'.
  - exact HE'.
  - done.
  - destruct (decide (I1 = [])) as [HI1|HI1].
    + left. split; [by apply Halone|done].
    + right. split; [|done].
      destruct (decide (Exists (λ e, item_frequency e.2 = item_frequency c) E0))
        as [Hex|Hnex].
      * apply Exists_exists in Hex as (e & ? & ?). eauto.
      * exfalso. apply HI1, Halone. intros e He Hf. apply Hnex.
        apply Exists_exists. eauto.
Qed.

(** *** What stays *)

Lemma Inv_le t : Inv t → size (self (mem t)) ≤ capacity (self (mem t)).
Proof.
  intros [Hcap [(Hs0 & _)|(gh & active & idle & HR & HL)]]; [lia|].
  apply (lv_le _ _ _ _ HL).
Qed.

Lemma frequency_frame t t' E E' k :
  Listed t E → Listed t' E' →
  (∀ x c, item_key c = k → (x, c) ∈ E ↔ (x, c) ∈ E') →
  frequency_of (mem t') k = frequency_of (mem t) k.
Proof.
  intros HL HL' Hsame. apply option_eq. intros f.
  rewrite (Listed_frequency _ _ _ _ HL), (Listed_frequency _ _ _ _ HL').
  split; intros (x & c & Hin & Hk & Hf); exists x, c;
    (split; [by apply (Hsame x c Hk)|done]).
Qed.

Lemma replaced_frame E E' E1 E2 x c c' k :
  E = E1 ++ (x, c) :: E2 → E' ≡ₚ (x, c') :: E1 ++ E2 →
  item_key c ≠ k → item_key c' ≠ k →
  ∀ y cy, item_key cy = k → (y, cy) ∈ E ↔ (y, cy) ∈ E'.
Proof.
  intros -> HE' Hc Hc' y cy Hk. rewrite HE'.
  rewrite elem_of_app, !elem_of_cons, elem_of_app.
  split; intros Hin.
  - destruct Hin as [?|[Heq|?]]; [tauto| |tauto]. congruence.
  - destruct Hin as [Heq|[?|?]]; [|tauto..]. congruence.
Qed.

Lemma added_frame E E' x c' k :
  E' ≡ₚ (x, c') :: E → item_key c' ≠ k →
  ∀ y cy, item_key cy = k → (y, cy) ∈ E ↔ (y, cy) ∈ E'.
Proof.
  intros HE' Hc' y cy Hk. rewrite HE', elem_of_cons.
  split; [tauto|]. intros [Heq|?]; [|done]. congruence.
Qed.

Lemma listing_app E1 E2 : listing (E1 ++ E2) = listing E1 ++ listing E2.
Proof. apply fmap_app. Qed.

Lemma listing_cons x c E : listing ((x, c) :: E) = kv c :: listing E.
Proof. done. Qed.

Lemma listing_perm E E' : E ≡ₚ E' → listing E ≡ₚ listing E'.
Proof. intros HE. unfold listing. by rewrite HE. Qed.

Lemma listing_keys E y cy : (y, cy) ∈ E → item_key cy ∈ (listing E).*1.
Proof.
  intros Hin. unfold listing. rewrite <- list_fmap_compose.
  apply list_elem_of_fmap. by exists (y, cy).
Qed.

Lemma keys_listing E k :
  k ∈ (listing E).*1 → ∃ y cy, (y, cy) ∈ E ∧ item_key cy = k.
Proof.
  unfold listing. rewrite <- list_fmap_compose.
  intros ([y cy] & -> & Hin)%list_elem_of_fmap. by exists y, cy.
Qed.

Lemma Listed_agree t E E' x c x' c' :
  Listed t E → Listed t E' → (x, c) ∈ E → (x', c') ∈ E' →
  item_key c = item_key c' → c = c'.
Proof.
  intros HL HL' Hin Hin' Hk.
  assert (keyToCacheItem (self (mem t)) !! item_key c = Some (Some x)) as Hk1.
  { apply (Listed_key _ _ _ _ HL). by exists x, c. }
  assert (keyToCacheItem (self (mem t)) !! item_key c = Some (Some x')) as Hk2.
  { apply (Listed_key _ _ _ _ HL'). by exists x', c'. }
  assert (x = x') as <- by congruence.
  pose proof (Listed_item _ _ _ _ HL Hin). pose proof (Listed_item _ _ _ _ HL' Hin').
  congruence.
Qed.

Lemma Listed_bound t E x c :
  Listed t E → (x, c) ∈ E → 1 ≤ item_frequency c ≤ Z.of_nat (clock t).
Proof.
  intros [[_ ->]|(gh & active & idle & HR & HL & ->)] Hin.
  { by apply elem_of_nil in Hin. }
  assert (strip_entry (x, c) ∈ s_all (sview (mem t) active)) as He.
  { unfold sview. rewrite strip_all. apply list_elem_of_fmap. by exists (x, c). }
  destruct (find_entry _ _ _ _ _ HR He)
    as (L1 & A & L2 & I1 & x' & I2 & c' & -> & HA & Hc & Heq).
  pose proof (lv_core _ _ _ _ HL) as HLI.
  rewrite (sview_split _ _ _ _ _ _ _ _ HA Hc) in HLI.
  apply LI_entry in HLI as (_ & _ & Hb & _).
  rewrite <- Heq in Hb. exact Hb.
Qed.

(** *** [All] with a consumer that may stop *)

Lemma hand_app {A} (yield : K → V → A → bool * A) (ps1 ps2 : list (K * V)) acc :
  hand yield (ps1 ++ ps2) acc
  = let '(go, acc') := hand yield ps1 acc in
    if go then hand yield ps2 acc' else (false, acc').
Proof.
  revert acc. induction ps1 as [|[k v] ps1 IH]; intros acc; simpl.
  - by destruct (hand yield ps2 acc).
  - destruct (yield k v acc) as [[] acc']; [apply IH|done].
Qed.

Lemma feed_hand {A} (yield : K → V → A → bool * A) (cs : list CacheItem) acc :
  feed (λ cacheItem '(_, acc),
          let '(yieldResult, acc) :=
            yield (item_key cacheItem) (item_value cacheItem) acc in
          Ok (yieldResult, (yieldResult, acc)))
    cs (true, acc)
  = Ok (hand yield (kv <$> cs) acc).
Proof.
  revert acc. induction cs as [|c cs IH]; intros acc; simpl; [done|].
  destruct (yield (item_key c) (item_value c) acc) as [[] acc']; [apply IH|done].
Qed.

Lemma All_hand {A} (yield : K → V → A → bool * A) w gh active idle acc :
  Rep w gh active idle → size (self w) ≠ 0 →
  All yield w acc = Ok (hand yield (pairs_of (aview w active)) acc).2.
Proof.
  intros HR Hs0. unfold All. rewrite decide_False by done.
  rewrite (rep_list _ _ _ _ HR).
  destruct (rep_outer _ _ _ _ HR) as (Hd & _ & Hnd & _).
  rewrite (dll_All _ _ _ _ _ _ Hd).
  2:{ rewrite length_fmap. rewrite <- (length_fmap g_node).
      apply bounded_length; [by eapply dll_NoDup|].
      intros y Hy. eapply dll_lt; [exact Hd|by right]. }
  assert (∀ gs acc, (∀ g, g ∈ gs → g ∈ active) →
            feed (λ freqGroup acc,
                    linkedlist.All (length (items w)) (group_elementsList freqGroup)
                      (items w)
                      (λ cacheItem '(_, acc),
                         let '(yieldResult, acc) :=
                           yield (item_key cacheItem) (item_value cacheItem) acc in
                         Ok (yieldResult, (yieldResult, acc)))
                      (true, acc))
              (values (groups w) (g_node <$> gs)) acc
            = Ok (hand yield (pairs_of (aview w gs)) acc).2) as Hfeed.
  { induction gs as [|g gs IH]; intros acc0 Hsub; [done|].
    destruct (Rep_group _ _ _ _ g HR) as (G & HG & HGl & _ & _ & Hdg);
      [apply Hsub; by left|].
    rewrite fmap_cons, (values_cons _ _ _ _ HG). simpl. rewrite HGl.
    rewrite (dll_All _ _ _ _ _ _ Hdg).
    2:{ apply bounded_length; [by eapply dll_NoDup|].
        intros y Hy. eapply dll_lt; [exact Hdg|by right]. }
    rewrite feed_hand.
    assert (pairs_of (aview w (g :: gs))
            = (kv <$> values (items w) (g_items g)) ++ pairs_of (aview w gs)) as ->.
    { unfold pairs_of, all_entries. rewrite aview_cons, bind_cons, fmap_app.
      f_equal. simpl. rewrite values_entries, <- list_fmap_compose. done. }
    rewrite hand_app.
    destruct (hand yield (kv <$> values (items w) (g_items g)) acc0) as [[] acc1].
    - apply IH. intros; apply Hsub; by right.
    - done. }
  by apply Hfeed.
Qed.

Lemma Listed_hand {A} (yield : K → V → A → bool * A) t E acc :
  Listed t E → All yield (mem t) acc = Ok (hand yield (listing E) acc).2.
Proof.
  intros [[(Hs0 & _) ->]|(gh & active & idle & HR & HL & ->)].
  - unfold All. by rewrite decide_True.
  - pose proof (LI_some _ _ _ _ _ _ (lv_core _ _ _ _ HL) (lv_some _ _ _ _ HL)) as Hpos.
    assert (size (self (mem t)) ≠ 0) as Hs0 by (rewrite (lv_size _ _ _ _ HL); lia).
    by rewrite (All_hand _ _ _ _ _ _ HR Hs0).
Qed.

(** *** Calls that only read, and sessions extended by a call *)

Lemma cached_frequency t k :
  Inv t → cached (mem t) k ↔ is_Some (frequency_of (mem t) k).
Proof.
  intros HI. destruct (Inv_Listed t HI) as [E HL].
  rewrite (Listed_cached _ _ _ HL). split.
  - intros (x & c & Hin & Hk). exists (item_frequency c).
    apply (Listed_frequency _ _ _ _ HL). by exists x, c.
  - intros [f Hf]. apply (Listed_frequency _ _ _ _ HL) in Hf as (x & c & ? & ? & _).
    by exists x, c.
Qed.

Lemma GetKeyFrequency_keeps t k :
  Inv t → ∃ r, GetKeyFrequency k (mem t) = Ok (r, mem t).
Proof.
  intros HI. destruct (Inv_Listed t HI) as [E HL].
  destruct (keyToCacheItem (self (mem t)) !! k) as [p|] eqn:Hk.
  - apply (Listed_key _ _ _ _ HL) in Hk as He.
    destruct He as (x & c & -> & Hin & Hkey).
    eexists. eapply GetKeyFrequency_hit; [done|]. by eapply Listed_item.
  - eexists. by apply GetKeyFrequency_miss.
Qed.

Lemma reading_keeps t (a : call) :
  Inv t → put_key a = None → (∀ k, a ≠ CallGet k) →
  perform_traced a t
  = Ok {| mem := mem t; clock := S (clock t); touched := touched t |}.
Proof.
  intros HI Hput Hget. destruct (Inv_Listed t HI) as [E HL].
  unfold perform_traced. destruct a as [k|k v|k| | |]; try done.
  - by destruct (Hget k).
  - cbn [perform]. unfold discard.
    destruct (GetKeyFrequency_keeps t k HI) as [r Hr].
    by rewrite (bind_Ok _ _ _ _ _ Hr).
  - cbn [perform]. by rewrite (Listed_pairs _ _ HL).
Qed.

Lemma Get_miss_keeps t k :
  ¬ cached (mem t) k →
  perform_traced (CallGet k) t
  = Ok {| mem := mem t; clock := S (clock t); touched := touched t |}.
Proof.
  intros Hnone%absent_None. unfold perform_traced. cbn [perform]. unfold discard.
  rewrite (bind_Ok _ _ _ _ _ (Get_miss _ _ Hnone)). unfold ret, note, hit.
  by rewrite Hnone.
Qed.

Lemma run_snoc (cs : list call) (a : call) t :
  run (cs ++ [a]) t
  = match run cs t with
    | Ok t' => perform_traced a t'
    | Panicked p => Panicked p
    | OutOfFuel => OutOfFuel
    end.
Proof.
  revert t. induction cs as [|c cs IH]; intros t; simpl.
  - by destruct (perform_traced a t).
  - destruct (perform_traced c t); [apply IH|done..].
Qed.

Lemma session_snoc (capacity : list Z) (cs : list call) (a : call) :
  session capacity (cs ++ [a])
  = match session capacity cs with
    | Ok t' => perform_traced a t'
    | Panicked p => Panicked p
    | OutOfFuel => OutOfFuel
    end.
Proof. unfold session. destruct (New capacity); [apply run_snoc|done..]. Qed.

(** *** Counting the touches of a key *)

Lemma put_keys_nil : put_keys (K := K) (V := V) [] = ∅.
Proof. done. Qed.

Lemma put_keys_put k (v : V) (cs : list call) :
  put_keys (CallPut k v :: cs) = {[k]} ∪ put_keys cs.
Proof. done. Qed.

Lemma put_keys_other (a : call) (cs : list call) :
  put_key a = None → put_keys (a :: cs) = put_keys cs.
Proof. intros Ha. unfold put_keys. simpl. by rewrite Ha. Qed.

Lemma put_keys_snoc_put k (v : V) (cs : list call) :
  put_keys (cs ++ [CallPut k v]) = put_keys cs ∪ {[k]}.
Proof.
  unfold put_keys. rewrite omap_app, list_to_set_app_L. simpl. set_solver.
Qed.

Lemma put_keys_snoc_other (a : call) (cs : list call) :
  put_key a = None → put_keys (cs ++ [a]) = put_keys cs.
Proof.
  intros Ha. unfold put_keys. rewrite omap_app, list_to_set_app_L. simpl.
  rewrite Ha. set_solver.
Qed.

(** What one more call adds to the touches of [k]. *)
Lemma touches_snoc k (present : bool) (cs : list call) (a : call) :
  touches k present (cs ++ [a])
  = touches k present cs +
    touches k (present || bool_decide (k ∈ put_keys cs)) [a].
Proof.
  revert present. induction cs as [|c cs IH]; intros present.
  - cbn [app]. change (touches k present []) with 0.
    rewrite put_keys_nil, bool_decide_eq_false_2 by set_solver.
    by rewrite orb_false_r.
  - rewrite <- app_comm_cons.
    set (D := λ p : bool, touches k p [a]).
    change (∀ present, touches k present (cs ++ [a])
                       = touches k present cs
                         + D (present || bool_decide (k ∈ put_keys cs))) in IH.
    change (touches k present (c :: cs ++ [a])
            = touches k present (c :: cs)
              + D (present || bool_decide (k ∈ put_keys (c :: cs)))).
    clearbody D.
    destruct c as [k'|k' v|k'| | |]; cbn [touches].
    + rewrite (put_keys_other (CallGet k')) by done.
      destruct (decide (k' = k)); rewrite IH; lia.
    + rewrite put_keys_put. destruct (decide (k' = k)) as [->|Hne]; rewrite IH.
      * rewrite (bool_decide_eq_true_2 (k ∈ {[k]} ∪ put_keys cs)) by set_solver.
        rewrite orb_true_r. cbn [orb]. lia.
      * rewrite (bool_decide_ext (k ∈ {[k']} ∪ put_keys cs) (k ∈ put_keys cs))
          by set_solver.
        done.
    + rewrite (put_keys_other (CallGetKeyFrequency k')) by done. apply IH.
    + rewrite (put_keys_other CallAll) by done. apply IH.
    + rewrite (put_keys_other CallSize) by done. apply IH.
    + rewrite (put_keys_other CallCapacity) by done. apply IH.
Qed.

Lemma touches_absent k (cs : list call) : k ∉ put_keys cs → touches k false cs = 0.
Proof.
  induction cs as [|c cs IH]; [done|].
  destruct c as [k'|k' v|k'| | |]; cbn [touches].
  - rewrite (put_keys_other (CallGet k')) by done. intros Hk.
    destruct (decide (k' = k)); rewrite (IH Hk); lia.
  - rewrite put_keys_put. intros Hk. rewrite decide_False by set_solver.
    apply IH. set_solver.
  - rewrite (put_keys_other (CallGetKeyFrequency k')) by done. apply IH.
  - rewrite (put_keys_other CallAll) by done. apply IH.
  - rewrite (put_keys_other CallSize) by done. apply IH.
  - rewrite (put_keys_other CallCapacity) by done. apply IH.
Qed.

Lemma counted_snoc_other k (cs : list call) (a : call) :
  put_key a = None → (∀ k', a = CallGet k' → k' ≠ k ∨ k ∉ put_keys cs) →
  counted k (cs ++ [a]) = counted k cs.
Proof.
  intros Ha Hget. unfold counted. rewrite (put_keys_snoc_other _ _ Ha).
  destruct (decide (k ∈ put_keys cs)) as [Hin|Hin]; [|done].
  rewrite touches_snoc. f_equal.
  destruct a as [k'|k' v|k'| | |]; cbn [touches]; try lia; [|done].
  destruct (Hget k' eq_refl) as [Hne|Hnin]; [|done].
  rewrite decide_False by done. lia.
Qed.

Lemma counted_snoc_get k (cs : list call) :
  k ∈ put_keys cs →
  counted k (cs ++ [CallGet k]) = Some (touches k false cs + 1).
Proof.
  intros Hin. unfold counted.
  rewrite (put_keys_snoc_other (CallGet k)), decide_True by done.
  rewrite touches_snoc, (bool_decide_eq_true_2 _ Hin). cbn [orb touches].
  rewrite decide_True by done. f_equal; lia.
Qed.

Lemma counted_snoc_put k (v : V) (cs : list call) :
  counted k (cs ++ [CallPut k v]) = Some (touches k false cs + 1).
Proof.
  unfold counted. rewrite put_keys_snoc_put, decide_True by set_solver.
  rewrite touches_snoc. cbn [touches]. rewrite decide_True by done. f_equal; lia.
Qed.

Lemma counted_snoc_put_other k k0 (v : V) (cs : list call) :
  k ≠ k0 → counted k (cs ++ [CallPut k0 v]) = counted k cs.
Proof.
  intros Hne. unfold counted. rewrite put_keys_snoc_put.
  destruct (decide (k ∈ put_keys cs)) as [Hin|Hin].
  - rewrite decide_True by set_solver. rewrite touches_snoc. cbn [touches].
    rewrite decide_False by done. f_equal; lia.
  - rewrite decide_False by set_solver. done.
Qed.

Lemma frequency_new_cache (c : Z) (w : world) k :
  New [c] = Ok w → size (self w) = 0 ∧ frequency_of w k = None.
Proof.
  unfold New. simpl. destruct (decide (c < 0)); [done|].
  intros [= <-]. split; [done|].
  unfold frequency_of. by rewrite GetKeyFrequency_miss.
Qed.

(** The memory a session reaches. *)
Lemma reached (c : Z) (cs : list call) t :
  0 < c ≤ int_max → Z.of_nat (length cs) < int_max → session [c] cs = Ok t →
  Inv t ∧ clock t = length cs ∧ capacity (self (mem t)) = c.
Proof.
  intros Hc Hlen Hs.
  destruct (session_Inv c cs Hc ltac:(lia)) as (t0 & Hs0 & HI & Hclk & Hcap).
  by assert (t0 = t) as -> by congruence.
Qed.

End Effects.
End lfu_effects.

(** ** The cache as its callers see it *)

Module lfu_behaviour.
Import linkedlist dll dll_facts lfu lfu_inv lfu_exec lfu_paths lfu_logic lfu_main
  lfu_effects.

Section Behaviour.
Context `{Countable K} {V : Type} `{!Zero K, !Zero V}.
Local Abbreviation world := (world (K := K) (V := V)).
Local Abbreviation traced := (traced (K := K) (V := V)).
Local Abbreviation call := (call (K := K) (V := V)).

(** With a positive capacity no sequence of calls panics and the
    loops of [All] end.  Afterwards [Capacity] answers what [New]
    was given, [All] lists every key once, [Size] answers the
    number of listed pairs, and that number does not exceed the
    capacity. *)
Theorem session_runs (c : Z) (cs : list call) :
  0 < c ≤ int_max → Z.of_nat (length cs) < int_max →
  ∃ t ps, session [c] cs = Ok t ∧
          answer Capacity (mem t) = Some c ∧
          All_pairs (mem t) = Ok ps ∧ NoDup ps.*1 ∧
          answer Size (mem t) = Some (Z.of_nat (length ps)) ∧
          Z.of_nat (length ps) ≤ c.
Proof.
  intros Hc Hlen.
  destruct (session_Inv c cs Hc ltac:(lia)) as (t & Hs & HI & Hclk & Hcap).
  destruct (Inv_Listed t HI) as [E HL].
  pose proof (Listed_size _ _ HL) as Hsz. pose proof (Inv_le _ HI) as Hle.
  exists t, (listing E). split_and!.
  - done.
  - unfold answer, Capacity, bind, the_cache, gets, ret. by rewrite Hcap.
  - by apply Listed_pairs.
  - by eapply Listed_keys.
  - unfold answer, Size, bind, the_cache, gets, ret. rewrite Hsz.
    unfold listing. by rewrite length_fmap.
  - unfold listing. rewrite length_fmap. lia.
Qed.

(** [Get] of a key [All] does not list returns the zero value and
    [ErrKeyNotFound], and leaves the memory as it was; the key has
    no frequency. *)
Theorem Get_absent (c : Z) (cs : list call) (t : traced) (ps : list (K * V)) (k : K) :
  0 < c ≤ int_max → Z.of_nat (length cs) < int_max →
  session [c] cs = Ok t → All_pairs (mem t) = Ok ps → k ∉ ps.*1 →
  Get k (mem t) = Ok ((zero, Some ErrKeyNotFound), mem t) ∧
  perform_traced (CallGet k) t
  = Ok {| mem := mem t; clock := S (clock t); touched := touched t |} ∧
  frequency_of (mem t) k = None.
Proof.
  intros Hc Hlen Hs Hall Hk.
  destruct (reached c cs t Hc Hlen Hs) as (HI & Hclk & _).
  destruct (Inv_Listed t HI) as [E HL].
  rewrite (Listed_pairs _ _ HL) in Hall. injection Hall as <-.
  assert (keyToCacheItem (self (mem t)) !! k = None) as Hnone.
  { apply absent_None. intros (x & c0 & Hin & <-)%(Listed_cached _ _ _ HL).
    by eapply Hk, listing_keys. }
  pose proof (Get_miss _ _ Hnone) as Hget. split_and!.
  - done.
  - unfold perform_traced. cbn [perform]. unfold discard.
    rewrite (bind_Ok _ _ _ _ _ Hget). unfold ret, note, hit. by rewrite Hnone.
  - unfold frequency_of. by rewrite (GetKeyFrequency_miss _ _ Hnone).
Qed.

(** [Get] of a cached key returns the value [All] lists for it,
    raises the frequency of that key by exactly one, and leaves the
    frequency of every other key, the listed pairs and the size as
    they were. *)
Theorem Get_touches (c : Z) (cs : list call) (t : traced) (k : K) :
  0 < c ≤ int_max → Z.of_nat (length cs) < int_max →
  session [c] cs = Ok t → cached (mem t) k →
  ∃ v f ps t' ps',
    All_pairs (mem t) = Ok ps ∧ (k, v) ∈ ps ∧
    frequency_of (mem t) k = Some f ∧
    perform_traced (CallGet k) t = Ok t' ∧
    Get k (mem t) = Ok ((v, None), mem t') ∧
    frequency_of (mem t') k = Some (f + 1) ∧
    (∀ k', k' ≠ k → frequency_of (mem t') k' = frequency_of (mem t) k') ∧
    All_pairs (mem t') = Ok ps' ∧ ps' ≡ₚ ps ∧
    size (self (mem t')) = size (self (mem t)).
Proof.
  intros Hc Hlen Hs Hk.
  destruct (reached c cs t Hc Hlen Hs) as (HI & Hclk & _).
  destruct (touch_Listed t k HI ltac:(lia) Hk)
    as (x & c0 & E1 & E2 & t' & E' & HL & Hkey & Hget & Hrun & HL' & HE' & Hsz).
  exists (item_value c0), (item_frequency c0), (listing (E1 ++ (x, c0) :: E2)), t',
    (listing E').
  split_and!; try done.
  - by apply Listed_pairs.
  - rewrite listing_app, listing_cons, <- Hkey. apply elem_of_app. right. by left.
  - apply (Listed_frequency _ _ _ _ HL). exists x, c0. split_and!; [|done..].
    apply elem_of_app. right. by left.
  - apply (Listed_frequency _ _ _ _ HL'). exists x, (bumped c0).
    split_and!; [|done..]. rewrite HE'. by left.
  - intros k' Hne. apply (frequency_frame _ _ _ _ _ HL HL').
    eapply replaced_frame; [done|exact HE'|simpl; congruence..].
  - by apply Listed_pairs.
  - rewrite (listing_perm _ _ HE'), listing_cons, !listing_app, listing_cons.
    by rewrite <- Permutation_middle.
Qed.

(** [Put] of a cached key replaces the value listed for it, raises
    its frequency by exactly one, and leaves every other pair,
    every other frequency and the size as they were. *)
Theorem Put_overwrites (c : Z) (cs : list call) (t : traced) (k : K) (v : V) :
  0 < c ≤ int_max → Z.of_nat (length cs) < int_max →
  session [c] cs = Ok t → cached (mem t) k →
  ∃ ps1 v0 ps2 f t' ps',
    All_pairs (mem t) = Ok (ps1 ++ (k, v0) :: ps2) ∧
    frequency_of (mem t) k = Some f ∧
    perform_traced (CallPut k v) t = Ok t' ∧
    All_pairs (mem t') = Ok ps' ∧ ps' ≡ₚ (k, v) :: ps1 ++ ps2 ∧
    frequency_of (mem t') k = Some (f + 1) ∧
    (∀ k', k' ≠ k → frequency_of (mem t') k' = frequency_of (mem t) k') ∧
    size (self (mem t')) = size (self (mem t)).
Proof.
  intros Hc Hlen Hs Hk.
  destruct (reached c cs t Hc Hlen Hs) as (HI & Hclk & _).
  destruct (overwrite_Listed t k v HI ltac:(lia) Hk)
    as (x & c0 & E1 & E2 & t' & E' & HL & Hkey & Hrun & HL' & HE' & Hsz).
  exists (listing E1), (item_value c0), (listing E2), (item_frequency c0), t',
    (listing E').
  split_and!; try done.
  - rewrite (Listed_pairs _ _ HL), listing_app, listing_cons. unfold kv.
    by rewrite Hkey.
  - apply (Listed_frequency _ _ _ _ HL). exists x, c0. split_and!; [|done..].
    apply elem_of_app. right. by left.
  - by apply Listed_pairs.
  - rewrite (listing_perm _ _ HE'), listing_cons, !listing_app. unfold kv. simpl.
    by rewrite Hkey.
  - apply (Listed_frequency _ _ _ _ HL'). exists x, (set_item_value v (bumped c0)).
    split_and!; [|done..]. rewrite HE'. by left.
  - intros k' Hne. apply (frequency_frame _ _ _ _ _ HL HL').
    eapply replaced_frame; [done|exact HE'|simpl; congruence..].
Qed.

(** [Put] of a key that is not cached, while there is room, adds
    its pair to those listed, with frequency 1; every other pair
    and frequency stays and the size grows by one. *)
Theorem Put_inserts (c : Z) (cs : list call) (t : traced) (k : K) (v : V) :
  0 < c ≤ int_max → Z.of_nat (length cs) < int_max →
  session [c] cs = Ok t → ¬ cached (mem t) k →
  size (self (mem t)) ≠ capacity (self (mem t)) →
  ∃ ps t' ps',
    All_pairs (mem t) = Ok ps ∧
    perform_traced (CallPut k v) t = Ok t' ∧
    All_pairs (mem t') = Ok ps' ∧ ps' ≡ₚ (k, v) :: ps ∧
    frequency_of (mem t') k = Some 1 ∧
    (∀ k', k' ≠ k → frequency_of (mem t') k' = frequency_of (mem t) k') ∧
    size (self (mem t')) = size (self (mem t)) + 1.
Proof.
  intros Hc Hlen Hs Hk Hroom.
  destruct (reached c cs t Hc Hlen Hs) as (HI & Hclk & _).
  destruct (grow_Listed t k v HI ltac:(lia) Hk Hroom)
    as (E & x & t' & E' & HL & Hrun & HL' & HE' & Hsz).
  exists (listing E), t', (listing E'). split_and!; try done.
  - by apply Listed_pairs.
  - by apply Listed_pairs.
  - by rewrite (listing_perm _ _ HE'), listing_cons.
  - apply (Listed_frequency _ _ _ _ HL').
    exists x, (set_item_frequency 1 (fresh_item k v)).
    split_and!; [|done..]. rewrite HE'. by left.
  - intros k' Hne. apply (frequency_frame _ _ _ _ _ HL HL').
    eapply added_frame; [exact HE'|simpl; congruence].
Qed.

(** [Put] of a key that is not cached into a full cache replaces
    the pair listed last by the new pair and leaves every other
    pair and frequency.  The new key takes over the frequency of
    the key it replaces if no other key had that frequency, and
    gets frequency 1 otherwise. *)
Theorem Put_replaces (c : Z) (cs : list call) (t : traced) (k : K) (v : V) :
  0 < c ≤ int_max → Z.of_nat (length cs) < int_max →
  session [c] cs = Ok t → ¬ cached (mem t) k →
  size (self (mem t)) = capacity (self (mem t)) →
  ∃ ps victim val fv t' ps' fk,
    All_pairs (mem t) = Ok (ps ++ [(victim, val)]) ∧
    frequency_of (mem t) victim = Some fv ∧
    perform_traced (CallPut k v) t = Ok t' ∧
    All_pairs (mem t') = Ok ps' ∧ ps' ≡ₚ (k, v) :: ps ∧
    frequency_of (mem t') k = Some fk ∧
    (((∀ k', k' ∈ ps.*1 → frequency_of (mem t) k' ≠ Some fv) ∧ fk = fv) ∨
     ((∃ k', k' ∈ ps.*1 ∧ frequency_of (mem t) k' = Some fv) ∧ fk = 1)) ∧
    (∀ k', k' ≠ k → k' ≠ victim →
           frequency_of (mem t') k' = frequency_of (mem t) k') ∧
    size (self (mem t')) = size (self (mem t)).
Proof.
  intros Hc Hlen Hs Hk Hfull.
  destruct (reached c cs t Hc Hlen Hs) as (HI & Hclk & _).
  destruct (evict_Listed t k v HI ltac:(lia) Hk Hfull)
    as (E0 & x & c0 & t' & E' & c' & HL & Hrun & HL' & HE' & Hsz & Hcase).
  assert (item_key c' = k ∧ item_value c' = v) as [Hk' Hv'].
  { by destruct Hcase as [[_ ->]|[_ ->]]. }
  assert (∀ y cy, (y, cy) ∈ E0 →
            frequency_of (mem t) (item_key cy) = Some (item_frequency cy)) as Hfr.
  { intros y cy Hin. apply (Listed_frequency _ _ _ _ HL). exists y, cy.
    split_and!; [|done..]. apply elem_of_app. by left. }
  exists (listing E0), (item_key c0), (item_value c0), (item_frequency c0), t',
    (listing E'), (item_frequency c').
  split_and!; try done.
  - by rewrite (Listed_pairs _ _ HL), listing_app.
  - apply (Listed_frequency _ _ _ _ HL). exists x, c0. split_and!; [|done..].
    apply elem_of_app. right. by left.
  - by apply Listed_pairs.
  - rewrite (listing_perm _ _ HE'), listing_cons. unfold kv. by rewrite Hk', Hv'.
  - apply (Listed_frequency _ _ _ _ HL'). exists x, c'.
    split_and!; [|done..]. rewrite HE'. by left.
  - destruct Hcase as [[Hall ->]|[(e & He & Hf) ->]].
    + left. split; [|done]. intros k' (y & cy & Hin & <-)%keys_listing.
      rewrite (Hfr _ _ Hin). intros [= Heq]. by apply (Hall _ Hin).
    + right. split; [|done]. destruct e as [y cy]. exists (item_key cy).
      split; [by eapply listing_keys|]. rewrite (Hfr _ _ He). by rewrite <- Hf.
  - intros k' Hne Hnv. apply (frequency_frame _ _ _ _ _ HL HL').
    eapply (replaced_frame _ _ E0 []); [done|by rewrite app_nil_r|done|congruence].
Qed.

(** After [Put(k, v)], [Get(k)] returns [v] and no error. *)
Theorem Put_then_Get (c : Z) (cs : list call) (t : traced) (k : K) (v : V) :
  0 < c ≤ int_max → Z.of_nat (length cs) + 1 < int_max →
  session [c] cs = Ok t →
  ∃ t' w'', perform_traced (CallPut k v) t = Ok t' ∧
            Get k (mem t') = Ok ((v, None), w'').
Proof.
  intros Hc Hlen Hs.
  destruct (reached c cs t Hc ltac:(lia) Hs) as (HI & Hclk & _).
  destruct (perform_traced_Inv (CallPut k v) t HI ltac:(lia))
    as (t' & Hrun & HI' & Hclk' & _).
  assert (∃ E' x c', Listed t' E' ∧ (x, c') ∈ E' ∧ item_key c' = k ∧
                     item_value c' = v) as (E' & x & c' & HL' & Hin & Hk' & Hv').
  { destruct (decide (cached (mem t) k)) as [Hk|Hk].
    - destruct (overwrite_Listed t k v HI ltac:(lia) Hk)
        as (x & c0 & E1 & E2 & t1 & E' & HL & Hkey & Hrun1 & HL' & HE' & _).
      assert (t1 = t') as -> by congruence.
      exists E', x, (set_item_value v (bumped c0)).
      split_and!; [done| |done..]. rewrite HE'. by left.
    - destruct (decide (size (self (mem t)) = capacity (self (mem t))))
        as [Hfull|Hroom].
      + destruct (evict_Listed t k v HI ltac:(lia) Hk Hfull)
          as (E0 & x & c0 & t1 & E' & c' & HL & Hrun1 & HL' & HE' & _ & Hcase).
        assert (t1 = t') as -> by congruence.
        exists E', x, c'. split_and!; [done| |..].
        * rewrite HE'. by left.
        * by destruct Hcase as [[_ ->]|[_ ->]].
        * by destruct Hcase as [[_ ->]|[_ ->]].
      + destruct (grow_Listed t k v HI ltac:(lia) Hk Hroom)
          as (E & x & t1 & E' & HL & Hrun1 & HL' & HE' & _).
        assert (t1 = t') as -> by congruence.
        exists E', x, (set_item_frequency 1 (fresh_item k v)).
        split_and!; [done| |done..]. rewrite HE'. by left. }
  assert (cached (mem t') k) as Hc'.
  { apply (Listed_cached _ _ _ HL'). by exists x, c'. }
  destruct (touch_Listed t' k HI' ltac:(lia) Hc')
    as (x2 & c2 & E1 & E2 & t2 & E2' & HL2 & Hkey2 & Hget & _).
  assert (c2 = c') as ->.
  { eapply (Listed_agree _ _ _ _ _ _ _ HL2 HL'); [|exact Hin|congruence].
    apply elem_of_app. right. by left. }
  exists t', (mem t2). split; [done|]. by rewrite <- Hv'.
Qed.

(** The frequency of a cached key is at least 1 and at most the
    number of calls made. *)
Theorem frequency_bounds (c : Z) (cs : list call) (t : traced) (k : K) (f : Z) :
  0 < c ≤ int_max → Z.of_nat (length cs) < int_max →
  session [c] cs = Ok t → frequency_of (mem t) k = Some f →
  1 ≤ f ≤ Z.of_nat (length cs).
Proof.
  intros Hc Hlen Hs Hf.
  destruct (reached c cs t Hc Hlen Hs) as (HI & Hclk & _).
  destruct (Inv_Listed t HI) as [E HL].
  apply (Listed_frequency _ _ _ _ HL) in Hf as (x & c0 & Hin & _ & <-).
  rewrite <- Hclk. by eapply Listed_bound.
Qed.

(** [All] hands the pairs it lists to its consumer in their order
    and stops at the first pair the consumer declines, in whichever
    group that pair is. *)
Theorem All_hands_over {A} (c : Z) (cs : list call) (t : traced)
    (yield : K → V → A → bool * A) (acc : A) :
  0 < c ≤ int_max → Z.of_nat (length cs) < int_max →
  session [c] cs = Ok t →
  ∃ ps, All_pairs (mem t) = Ok ps ∧
        All yield (mem t) acc = Ok (hand yield ps acc).2.
Proof.
  intros Hc Hlen Hs.
  destruct (reached c cs t Hc Hlen Hs) as (HI & Hclk & _).
  destruct (Inv_Listed t HI) as [E HL].
  exists (listing E). split; [by apply Listed_pairs|by apply Listed_hand].
Qed.

(** As long as no more keys are put than the capacity allows, so
    that nothing is evicted, the frequency of a key is the number
    of calls that touched it: its [Put]s, and its [Get]s after the
    first of them.  A key that was never put has no frequency, and
    the size is the number of keys put. *)
Theorem frequency_counts (c : Z) (cs : list call) :
  0 < c ≤ int_max → Z.of_nat (length cs) < int_max →
  Z.of_nat (base.size (put_keys cs)) ≤ c →
  ∃ t, session [c] cs = Ok t ∧
       size (self (mem t)) = Z.of_nat (base.size (put_keys cs)) ∧
       ∀ k, frequency_of (mem t) k = counted k cs.
Proof.
  intros Hc. induction cs as [|a cs IH] using rev_ind; intros Hlen Hfit.
  - destruct (New_Inv (K := K) (V := V) c Hc) as (w & HN & _).
    exists {| mem := w; clock := 0; touched := ∅ |}. unfold session. rewrite HN.
    split; [done|]. cbn [mem]. split.
    + by destruct (frequency_new_cache c w zero HN) as [-> _].
    + intros k. by destruct (frequency_new_cache c w k HN) as [_ ->].
  - rewrite length_app in Hlen. simpl in Hlen.
    assert (base.size (put_keys cs) ≤ base.size (put_keys (cs ++ [a])))%nat as Hmono.
    { apply subseteq_size. destruct (put_key a) as [k0|] eqn:Ha.
      - destruct a; try done. injection Ha as ->. rewrite put_keys_snoc_put.
        set_solver.
      - by rewrite (put_keys_snoc_other _ _ Ha). }
    destruct (IH ltac:(lia) ltac:(lia)) as (t0 & Hs0 & Hsz0 & Hf0).
    destruct (reached c cs t0 Hc ltac:(lia) Hs0) as (HI0 & Hclk0 & Hcap0).
    rewrite session_snoc, Hs0.
    assert (∀ k, k ∈ put_keys cs ↔ cached (mem t0) k) as Hput.
    { intros k. rewrite (cached_frequency _ _ HI0), Hf0. unfold counted.
      destruct (decide (k ∈ put_keys cs)); split; try done; by intros [? ?]. }
    destruct a as [k0|k0 v|k0| | |].
    + destruct (decide (k0 ∈ put_keys cs)) as [Hin|Hnin].
      * destruct (touch_Listed t0 k0 HI0 ltac:(lia) (proj1 (Hput k0) Hin))
          as (x & c0 & E1 & E2 & t' & E' & HL & Hkey & _ & Hrun & HL' & HE' & Hsz).
        exists t'. split; [done|]. split.
        { by rewrite Hsz, Hsz0, (put_keys_snoc_other (CallGet k0)). }
        intros k. destruct (decide (k = k0)) as [->|Hne].
        -- rewrite (counted_snoc_get _ _ Hin).
           assert (frequency_of (mem t0) k0 = Some (item_frequency c0)) as Hf.
           { apply (Listed_frequency _ _ _ _ HL). exists x, c0.
             split_and!; [|done..]. apply elem_of_app. right. by left. }
           rewrite Hf0 in Hf. unfold counted in Hf. rewrite decide_True in Hf by done.
           injection Hf as ->.
           apply (Listed_frequency _ _ _ _ HL'). exists x, (bumped c0).
           split_and!; [|done..]. rewrite HE'. by left.
        -- rewrite (counted_snoc_other _ _ (CallGet k0)), <- Hf0.
           ++ apply (frequency_frame _ _ _ _ _ HL HL').
              eapply replaced_frame; [done|exact HE'|simpl; congruence..].
           ++ done.
           ++ intros k' [= ->]. left. congruence.
      * rewrite (Get_miss_keeps t0 k0) by (by rewrite <- Hput).
        eexists. split; [done|]. cbn [mem]. split.
        { by rewrite Hsz0, (put_keys_snoc_other (CallGet k0)). }
        intros k. rewrite (counted_snoc_other _ _ (CallGet k0)); [done..|].
        intros k' [= <-]. destruct (decide (k0 = k)) as [->|]; [by right|by left].
    + destruct (decide (k0 ∈ put_keys cs)) as [Hin|Hnin].
      * destruct (overwrite_Listed t0 k0 v HI0 ltac:(lia) (proj1 (Hput k0) Hin))
          as (x & c0 & E1 & E2 & t' & E' & HL & Hkey & Hrun & HL' & HE' & Hsz).
        exists t'. split; [done|]. split.
        { rewrite Hsz, Hsz0, put_keys_snoc_put. do 2 f_equal. set_solver. }
        intros k. destruct (decide (k = k0)) as [->|Hne].
        -- rewrite counted_snoc_put.
           assert (frequency_of (mem t0) k0 = Some (item_frequency c0)) as Hf.
           { apply (Listed_frequency _ _ _ _ HL). exists x, c0.
             split_and!; [|done..]. apply elem_of_app. right. by left. }
           rewrite Hf0 in Hf. unfold counted in Hf. rewrite decide_True in Hf by done.
           injection Hf as ->.
           apply (Listed_frequency _ _ _ _ HL').
           exists x, (set_item_value v (bumped c0)).
           split_and!; [|done..]. rewrite HE'. by left.
        -- rewrite (counted_snoc_put_other _ _ _ _ Hne), <- Hf0.
           apply (frequency_frame _ _ _ _ _ HL HL').
           eapply replaced_frame; [done|exact HE'|simpl; congruence..].
      * assert (base.size (put_keys (cs ++ [CallPut k0 v])) = S (base.size (put_keys cs)))
          as Hgrow.
        { rewrite put_keys_snoc_put, size_union by set_solver.
          rewrite size_singleton. lia. }
        assert (¬ cached (mem t0) k0) as Hnc by (by rewrite <- Hput).
        destruct (grow_Listed t0 k0 v HI0 ltac:(lia) Hnc ltac:(lia))
          as (E & x & t' & E' & HL & Hrun & HL' & HE' & Hsz).
        exists t'. split; [done|]. split; [lia|].
        intros k. destruct (decide (k = k0)) as [->|Hne].
        -- rewrite counted_snoc_put, (touches_absent _ _ Hnin).
           apply (Listed_frequency _ _ _ _ HL').
           exists x, (set_item_frequency 1 (fresh_item k0 v)).
           split_and!; [|done..]. rewrite HE'. by left.
        -- rewrite (counted_snoc_put_other _ _ _ _ Hne), <- Hf0.
           apply (frequency_frame _ _ _ _ _ HL HL').
           eapply added_frame; [exact HE'|simpl; congruence].
    + rewrite (reading_keeps t0 (CallGetKeyFrequency k0)) by done.
      eexists. split; [done|]. cbn [mem]. split.
      { by rewrite Hsz0, (put_keys_snoc_other (CallGetKeyFrequency k0)). }
      intros k. by rewrite (counted_snoc_other _ _ (CallGetKeyFrequency k0)).
    + rewrite (reading_keeps t0 CallAll) by done.
      eexists. split; [done|]. cbn [mem]. split.
      { by rewrite Hsz0, (put_keys_snoc_other CallAll). }
      intros k. by rewrite (counted_snoc_other _ _ CallAll).
    + rewrite (reading_keeps t0 CallSize) by done.
      eexists. split; [done|]. cbn [mem]. split.
      { by rewrite Hsz0, (put_keys_snoc_other CallSize). }
      intros k. by rewrite (counted_snoc_other _ _ CallSize).
    + rewrite (reading_keeps t0 CallCapacity) by done.
      eexists. split; [done|]. cbn [mem]. split.
      { by rewrite Hsz0, (put_keys_snoc_other CallCapacity). }
      intros k. by rewrite (counted_snoc_other _ _ CallCapacity).
Qed.

End Behaviour.

(** The theorems at work on the session [warm]. *)

Lemma session_runs_witness :
  ∃ t ps, session [2] warm = Ok t ∧ All_pairs (mem t) = Ok ps ∧ NoDup ps.*1.
Proof.
  destruct (session_runs 2 warm ltac:(unfold int_max; lia)
              ltac:(unfold int_max; simpl; lia))
    as (t & ps & H1 & _ & H3 & H4 & _).
  exists t, ps. exact (conj H1 (conj H3 H4)).
Defined.

Lemma Get_touches_witness :
  ∃ t v f t', session [2] warm = Ok t ∧
              Get 1 (mem t) = Ok ((v, None), mem t') ∧
              frequency_of (mem t) 1 = Some f ∧
              frequency_of (mem t') 1 = Some (f + 1).
Proof.
  assert (match session [2] warm with
          | Ok t => cached (mem t) 1
          | _ => False
          end) as Hc.
  { vm_compute. eexists. reflexivity. }
  destruct (session [2] warm) as [t| |] eqn:Hs; [|destruct Hc..].
  destruct (Get_touches 2 warm t 1 ltac:(unfold int_max; lia)
              ltac:(unfold int_max; simpl; lia) Hs Hc)
    as (v & f & ps & t' & ps' & _ & _ & H3 & _ & H5 & H6 & _).
  exists t, v, f, t'. exact (conj eq_refl (conj H5 (conj H3 H6))).
Defined.

Lemma Get_absent_witness :
  ∃ t, session [2] warm = Ok t ∧
       Get 7 (mem t) = Ok ((0, Some ErrKeyNotFound), mem t).
Proof.
  assert (match session [2] warm with
          | Ok t => All_pairs (mem t) = Ok [(1, 10); (2, 20)]
          | _ => False
          end) as Hall.
  { vm_compute. reflexivity. }
  destruct (session [2] warm) as [t| |] eqn:Hs; [|destruct Hall..].
  destruct (Get_absent 2 warm t [(1, 10); (2, 20)] 7 ltac:(unfold int_max; lia)
              ltac:(unfold int_max; simpl; lia) Hs Hall
              ltac:(simpl; rewrite !elem_of_cons, elem_of_nil; lia))
    as (H1 & _).
  exists t. exact (conj eq_refl H1).
Defined.

Lemma Put_overwrites_witness :
  ∃ t t' ps', session [2] warm = Ok t ∧
              perform_traced (CallPut 2 21) t = Ok t' ∧
              All_pairs (mem t') = Ok ps' ∧ (2, 21) ∈ ps'.
Proof.
  assert (match session [2] warm with
          | Ok t => cached (mem t) 2
          | _ => False
          end) as Hc.
  { vm_compute. eexists. reflexivity. }
  destruct (session [2] warm) as [t| |] eqn:Hs; [|destruct Hc..].
  destruct (Put_overwrites 2 warm t 2 21 ltac:(unfold int_max; lia)
              ltac:(unfold int_max; simpl; lia) Hs Hc)
    as (ps1 & v0 & ps2 & f & t' & ps' & _ & _ & H3 & H4 & H5 & _).
  exists t, t', ps'. split; [exact eq_refl|]. split; [exact H3|]. split; [exact H4|].
  rewrite H5. apply list_elem_of_here.
Defined.

Lemma Put_inserts_witness :
  ∃ t t', session [3] warm = Ok t ∧
          perform_traced (CallPut 3 30) t = Ok t' ∧
          frequency_of (mem t') 3 = Some 1 ∧
          size (self (mem t')) = size (self (mem t)) + 1.
Proof.
  assert (match session [3] warm with
          | Ok t => ¬ cached (mem t) 3 ∧ size (self (mem t)) ≠ capacity (self (mem t))
          | _ => False
          end) as Hc.
  { vm_compute. split; [intros [? ?]|]; discriminate. }
  destruct (session [3] warm) as [t| |] eqn:Hs; [|destruct Hc..].
  destruct Hc as [Hn Hroom].
  destruct (Put_inserts 3 warm t 3 30 ltac:(unfold int_max; lia)
              ltac:(unfold int_max; simpl; lia) Hs Hn Hroom)
    as (ps & t' & ps' & _ & H2 & _ & _ & H5 & _ & H7).
  exists t, t'. exact (conj eq_refl (conj H2 (conj H5 H7))).
Defined.

Lemma Put_replaces_witness :
  ∃ t ps victim val t' ps',
    session [2] warm = Ok t ∧
    All_pairs (mem t) = Ok (ps ++ [(victim, val)]) ∧
    perform_traced (CallPut 3 30) t = Ok t' ∧
    All_pairs (mem t') = Ok ps' ∧ ps' ≡ₚ (3, 30) :: ps.
Proof.
  assert (match session [2] warm with
          | Ok t => ¬ cached (mem t) 3 ∧ size (self (mem t)) = capacity (self (mem t))
          | _ => False
          end) as Hc.
  { vm_compute. split; [intros [? ?]; discriminate|reflexivity]. }
  destruct (session [2] warm) as [t| |] eqn:Hs; [|destruct Hc..].
  destruct Hc as [Hn Hfull].
  destruct (Put_replaces 2 warm t 3 30 ltac:(unfold int_max; lia)
              ltac:(unfold int_max; simpl; lia) Hs Hn Hfull)
    as (ps & victim & val & fv & t' & ps' & fk & H1 & _ & H3 & H4 & H5 & _).
  exists t, ps, victim, val, t', ps'.
  exact (conj eq_refl (conj H1 (conj H3 (conj H4 H5)))).
Defined.

Lemma Put_then_Get_witness :
  ∃ t t' w'', session [2] warm = Ok t ∧
              perform_traced (CallPut 3 30) t = Ok t' ∧
              Get 3 (mem t') = Ok ((30, None), w'').
Proof.
  assert (match session [2] warm with
          | Ok t => True
          | _ => False
          end) as Hc.
  { vm_compute. exact I. }
  destruct (session [2] warm) as [t| |] eqn:Hs; [|destruct Hc..].
  destruct (Put_then_Get 2 warm t 3 30 ltac:(unfold int_max; lia)
              ltac:(unfold int_max; simpl; lia) Hs)
    as (t' & w'' & H1 & H2).
  exists t, t', w''. exact (conj eq_refl (conj H1 H2)).
Defined.

Lemma frequency_bounds_witness :
  ∃ t, session [2] warm = Ok t ∧ frequency_of (mem t) 1 = Some 2 ∧ 1 ≤ 2 ≤ 3.
Proof.
  assert (match session [2] warm with
          | Ok t => frequency_of (mem t) 1 = Some 2
          | _ => False
          end) as Hf.
  { vm_compute. reflexivity. }
  destruct (session [2] warm) as [t| |] eqn:Hs; [|destruct Hf..].
  pose proof (frequency_bounds 2 warm t 1 2 ltac:(unfold int_max; lia)
                ltac:(unfold int_max; simpl; lia) Hs Hf) as Hb.
  exists t. exact (conj eq_refl (conj Hf Hb)).
Defined.

Lemma All_hands_over_witness :
  ∃ t ps, session [2] warm = Ok t ∧ All_pairs (mem t) = Ok ps ∧
          All first_pair (mem t) [] = Ok (hand first_pair ps []).2.
Proof.
  assert (match session [2] warm with
          | Ok t => True
          | _ => False
          end) as Hc.
  { vm_compute. exact I. }
  destruct (session [2] warm) as [t| |] eqn:Hs; [|destruct Hc..].
  destruct (All_hands_over 2 warm t first_pair [] ltac:(unfold int_max; lia)
              ltac:(unfold int_max; simpl; lia) Hs)
    as (ps & H1 & H2).
  exists t, ps. exact (conj eq_refl (conj H1 H2)).
Defined.

Lemma frequency_counts_witness :
  ∃ t, session [2] warm = Ok t ∧
       frequency_of (mem t) 1 = counted 1 warm ∧
       frequency_of (mem t) 2 = counted 2 warm.
Proof.
  assert (base.size (put_keys warm) = 2%nat) as Hsz by (vm_compute; reflexivity).
  destruct (frequency_counts 2 warm ltac:(unfold int_max; lia)
              ltac:(unfold int_max; simpl; lia) ltac:(rewrite Hsz; lia))
    as (t & H1 & _ & H3).
  exists t. exact (conj H1 (conj (H3 1) (H3 2))).
Defined.

End lfu_behaviour.

Module crawler_facts.
Import crawler.

Lemma addError_latched (e : option error) (a : atomicErr) (e0 : error) :
  err a = Some e0 → addError e a = a.
Proof. unfold addError. by intros ->. Qed.

Lemma fold_addError_latched (es : list (option error)) (a : atomicErr) (e0 : error) :
  err a = Some e0 → fold_left (λ a e, addError e a) es a = a.
Proof.
  revert a. induction es as [|e es IH]; intros a Ha; [done|].
  simpl. rewrite (addError_latched _ _ _ Ha). by apply IH.
Qed.

Lemma err_latched (es : list (option error)) : err (latched es) = first_error es.
Proof.
  unfold latched. induction es as [|[e|] es IH]; [done| |].
  - simpl. by rewrite (fold_addError_latched es _ e).
  - simpl. exact IH.
Qed.

Lemma combine_foldr {R} (combiner : R → R → R) (rvs : list R) (r : R) :
  combine combiner rvs r = foldr combiner r (reverse rvs).
Proof.
  revert r. induction rvs as [|rv rvs IH]; intros r; [done|].
  simpl. rewrite IH, reverse_cons, foldr_app. done.
Qed.

(** What [Collect] returns by the latch as it reads it: the zero
    result with the first error that was not nil among those handed
    to the latch until then, if there is one; otherwise the partial
    results combined one by one onto the zero result, with
    [ctx.Err()].  The latch holds that first error, whatever is
    handed to it afterwards. *)
Lemma Collect_return_latched {R} `{!Zero R} (es es' : list (option error)) (rvs : list R)
    (ctxErr : option error) (combiner : R → R → R) :
  Collect_return (latched es) rvs ctxErr combiner
  = match first_error es with
    | Some e => (zero, Some e)
    | None => (foldr combiner zero (reverse rvs), ctxErr)
    end ∧
  err (latched es) = first_error es ∧
  (∀ e, first_error es = Some e → err (latched (es ++ es')) = Some e).
Proof.
  split_and!.
  - unfold Collect_return. rewrite err_latched.
    destruct (first_error es); [done|]. by rewrite combine_foldr.
  - apply err_latched.
  - intros e He. unfold latched. rewrite fold_left_app.
    rewrite (fold_addError_latched es' _ e); rewrite <- He; apply err_latched.
Qed.

Lemma first_error_app (es es' : list (option error)) :
  first_error (es ++ es')
  = match first_error es with Some e => Some e | None => first_error es' end.
Proof. induction es as [|[e|] es IH]; [done|done|exact IH]. Qed.

(** C7, as the code has it. [Collect] reads the latch when it finds
    the result channel closed, before it waits for the searchers.
    When no error was latched until then and one is latched
    afterwards, before [Collect] returns, [Collect] returns the
    combined result with [ctx.Err()], and not the zero result with
    the error the latch holds by then. *)
Theorem Collect_misses_late_error {R} `{!Zero R} (early late : list (option error))
    (rvs : list R) (ctxErr : option error) (combiner : R → R → R) (e : error) :
  first_error early = None → first_error late = Some e →
  Collect_end early late rvs ctxErr combiner
  = ((foldr combiner zero (reverse rvs), ctxErr), {| err := Some e |}).
Proof.
  intros Hearly Hlate. unfold Collect_end, Collect_return.
  rewrite err_latched, Hearly, combine_foldr. f_equal.
  pose proof (err_latched (early ++ late)) as Herr.
  rewrite first_error_app, Hearly, Hlate in Herr.
  by destruct (latched (early ++ late)) as [x]; simpl in Herr; subst x.
Qed.

Lemma Collect_misses_late_error_witness :
  first_error [] = None ∧
  first_error [Some "open /data: permission denied"]
  = Some "open /data: permission denied" ∧
  Collect_end [] [Some "open /data: permission denied"] [3; 4]
    (Some "context canceled") Z.add
  = ((7, Some "context canceled"), {| err := Some "open /data: permission denied" |}).
Proof.
  exact (conj eq_refl (conj eq_refl
           (Collect_misses_late_error [] [Some "open /data: permission denied"] [3; 4]
              (Some "context canceled") Z.add "open /data: permission denied"
              eq_refl eq_refl))).
Defined.

(** C8, as the code has it. The guard ends every panic of the
    callable: it returns what the callable returned, or the zero
    value after a panic; the latch is handed the payload of the panic
    only if it is an error. *)
Theorem protect_recovers {T} `{!Zero T} (fn : callable T) (arg : string) (aE : atomicErr) :
  ∃ v aE', protect fn arg aE = (Returns v, aE') ∧
           match fn arg aE with
           | (Returns v0, a1) => v = v0 ∧ aE' = a1
           | (Panics (ErrorPayload e), a1) => v = zero ∧ aE' = addError (Some e) a1
           | (Panics (OtherPayload _), a1) => v = zero ∧ aE' = a1
           end.
Proof.
  unfold protect. destruct (fn arg aE) as [[v0|[e|p]] a1]; eauto.
Qed.

(** C8, as claimed: a panic whose payload is no error would go on
    through the guard.  It does not. *)
Lemma protect_stops_other_panics :
  ¬ (∀ (fn : callable Z) (arg : string) (aE a1 : atomicErr) (p : string),
       fn arg aE = (Panics (OtherPayload p), a1) →
       ∃ a', protect fn arg aE = (Panics (OtherPayload p), a')).
Proof.
  intros Hclaim.
  destruct (Hclaim (λ _ a, (Panics (OtherPayload "boom"), a)) "file"
              {| err := None |} {| err := None |} "boom" eq_refl) as [a' Ha'].
  discriminate Ha'.
Qed.

Section TransformFacts.
Context {T File : Type} `{!Zero T}.
Variable Open : string → option File * option error.
Variable Read : File → list Byte.byte * option error.
Variable Unmarshal : list Byte.byte → T → T * option error.

Lemma err_addError_twice (e e' : option error) (e0 : error) (a : atomicErr) :
  e = Some e0 → err (addError e' (addError e a)) = err (addError e a).
Proof.
  intros ->. unfold addError. destruct (err a) as [e1|] eqn:E; simpl.
  - by rewrite E.
  - done.
Qed.

(** C9, as the code has it. The guarded transformer always returns.
    If the file cannot be opened or read, it hands the error to the
    latch and returns the zero record; if the content cannot be
    decoded, it hands the error to the latch and returns the record
    as the decoder left it. *)
Theorem readFile_guarded (current : string) (aE : atomicErr) :
  ∃ v aE', protect (readFile Open Read Unmarshal) current aE = (Returns v, aE') ∧
           match Open current with
           | (_, Some e) => v = zero ∧ err aE' = err (addError (Some e) aE)
           | (None, None) =>
               v = zero ∧ err aE' = err (addError (Some nilDereference) aE)
           | (Some file, None) =>
               match Read file with
               | (_, Some e) => v = zero ∧ aE' = addError (Some e) aE
               | (content, None) =>
                   v = (Unmarshal content zero).1 ∧
                   aE' = addError (Unmarshal content zero).2 aE
               end
           end.
Proof.
  unfold protect, readFile.
  destruct (Open current) as [[file|] [e|]]; simpl.
  - eauto.
  - destruct (Read file) as [content [e|]]; simpl; [eauto|].
    destruct (Unmarshal content zero) as [result [e|]]; simpl; [eauto|].
    eexists _, _. split; [done|]. split; [done|].
    by destruct aE as [[e0|]].
  - eexists _, _. split; [done|]. split; [done|].
    by eapply err_addError_twice.
  - by eexists _, _.
Qed.

End TransformFacts.

(** C9, as claimed: whenever decoding fails, the zero record would
    be returned.  At [T = AB], a content whose member A is a number
    and whose member B is a string shows otherwise: the record
    returned has its A set. *)
Lemma readFile_keeps_decoded :
  ¬ (∀ (Open : string → option unit * option error)
       (Read : unit → list Byte.byte * option error)
       (current : string) (aE : atomicErr) (content : list Byte.byte)
       (result : AB) (e : error),
       Open current = (Some tt, None) → Read tt = (content, None) →
       Unmarshal_AB content zero = (result, Some e) →
       (protect (readFile Open Read Unmarshal_AB) current aE).1 = Returns zero).
Proof.
  intros Hclaim.
  specialize (Hclaim (λ _, (Some tt, None)) (λ _, (seven_and_x, None)) "file"
                {| err := None |} seven_and_x (mkAB 7 0)
                "json: cannot unmarshal string into Go struct field AB.B of type int"
                eq_refl eq_refl eq_refl).
  discriminate Hclaim.
Qed.

Section SearchFacts.
Variable ReadDir : string → list DirEntry * option error.
Variable Join : string → string → string.
Variable taken : nat → bool.

Lemma stopped_cons (i n : nat) :
  stopped taken i (S n)
  = if taken i then Some 0%nat else S <$> stopped taken (S i) n.
Proof.
  unfold stopped. cbn [seq list_find].
  destruct (taken i); [by rewrite decide_True|].
  rewrite decide_False by done.
  by destruct (list_find _ (seq (S i) n)) as [[pos j]|].
Qed.

Lemma subdirs_cons (parent : string) (entry : DirEntry) (rest : list DirEntry) :
  subdirs Join parent (entry :: rest)
  = if IsDir entry then Join parent (Name entry) :: subdirs Join parent rest
    else subdirs Join parent rest.
Proof.
  unfold subdirs. rewrite filter_cons.
  destruct (IsDir entry); case_decide; done.
Qed.

Lemma files_cons (parent : string) (entry : DirEntry) (rest : list DirEntry) :
  files Join parent (entry :: rest)
  = if IsDir entry then files Join parent rest
    else Join parent (Name entry) :: files Join parent rest.
Proof.
  unfold files. rewrite filter_cons.
  destruct (IsDir entry); case_decide; done.
Qed.

Lemma searchEntries_result (parent : string) (dirEntries : list DirEntry)
    (dirs sent : list string) (i : nat) :
  searchEntries Join taken parent dirEntries dirs sent i
  = match stopped taken i (length (files Join parent dirEntries)) with
    | None => (dirs ++ subdirs Join parent dirEntries,
               sent ++ files Join parent dirEntries)
    | Some pos => ([], sent ++ take pos (files Join parent dirEntries))
    end.
Proof.
  revert dirs sent i. induction dirEntries as [|entry rest IH]; intros dirs sent i.
  - simpl. by rewrite !app_nil_r.
  - cbn [searchEntries]. rewrite subdirs_cons, files_cons.
    destruct (IsDir entry).
    + rewrite IH. destruct (stopped _ _ _); [done|]. by rewrite <- app_assoc.
    + cbn [length]. rewrite stopped_cons. destruct (taken i).
      * by rewrite app_nil_r.
      * rewrite IH. destruct (stopped _ _ _); simpl; by rewrite <- app_assoc.
Qed.


End SearchFacts.

End crawler_facts.

(** ** The worker pools *)

Module workerpool_facts.
Import workerpool.

(** Two lists with the same elements, some of them moved. *)
Ltac moved :=
  rewrite <- ?app_assoc; cbn [app fmap list_fmap];
  rewrite <- ?app_assoc; cbn [app];
  rewrite <- ?Permutation_middle, ?app_nil_r; reflexivity.

(** The same, whatever was moved. *)
Ltac rotate :=
  (etrans; [|first [apply Permutation_app_comm
                   |symmetry; apply Permutation_cons_append]]);
  rewrite <- ?app_assoc, ?app_nil_r; cbn [app].

Ltac shuffled_from k :=
  lazymatch k with
  | O => fail "not the same elements"
  | S ?k' =>
      first [ reflexivity
            | apply perm_skip; shuffled_from constr:(12%nat)
            | apply Permutation_app_head; shuffled_from constr:(12%nat)
            | rotate; shuffled_from k' ]
  end.

Ltac shuffled :=
  rewrite <- ?app_assoc, ?app_nil_r; cbn [app]; shuffled_from constr:(12%nat).

Section Transform.
Context {T R : Type}.
Variable transformer : T → R.
Variable n : Z.
Variable vs0 : list T.
Variable e0 : bool.
Local Abbreviation step := (Transform_step transformer).
Local Abbreviation start := (Transform_start (R := R) n vs0 e0).
Implicit Types (s : pool (T := T) (R := R) (transforming R))
  (ws : list (transforming R)).

Lemma held_app ws1 ws2 : held (ws1 ++ ws2) = held ws1 ++ held ws2.
Proof. apply omap_app. Qed.

Lemma held_at_input ws1 ws2 :
  held (ws1 ++ TAtInput :: ws2) = held ws1 ++ held ws2.
Proof. by rewrite held_app. Qed.

Lemma held_returned ws1 ws2 :
  held (ws1 ++ TReturned :: ws2) = held ws1 ++ held ws2.
Proof. by rewrite held_app. Qed.

Lemma held_at_result ws1 r ws2 :
  held (ws1 ++ TAtResult r :: ws2) = held ws1 ++ r :: held ws2.
Proof. by rewrite held_app. Qed.

Lemma held_all_returned ws : Forall (λ w, w = TReturned) ws → held ws = [].
Proof. induction 1 as [|w ws -> _ IH]; [done|]. exact IH. Qed.

Lemma returned_mid ws1 ws2 (w w' : transforming R) :
  w' ≠ TReturned → TReturned ∈ ws1 ++ w' :: ws2 → TReturned ∈ ws1 ++ w :: ws2.
Proof.
  intros Hne. rewrite !elem_of_app, !elem_of_cons. intros [?|[?|?]]; [tauto| |tauto].
  by destruct Hne.
Qed.

Lemma not_all_returned ws1 ws2 (w : transforming R) :
  w ≠ TReturned → ¬ Forall (λ w, w = TReturned) (ws1 ++ w :: ws2).
Proof.
  intros Hne Hall. rewrite Forall_app, Forall_cons in Hall. tauto.
Qed.

(** What holds in every state the pool reaches. *)
Lemma Transform_invariant s :
  rtc (moves step) start s →
  length (workers s) = Z.to_nat n ∧ input_closes s = e0 ∧
  (∃ dropped,
     transformer <$> vs0
     ≡ₚ results s ++ held (workers s) ++ dropped ++ (transformer <$> input s) ∧
     (ctx_done s = false → dropped = [])) ∧
  (result_closed s = true → Forall (λ w, w = TReturned) (workers s)) ∧
  (ctx_done s = false → TReturned ∈ workers s →
   input s = [] ∧ input_closes s = true).
Proof.
  revert s. apply rtc_ind_r.
  - unfold Transform_start.
    cbn [workers input input_closes ctx_done results result_closed].
    split_and!; [by rewrite length_replicate|done| |done|].
    + exists []. split; [|done].
      assert (held (replicate (Z.to_nat n) (TAtInput (R := R))) = []) as ->.
      { induction (Z.to_nat n); [done|]. done. }
      done.
    + intros _ Hin. apply elem_of_replicate in Hin as [? _]. done.
  - intros s1 s _ Hmove (Hlen & He & (dr & Hperm & Hdr) & Hcl & Hret).
    destruct Hmove as [Hstep|Hcancel].
    + destruct Hstep; cbn [workers input input_closes ctx_done results result_closed] in *.
      * (* receive *)
        split_and!; [by rewrite length_app in *|done| | |].
        -- exists dr. split; [|done]. etrans; [exact Hperm|].
           rewrite held_at_input, held_at_result. moved.
        -- intros Hc. by destruct (not_all_returned _ _ TAtInput ltac:(done) (Hcl Hc)).
        -- intros Hd Hin.
           apply (returned_mid _ _ TAtInput) in Hin; [|done].
           by destruct (Hret Hd Hin).
      * (* input closed *)
        split_and!; [by rewrite length_app in *|done| | |done].
        -- exists dr. split; [|done]. etrans; [exact Hperm|].
           by rewrite held_at_input, held_returned.
        -- intros Hc. by destruct (not_all_returned _ _ TAtInput ltac:(done) (Hcl Hc)).
      * (* done at the outer select *)
        split_and!; [by rewrite length_app in *|done| | |done].
        -- exists dr. split; [|done]. etrans; [exact Hperm|].
           by rewrite held_at_input, held_returned.
        -- intros Hc. by destruct (not_all_returned _ _ TAtInput ltac:(done) (Hcl Hc)).
      * (* send *)
        split_and!; [by rewrite length_app in *|done| |done|].
        -- exists dr. split; [|done]. etrans; [exact Hperm|].
           rewrite held_at_input, held_at_result. moved.
        -- intros Hd Hin. apply (returned_mid _ _ (TAtResult r)) in Hin; [|done].
           by apply Hret.
      * (* done at the inner select *)
        split_and!; [by rewrite length_app in *|done| | |done].
        -- exists (r :: dr). split; [|done]. etrans; [exact Hperm|].
           rewrite held_at_result, held_returned. moved.
        -- intros Hc. by destruct (not_all_returned _ _ (TAtResult r) ltac:(done) (Hcl Hc)).
      * (* close *)
        split_and!; try done. by exists dr.
    + destruct Hcancel; cbn [workers input input_closes ctx_done results result_closed] in *.
      split_and!; try done. exists dr. split; [done|done].
Qed.

(** In every state [Transform] reaches, each value that came
    through [input] was transformed once, and its result was
    received by the reader of [result], is held by a worker, or
    was dropped, which happens only once the context is done.
    [result] is closed only when every worker has returned. *)
Theorem Transform_delivers s :
  rtc (moves step) start s →
  (∃ dropped,
     transformer <$> vs0
     ≡ₚ results s ++ held (workers s) ++ dropped ++ (transformer <$> input s) ∧
     (ctx_done s = false → dropped = [])) ∧
  (result_closed s = true → Forall (λ w, w = TReturned) (workers s)).
Proof.
  intros Hreach.
  destruct (Transform_invariant s Hreach) as (_ & _ & Hperm & Hcl & _). done.
Qed.

(** When none of the goroutines of [Transform] can take a step,
    and [input] was closed or the context is done, every worker has
    returned and [result] is closed.  If the context is not done
    and there is a worker, the reader has then received the
    transformed value of every input, each once. *)
Theorem Transform_rest s :
  rtc (moves step) start s → at_rest step s →
  ctx_done s = true ∨ e0 = true →
  Forall (λ w, w = TReturned) (workers s) ∧ result_closed s = true ∧
  (ctx_done s = false → 0 < n → results s ≡ₚ transformer <$> vs0).
Proof.
  intros Hreach Hrest Hends.
  destruct (Transform_invariant s Hreach)
    as (Hlen & He & (dr & Hperm & Hdr) & Hcl & Hret).
  destruct s as [ws vs e d rs c].
  cbn [workers input input_closes ctx_done results result_closed] in *. subst e.
  assert (Forall (λ w, w = TReturned) ws) as Hall.
  { apply Forall_forall. intros w Hw.
    apply list_elem_of_split in Hw as (ws1 & ws2 & ->).
    destruct w as [|r|]; [| |done]; exfalso.
    - destruct d.
      + eapply Hrest. apply T_done_at_input.
      + destruct Hends as [?| He]; [done|]. rewrite He in *. destruct vs as [|v vs].
        * eapply Hrest. apply T_input_closed.
        * eapply Hrest. apply T_receive.
    - destruct c.
      + by destruct (not_all_returned _ _ (TAtResult r) ltac:(done) (Hcl eq_refl)).
      + eapply Hrest. apply T_send. }
  split; [done|]. split.
  - destruct c; [done|]. exfalso. eapply Hrest. by apply T_close.
  - intros -> Hn.
    assert (TReturned ∈ ws) as Hin.
    { destruct ws as [|w ws]; [simpl in Hlen; lia|].
      apply Forall_cons in Hall as [-> _]. by left. }
    destruct (Hret eq_refl Hin) as [-> _].
    rewrite (held_all_returned _ Hall), (Hdr eq_refl) in Hperm.
    symmetry. etrans; [exact Hperm|]. by rewrite !app_nil_r.
Qed.

(** What a state has still to do, in steps. *)
Lemma Transform_measure s s' :
  moves step s s' →
  (2 * length (input s') + sum_list_with
     (λ w, match w with TAtInput => 2 | TAtResult _ => 3 | TReturned => 0 end)
     (workers s')
   + (if result_closed s' then 0 else 1) + (if ctx_done s' then 0 else 1)
   < 2 * length (input s) + sum_list_with
       (λ w, match w with TAtInput => 2 | TAtResult _ => 3 | TReturned => 0 end)
       (workers s)
     + (if result_closed s then 0 else 1) + (if ctx_done s then 0 else 1))%nat.
Proof.
  intros [Hstep|Hcancel].
  - destruct Hstep; cbn [workers input input_closes ctx_done results result_closed];
      rewrite ?sum_list_with_app; cbn [sum_list_with length]; lia.
  - destruct Hcancel. cbn [workers input input_closes ctx_done results result_closed].
    lia.
Qed.

(** The goroutines of [Transform] take at most
    [2 * len(input) + 2 * workers + 2] steps, the cancelling of the
    context counted: none of them runs for ever. *)
Theorem Transform_bounded (k : nat) s :
  nsteps (moves step) k start s →
  (k ≤ 2 * length vs0 + 2 * Z.to_nat n + 2)%nat.
Proof.
  intros Hrun.
  assert (∀ j s1 s2, nsteps (moves step) j s1 s2 →
            (j + (2 * length (input s2) + sum_list_with
                    (λ w, match w with
                          | TAtInput => 2 | TAtResult _ => 3 | TReturned => 0
                          end) (workers s2)
                  + (if result_closed s2 then 0 else 1)
                  + (if ctx_done s2 then 0 else 1))
             ≤ 2 * length (input s1) + sum_list_with
                 (λ w, match w with
                       | TAtInput => 2 | TAtResult _ => 3 | TReturned => 0
                       end) (workers s1)
               + (if result_closed s1 then 0 else 1)
               + (if ctx_done s1 then 0 else 1))%nat) as Hdown.
  { clear. intros j s1 s2 Hj. induction Hj as [|j s1 s2 s3 Hmove _ IH]; [lia|].
    pose proof (Transform_measure _ _ Hmove). lia. }
  specialize (Hdown _ _ _ Hrun). unfold Transform_start in Hdown.
  cbn [workers input input_closes ctx_done results result_closed] in Hdown.
  assert (sum_list_with
            (λ w : transforming R,
               match w with TAtInput => 2 | TAtResult _ => 3 | TReturned => 0 end)
            (replicate (Z.to_nat n) TAtInput) = 2 * Z.to_nat n)%nat as Hsum.
  { clear. induction (Z.to_nat n) as [|m IH]; [done|].
    cbn [replicate sum_list_with]. rewrite IH. lia. }
  rewrite Hsum in Hdown. lia.
Qed.

(** With no worker, [Transform] closes [result] at once: nothing
    is taken from [input] and the reader receives nothing. *)
Theorem Transform_no_workers s :
  n ≤ 0 → rtc (moves step) start s →
  workers s = [] ∧ input s = vs0 ∧ results s = [].
Proof.
  intros Hn. revert s. apply rtc_ind_r.
  - unfold Transform_start. by replace (Z.to_nat n) with 0%nat by lia.
  - intros s1 s _ Hmove (Hws & Hin & Hrs). destruct Hmove as [Hstep|Hcancel].
    + destruct Hstep; cbn [workers input results] in *;
        try (by destruct ws1); done.
    + by destruct Hcancel.
Qed.

End Transform.

Section Accumulate.
Context {T R : Type} `{!Zero R}.
Variable accumulator : T → R → R.
Variable n : Z.
Variable vs0 : list T.
Variable e0 : bool.
Local Abbreviation step := (Accumulate_step accumulator).
Local Abbreviation start := (Accumulate_start (R := R) n vs0 e0).
Implicit Types (s : pool (T := T) (R := R) (accumulating R))
  (ws : list (accumulating R)) (wh : list (accumulating R * list T)).

Lemma accumulated_snoc (res : R) (part : list T) (v : T) :
  accumulated accumulator res (part ++ [v])
  = accumulator v (accumulated accumulator res part).
Proof. unfold accumulated. by rewrite foldl_app. Qed.

Lemma with_parts_split wh ws1 (w : accumulating R) ws2 :
  wh.*1 = ws1 ++ w :: ws2 →
  ∃ wh1 h wh2, wh = wh1 ++ (w, h) :: wh2 ∧ wh1.*1 = ws1 ∧ wh2.*1 = ws2.
Proof.
  intros Heq. apply fmap_app_inv in Heq as (wh1 & wh' & -> & Heq & ->).
  symmetry in Heq. apply fmap_cons_inv in Heq as ([w' h] & wh2 & -> & -> & ->).
  by exists wh1, h, wh2.
Qed.

Lemma returned_parts_app wh1 wh2 :
  returned_parts (wh1 ++ wh2) = returned_parts wh1 ++ returned_parts wh2.
Proof. apply omap_app. Qed.

Lemma returned_parts_running wh1 (w : accumulating R) (h : list T) wh2 :
  w ≠ AReturned →
  returned_parts (wh1 ++ (w, h) :: wh2) = returned_parts wh1 ++ returned_parts wh2.
Proof. intros Hne. rewrite returned_parts_app. by destruct w. Qed.

Lemma returned_parts_returned wh1 (h : list T) wh2 :
  returned_parts (wh1 ++ (AReturned, h) :: wh2)
  = returned_parts wh1 ++ h :: returned_parts wh2.
Proof. by rewrite returned_parts_app. Qed.

Lemma returned_parts_all wh :
  Forall (λ w, w = AReturned) wh.*1 → returned_parts wh = wh.*2.
Proof.
  induction wh as [|[w h] wh IH]; [done|]. rewrite fmap_cons, Forall_cons.
  intros [Hw Hall]. cbn in Hw. subst w. cbn. f_equal. by apply IH.
Qed.

Lemma returned_parts_length wh : (length (returned_parts wh) ≤ length wh)%nat.
Proof.
  induction wh as [|[w h] wh IH]; [done|].
  unfold returned_parts in *. cbn. destruct w; cbn; lia.
Qed.

Lemma returned_parts_elem wh (part : list T) :
  part ∈ returned_parts wh → ∃ w, (w, part) ∈ wh.
Proof.
  unfold returned_parts. rewrite list_elem_of_omap. intros ([w h] & Hin & Hsome).
  destruct w; try done. cbn in Hsome. injection Hsome as ->. by exists AReturned.
Qed.

Lemma running_mid ws1 ws2 (w w' x : accumulating R) :
  (∃ res, w' = AAtInput res) → x ∈ ws1 ++ w' :: ws2 → (∀ res, x ≠ AAtInput res) →
  x ∈ ws1 ++ w :: ws2.
Proof.
  intros [res ->]. rewrite !elem_of_app, !elem_of_cons.
  intros [?|[->|?]] Hx; [tauto| |tauto]. by destruct (Hx res).
Qed.

Lemma some_running ws1 ws2 (w : accumulating R) :
  w ≠ AReturned → ¬ Forall (λ w, w = AReturned) (ws1 ++ w :: ws2).
Proof.
  intros Hne Hall. rewrite Forall_app, Forall_cons in Hall. tauto.
Qed.

(** What holds in every state the pool reaches: [wh] gives each
    worker the values it has received, in the order it received
    them. *)
Lemma Accumulate_invariant s :
  rtc (moves step) start s →
  input_closes s = e0 ∧
  (result_closed s = true → Forall (λ w, w = AReturned) (workers s)) ∧
  (ctx_done s = false → (∃ w, w ∈ workers s ∧ ∀ res, w ≠ AAtInput res) →
   input s = [] ∧ input_closes s = true) ∧
  ∃ wh consumed,
    workers s = wh.*1 ∧ length wh = Z.to_nat n ∧
    vs0 = consumed ++ input s ∧
    concat wh.*2 ≡ₚ consumed ∧
    Forall (λ p, sublist p.2 consumed) wh ∧
    Forall (agrees accumulator) wh ∧
    ∃ sent,
      results s = accumulated accumulator zero <$> sent ∧
      sent ⊆+ returned_parts wh ∧
      (ctx_done s = false → sent ≡ₚ returned_parts wh).
Proof.
  revert s. apply rtc_ind_r.
  - unfold Accumulate_start.
    cbn [workers input input_closes ctx_done results result_closed].
    split_and!; [done|done| |].
    + intros _ (w & Hin & Hw). apply elem_of_replicate in Hin as [-> _].
      by destruct (Hw zero).
    + exists (replicate (Z.to_nat n) (AAtInput zero, [])), [].
      split_and!.
      * by rewrite fmap_replicate.
      * by rewrite length_replicate.
      * done.
      * induction (Z.to_nat n); [done|]. done.
      * apply Forall_replicate. done.
      * apply Forall_replicate. done.
      * exists []. split_and!; [done|apply submseteq_nil_l|].
        intros _. induction (Z.to_nat n); [done|]. done.
  - intros s1 s _ Hmove (He & Hcl & Hrun & wh & cs & Hws & Hlen & Hvs & Hcat & Hsub & Hagr
                           & sent & Hrs & Hle & Heq).
    destruct Hmove as [Hstep|Hcancel].
    + destruct Hstep; cbn [workers input input_closes ctx_done results result_closed] in *.
      * (* receive *)
        symmetry in Hws. apply with_parts_split in Hws as (wh1 & h & wh2 & -> & <- & <-).
        split_and!; [done| | |].
        { intros Hc. by destruct (some_running _ _ (AAtInput res) ltac:(done) (Hcl Hc)). }
        { intros Hd (x & Hin & Hx).
          apply (running_mid _ _ (AAtInput res)) in Hin; [|by eexists|done].
          by destruct (Hrun Hd (ex_intro _ x (conj Hin Hx))). }
        exists (wh1 ++ (AAtInput (accumulator v res), h ++ [v]) :: wh2), (cs ++ [v]).
        rewrite !Forall_app, !Forall_cons in *.
        destruct Hsub as (Hs1 & Hs & Hs2). destruct Hagr as (Ha1 & Ha & Ha2).
        split_and!.
        -- by rewrite !fmap_app, !fmap_cons.
        -- by rewrite length_app in *.
        -- by rewrite <- app_assoc.
        -- rewrite <- Hcat. rewrite !fmap_app, !fmap_cons, !concat_app, !concat_cons.
           cbn [snd]. moved.
        -- eapply Forall_impl; [exact Hs1|]. intros p Hp. by apply sublist_inserts_r.
        -- cbn [snd] in *. by apply sublist_app.
        -- eapply Forall_impl; [exact Hs2|]. intros p Hp. by apply sublist_inserts_r.
        -- done.
        -- unfold agrees in *. cbn [fst snd] in *. by rewrite accumulated_snoc, <- Ha.
        -- done.
        -- exists sent. by rewrite returned_parts_running in * by done.
      * (* input closed *)
        symmetry in Hws. apply with_parts_split in Hws as (wh1 & h & wh2 & -> & <- & <-).
        split_and!; [done| |done|].
        { intros Hc. by destruct (some_running _ _ (AAtInput res) ltac:(done) (Hcl Hc)). }
        exists (wh1 ++ (AAtResult res, h) :: wh2), cs.
        rewrite !Forall_app, !Forall_cons in *.
        rewrite !fmap_app, !fmap_cons, !length_app in *.
        rewrite returned_parts_running in * by done.
        split_and!; try done; try tauto. by exists sent.
      * (* done at the outer select *)
        symmetry in Hws. apply with_parts_split in Hws as (wh1 & h & wh2 & -> & <- & <-).
        split_and!; [done| |done|].
        { intros Hc. by destruct (some_running _ _ (AAtInput res) ltac:(done) (Hcl Hc)). }
        exists (wh1 ++ (AReturned, h) :: wh2), cs.
        rewrite !Forall_app, !Forall_cons in *.
        rewrite !fmap_app, !fmap_cons, !length_app in *.
        rewrite returned_parts_running in Hle by done.
        rewrite returned_parts_returned.
        split_and!; try done; try tauto.
        exists sent. split_and!; [done| |done].
        etrans; [exact Hle|]. apply submseteq_app; [done|]. by apply submseteq_cons.
      * (* send *)
        symmetry in Hws. apply with_parts_split in Hws as (wh1 & h & wh2 & -> & <- & <-).
        split_and!; [done|done| |].
        { intros Hd _. apply Hrun; [done|]. exists (AAtResult res). split; [|done].
          rewrite elem_of_app, elem_of_cons. tauto. }
        exists (wh1 ++ (AReturned, h) :: wh2), cs.
        rewrite !Forall_app, !Forall_cons in *.
        rewrite !fmap_app, !fmap_cons, !length_app in *.
        rewrite returned_parts_running in * by done.
        rewrite returned_parts_returned.
        destruct Hagr as (Ha1 & Ha & Ha2). unfold agrees in Ha. cbn [fst snd] in Ha.
        split_and!; try done; try tauto.
        exists (sent ++ [h]). split_and!.
        -- by rewrite fmap_app, Hrs, Ha.
        -- rewrite <- Permutation_cons_append, <- Permutation_middle.
           by apply submseteq_skip.
        -- intros Hd.
           by rewrite <- Permutation_cons_append, <- Permutation_middle, <- (Heq Hd).
      * (* done at the inner select *)
        symmetry in Hws. apply with_parts_split in Hws as (wh1 & h & wh2 & -> & <- & <-).
        split_and!; [done| |done|].
        { intros Hc. by destruct (some_running _ _ (AAtResult res) ltac:(done) (Hcl Hc)). }
        exists (wh1 ++ (AReturned, h) :: wh2), cs.
        rewrite !Forall_app, !Forall_cons in *.
        rewrite !fmap_app, !fmap_cons, !length_app in *.
        rewrite returned_parts_running in Hle by done.
        rewrite returned_parts_returned.
        split_and!; try done; try tauto.
        exists sent. split_and!; [done| |done].
        etrans; [exact Hle|]. apply submseteq_app; [done|]. by apply submseteq_cons.
      * (* close *)
        split_and!; try done. exists wh, cs. split_and!; try done. by exists sent.
    + destruct Hcancel; cbn [workers input input_closes ctx_done results result_closed] in *.
      split_and!; try done. exists wh, cs. split_and!; try done. by exists sent.
Qed.

Lemma concat_submseteq (parts parts' : list (list T)) :
  parts ⊆+ parts' → concat parts ⊆+ concat parts'.
Proof.
  induction 1 as [|part ps ps' _ IH|p1 p2 ps|part ps ps' _ IH|ps1 ps2 ps3 _ IH1 _ IH2].
  - done.
  - cbn. by apply submseteq_app.
  - cbn. rewrite !app_assoc. apply submseteq_app; [|done].
    apply Permutation_submseteq, Permutation_app_comm.
  - cbn. by apply submseteq_inserts_l.
  - by etrans.
Qed.

Lemma concat_perm (parts parts' : list (list T)) :
  parts ≡ₚ parts' → concat parts ≡ₚ concat parts'.
Proof.
  intros Hperm. apply (anti_symm submseteq); apply concat_submseteq.
  - by rewrite Hperm.
  - by rewrite Hperm.
Qed.

Lemma returned_parts_submseteq wh : returned_parts wh ⊆+ wh.*2.
Proof.
  induction wh as [|[w h] wh IH]; [done|]. unfold returned_parts in *.
  destruct w; cbn; [by apply submseteq_cons..|by apply submseteq_skip].
Qed.


(** When none of the goroutines of [Accumulate] can take a step,
    and [input] was closed or the context is done, every worker has
    returned and [result] is closed.  If the context is not done
    and there is a worker, the reader has then received one result
    of each worker, and the values these results were accumulated
    from are, together, the values that came through [input]. *)
Theorem Accumulate_rest s :
  rtc (moves step) start s → at_rest step s →
  ctx_done s = true ∨ e0 = true →
  Forall (λ w, w = AReturned) (workers s) ∧ result_closed s = true ∧
  (ctx_done s = false → 0 < n →
   ∃ parts,
     results s = accumulated accumulator zero <$> parts ∧
     length parts = Z.to_nat n ∧
     Forall (λ part, sublist part vs0) parts ∧
     concat parts ≡ₚ vs0).
Proof.
  intros Hreach Hrest Hends.
  destruct (Accumulate_invariant s Hreach)
    as (He & Hcl & Hrun & wh & cs & Hws & Hlen & Hvs & Hcat & Hsub & _
        & sent & Hrs & _ & Heq).
  destruct s as [ws vs e d rs c].
  cbn [workers input input_closes ctx_done results result_closed] in *. subst e.
  assert (Forall (λ w, w = AReturned) ws) as Hall.
  { apply Forall_forall. intros w Hw.
    apply list_elem_of_split in Hw as (ws1 & ws2 & Hsplit). rewrite Hsplit in *.
    destruct w as [res|res|]; [| |done]; exfalso.
    - destruct d.
      + eapply Hrest. apply A_done_at_input.
      + destruct Hends as [?| He]; [done|]. rewrite He in *. destruct vs as [|v vs].
        * eapply Hrest. apply A_input_closed.
        * eapply Hrest. apply A_receive.
    - destruct c.
      + by destruct (some_running _ _ (AAtResult res) ltac:(done) (Hcl eq_refl)).
      + eapply Hrest. apply A_send. }
  split; [done|]. split.
  - destruct c; [done|]. exfalso. eapply Hrest. by apply A_close.
  - intros -> Hn.
    assert (∃ w, w ∈ ws ∧ ∀ res, w ≠ AAtInput res) as Hin.
    { destruct ws as [|w ws]; [apply (f_equal length) in Hws; rewrite length_fmap in Hws;
                               simpl in Hws; lia|].
      apply Forall_cons in Hall as [-> _]. exists AReturned. split; [by left|done]. }
    destruct (Hrun eq_refl Hin) as [-> _]. rewrite app_nil_r in Hvs. subst cs.
    rewrite Hws in Hall. specialize (Heq eq_refl).
    rewrite (returned_parts_all _ Hall) in Heq.
    exists sent. split_and!.
    + done.
    + by rewrite Heq, length_fmap.
    + rewrite Heq. by apply Forall_fmap.
    + by rewrite (concat_perm _ _ Heq).
Qed.

(** Once the context is done, the workers may all return at the
    outer [select] and [result] be closed with nothing taken from
    [input]: what feeds [input] is then still at work. *)
Lemma Accumulate_cancelled_closes :
  rtc (moves step) start
    (mkPool (replicate (Z.to_nat n) AReturned) vs0 e0 true [] true).
Proof.
  unfold Accumulate_start.
  eapply rtc_l; [right; apply cancel_ctx|].
  assert (∀ k j,
            rtc (moves step)
              (mkPool (replicate j AReturned ++ replicate k (AAtInput zero))
                 vs0 e0 true [] false)
              (mkPool (replicate (j + k) AReturned) vs0 e0 true [] false)) as Hall.
  { induction k as [|k IH]; intros j.
    - rewrite app_nil_r, Nat.add_0_r. apply rtc_refl.
    - eapply rtc_l.
      + left. cbn [replicate]. apply A_done_at_input.
      + specialize (IH (S j)). rewrite replicate_S_end, <- app_assoc in IH.
        cbn [app] in IH. by replace (j + S k)%nat with (S j + k)%nat by lia. }
  etrans; [exact (Hall (Z.to_nat n) 0%nat)|].
  eapply rtc_l; [|apply rtc_refl]. left. apply A_close.
  by apply Forall_replicate.
Qed.

(** What a state has still to do, in steps. *)
Lemma Accumulate_measure s s' :
  moves step s s' →
  (length (input s') + sum_list_with
     (λ w, match w with AAtInput _ => 2 | AAtResult _ => 1 | AReturned => 0 end)
     (workers s')
   + (if result_closed s' then 0 else 1) + (if ctx_done s' then 0 else 1)
   < length (input s) + sum_list_with
       (λ w, match w with AAtInput _ => 2 | AAtResult _ => 1 | AReturned => 0 end)
       (workers s)
     + (if result_closed s then 0 else 1) + (if ctx_done s then 0 else 1))%nat.
Proof.
  intros [Hstep|Hcancel].
  - destruct Hstep; cbn [workers input input_closes ctx_done results result_closed];
      rewrite ?sum_list_with_app; cbn [sum_list_with length]; lia.
  - destruct Hcancel. cbn [workers input input_closes ctx_done results result_closed].
    lia.
Qed.

(** The goroutines of [Accumulate] take at most
    [len(input) + 2 * workers + 2] steps, the cancelling of the
    context counted: none of them runs for ever. *)
Theorem Accumulate_bounded (k : nat) s :
  nsteps (moves step) k start s →
  (k ≤ length vs0 + 2 * Z.to_nat n + 2)%nat.
Proof.
  intros Hrun.
  assert (∀ j s1 s2, nsteps (moves step) j s1 s2 →
            (j + (length (input s2) + sum_list_with
                    (λ w, match w with
                          | AAtInput _ => 2 | AAtResult _ => 1 | AReturned => 0
                          end) (workers s2)
                  + (if result_closed s2 then 0 else 1)
                  + (if ctx_done s2 then 0 else 1))
             ≤ length (input s1) + sum_list_with
                 (λ w, match w with
                       | AAtInput _ => 2 | AAtResult _ => 1 | AReturned => 0
                       end) (workers s1)
               + (if result_closed s1 then 0 else 1)
               + (if ctx_done s1 then 0 else 1))%nat) as Hdown.
  { clear. intros j s1 s2 Hj. induction Hj as [|j s1 s2 s3 Hmove _ IH]; [lia|].
    pose proof (Accumulate_measure _ _ Hmove). lia. }
  specialize (Hdown _ _ _ Hrun). unfold Accumulate_start in Hdown.
  cbn [workers input input_closes ctx_done results result_closed] in Hdown.
  assert (sum_list_with
            (λ w : accumulating R,
               match w with AAtInput _ => 2 | AAtResult _ => 1 | AReturned => 0 end)
            (replicate (Z.to_nat n) (AAtInput zero)) = 2 * Z.to_nat n)%nat as Hsum.
  { clear. induction (Z.to_nat n) as [|m IH]; [done|].
    cbn [replicate sum_list_with]. rewrite IH. lia. }
  rewrite Hsum in Hdown. lia.
Qed.

End Accumulate.

Section List.
Context {T : Type}.
Variable searcher : T → list T.
Variable n : Z.
Variable start : T.
Local Abbreviation step := (List_step n searcher).
Local Abbreviation moves := (List_moves n searcher).
Implicit Types (s : levels (T := T)) (ws : list (searching (T := T))).

Lemma held_children_app ws1 ws2 :
  held_children (ws1 ++ ws2) = held_children ws1 ++ held_children ws2.
Proof. apply bind_app. Qed.

Lemma held_children_mid ws1 (w : searching) ws2 :
  held_children (ws1 ++ w :: ws2)
  = held_children ws1 ++ match w with LAtResult r => r | _ => [] end
    ++ held_children ws2.
Proof. by rewrite held_children_app. Qed.

Lemma held_children_returned ws :
  Forall (λ w, w = LReturned) ws → held_children ws = [].
Proof. induction 1 as [|w ws -> _ IH]; [done|]. exact IH. Qed.

Lemma held_children_start : held_children (replicate (Z.to_nat n) (LAtInput (T := T))) = [].
Proof. induction (Z.to_nat n) as [|m IH]; [done|]. exact IH. Qed.

Lemma children_of_snoc (vs : list T) (v : T) :
  children_of searcher (vs ++ [v]) = children_of searcher vs ++ searcher v.
Proof. unfold children_of. rewrite bind_app. cbn. by rewrite app_nil_r. Qed.

Lemma searching_on ws1 ws2 (w : searching (T := T)) :
  w ≠ LReturned → ¬ Forall (λ w, w = LReturned) (ws1 ++ w :: ws2).
Proof.
  intros Hne Hall. rewrite Forall_app, Forall_cons in Hall. tauto.
Qed.

Lemma returned_among ws1 ws2 (w w' : searching (T := T)) :
  w' ≠ LReturned → LReturned ∈ ws1 ++ w' :: ws2 → LReturned ∈ ws1 ++ w :: ws2.
Proof.
  intros Hne. rewrite !elem_of_app, !elem_of_cons. intros [?|[?|?]]; [tauto| |tauto].
  by destruct Hne.
Qed.

Lemma returned_or_not ws :
  Forall (λ w, w = LReturned) ws ∨ ∃ ws1 w ws2, ws = ws1 ++ w :: ws2 ∧ w ≠ LReturned.
Proof.
  induction ws as [|w ws [IH|(ws1 & w' & ws2 & -> & Hw)]]; [by left| |].
  - destruct w; [right; by exists [], LAtInput, ws
                |right; by exists [], (LAtResult children), ws
                |left; by constructor].
  - right. by exists (w :: ws1), w', ws2.
Qed.

(** What holds in every state [List] reaches. *)
Lemma List_invariant s :
  rtc moves (List_start n start) s →
  length (searchers s) = Z.to_nat n ∧
  (∃ dropped,
     start :: children_of searcher (searched s)
     ≡ₚ searched s ++ pending (feeder s) ++ newData s ++ held_children (searchers s)
        ++ dropped ∧
     (done s = false → 0 < n → dropped = [])) ∧
  (closed s = true → Forall (λ w, w = LReturned) (searchers s)) ∧
  (done s = false → LReturned ∈ searchers s → feeder s = None) ∧
  (returned s = true → done s = true ∨ (closed s = true ∧ newData s = [])).
Proof.
  revert s. apply rtc_ind_r.
  - unfold List_start. cbn [searchers feeder done newData closed returned searched].
    split_and!; [by rewrite length_replicate| |done| |done].
    + exists []. by rewrite held_children_start.
    + intros _ Hin. apply elem_of_replicate in Hin as [? _]. done.
  - intros s1 s _ Hmove (Hlen & (dr & Hperm & Hdr) & Hcl & Hret & Hout).
    destruct Hmove as [Hstep|Hcancel].
    + destruct Hstep; cbn [searchers feeder done newData closed returned searched pending
                             default from_option id] in *.
      * (* feed *)
        split_and!; [by rewrite length_app in *| | | |done].
        -- exists dr. split; [|done]. rewrite children_of_snoc.
           rewrite held_children_mid in *.
           rewrite (app_comm_cons _ _ start), Hperm. shuffled.
        -- intros Hc. by destruct (searching_on _ _ LAtInput ltac:(done) (Hcl Hc)).
        -- intros Hd Hin. apply (returned_among _ _ LAtInput) in Hin; [|done].
           by specialize (Hret Hd Hin).
      * (* fed *)
        split_and!; try done. by exists dr.
      * (* the feeder sees the context done *)
        split_and!; try done. exists (vs ++ dr). split; [|done].
        rewrite Hperm. shuffled.
      * (* input closed *)
        split_and!; [by rewrite length_app in *| | |done|done].
        -- exists dr. split; [|done]. by rewrite held_children_mid in *.
        -- intros Hc. by destruct (searching_on _ _ LAtInput ltac:(done) (Hcl Hc)).
      * (* done at the outer select *)
        split_and!; [by rewrite length_app in *| | |done|done].
        -- exists dr. split; [|done]. by rewrite held_children_mid in *.
        -- intros Hc. by destruct (searching_on _ _ LAtInput ltac:(done) (Hcl Hc)).
      * (* send *)
        split_and!; [by rewrite length_app in *| |done| |done].
        -- exists dr. split; [|done]. rewrite held_children_mid in *.
           rewrite Hperm. shuffled.
        -- intros Hd Hin. apply (returned_among _ _ (LAtResult r)) in Hin; [|done].
           by apply Hret.
      * (* done at the inner select *)
        split_and!; [by rewrite length_app in *| | |done|done].
        -- exists (r ++ dr). split; [|done]. rewrite held_children_mid in *.
           rewrite Hperm. shuffled.
        -- intros Hc. by destruct (searching_on _ _ (LAtResult r) ltac:(done) (Hcl Hc)).
      * (* close *)
        split_and!; try done; [by exists dr|].
        intros Hr. destruct (Hout Hr) as [?|[? _]]; [by left|done].
      * (* List sees the context done *)
        split_and!; try done; [by exists dr|by left].
      * (* List returns *)
        split_and!; try done; [by exists dr|by right].
      * (* the next level *)
        split_and!; [by rewrite length_replicate| |done| |done].
        -- rewrite (held_children_returned _ (Hcl eq_refl)) in Hperm.
           rewrite held_children_start.
           exists (pending fd ++ dr). split.
           ++ rewrite Hperm. shuffled.
           ++ intros Hd Hn. rewrite (Hdr Hd Hn), app_nil_r.
              assert (LReturned ∈ ws) as Hin.
              { specialize (Hcl eq_refl). destruct ws as [|w ws]; [simpl in Hlen; lia|].
                apply Forall_cons in Hcl as [-> _]. by left. }
              by rewrite (Hret Hd Hin).
        -- intros _ Hin. apply elem_of_replicate in Hin as [? _]. done.
    + destruct Hcancel; cbn [searchers feeder done newData closed returned searched] in *.
      split_and!; try done; [by exists dr|by left].
Qed.

Lemma prefix_snoc_inv (p l : list T) (x : T) :
  p `prefix_of` l ++ [x] → p = l ++ [x] ∨ p `prefix_of` l.
Proof.
  intros [k Hk]. destruct k as [|y k _] using rev_ind.
  - left. by rewrite app_nil_r in Hk.
  - right. rewrite app_assoc in Hk. apply app_inj_tail in Hk as [-> _].
    by exists k.
Qed.

(** Each call of [searcher] is on [start] or on a child that a
    call before it gave, and no value is searched more often than
    it was given: with [calls] the arguments of the calls before
    a call on [v], in their order, [calls] and [v] together are
    among [start] and the children of [calls], each counted as
    often as it is there. *)
Theorem List_searches s (calls : list T) (v : T) :
  rtc moves (List_start n start) s → calls ++ [v] `prefix_of` searched s →
  calls ++ [v] ⊆+ start :: children_of searcher calls.
Proof.
  intros Hreach. revert calls v. revert s Hreach.
  apply (rtc_ind_r (λ s, ∀ calls v, calls ++ [v] `prefix_of` searched s →
                           calls ++ [v] ⊆+ start :: children_of searcher calls)).
  - intros calls v Hp. apply prefix_nil_inv in Hp. by destruct calls.
  - intros s1 s Hreach Hmove IH calls v Hp.
    destruct (List_invariant s1 Hreach) as (_ & (dr & Hperm & _) & _).
    destruct Hmove as [Hstep|Hcancel].
    + destruct Hstep; cbn [searched feeder pending default from_option id] in *;
        try (by apply IH).
      apply prefix_snoc_inv in Hp as [Heq|Hp]; [|by apply IH].
      apply app_inj_tail in Heq as [-> ->].
      rewrite Hperm, <- ?app_assoc. cbn [app].
      apply submseteq_app; [done|]. apply submseteq_skip, submseteq_nil_l.
    + destruct Hcancel; cbn [searched] in *. by apply IH.
Qed.

(** When [List] has returned and the context is not done, with a
    worker at least, [searcher] was called once on [start] and
    once on every child any of its calls gave, and on nothing
    else; every worker of the last level has returned. *)
Theorem List_returns s :
  rtc moves (List_start n start) s →
  returned s = true → done s = false → 0 < n →
  searched s ≡ₚ start :: children_of searcher (searched s) ∧
  Forall (λ w, w = LReturned) (searchers s).
Proof.
  intros Hreach Hr Hd Hn.
  destruct (List_invariant s Hreach) as (Hlen & (dr & Hperm & Hdr) & Hcl & Hret & Hout).
  destruct (Hout Hr) as [Hd'|[Hc Hnd]]; [congruence|].
  specialize (Hcl Hc). split; [|done].
  assert (LReturned ∈ searchers s) as Hin.
  { destruct (searchers s) as [|w ws]; [simpl in Hlen; lia|].
    apply Forall_cons in Hcl as [-> _]. by left. }
  rewrite (Hret Hd Hin), Hnd, (held_children_returned _ Hcl), (Hdr Hd Hn) in Hperm.
  cbn [pending default from_option app] in Hperm. by rewrite !app_nil_r in Hperm.
Qed.

(** As long as [List] has not returned, one of its goroutines can
    take a step: [List] is never stuck, whatever the context,
    the number of workers and [searcher]. *)
Theorem List_not_stuck s :
  rtc moves (List_start n start) s → returned s = false → ∃ s', step s s'.
Proof.
  intros Hreach Hr.
  destruct (List_invariant s Hreach) as (_ & _ & Hcl & _ & _).
  destruct s as [ws fd d nd c ret tr].
  cbn [searchers feeder done newData closed returned searched] in *. subst ret.
  destruct c.
  - destruct nd as [|v nd]; [eexists; apply L_return|]. eexists. by apply L_next.
  - destruct (returned_or_not ws) as [Hall|(ws1 & w & ws2 & -> & Hw)].
    + eexists. by apply L_close.
    + destruct w as [|r|]; [|eexists; apply L_send|done].
      destruct fd as [[|v vs]|].
      * eexists. apply L_fed.
      * eexists. apply L_feed.
      * eexists. apply L_input_closed.
Qed.

(** With no worker, [searcher] is never called, not even on
    [start]. *)
Theorem List_no_workers s :
  n ≤ 0 → rtc moves (List_start n start) s → searched s = [] ∧ newData s = [].
Proof.
  intros Hn Hreach.
  assert (searchers s = [] ∧ searched s = [] ∧ newData s = []) as (_ & ? & ?); [|done].
  revert s Hreach. apply rtc_ind_r.
  - unfold List_start. by replace (Z.to_nat n) with 0%nat by lia.
  - intros s1 s _ Hmove (Hws & Htr & Hnd). destruct Hmove as [Hstep|Hcancel].
    + destruct Hstep; cbn [searchers searched newData] in *;
        try (by destruct ws1); done.
    + by destruct Hcancel.
Qed.

End List.

Lemma transformed_run :
  nsteps (moves (Transform_step Z.succ)) 4 (Transform_start 1 [5] true) transformed.
Proof.
  eapply nsteps_l; [left; apply (T_receive _ [] [])|].
  eapply nsteps_l; [left; apply (T_send _ [] [])|].
  eapply nsteps_l; [left; apply (T_input_closed _ [] [])|].
  eapply nsteps_l; [left; apply T_close; by repeat constructor|].
  apply nsteps_O.
Qed.

Lemma transformed_rests : at_rest (Transform_step Z.succ) transformed.
Proof.
  intros s' Hs. unfold transformed in Hs.
  inversion Hs; subst;
    match goal with
    | H : ?ws1 ++ _ :: _ = [TReturned] |- _ => by destruct ws1 as [|? [|? ?]]
    end.
Qed.

Lemma Transform_delivers_witness :
  rtc (moves (Transform_step Z.succ)) (Transform_start 1 [5] true) transformed ∧
  ∃ dropped, Z.succ <$> [5] ≡ₚ [6] ++ [] ++ dropped ++ [] ∧ dropped = [].
Proof.
  pose proof (rtc_nsteps_2 _ _ _ transformed_run) as Hreach.
  destruct (Transform_delivers Z.succ 1 [5] true transformed Hreach)
    as ((dropped & Hperm & Hnone) & _).
  exact (conj Hreach (ex_intro _ dropped (conj Hperm (Hnone eq_refl)))).
Defined.

Lemma Transform_rest_witness :
  rtc (moves (Transform_step Z.succ)) (Transform_start 1 [5] true) transformed ∧
  at_rest (Transform_step Z.succ) transformed ∧
  results transformed ≡ₚ Z.succ <$> [5].
Proof.
  pose proof (rtc_nsteps_2 _ _ _ transformed_run) as Hreach.
  destruct (Transform_rest Z.succ 1 [5] true transformed Hreach transformed_rests
              (or_intror eq_refl)) as (_ & _ & Hall).
  exact (conj Hreach (conj transformed_rests (Hall eq_refl eq_refl))).
Defined.

Lemma Transform_bounded_witness :
  nsteps (moves (Transform_step Z.succ)) 4 (Transform_start 1 [5] true) transformed ∧
  (4 ≤ 2 * length [5] + 2 * Z.to_nat 1 + 2)%nat.
Proof.
  exact (conj transformed_run
           (Transform_bounded Z.succ 1 [5] true 4 transformed transformed_run)).
Defined.

Lemma summed_run :
  nsteps (moves (Accumulate_step Z.add)) 5 (Accumulate_start 1 [5; 7] true) summed.
Proof.
  eapply nsteps_l; [left; apply (A_receive _ [] [])|].
  eapply nsteps_l; [left; apply (A_receive _ [] [])|].
  eapply nsteps_l; [left; apply (A_input_closed _ [] [])|].
  eapply nsteps_l; [left; apply (A_send _ [] [])|].
  eapply nsteps_l; [left; apply A_close; by repeat constructor|].
  apply nsteps_O.
Qed.

Lemma summed_rests : at_rest (Accumulate_step Z.add) summed.
Proof.
  intros s' Hs. unfold summed in Hs.
  inversion Hs; subst;
    match goal with
    | H : ?ws1 ++ _ :: _ = [AReturned] |- _ => by destruct ws1 as [|? [|? ?]]
    end.
Qed.


Lemma Accumulate_rest_witness :
  rtc (moves (Accumulate_step Z.add)) (Accumulate_start 1 [5; 7] true) summed ∧
  at_rest (Accumulate_step Z.add) summed ∧
  ∃ parts, results summed = accumulated Z.add 0 <$> parts ∧ concat parts ≡ₚ [5; 7].
Proof.
  pose proof (rtc_nsteps_2 _ _ _ summed_run) as Hreach.
  destruct (Accumulate_rest Z.add 1 [5; 7] true summed Hreach summed_rests
              (or_intror eq_refl)) as (_ & _ & Hall).
  destruct (Hall eq_refl eq_refl) as (parts & Hrs & _ & _ & Hperm).
  exact (conj Hreach (conj summed_rests (ex_intro _ parts (conj Hrs Hperm)))).
Defined.

Lemma Accumulate_bounded_witness :
  nsteps (moves (Accumulate_step Z.add)) 5 (Accumulate_start 1 [5; 7] true) summed ∧
  (5 ≤ length [5; 7] + 2 * Z.to_nat 1 + 2)%nat.
Proof.
  exact (conj summed_run (Accumulate_bounded Z.add 1 [5; 7] true 5 summed summed_run)).
Defined.

Lemma listed_run : rtc (List_moves 1 below) (List_start 1 1) listed.
Proof.
  eapply rtc_l; [left; apply (L_feed _ _ [] [])|].
  eapply rtc_l; [left; apply (L_send _ _ [] [])|].
  eapply rtc_l; [left; apply L_fed|].
  eapply rtc_l; [left; apply (L_input_closed _ _ [] [])|].
  eapply rtc_l; [left; apply L_close; by repeat constructor|].
  eapply rtc_l; [left; by apply L_next|].
  eapply rtc_l; [left; apply (L_feed _ _ [] [])|].
  eapply rtc_l; [left; apply (L_send _ _ [] [])|].
  eapply rtc_l; [left; apply L_fed|].
  eapply rtc_l; [left; apply (L_input_closed _ _ [] [])|].
  eapply rtc_l; [left; apply L_close; by repeat constructor|].
  eapply rtc_l; [left; apply L_return|].
  apply rtc_refl.
Qed.

Lemma List_searches_witness :
  rtc (List_moves 1 below) (List_start 1 1) listed ∧
  [1] ++ [2] `prefix_of` searched listed ∧
  [1] ++ [2] ⊆+ 1 :: children_of below [1].
Proof.
  assert ([1] ++ [2] `prefix_of` searched listed) as Hp by reflexivity.
  exact (conj listed_run (conj Hp (List_searches below 1 1 listed [1] 2 listed_run Hp))).
Defined.

Lemma List_returns_witness :
  rtc (List_moves 1 below) (List_start 1 1) listed ∧
  searched listed ≡ₚ 1 :: children_of below (searched listed).
Proof.
  destruct (List_returns below 1 1 listed listed_run eq_refl eq_refl eq_refl) as [Hperm _].
  exact (conj listed_run Hperm).
Defined.

Lemma List_not_stuck_witness :
  rtc (List_moves 1 below) (List_start 1 1) (List_start 1 1) ∧
  ∃ s', List_step 1 below (List_start 1 1) s'.
Proof.
  exact (conj (rtc_refl _ _)
           (List_not_stuck below 1 1 (List_start 1 1) (rtc_refl _ _) eq_refl)).
Defined.

Lemma List_no_workers_witness :
  rtc (List_moves 0 below) (List_start 0 1)
    (mkLevels [] (Some [1]) false [] true true []) ∧
  searched (mkLevels (T := Z) [] (Some [1]) false [] true true []) = [].
Proof.
  assert (rtc (List_moves 0 below) (List_start 0 1)
            (mkLevels [] (Some [1]) false [] true true [])) as Hreach.
  { eapply rtc_l; [left; apply L_close; by constructor|].
    eapply rtc_l; [left; apply L_return|]. apply rtc_refl. }
  destruct (List_no_workers below 0 1 _ ltac:(lia) Hreach) as [Htr _].
  exact (conj Hreach Htr).
Defined.

End workerpool_facts.
